(** * The Ollama agent loop of codex-cli: a shallow embedding

    Sources embedded here:
    - [codex-cli/src/utils/ollama-client.ts]
    - [codex-cli/src/utils/agent/ollama-agent-loop.ts]
    - [codex-cli/src/utils/model-utils.ts] and the model picker that reads
      its list
    - [getBaseCmd] of [codex-cli/src/utils/agent/exec.ts]

    JavaScript strings are sequences of UTF-16 code units; they are modelled
    as lists of code units so that the regular expressions of the source,
    [trim], [split] and [startsWith] act on them exactly as the engine does
    (none of the regular expressions carries the [u] flag). *)

From Stdlib Require Import String Ascii.
From Stdlib Require Import List NArith ZArith Bool Arith Lia Sorted Permutation.
Import ListNotations.

Set Implicit Arguments.

(* ================================================================= *)
(** ** JavaScript string primitives *)

Module Text.

(** A UTF-16 code unit. *)
Definition unit16 := N.
Definition text := list unit16.

(** An ASCII literal of the source, as code units. *)
Definition lit (s : string) : text :=
  List.map N_of_ascii (list_ascii_of_string s).

Definition eqb (a b : text) : bool :=
  if list_eq_dec N.eq_dec a b then true else false.

(** [s.startsWith(p)] *)
Fixpoint startsWith (s p : text) : bool :=
  match p, s with
  | [], _ => true
  | _ :: _, [] => false
  | c :: p', d :: s' => N.eqb c d && startsWith s' p'
  end.

(** [s.substring(n)] for a non-negative [n]: indices beyond the end are
    clamped to the length. *)
Definition substring_from (n : nat) (s : text) : text := skipn n s.

(** [s.substring(a, b)] for [0 <= a <= b]. *)
Definition substring (a b : nat) (s : text) : text :=
  firstn (b - a) (skipn a s).

(** The code units that [\s] matches and that [trim] strips: WhiteSpace
    and LineTerminator of ECMAScript. *)
Definition is_space (c : unit16) : bool :=
  (N.eqb c 9 || N.eqb c 10 || N.eqb c 11 || N.eqb c 12 || N.eqb c 13
   || N.eqb c 32 || N.eqb c 160 || N.eqb c 5760
   || (N.leb 8192 c && N.leb c 8202)
   || N.eqb c 8232 || N.eqb c 8233 || N.eqb c 8239 || N.eqb c 8287
   || N.eqb c 12288 || N.eqb c 65279)%bool.

Fixpoint trimStart (s : text) : text :=
  match s with
  | c :: s' => if is_space c then trimStart s' else s
  | [] => []
  end.

Definition trimEnd (s : text) : text := rev (trimStart (rev s)).

(** [s.trim()] *)
Definition trim (s : text) : text := trimEnd (trimStart s).

(** [s.split(" ")]: the pieces between single separators; an empty
    input gives one empty piece. *)
Fixpoint split_on (sep : unit16) (s : text) : list text :=
  match s with
  | [] => [[]]
  | c :: s' =>
      if N.eqb c sep then [] :: split_on sep s'
      else match split_on sep s' with
           | piece :: pieces => (c :: piece) :: pieces
           | [] => [[c]]
           end
  end.

(** [s.replaceAll("-", "")], for a one-unit pattern and an empty
    replacement. *)
Definition remove_all (c : unit16) (s : text) : text :=
  filter (fun d => negb (N.eqb d c)) s.

(** [s.replace(/\\n/g, "\n")]: every backslash followed by [n], scanned
    left to right without overlap, becomes a line feed. *)
Fixpoint unescape_newlines (s : text) : text :=
  match s with
  | c :: ((d :: s'') as s') =>
      if (N.eqb c 92 && N.eqb d 110)%bool then 10%N :: unescape_newlines s''
      else c :: unescape_newlines s'
  | _ => s
  end.

(** A string is truthy when it is not empty. *)
Definition truthy (s : text) : bool :=
  match s with [] => false | _ :: _ => true end.

(** Decimal rendering of an integer inside a template literal. *)
Fixpoint dec_uint (u : Decimal.uint) : text :=
  match u with
  | Decimal.Nil => []
  | Decimal.D0 u' => 48%N :: dec_uint u'
  | Decimal.D1 u' => 49%N :: dec_uint u'
  | Decimal.D2 u' => 50%N :: dec_uint u'
  | Decimal.D3 u' => 51%N :: dec_uint u'
  | Decimal.D4 u' => 52%N :: dec_uint u'
  | Decimal.D5 u' => 53%N :: dec_uint u'
  | Decimal.D6 u' => 54%N :: dec_uint u'
  | Decimal.D7 u' => 55%N :: dec_uint u'
  | Decimal.D8 u' => 56%N :: dec_uint u'
  | Decimal.D9 u' => 57%N :: dec_uint u'
  end.

Definition dec_N (n : N) : text :=
  match n with
  | N0 => [48%N]
  | _ => dec_uint (N.to_uint n)
  end.

Definition dec_Z (z : Z) : text :=
  match z with
  | Z0 => [48%N]
  | Zpos p => dec_N (Npos p)
  | Zneg p => 45%N :: dec_N (Npos p)
  end.

End Text.

Import Text.

(* ================================================================= *)
(** ** Regular expressions with the backtracking order of ECMAScript

    Only the constructs that the regular expressions of the source use:
    literals, one-unit classes, sequence, ordered alternation, greedy and
    lazy iteration of a class, and numbered capture groups.  A match is
    searched by backtracking, alternatives and iteration counts being tried
    in the priority order of the language, so the first match found is the
    one the engine reports. *)

Module Regex.

Inductive re : Type :=
| Eps
| Lit (l : text)
| Cls (p : unit16 -> bool)
| Cat (a b : re)
| Alt (a b : re)
| StarG (p : unit16 -> bool)
| StarL (p : unit16 -> bool)
| Grp (n : nat) (r : re).

(** [r+] over a class, [(?:r)?], and a sequence of parts. *)
Definition PlusG (p : unit16 -> bool) : re := Cat (Cls p) (StarG p).
Definition Opt (r : re) : re := Alt r Eps.
Definition seq (rs : list re) : re := fold_right Cat Eps rs.

Definition any (c : unit16) : bool := true.
Definition ws : re := StarG is_space.

(** Capture groups 1 and 2 as offsets from the start of the match;
    [None] is an unset group. *)
Record Caps : Type := mkCaps
  { cap1 : option (nat * nat); cap2 : option (nat * nat) }.

Definition no_caps : Caps := mkCaps None None.

Definition set_cap (n : nat) (v : nat * nat) (c : Caps) : Caps :=
  match n with
  | 1 => mkCaps (Some v) (cap2 c)
  | 2 => mkCaps (cap1 c) (Some v)
  | _ => c
  end.

Fixpoint strip_prefix (l s : text) : option text :=
  match l, s with
  | [], _ => Some s
  | _ :: _, [] => None
  | c :: l', d :: s' => if N.eqb c d then strip_prefix l' s' else None
  end.

Section Backtrack.
Variable R : Type.

(** The continuation receives the rest of the input, the offset reached
    and the groups captured so far. *)
Definition cont := text -> nat -> Caps -> option R.

(** [p*]: as many units as possible first, then one fewer, ... *)
Fixpoint star_greedy (p : unit16 -> bool) (s : text) (pos : nat)
    (caps : Caps) (k : cont) : option R :=
  match s with
  | c :: s' =>
      if p c then
        match star_greedy p s' (S pos) caps k with
        | Some x => Some x
        | None => k s pos caps
        end
      else k s pos caps
  | [] => k s pos caps
  end.

(** [p*?]: as few units as possible first, then one more, ... *)
Fixpoint star_lazy (p : unit16 -> bool) (s : text) (pos : nat)
    (caps : Caps) (k : cont) : option R :=
  match k s pos caps with
  | Some x => Some x
  | None =>
      match s with
      | c :: s' => if p c then star_lazy p s' (S pos) caps k else None
      | [] => None
      end
  end.

Fixpoint run (r : re) (s : text) (pos : nat) (caps : Caps) (k : cont)
    : option R :=
  match r with
  | Eps => k s pos caps
  | Lit l =>
      match strip_prefix l s with
      | Some s' => k s' (pos + length l) caps
      | None => None
      end
  | Cls p =>
      match s with
      | c :: s' => if p c then k s' (S pos) caps else None
      | [] => None
      end
  | Cat a b => run a s pos caps (fun s' pos' caps' => run b s' pos' caps' k)
  | Alt a b =>
      match run a s pos caps k with
      | Some x => Some x
      | None => run b s pos caps k
      end
  | StarG p => star_greedy p s pos caps k
  | StarL p => star_lazy p s pos caps k
  | Grp n r' =>
      run r' s pos caps
        (fun s' pos' caps' => k s' pos' (set_cap n (pos, pos') caps'))
  end.
End Backtrack.

(** A match anchored at the head of [s]: its length and its groups. *)
Definition match_here (r : re) (s : text) : option (nat * Caps) :=
  run r s 0 no_caps (fun _ pos caps => Some (pos, caps)).

(** The match object: [index], the matched text and the groups
    ([undefined] is [None]). *)
Record Match : Type := mkMatch
  { index : nat; whole : text; group1 : option text; group2 : option text }.

Definition cut (s : text) (c : option (nat * nat)) : option text :=
  match c with
  | Some (a, b) => Some (substring a b s)
  | None => None
  end.

Definition mk_match (idx : nat) (s : text) (m : nat * Caps) : Match :=
  mkMatch idx (firstn (fst m) s) (cut s (cap1 (snd m))) (cut s (cap2 (snd m))).

(** [s.match(r)] for a regular expression without the [g] flag: the
    leftmost match; [idx] is the offset of [s] in the whole string. *)
Fixpoint search (r : re) (s : text) (idx : nat) : option Match :=
  match match_here r s with
  | Some m => Some (mk_match idx s m)
  | None =>
      match s with
      | [] => None
      | _ :: s' => search r s' (S idx)
      end
  end.

(** [s.replace(r, '')] without the [g] flag: the leftmost match is cut
    out. *)
Definition remove_first (r : re) (s : text) : text :=
  match search r s 0 with
  | Some m => firstn (index m) s ++ skipn (index m + length (whole m)) s
  | None => s
  end.

(** [r.exec(s)] for a regular expression with the [g] flag: the leftmost
    match that starts at [lastIndex] or later; [null] when [lastIndex] is
    beyond the end. *)
Definition exec (r : re) (s : text) (lastIndex : nat) : option Match :=
  if length s <? lastIndex then None
  else search r (skipn lastIndex s) lastIndex.

(** The loop [while ((match = r.exec(s)) !== null) { ... }]: the matches in
    the order the loop sees them, [lastIndex] being moved to the end of
    each match.  An empty match would leave [lastIndex] where it is and
    the loop of the source would not end; the loop is given fuel. *)
Fixpoint exec_while (fuel : nat) (r : re) (s : text) (lastIndex : nat)
    : list Match :=
  match fuel with
  | O => []
  | S fuel' =>
      match exec r s lastIndex with
      | None => []
      | Some m => m :: exec_while fuel' r s (index m + length (whole m))
      end
  end.

(** One more round than the text has units: enough for every regular
    expression whose matches are not empty (see [exec_while_fuel]). *)
Definition exec_all (r : re) (s : text) : list Match :=
  exec_while (S (length s)) r s 0.

End Regex.

(* ================================================================= *)
(** ** [JSON.stringify] on the two shapes the loop serialises *)

Module Json.

Definition hex_digit (n : N) : unit16 :=
  if N.ltb n 10 then (48 + n)%N else (87 + n)%N.

(** [\uXXXX] with lower-case digits. *)
Definition u_escape (c : unit16) : text :=
  lit "\u" ++ [hex_digit (N.modulo (N.div c 4096) 16);
               hex_digit (N.modulo (N.div c 256) 16);
               hex_digit (N.modulo (N.div c 16) 16);
               hex_digit (N.modulo c 16)].

Definition is_high (c : unit16) : bool := N.leb 55296 c && N.leb c 56319.
Definition is_low (c : unit16) : bool := N.leb 56320 c && N.leb c 57343.

Definition quote_unit (c : unit16) : text :=
  if N.eqb c 34 then lit "\" ++ [34%N]
  else if N.eqb c 92 then lit "\\"
  else if N.eqb c 8 then lit "\b"
  else if N.eqb c 12 then lit "\f"
  else if N.eqb c 10 then lit "\n"
  else if N.eqb c 13 then lit "\r"
  else if N.eqb c 9 then lit "\t"
  else if N.ltb c 32 then u_escape c
  else [c].

(** The body of QuoteJSONString: surrogate pairs pass unchanged, lone
    surrogates are escaped. *)
Fixpoint quote_body (s : text) : text :=
  match s with
  | [] => []
  | c :: s' =>
      if is_high c then
        match s' with
        | d :: s'' =>
            if is_low d then c :: d :: quote_body s''
            else u_escape c ++ quote_body s'
        | [] => u_escape c
        end
      else if is_low c then u_escape c ++ quote_body s'
      else quote_unit c ++ quote_body s'
  end.

Definition dq : text := [34%N].

Definition quote (s : text) : text := dq ++ quote_body s ++ dq.

Fixpoint join_comma (xs : list text) : text :=
  match xs with
  | [] => []
  | [x] => x
  | x :: xs' => x ++ 44%N :: join_comma xs'
  end.

Definition array_of_strings (xs : list text) : text :=
  91%N :: join_comma (List.map quote xs) ++ [93%N].

(** [JSON.stringify({ command: xs })] *)
Definition stringify_command (xs : list text) : text :=
  123%N :: quote (lit "command") ++ 58%N :: array_of_strings xs ++ [125%N].

(** [JSON.stringify({ patch: p })] *)
Definition stringify_patch (p : text) : text :=
  123%N :: quote (lit "patch") ++ 58%N :: quote p ++ [125%N].

(** [JSON.stringify({ output: o, metadata })], the metadata object being
    given by its own serialisation; a property whose value is [undefined]
    is left out. *)
Definition stringify_output (o : text) (metadata : option text) : text :=
  123%N :: quote (lit "output") ++ 58%N :: quote o
    ++ match metadata with
       | Some m => 44%N :: quote (lit "metadata") ++ 58%N :: m
       | None => []
       end
    ++ [125%N].

End Json.

(* ================================================================= *)
(** ** Response items of the OpenAI client library, as the loop uses them *)

Module Items.

(** The [role] of a message.  The message types of the client library
    also allow [developer]; the loop only ever compares against [user]
    and [system]. *)
Inductive Role : Type := user | assistant | system | developer.

Definition role_eqb (a b : Role) : bool :=
  match a, b with
  | user, user | assistant, assistant | system, system
  | developer, developer => true
  | _, _ => false
  end.

(** The [type] of a content part; parts that are neither [input_text] nor
    [output_text] (images, refusals, ...) carry no text of interest. *)
Inductive PartType : Type := input_text | output_text | other_part.

Record ContentPart : Type := mkPart
  { part_type : PartType; part_text : text }.

(** The nested [function] object of a chat-style tool call. *)
Record ChatFunction : Type := mkChatFunction
  { fn_name : option text; fn_arguments : option text }.

(** A [function_call] item, with every field the dispatcher probes;
    [None] is [undefined]. *)
Record FunctionToolCall : Type := mkCall
  { fc_id : option text;
    fc_call_id : option text;
    fc_name : option text;
    fc_arguments : option text;
    fc_function : option ChatFunction }.

(** [ResponseItem] / [ResponseInputItem], discriminated by [type]. *)
Inductive ResponseItem : Type :=
| Message (id : option text) (role : Role) (content : list ContentPart)
| FunctionCall (call : FunctionToolCall)
| FunctionCallOutput (call_id : option text) (output : text)
| Reasoning (id : text) (duration_ms : Z) (content : text)
| OtherItem.

(** A thrown value, and what
    [error instanceof Error ? error.message : String(error)] prints. *)
Inductive JsError : Type :=
| ErrorObj (message : text)
| Thrown (rendered : text).

Definition error_text (e : JsError) : text :=
  match e with
  | ErrorObj m => m
  | Thrown r => r
  end.

End Items.

Import Items.

(* ================================================================= *)
(** ** [ollama-client.ts] *)

Module OllamaClient.

Record OllamaMessage : Type := mkMessage
  { role : Role; content : text }.

Record OllamaChatCompletionResponse : Type := mkResponse
  { model : text; created_at : text; message : OllamaMessage; done : bool }.

Record OllamaChatCompletionRequest : Type := mkRequest
  { req_model : text; req_messages : list OllamaMessage; req_stream : bool }.

Definition ollama_prefix : text := lit "ollama:".

(** [formatOllamaModelName]: the template literal [`ollama:${modelName}`]. *)
Definition formatOllamaModelName (modelName : text) : text :=
  ollama_prefix ++ modelName.

(** [extractOllamaModelName]: [null] is [None]. *)
Definition extractOllamaModelName (prefixedModelName : text) : option text :=
  if negb (startsWith prefixedModelName ollama_prefix) then None
  else Some (substring_from 7 prefixedModelName).

(** [isOllamaModel] *)
Definition isOllamaModel (modelName : text) : bool :=
  startsWith modelName ollama_prefix.

(** [a || b] on a nullable string: [null] and the empty string are
    falsy. *)
Definition or_else (a : option text) (b : text) : text :=
  match a with
  | Some ((_ :: _) as t) => t
  | _ => b
  end.

(** The inner loop of [convertResponseItemsToOllamaMessages]:
    [content += contentItem.text] over the text parts. *)
Fixpoint concat_text_parts (parts : list ContentPart) : text :=
  match parts with
  | [] => []
  | p :: parts' =>
      match part_type p with
      | input_text | output_text => part_text p ++ concat_text_parts parts'
      | other_part => concat_text_parts parts'
      end
  end.

(** [convertResponseItemsToOllamaMessages] *)
Fixpoint convertResponseItemsToOllamaMessages (items : list ResponseItem)
    : list OllamaMessage :=
  match items with
  | [] => []
  | item :: items' =>
      match item with
      | Message _ r parts =>
          let content := concat_text_parts parts in
          if truthy content
          then mkMessage r content :: convertResponseItemsToOllamaMessages items'
          else convertResponseItemsToOllamaMessages items'
      | FunctionCallOutput _ output =>
          mkMessage system output :: convertResponseItemsToOllamaMessages items'
      | _ => convertResponseItemsToOllamaMessages items'
      end
  end.

(** What [fetch] and [response.json()] answer to [ollamaChatCompletion]. *)
Inductive FetchOutcome : Type :=
| FetchRejected (e : JsError)
| FetchStatus (statusText : text)
| FetchJson (body : OllamaChatCompletionResponse)
| FetchJsonRejected (e : JsError).

(** [ollamaChatCompletion(modelName, messages, false)], first half: the
    request body that is posted. *)
Definition ollamaChatCompletion_request (modelName : text)
    (messages : list OllamaMessage) : OllamaChatCompletionRequest :=
  let actualModelName := or_else (extractOllamaModelName modelName) modelName in
  mkRequest actualModelName messages false.

(** Second half: how its promise settles ([inl] rejects, [inr] fulfils). *)
Definition ollamaChatCompletion_settle (o : FetchOutcome)
    : JsError + OllamaChatCompletionResponse :=
  match o with
  | FetchRejected e => inl e
  | FetchStatus statusText => inl (ErrorObj (lit "Ollama API error: " ++ statusText))
  | FetchJson body => inr body
  | FetchJsonRejected e => inl e
  end.

End OllamaClient.

Import OllamaClient.

(* ================================================================= *)
(** ** [ollama-agent-loop.ts]: the state of an [OllamaAgentLoop] *)

Module AgentLoop.

(** [ExecInput] of [./sandbox/interface.js], as [exec.ts] destructures it. *)
Record ExecInput : Type := mkExecInput
  { cmd : list text; workdir : option text; timeoutInMillis : option Z }.

(** What [handleExecCommand] resolves to; the metadata object is given by
    its JSON serialisation. *)
Record ExecOutcome : Type := mkExecOutcome
  { outputText : text;
    metadata : option text;
    additionalItems : option (list ResponseItem) }.

(** What the loop takes from outside the two modules embedded here.
    [parseToolCallArguments] is imported from [../parsers.js]; the clock,
    the random generator and the UUID generator are read through a counter
    of reads, so that every read may give a different value. *)
Record World : Type := mkWorld
  { parseToolCallArguments : text -> option ExecInput;
    date_now : nat -> Z;
    math_random_base36 : nat -> text;
    crypto_randomUUID : nat -> text }.

(** The private fields of the instance that are written after
    construction, and the two that [run] reads.  [config],
    [approvalPolicy], [ollamaApiUrl] and the callbacks are set once by the
    constructor; the callbacks appear as events below.  An
    [AbortController] is named by its index in the heap of [Store]. *)
Record Loop : Type := mkLoop
  { model : text;
    instructions : option text;
    conversationHistory : list OllamaMessage;
    currentStream : option unit;
    generation : nat;
    execAbortController : option nat;
    canceled : bool;
    terminated : bool;
    hardAbort : bool;
    sessionId : text }.

(** The instance, the [aborted] flag of every [AbortController] allocated
    so far, and the number of reads of the clock and generators. *)
Record Store : Type := mkStore
  { self : Loop; signals : list bool; draws : nat }.

(** What the loop does to the outside. *)
Inductive Event : Type :=
| OnItem (item : ResponseItem)
| OnLoading (loading : bool)
| OnLastResponseId (id : text)
| SetSessionId (id : text)
| SetCurrentModel (m : text)
| ConsoleError (label : text) (e : JsError)
| PostChat (req : OllamaChatCompletionRequest)
| HandleExecCommand (args : ExecInput) (signal : option nat).

(** *** Suspended runs *)

(** What a run keeps across its [await]s. *)
Record Turn : Type := mkTurn
  { thisGeneration : nat;
    thinkingStart : Z;
    newMessages : list OllamaMessage }.

(** The promise of [handleFunctionCall]: settled ([inl] rejected, [inr]
    fulfilled), or still waiting for [handleExecCommand] with the
    [call_id] of the output item under construction. *)
Inductive Handler : Type :=
| Settled (r : JsError + list ResponseItem)
| InExec (callId : option text).

(** The [await] at which a run is suspended. *)
Inductive Pending : Type :=
| AwaitChat (t : Turn)
| AwaitCallInLoop (t : Turn) (response : OllamaChatCompletionResponse)
    (rest : list FunctionToolCall) (h : Handler)
| AwaitCallMain (t : Turn) (response : OllamaChatCompletionResponse)
    (h : Handler).

Definition turn_of (p : Pending) : Turn :=
  match p with
  | AwaitChat t => t
  | AwaitCallInLoop t _ _ _ => t
  | AwaitCallMain t _ _ => t
  end.

(** What wakes a suspended run up: the request to the backend has
    settled, [handleExecCommand] has settled, or ([Tick]) the promise
    awaited was settled already and the run continues on the next turn of
    the job queue. *)
Inductive Wake : Type :=
| ChatSettled (o : FetchOutcome)
| ExecSettled (r : JsError + ExecOutcome)
| Tick.

(** *** Completions

    A piece of the body of [run] completes normally, by [return], by a
    throw, or is suspended at an [await]. *)
Inductive Completion (A : Type) : Type :=
| Normal (a : A)
| Return
| Throw (e : JsError)
| Await (p : Pending).

Arguments Normal {A} a.
Arguments Return {A}.
Arguments Throw {A} e.
Arguments Await {A} p.

Definition M (A : Type) : Type := Store -> Completion A * Store * list Event.

Definition ret {A} (a : A) : M A := fun st => (Normal a, st, []).

Definition bind {A B} (m : M A) (f : A -> M B) : M B :=
  fun st =>
    match m st with
    | (Normal a, st', ev) =>
        let '(c, st'', ev') := f a st' in (c, st'', ev ++ ev')
    | (Return, st', ev) => (Return, st', ev)
    | (Throw e, st', ev) => (Throw e, st', ev)
    | (Await p, st', ev) => (Await p, st', ev)
    end.

Declare Scope loop_scope.
Delimit Scope loop_scope with loop.
Notation "x <- m ;; k" := (bind m (fun x => k))
  (at level 61, m at next level, right associativity) : loop_scope.
Notation "m ;; k" := (bind m (fun _ => k))
  (at level 61, right associativity) : loop_scope.
Local Open Scope loop_scope.

Definition return_ {A} : M A := fun st => (Return, st, []).
Definition throw {A} (e : JsError) : M A := fun st => (Throw e, st, []).
Definition await {A} (p : Pending) : M A := fun st => (Await p, st, []).
Definition emit (e : Event) : M unit := fun st => (Normal tt, st, [e]).
Definition this : M Loop := fun st => (Normal (self st), st, []).
Definition assign (f : Loop -> Loop) : M unit :=
  fun st => (Normal tt, mkStore (f (self st)) (signals st) (draws st), []).

(** [try { body } catch (error) { handler }]; a suspended body stays
    inside the block. *)
Definition try_catch {A} (body : M A) (handler : JsError -> M A) : M A :=
  fun st =>
    match body st with
    | (Throw e, st', ev) =>
        let '(c, st'', ev') := handler e st' in (c, st'', ev ++ ev')
    | r => r
    end.

(** [try { body } finally { fin }]: [fin] runs on every way out of the
    body, and its own completion wins only when it is abrupt. *)
Definition try_finally {A} (body : M A) (fin : M unit) : M A :=
  fun st =>
    match body st with
    | (Await p, st', ev) => (Await p, st', ev)
    | (c, st', ev) =>
        match fin st' with
        | (Normal _, st'', ev') => (c, st'', ev ++ ev')
        | (Return, st'', ev') => (Return, st'', ev ++ ev')
        | (Throw e, st'', ev') => (Throw e, st'', ev ++ ev')
        | (Await p, st'', ev') => (Await p, st'', ev ++ ev')
        end
    end.

(** [for (const x of xs) body(x)] *)
Fixpoint for_each {A} (xs : list A) (body : A -> M unit) : M unit :=
  match xs with
  | [] => ret tt
  | x :: xs' => body x ;; for_each xs' body
  end.

(** *** Field updates *)

Definition set_conversationHistory (h : list OllamaMessage) (l : Loop) : Loop :=
  mkLoop (model l) (instructions l) h (currentStream l) (generation l)
    (execAbortController l) (canceled l) (terminated l) (hardAbort l)
    (sessionId l).

Definition set_currentStream (v : option unit) (l : Loop) : Loop :=
  mkLoop (model l) (instructions l) (conversationHistory l) v (generation l)
    (execAbortController l) (canceled l) (terminated l) (hardAbort l)
    (sessionId l).

Definition set_generation (g : nat) (l : Loop) : Loop :=
  mkLoop (model l) (instructions l) (conversationHistory l) (currentStream l)
    g (execAbortController l) (canceled l) (terminated l) (hardAbort l)
    (sessionId l).

Definition set_execAbortController (c : option nat) (l : Loop) : Loop :=
  mkLoop (model l) (instructions l) (conversationHistory l) (currentStream l)
    (generation l) c (canceled l) (terminated l) (hardAbort l) (sessionId l).

Definition set_canceled (b : bool) (l : Loop) : Loop :=
  mkLoop (model l) (instructions l) (conversationHistory l) (currentStream l)
    (generation l) (execAbortController l) b (terminated l) (hardAbort l)
    (sessionId l).

Definition set_terminated (b : bool) (l : Loop) : Loop :=
  mkLoop (model l) (instructions l) (conversationHistory l) (currentStream l)
    (generation l) (execAbortController l) (canceled l) b (hardAbort l)
    (sessionId l).

Definition set_hardAbort (b : bool) (l : Loop) : Loop :=
  mkLoop (model l) (instructions l) (conversationHistory l) (currentStream l)
    (generation l) (execAbortController l) (canceled l) (terminated l) b
    (sessionId l).

Definition set_sessionId (i : text) (l : Loop) : Loop :=
  mkLoop (model l) (instructions l) (conversationHistory l) (currentStream l)
    (generation l) (execAbortController l) (canceled l) (terminated l)
    (hardAbort l) i.

(** *** Abort controllers *)

(** [new AbortController()] *)
Definition new_AbortController : M nat :=
  fun st =>
    (Normal (length (signals st)),
     mkStore (self st) (signals st ++ [false]) (draws st), []).

Fixpoint set_flag (n : nat) (fs : list bool) : list bool :=
  match fs, n with
  | [], _ => []
  | _ :: fs', O => true :: fs'
  | f :: fs', S n' => f :: set_flag n' fs'
  end.

(** [controller?.abort()] *)
Definition abort (c : option nat) : M unit :=
  fun st =>
    match c with
    | Some n => (Normal tt, mkStore (self st) (set_flag n (signals st)) (draws st), [])
    | None => (Normal tt, st, [])
    end.

Definition aborted (st : Store) (n : nat) : bool := nth n (signals st) false.

(** *** The methods *)

Section Methods.
Variable W : World.

Definition tick (st : Store) : Store :=
  mkStore (self st) (signals st) (S (draws st)).

(** [Date.now()] *)
Definition Date_now : M Z :=
  fun st => (Normal (date_now W (draws st)), tick st, []).

(** [Math.random().toString(36).substring(2, 9)] *)
Definition Math_random_suffix : M text :=
  fun st => (Normal (substring 2 9 (math_random_base36 W (draws st))), tick st, []).

(** [randomUUID().replaceAll("-", "")] *)
Definition randomUUID_compact : M text :=
  fun st => (Normal (remove_all 45%N (crypto_randomUUID W (draws st))), tick st, []).

(** The template literal
    [`${prefix}${Date.now()}-${Math.random().toString(36).substring(2, 9)}`]. *)
Definition fresh_id (prefix : text) : M text :=
  now <- Date_now ;;
  r <- Math_random_suffix ;;
  ret (prefix ++ dec_Z now ++ lit "-" ++ r).

(** A method called as a statement: its [return] ends the method, not
    the caller. *)
Definition call (body : M unit) : M unit :=
  fun st =>
    match body st with
    | (Return, st', ev) => (Normal tt, st', ev)
    | r => r
    end.

(** The callbacks, for a caller whose callbacks return; [Caller] below has
    them for any caller. *)
Definition onItem (item : ResponseItem) : M unit := emit (OnItem item).
Definition onLoading (b : bool) : M unit := emit (OnLoading b).
Definition onLastResponseId (id : text) : M unit := emit (OnLastResponseId id).

(** The constructor; [getSessionId] is what [getSessionId()] of
    [session.js] returns.  It starts from the field initialisers. *)
Definition blank (m : text) (i : option text) : Store :=
  mkStore (mkLoop m i [] None 0 None false false false []) [] 0.

Definition constructor (getSessionId : text) : M unit :=
  sid <- (if truthy getSessionId then ret getSessionId else randomUUID_compact) ;;
  assign (set_sessionId sid) ;;
  emit (SetSessionId sid) ;;
  l <- this ;;
  emit (SetCurrentModel (model l)).

(** [cancel()] *)
Definition cancel : M unit :=
  call (
    l <- this ;;
    if terminated l then return_
    else
      assign (set_currentStream None) ;;
      assign (set_canceled true) ;;
      l <- this ;;
      abort (execAbortController l) ;;
      c <- new_AbortController ;;
      assign (set_execAbortController (Some c)) ;;
      onLoading false ;;
      l <- this ;;
      assign (set_generation (generation l + 1))).

(** [this.hardAbort.abort()]: the listener registered by the constructor
    (once) aborts the controller of the tool calls. *)
Definition hardAbort_abort : M unit :=
  l <- this ;;
  if hardAbort l then ret tt
  else
    assign (set_hardAbort true) ;;
    l <- this ;;
    abort (execAbortController l).

(** [terminate()] *)
Definition terminate : M unit :=
  call (
    l <- this ;;
    if terminated l then return_
    else
      assign (set_terminated true) ;;
      hardAbort_abort ;;
      cancel).

(** [clearConversationHistory()] *)
Definition clearConversationHistory : M unit :=
  assign (set_conversationHistory []) ;;
  assign (set_generation 0) ;;
  sid <- randomUUID_compact ;;
  assign (set_sessionId sid) ;;
  emit (SetSessionId sid).

(** *** History *)

Definition MAX_HISTORY_LENGTH : nat := 20.

(** [xs.slice(start)]: a negative [start] counts from the end, and
    both are clamped to the array. *)
Definition slice_from {A} (start : Z) (xs : list A) : list A :=
  let len := Z.of_nat (length xs) in
  if (start <? 0)%Z
  then skipn (Z.to_nat (Z.max (len + start) 0)) xs
  else skipn (Z.to_nat (Z.min start len)) xs.

Definition is_system (m : OllamaMessage) : bool := role_eqb (role m) system.
Definition not_system (m : OllamaMessage) : bool := negb (role_eqb (role m) system).

(** The [if] block that limits the history. *)
Definition limit_history (h : list OllamaMessage) : list OllamaMessage :=
  if MAX_HISTORY_LENGTH <? length h then
    let systemMessages := filter is_system h in
    let nonSystemMessages := filter not_system h in
    let recentMessages :=
      slice_from (- Z.of_nat MAX_HISTORY_LENGTH
                  + Z.of_nat (length systemMessages))%Z nonSystemMessages in
    systemMessages ++ recentMessages
  else h.

(** The history after the two [push]es of [updateConversationHistory]. *)
Definition pushed (h newMessages : list OllamaMessage)
    (response : OllamaChatCompletionResponse) : list OllamaMessage :=
  (h ++ newMessages) ++ [message response].

(** [updateConversationHistory] *)
Definition updateConversationHistory (newMessages : list OllamaMessage)
    (response : OllamaChatCompletionResponse) : M unit :=
  l <- this ;;
  assign (set_conversationHistory
            (limit_history (pushed (conversationHistory l) newMessages response))).

(** *** Reading the reply *)

Definition fence : text := lit "```".
Definition nl : text := [10%N].

(** [/<think>([\s\S]*?)<\/think>/] *)
Definition thinkRegex : Regex.re :=
  Regex.seq [Regex.Lit (lit "<think>");
             Regex.Grp 1 (Regex.StarL Regex.any);
             Regex.Lit (lit "</think>")].

Definition not_dquote (c : unit16) : bool := negb (N.eqb c 34).

(** The regular expression of [convertOllamaResponseToResponseItem]:
    a fenced [json] block holding [{"cmd":["name"]}] or
    [{"cmd":["name","argument"]}]. *)
Definition functionCallRegex : Regex.re :=
  Regex.seq [Regex.Lit (fence ++ lit "json"); Regex.ws;
             Regex.Lit (lit "{"); Regex.ws;
             Regex.Lit (Json.dq ++ lit "cmd" ++ Json.dq); Regex.ws;
             Regex.Lit (lit ":"); Regex.ws;
             Regex.Lit (lit "["); Regex.ws;
             Regex.Lit Json.dq; Regex.Grp 1 (Regex.PlusG not_dquote);
             Regex.Lit Json.dq;
             Regex.Opt (Regex.seq [Regex.Lit (lit ","); Regex.ws;
                                   Regex.Lit Json.dq;
                                   Regex.Grp 2 (Regex.PlusG not_dquote);
                                   Regex.Lit Json.dq]);
             Regex.ws; Regex.Lit (lit "]"); Regex.ws;
             Regex.Lit (lit "}"); Regex.ws; Regex.Lit fence].

(** [shellCommandRegex]: a fence opened by [bash] or [sh]. *)
Definition shellCommandRegex : Regex.re :=
  Regex.seq [Regex.Lit fence;
             Regex.Alt (Regex.Lit (lit "bash")) (Regex.Lit (lit "sh"));
             Regex.ws; Regex.Lit nl;
             Regex.Grp 1 (Regex.StarL Regex.any);
             Regex.Lit (nl ++ fence)].

(** [applyPatchRegex]: a fenced [json] block holding
    [{"cmd":["apply_patch","..."]}]. *)
Definition applyPatchRegex : Regex.re :=
  Regex.seq [Regex.Lit (fence ++ lit "json"); Regex.ws;
             Regex.Lit (lit "{"); Regex.ws;
             Regex.Lit (Json.dq ++ lit "cmd" ++ Json.dq); Regex.ws;
             Regex.Lit (lit ":"); Regex.ws;
             Regex.Lit (lit "["); Regex.ws;
             Regex.Lit (Json.dq ++ lit "apply_patch" ++ Json.dq); Regex.ws;
             Regex.Lit (lit ","); Regex.ws;
             Regex.Lit Json.dq; Regex.Grp 1 (Regex.StarL Regex.any);
             Regex.Lit Json.dq;
             Regex.ws; Regex.Lit (lit "]"); Regex.ws;
             Regex.Lit (lit "}"); Regex.ws; Regex.Lit fence].

Definition group_or_empty (g : option text) : text :=
  match g with Some t => t | None => [] end.

(** [extractThinkingContent] *)
Definition extractThinkingContent (content : text) : option text * text :=
  match Regex.search thinkRegex content 0 with
  | Some m =>
      (Some (trim (group_or_empty (Regex.group1 m))),
       trim (Regex.remove_first thinkRegex content))
  | None => (None, content)
  end.

(** [convertOllamaResponseToResponseItem] *)
Definition convertOllamaResponseToResponseItem
    (response : OllamaChatCompletionResponse) (thinkingStartTime : Z)
    : M (list ResponseItem) :=
  id <- fresh_id (lit "ollama-") ;;
  let content := OllamaClient.content (message response) in
  let '(thinkingContent, cleanedContent) := extractThinkingContent content in
  reasoning <-
    match thinkingContent with
    | Some ((_ :: _) as thinking) =>
        now <- Date_now ;;
        ret [Reasoning (lit "reasoning-" ++ id) (now - thinkingStartTime)%Z thinking]
    | _ => ret []
    end ;;
  match Regex.search functionCallRegex cleanedContent 0 with
  | Some {| Regex.group1 := Some ((_ :: _) as functionName);
            Regex.group2 := g2 |} =>
      let functionArgs := or_else g2 [] in
      ret (reasoning ++
           [FunctionCall (mkCall (Some id) (Some id) (Some functionName)
                            (Some functionArgs) None)])
  | _ =>
      ret (reasoning ++
           [Message (Some id) assistant [mkPart output_text cleanedContent]])
  end.

(** The first loop of [parseFunctionCalls], over the matches of
    [shellCommandRegex].  Each call is paired with [match.index], which
    the source does not keep, to tell where in the text it came from. *)
Fixpoint shell_calls (ms : list Regex.Match) : M (list (nat * FunctionToolCall)) :=
  match ms with
  | [] => ret []
  | m :: ms' =>
      let command := trim (group_or_empty (Regex.group1 m)) in
      if truthy command then
        id <- fresh_id (lit "ollama-shell-") ;;
        rest <- shell_calls ms' ;;
        ret ((Regex.index m,
              mkCall (Some id) (Some id) (Some (lit "shell"))
                (Some (Json.stringify_command (split_on 32%N command))) None)
             :: rest)
      else shell_calls ms'
  end.

(** The second loop, over the matches of [applyPatchRegex]. *)
Fixpoint patch_calls (ms : list Regex.Match) : M (list (nat * FunctionToolCall)) :=
  match ms with
  | [] => ret []
  | m :: ms' =>
      let patchContent := unescape_newlines (group_or_empty (Regex.group1 m)) in
      if truthy patchContent then
        id <- fresh_id (lit "ollama-patch-") ;;
        rest <- patch_calls ms' ;;
        ret ((Regex.index m,
              mkCall (Some id) (Some id) (Some (lit "apply_patch"))
                (Some (Json.stringify_patch patchContent)) None)
             :: rest)
      else patch_calls ms'
  end.

Definition parseFunctionCalls_located (t : text)
    : M (list (nat * FunctionToolCall)) :=
  shells <- shell_calls (Regex.exec_all shellCommandRegex t) ;;
  patches <- patch_calls (Regex.exec_all applyPatchRegex t) ;;
  ret (shells ++ patches).

(** [parseFunctionCalls] *)
Definition parseFunctionCalls (t : text) : M (list FunctionToolCall) :=
  located <- parseFunctionCalls_located t ;;
  ret (List.map snd located).

(** *** Dispatching a tool call *)

(** [a ?? b] and [a || b] on nullable strings. *)
Definition nullish_or (a b : option text) : option text :=
  match a with Some _ => a | None => b end.

Definition falsy_or (a b : option text) : option text :=
  match a with Some (_ :: _) => a | _ => b end.

(** [name === "..."] *)
Definition name_is (name : option text) (s : string) : bool :=
  match name with
  | Some n => Text.eqb n (lit s)
  | None => false
  end.

(** [`${x}`] of a nullable string. *)
Definition render (x : option text) : text :=
  match x with Some t => t | None => lit "undefined" end.

(** [handleFunctionCall] up to its [await]: either the promise is
    already settled, or [handleExecCommand] has been called with the
    signal of the current controller. *)
Definition handleFunctionCall (item : FunctionToolCall) : M Handler :=
  l <- this ;;
  if canceled l then ret (Settled (inr []))
  else
    let name :=
      match fc_function item with
      | Some f => fn_name f
      | None => fc_name item
      end in
    let rawArguments :=
      match fc_function item with
      | Some f => fn_arguments f
      | None => fc_arguments item
      end in
    let callId := nullish_or (fc_call_id item) (fc_id item) in
    let args :=
      parseToolCallArguments W
        (match rawArguments with Some r => r | None => lit "{}" end) in
    match args with
    | None =>
        ret (Settled (inr
          [FunctionCallOutput (falsy_or (fc_call_id item) callId)
             (lit "invalid arguments: " ++ render rawArguments)]))
    | Some a =>
        if name_is name "container.exec" || name_is name "shell" then
          emit (HandleExecCommand a (execAbortController l)) ;;
          ret (InExec callId)
        else
          ret (Settled (inr [FunctionCallOutput callId (lit "no function found")]))
    end.

(** [handleFunctionCall] after [handleExecCommand] has settled. *)
Definition handleFunctionCall_resume (callId : option text)
    (r : JsError + ExecOutcome) : Handler :=
  match r with
  | inl e => Settled (inl e)
  | inr o =>
      Settled (inr
        (FunctionCallOutput callId
           (Json.stringify_output (outputText o) (metadata o))
         :: match additionalItems o with
            | Some items => items
            | None => []
            end))
  end.

(** *** [run] *)

Definition warning_sign : text := [9888%N; 65039%N] ++ lit "  ".

(** The error notice of the two [catch] blocks. *)
Definition error_item (what : string) (e : JsError) : M ResponseItem :=
  now <- Date_now ;;
  ret (Message (Some (lit "error-" ++ dec_Z now)) system
         [mkPart input_text (warning_sign ++ lit what ++ error_text e)]).

Definition inner_catch (e : JsError) : M unit :=
  emit (ConsoleError (lit "Error in OllamaAgentLoop.run():") e) ;;
  item <- error_item "Error while contacting Ollama: " e ;;
  onItem item.

Definition outer_catch (e : JsError) : M unit :=
  emit (ConsoleError (lit "Unhandled error in OllamaAgentLoop.run():") e) ;;
  onLoading false ;;
  item <- error_item "Unhandled error: " e ;;
  onItem item.

(** The inner [try ... catch ... finally] and the outer [try ... catch]
    of [run]. *)
Definition inner_try (body : M unit) : M unit :=
  try_finally (try_catch body inner_catch) (onLoading false).

Definition outer_try (body : M unit) : M unit :=
  try_catch body outer_catch.

Definition terminated_error : JsError :=
  ErrorObj (lit "OllamaAgentLoop has been terminated").

Definition is_user_message (item : ResponseItem) : bool :=
  match item with
  | Message _ user _ => true
  | _ => false
  end.

(** [this.canceled || this.hardAbort.signal.aborted] *)
Definition stop_requested (l : Loop) : bool := canceled l || hardAbort l.

Fixpoint last_item {A} (xs : list A) : option A :=
  match xs with
  | [] => None
  | [x] => Some x
  | _ :: xs' => last_item xs'
  end.

(** ['text' in part && part.text] *)
Definition part_has_text (p : ContentPart) : bool :=
  match part_type p with
  | other_part => false
  | _ => truthy (part_text p)
  end.

(** The end of the inner [try] block. *)
Definition finish_turn (t : Turn) (response : OllamaChatCompletionResponse)
    : M unit :=
  updateConversationHistory (newMessages t) response ;;
  responseId <- fresh_id (lit "ollama-") ;;
  onLastResponseId responseId.

(** The loop [for (const functionCall of functionCalls)] from one
    iteration to its [await]; the run is woken up with the calls that
    are left. *)
Definition dispatch_calls (t : Turn) (response : OllamaChatCompletionResponse)
    (functionCalls : list FunctionToolCall) : M unit :=
  match functionCalls with
  | [] => finish_turn t response
  | functionCall :: rest =>
      l <- this ;;
      if stop_requested l then onLoading false ;; return_
      else
        onItem (FunctionCall functionCall) ;;
        h <- handleFunctionCall functionCall ;;
        await (AwaitCallInLoop t response rest h)
  end.

(** From the reply of the backend to the next [await]. *)
Definition after_chat (t : Turn) (response : OllamaChatCompletionResponse)
    : M unit :=
  l <- this ;;
  if stop_requested l then onLoading false ;; return_
  else
    responseItems <- convertOllamaResponseToResponseItem response (thinkingStart t) ;;
    for_each responseItems onItem ;;
    match last_item responseItems with
    | Some (Message _ _ (part :: _)) =>
        if part_has_text part then
          functionCalls <- parseFunctionCalls (part_text part) ;;
          dispatch_calls t response functionCalls
        else finish_turn t response
    | Some (FunctionCall mainResponseItem) =>
        h <- handleFunctionCall mainResponseItem ;;
        await (AwaitCallMain t response h)
    | _ => finish_turn t response
    end.

(** [run(input)] up to its first [await].  [ollamaChatCompletion] posts
    its request before it suspends. *)
Definition run (input : list ResponseItem) : M unit :=
  outer_try (
    l <- this ;;
    (if terminated l then throw terminated_error else ret tt) ;;
    thinkingStart <- Date_now ;;
    l <- this ;;
    let thisGeneration := generation l + 1 in
    assign (set_generation thisGeneration) ;;
    assign (set_canceled false) ;;
    assign (set_currentStream None) ;;
    c <- new_AbortController ;;
    assign (set_execAbortController (Some c)) ;;
    let turnInput := input in
    for_each turnInput
      (fun item => if is_user_message item then onItem item else ret tt) ;;
    onLoading true ;;
    let newMessages := convertResponseItemsToOllamaMessages turnInput in
    l <- this ;;
    let messages := conversationHistory l ++ newMessages in
    let messages :=
      match instructions l with
      | Some ((_ :: _) as i) => mkMessage system i :: messages
      | _ => messages
      end in
    let actualModelName := or_else (extractOllamaModelName (model l)) (model l) in
    inner_try (
      emit (PostChat (ollamaChatCompletion_request actualModelName messages)) ;;
      await (AwaitChat (mkTurn thisGeneration thinkingStart newMessages)))).

(** The body of [run] from the [await] it is suspended at; [None] when
    the wake-up is not the one this [await] waits for. *)
Definition resume_body (p : Pending) (w : Wake) : option (M unit) :=
  match p, w with
  | AwaitChat t, ChatSettled o =>
      Some (match ollamaChatCompletion_settle o with
            | inl e => throw e
            | inr response => after_chat t response
            end)
  | AwaitCallInLoop t response rest (InExec callId), ExecSettled r =>
      Some (await (AwaitCallInLoop t response rest
                     (handleFunctionCall_resume callId r)))
  | AwaitCallInLoop t response rest (Settled (inr result)), Tick =>
      Some (for_each result onItem ;; dispatch_calls t response rest)
  | AwaitCallInLoop _ _ _ (Settled (inl e)), Tick => Some (throw e)
  | AwaitCallMain t response (InExec callId), ExecSettled r =>
      Some (await (AwaitCallMain t response (handleFunctionCall_resume callId r)))
  | AwaitCallMain t response (Settled (inr result)), Tick =>
      Some (for_each result onItem ;; finish_turn t response)
  | AwaitCallMain _ _ (Settled (inl e)), Tick => Some (throw e)
  | _, _ => None
  end.

(** A woken run continues inside both [try] blocks. *)
Definition run_resume (p : Pending) (w : Wake) : option (M unit) :=
  match resume_body p w with
  | Some body => Some (outer_try (inner_try body))
  | None => None
  end.

(** *** One instance and its callers

    JavaScript runs one piece of code at a time: a call of a method
    runs until the method returns or suspends at an [await], and a
    suspended run continues when what it waits for has settled.  A
    history of an instance is a sequence of such pieces. *)

Inductive Outcome : Type :=
| Fulfilled
| Rejected (e : JsError).

Inductive Call : Type :=
| CallRun (input : list ResponseItem)
| CallCancel
| CallTerminate
| CallClear
| WakeUp (rid : nat) (w : Wake).

(** One piece, as recorded: the run it belongs to (runs are numbered
    in the order of the calls), the generation that run had captured,
    the generation of the instance when the piece ended, the events of
    the piece, and how the promise of the run settled in it, if it
    did. *)
Record Segment : Type := mkSegment
  { seg_run : option nat;
    seg_captured : option nat;
    seg_generation : nat;
    seg_events : list Event;
    seg_outcome : option Outcome }.

Record Sys : Type := mkSys
  { store : Store;
    tasks : list (nat * Pending);
    next_run : nat;
    segments : list Segment }.

Fixpoint find_task (rid : nat) (ts : list (nat * Pending)) : option Pending :=
  match ts with
  | [] => None
  | (r, p) :: ts' => if Nat.eqb r rid then Some p else find_task rid ts'
  end.

Fixpoint drop_task (rid : nat) (ts : list (nat * Pending)) : list (nat * Pending) :=
  match ts with
  | [] => []
  | (r, p) :: ts' =>
      if Nat.eqb r rid then drop_task rid ts' else (r, p) :: drop_task rid ts'
  end.

(** A piece of a run ends: the run stays suspended, or its promise
    settles. *)
Definition settle_run (sys : Sys) (rid : nat) (captured : option nat)
    (next : nat) (r : Completion unit * Store * list Event) : Sys :=
  let '(c, st, ev) := r in
  let others := drop_task rid (tasks sys) in
  match c with
  | Await p =>
      mkSys st ((rid, p) :: others) next
        (segments sys ++
         [mkSegment (Some rid)
            (match captured with
             | Some g => Some g
             | None => Some (thisGeneration (turn_of p))
             end)
            (generation (self st)) ev None])
  | Throw e =>
      mkSys st others next
        (segments sys ++
         [mkSegment (Some rid) captured (generation (self st)) ev
            (Some (Rejected e))])
  | _ =>
      mkSys st others next
        (segments sys ++
         [mkSegment (Some rid) captured (generation (self st)) ev
            (Some Fulfilled)])
  end.

(** A method other than [run] is called. *)
Definition method (sys : Sys) (m : M unit) : Sys :=
  let '(_, st, ev) := m (store sys) in
  mkSys st (tasks sys) (next_run sys)
    (segments sys ++ [mkSegment None None (generation (self st)) ev None]).

Definition step (sys : Sys) (c : Call) : Sys :=
  match c with
  | CallRun input =>
      settle_run sys (next_run sys) None (S (next_run sys))
        (run input (store sys))
  | CallCancel => method sys cancel
  | CallTerminate => method sys terminate
  | CallClear => method sys clearConversationHistory
  | WakeUp rid w =>
      match find_task rid (tasks sys) with
      | Some p =>
          match run_resume p w with
          | Some m =>
              settle_run sys rid (Some (thisGeneration (turn_of p)))
                (next_run sys) (m (store sys))
          | None => sys
          end
      | None => sys
      end
  end.

Definition steps (sys : Sys) (cs : list Call) : Sys := fold_left step cs sys.

(** A new instance. *)
Definition new_loop (m : text) (i : option text) (getSessionId : text) : Sys :=
  let '(_, st, ev) := constructor getSessionId (blank m i) in
  mkSys st [] 0 [mkSegment None None (generation (self st)) ev None].

End Methods.

End AgentLoop.

Import AgentLoop.
Local Open Scope loop_scope.

(* ================================================================= *)
(** ** [ollama-agent-loop.ts]: callbacks that throw

    [onItem], [onLoading] and [onLastResponseId] are functions of the
    caller, and a call of a function of the caller returns or throws.
    The methods above are written for callbacks that return; here are
    the same methods for any callbacks.  Only the methods that call a
    callback are written again; the others are taken from above. *)

Module Caller.

(** What a call of each callback does: [None] when it returns, [Some e]
    when it throws [e].  That may depend on the argument and on the moment
    of the call, for which the store stands. *)
Record Callbacks : Type := mkCallbacks
  { onItem_throws : ResponseItem -> Store -> option JsError;
    onLoading_throws : bool -> Store -> option JsError;
    onLastResponseId_throws : text -> Store -> option JsError }.

(** Callbacks that return. *)
Definition returning : Callbacks :=
  mkCallbacks (fun _ _ => None) (fun _ _ => None) (fun _ _ => None).

(** A call of a callback: the call is made, and then it returns or
    throws. *)
Definition callback (e : Event) (r : option JsError) : M unit :=
  fun st =>
    (match r with
     | Some x => Throw x
     | None => Normal tt
     end, st, [e]).

Section Methods.
Variable W : World.
Variable K : Callbacks.

Definition onItem (item : ResponseItem) : M unit :=
  fun st => callback (OnItem item) (onItem_throws K item st) st.

Definition onLoading (b : bool) : M unit :=
  fun st => callback (OnLoading b) (onLoading_throws K b st) st.

Definition onLastResponseId (id : text) : M unit :=
  fun st => callback (OnLastResponseId id) (onLastResponseId_throws K id st) st.

(** [cancel()] *)
Definition cancel : M unit :=
  call (
    l <- this ;;
    if terminated l then return_
    else
      assign (set_currentStream None) ;;
      assign (set_canceled true) ;;
      l <- this ;;
      abort (execAbortController l) ;;
      c <- new_AbortController ;;
      assign (set_execAbortController (Some c)) ;;
      onLoading false ;;
      l <- this ;;
      assign (set_generation (generation l + 1))).

(** [terminate()] *)
Definition terminate : M unit :=
  call (
    l <- this ;;
    if terminated l then return_
    else
      assign (set_terminated true) ;;
      hardAbort_abort ;;
      cancel).

(** The two [catch] blocks of [run]. *)
Definition inner_catch (e : JsError) : M unit :=
  emit (ConsoleError (lit "Error in OllamaAgentLoop.run():") e) ;;
  item <- error_item W "Error while contacting Ollama: " e ;;
  onItem item.

Definition outer_catch (e : JsError) : M unit :=
  emit (ConsoleError (lit "Unhandled error in OllamaAgentLoop.run():") e) ;;
  onLoading false ;;
  item <- error_item W "Unhandled error: " e ;;
  onItem item.

Definition inner_try (body : M unit) : M unit :=
  try_finally (try_catch body inner_catch) (onLoading false).

Definition outer_try (body : M unit) : M unit :=
  try_catch body outer_catch.

(** The end of the inner [try] block. *)
Definition finish_turn (t : Turn) (response : OllamaChatCompletionResponse)
    : M unit :=
  updateConversationHistory (newMessages t) response ;;
  responseId <- fresh_id W (lit "ollama-") ;;
  onLastResponseId responseId.

(** The loop over the calls, from one iteration to its [await]. *)
Definition dispatch_calls (t : Turn) (response : OllamaChatCompletionResponse)
    (functionCalls : list FunctionToolCall) : M unit :=
  match functionCalls with
  | [] => finish_turn t response
  | functionCall :: rest =>
      l <- this ;;
      if stop_requested l then onLoading false ;; return_
      else
        onItem (FunctionCall functionCall) ;;
        h <- handleFunctionCall W functionCall ;;
        await (AwaitCallInLoop t response rest h)
  end.

(** From the reply of the backend to the next [await]. *)
Definition after_chat (t : Turn) (response : OllamaChatCompletionResponse)
    : M unit :=
  l <- this ;;
  if stop_requested l then onLoading false ;; return_
  else
    responseItems <- convertOllamaResponseToResponseItem W response (thinkingStart t) ;;
    for_each responseItems onItem ;;
    match last_item responseItems with
    | Some (Message _ _ (part :: _)) =>
        if part_has_text part then
          functionCalls <- parseFunctionCalls W (part_text part) ;;
          dispatch_calls t response functionCalls
        else finish_turn t response
    | Some (FunctionCall mainResponseItem) =>
        h <- handleFunctionCall W mainResponseItem ;;
        await (AwaitCallMain t response h)
    | _ => finish_turn t response
    end.

(** [run(input)] up to its first [await]. *)
Definition run (input : list ResponseItem) : M unit :=
  outer_try (
    l <- this ;;
    (if terminated l then throw terminated_error else ret tt) ;;
    thinkingStart <- Date_now W ;;
    l <- this ;;
    let thisGeneration := generation l + 1 in
    assign (set_generation thisGeneration) ;;
    assign (set_canceled false) ;;
    assign (set_currentStream None) ;;
    c <- new_AbortController ;;
    assign (set_execAbortController (Some c)) ;;
    let turnInput := input in
    for_each turnInput
      (fun item => if is_user_message item then onItem item else ret tt) ;;
    onLoading true ;;
    let newMessages := convertResponseItemsToOllamaMessages turnInput in
    l <- this ;;
    let messages := conversationHistory l ++ newMessages in
    let messages :=
      match instructions l with
      | Some ((_ :: _) as i) => mkMessage system i :: messages
      | _ => messages
      end in
    let actualModelName := or_else (extractOllamaModelName (model l)) (model l) in
    inner_try (
      emit (PostChat (ollamaChatCompletion_request actualModelName messages)) ;;
      await (AwaitChat (mkTurn thisGeneration thinkingStart newMessages)))).

(** The body of [run] from the [await] it is suspended at. *)
Definition resume_body (p : Pending) (w : Wake) : option (M unit) :=
  match p, w with
  | AwaitChat t, ChatSettled o =>
      Some (match ollamaChatCompletion_settle o with
            | inl e => throw e
            | inr response => after_chat t response
            end)
  | AwaitCallInLoop t response rest (InExec callId), ExecSettled r =>
      Some (await (AwaitCallInLoop t response rest
                     (handleFunctionCall_resume callId r)))
  | AwaitCallInLoop t response rest (Settled (inr result)), Tick =>
      Some (for_each result onItem ;; dispatch_calls t response rest)
  | AwaitCallInLoop _ _ _ (Settled (inl e)), Tick => Some (throw e)
  | AwaitCallMain t response (InExec callId), ExecSettled r =>
      Some (await (AwaitCallMain t response (handleFunctionCall_resume callId r)))
  | AwaitCallMain t response (Settled (inr result)), Tick =>
      Some (for_each result onItem ;; finish_turn t response)
  | AwaitCallMain _ _ (Settled (inl e)), Tick => Some (throw e)
  | _, _ => None
  end.

Definition run_resume (p : Pending) (w : Wake) : option (M unit) :=
  match resume_body p w with
  | Some body => Some (outer_try (inner_try body))
  | None => None
  end.

(** One piece of a history. *)
Definition step (sys : Sys) (c : Call) : Sys :=
  match c with
  | CallRun input =>
      settle_run sys (next_run sys) None (S (next_run sys))
        (run input (store sys))
  | CallCancel => method sys cancel
  | CallTerminate => method sys terminate
  | CallClear => method sys (clearConversationHistory W)
  | WakeUp rid w =>
      match find_task rid (tasks sys) with
      | Some p =>
          match run_resume p w with
          | Some m =>
              settle_run sys rid (Some (thisGeneration (turn_of p)))
                (next_run sys) (m (store sys))
          | None => sys
          end
      | None => sys
      end
  end.

Definition steps (sys : Sys) (cs : list Call) : Sys := fold_left step cs sys.

End Methods.

End Caller.

(* ================================================================= *)
(** ** The list of models: [fetchOllamaModels] of [ollama-client.ts],
    [model-utils.ts] and the model picker *)

Module ModelList.

(** [console.error(label, error)] *)
Definition Log : Type := list (text * JsError).

(** How an [async] function settles ([inl] rejects, [inr] fulfils), and
    what it has logged. *)
Definition Async (A : Type) : Type := (JsError + A) * Log.

(** [try { body } catch (error) { handler }] around a settled body. *)
Definition catching {A} (body : Async A) (handler : JsError -> Async A) : Async A :=
  match body with
  | (inl e, log) => let '(r, log') := handler e in (r, log ++ log')
  | (inr a, log) => (inr a, log)
  end.

(** *** [fetchOllamaModels] *)

Record OllamaModelDetails : Type := mkDetails
  { format : text;
    family : text;
    families : list text;
    parameter_size : text;
    quantization_level : text }.

Record OllamaModel : Type := mkOllamaModel
  { name : text;
    modified_at : text;
    size : Z;
    digest : text;
    details : OllamaModelDetails }.

(** What [fetch] and [response.json()] answer to the request for
    [/api/tags]: [fetch] rejects; the status is not ok; [json()]
    rejects; the body has no array under [models], so that
    [data.models.map] throws the [TypeError] given; or the body is as
    typed. *)
Inductive TagsOutcome : Type :=
| TagsRejected (e : JsError)
| TagsStatus (statusText : text)
| TagsJsonRejected (e : JsError)
| TagsMalformed (typeError : JsError)
| TagsJson (models : list OllamaModel).

(** The [try] block of [fetchOllamaModels]. *)
Definition fetchOllamaModels_try (o : TagsOutcome) : Async (list text) :=
  match o with
  | TagsRejected e => (inl e, [])
  | TagsStatus statusText =>
      (inl (ErrorObj (lit "Failed to fetch Ollama models: " ++ statusText)), [])
  | TagsJsonRejected e => (inl e, [])
  | TagsMalformed e => (inl e, [])
  | TagsJson models => (inr (List.map name models), [])
  end.

(** [fetchOllamaModels] *)
Definition fetchOllamaModels (o : TagsOutcome) : Async (list text) :=
  catching (fetchOllamaModels_try o)
    (fun error => (inr [], [(lit "Error fetching Ollama models:", error)])).

(** *** [model-utils.ts] *)

Definition RECOMMENDED_OPENAI_MODELS : list text := [lit "o4-mini"; lit "o3"].
Definition RECOMMENDED_OLLAMA_MODELS : list text := [lit "gemma3:1b"; lit "llama3:8b"].
Definition RECOMMENDED_MODELS : list text :=
  RECOMMENDED_OPENAI_MODELS ++ List.map formatOllamaModelName RECOMMENDED_OLLAMA_MODELS.

(** [xs.includes(m)] on strings. *)
Definition includes (xs : list text) (m : text) : bool := existsb (Text.eqb m) xs.

(** [xs.sort()] without a comparator orders strings by their UTF-16 code
    units.  That fixes the result, whatever the algorithm of the engine
    is; insertion computes it. *)
Fixpoint leb_units (a b : text) : bool :=
  match a, b with
  | [], _ => true
  | _ :: _, [] => false
  | c :: a', d :: b' =>
      if N.ltb c d then true
      else if N.eqb c d then leb_units a' b' else false
  end.

Fixpoint insert (x : text) (xs : list text) : list text :=
  match xs with
  | [] => [x]
  | y :: ys => if leb_units x y then x :: xs else y :: insert x ys
  end.

Definition sort (xs : list text) : list text := fold_right insert [] xs.

(** What [openai.models.list()] and the iteration over it give: the
    entries iterated before a failure, if there is one ([new OpenAI],
    [list()] and each step of the iteration can throw).  An entry is
    [Some id] when it is an object with a string [id]. *)
Record OpenAIList : Type := mkOpenAIList
  { yielded : list (option text); failure : option JsError }.

(** The loop [for await (const model of list)]. *)
Fixpoint push_ids (models : list text) (entries : list (option text)) : list text :=
  match entries with
  | [] => models
  | Some id :: entries' => push_ids (models ++ [id]) entries'
  | None :: entries' => push_ids models entries'
  end.

(** The constants imported from [./config.js]. *)
Record Config : Type := mkConfig
  { OPENAI_API_KEY : text; OLLAMA_ENABLED : bool }.

(** The first half of [fetchModels]: the models of OpenAI. *)
Definition fetchModels_openai (cfg : Config) (openai : OpenAIList)
    : list text * Log :=
  if truthy (OPENAI_API_KEY cfg) then
    let models := push_ids [] (yielded openai) in
    match failure openai with
    | Some error =>
        (models ++ RECOMMENDED_OPENAI_MODELS,
         [(lit "Error fetching OpenAI models:", error)])
    | None => (models, [])
    end
  else ([] ++ RECOMMENDED_OPENAI_MODELS, []).

(** The second half: the models of Ollama, pushed to those found so
    far. *)
Definition fetchModels_ollama (cfg : Config) (tags : TagsOutcome)
    (models : list text) : list text * Log :=
  if OLLAMA_ENABLED cfg then
    match fetchOllamaModels tags with
    | (inr ollamaModels, log) =>
        (models ++ List.map formatOllamaModelName ollamaModels, log)
    | (inl error, log) =>
        (models ++ List.map formatOllamaModelName RECOMMENDED_OLLAMA_MODELS,
         log ++ [(lit "Error fetching Ollama models:", error)])
    end
  else (models, []).

(** [fetchModels] *)
Definition fetchModels (cfg : Config) (openai : OpenAIList) (tags : TagsOutcome)
    : Async (list text) :=
  let '(models, log1) := fetchModels_openai cfg openai in
  let '(models, log2) := fetchModels_ollama cfg tags models in
  (inr (sort models), log1 ++ log2).

(** The module variable [modelsPromise], and the number of calls of
    [fetchModels] so far: the promise of the [k]-th call is named [k]. *)
Record Cache : Type := mkCache
  { modelsPromise : option nat; fetches : nat }.

Definition no_cache : Cache := mkCache None 0.

(** [getAvailableModels]: the promise it returns. *)
Definition getAvailableModels (c : Cache) : nat * Cache :=
  match modelsPromise c with
  | None => (fetches c, mkCache (Some (fetches c)) (S (fetches c)))
  | Some p => (p, c)
  end.

(** [preloadModels] *)
Definition preloadModels (c : Cache) : Cache :=
  match modelsPromise c with
  | None => snd (getAvailableModels c)
  | Some _ => c
  end.

(** [global.__TEST_RESET_MODELS_PROMISE], installed under test only. *)
Definition reset (c : Cache) : Cache := mkCache None (fetches c).

(** [Promise.race] of the promise of [getAvailableModels] and of the
    timer: [in_time] tells whether the promise settles before the two
    seconds are over. *)
Definition race (available : JsError + list text) (in_time : bool)
    : JsError + list text :=
  if in_time then available else inr [].

(** [isModelSupportedForResponses]; [None] is an argument that is not a
    string. *)
Definition isModelSupportedForResponses (cfg : Config) (model : option text)
    (available : JsError + list text) (in_time : bool) (c : Cache)
    : bool * Cache :=
  match model with
  | None => (true, c)
  | Some m =>
      if Text.eqb (trim m) [] || includes RECOMMENDED_MODELS m then (true, c)
      else if isOllamaModel m && negb (OLLAMA_ENABLED cfg) then (false, c)
      else
        let c' := snd (getAvailableModels c) in
        match race available in_time with
        | inr models =>
            if Nat.eqb (length models) 0 then (true, c')
            else (includes models (trim m), c')
        | inl _ => (true, c')
        end
  end.

(** *** The model picker ([unnamed/part_001], the overlay component) *)

Definition star : text := [11088%N] ++ lit " ".
Definition rocket : text := [55357%N; 56960%N] ++ lit " ".

(** The order of the items: recommended OpenAI, other OpenAI,
    recommended Ollama, other Ollama. *)
Definition recommendedOpenAI (models : list text) : list text :=
  filter (fun m => includes models m) RECOMMENDED_OPENAI_MODELS.

Definition recommendedOllama (models : list text) : list text :=
  filter (fun m => includes models m)
    (List.map (fun m => lit "ollama:" ++ m) RECOMMENDED_OLLAMA_MODELS).

Definition others (models : list text) : list text :=
  filter (fun m => negb (includes (recommendedOpenAI models) m)
                   && negb (includes (recommendedOllama models) m)) models.

Definition ordered (models : list text) : list text :=
  let otherOllamaModels := sort (filter isOllamaModel (others models)) in
  let otherOpenAIModels :=
    sort (filter (fun m => negb (isOllamaModel m)) (others models)) in
  recommendedOpenAI models ++ otherOpenAIModels
  ++ recommendedOllama models ++ otherOllamaModels.

(** [getModelLabel] *)
Definition getModelLabel (model : text) (recOpenAI recOllama : list text) : text :=
  if includes recOpenAI model then star ++ model
  else if includes recOllama model then rocket ++ model
  else if isOllamaModel model then rocket ++ model
  else model.

(** The items set by the effect: [(label, value)]. *)
Definition items (models : list text) : list (text * text) :=
  List.map (fun m => (getModelLabel m (recommendedOpenAI models)
                        (recommendedOllama models), m))
    (ordered models).

End ModelList.

(* ================================================================= *)
(** ** [agent/exec.ts]: the base command *)

Module Exec.

(** [xs[0]] of an array of strings; [None] is [undefined]. *)
Definition first_of (xs : list text) : option text :=
  match xs with
  | [] => None
  | x :: _ => Some x
  end.

(** [a || b] where [b] is a string: [undefined] and the empty string are
    falsy. *)
Definition or_string (a : option text) (b : text) : text :=
  match a with
  | Some ((_ :: _) as t) => t
  | _ => b
  end.

(** [getBaseCmd]; [formatCommandForDisplay] is imported from
    [../../format-command.js]. *)
Definition getBaseCmd (formatCommandForDisplay : list text -> text)
    (cmd : list text) : text :=
  let formattedCommand := formatCommandForDisplay cmd in
  or_string (first_of (split_on 32%N formattedCommand))
    (or_string (first_of cmd) (lit "<unknown>")).

End Exec.

(* ================================================================= *)
(** ** Concrete inputs for the examples *)

Module Scenario.

(** A stand-in for [parseToolCallArguments]: it accepts the serialised
    objects that have a [command] or a [cmd] property first, and hands
    the raw text on as the only word of the command. *)
Definition parse (raw : text) : option ExecInput :=
  if startsWith raw (lit "{" ++ Json.quote (lit "command") ++ lit ":")
     || startsWith raw (lit "{" ++ Json.quote (lit "cmd") ++ lit ":")
  then Some (mkExecInput [raw] None None)
  else None.

(** The clock shows the number of reads so far. *)
Definition world : World :=
  mkWorld parse (fun n => Z.of_nat n) (fun _ => lit "0.k3j9x2mq1")
    (fun _ => lit "123e4567-e89b-12d3-a456-426614174000").

Definition fresh : Sys :=
  new_loop world (lit "ollama:gemma3:1b") None (lit "session").

Definition says (r : Role) (s : string) : OllamaMessage := mkMessage r (lit s).

Definition user_says (s : string) : ResponseItem :=
  Message None user [mkPart input_text (lit s)].

Definition answer (s : text) : OllamaChatCompletionResponse :=
  mkResponse (lit "gemma3:1b") (lit "2025-04-20T00:00:00Z")
    (mkMessage assistant s) true.

Definition reply (s : text) : FetchOutcome := FetchJson (answer s).

Definition tool_output (s : string) : ResponseItem :=
  FunctionCallOutput (Some (lit "call")) (lit s).

(** A reply text with a patch block, and one with a shell fence. *)
Definition patch_block (p : string) : text :=
  fence ++ lit "json" ++ nl
  ++ lit "{" ++ Json.quote (lit "cmd") ++ lit ":["
  ++ Json.quote (lit "apply_patch") ++ lit " , " ++ Json.quote (lit p)
  ++ lit "]}" ++ nl ++ fence.

Definition shell_block (c : string) : text :=
  fence ++ lit "bash" ++ nl ++ lit c ++ nl ++ fence.

Definition patch_then_shell : text :=
  patch_block "*** Begin Patch" ++ nl ++ shell_block "ls -la".

(** Messages numbered [from], [from + 1], ... *)
Definition numbered (r : Role) (from n : nat) : list OllamaMessage :=
  List.map (fun k => mkMessage r (dec_N (N.of_nat k))) (List.seq from n).

(** Callbacks for the examples: an [onItem] that throws on the messages
    of the assistant, and one that throws on every item. *)
Definition render_failed : JsError := ErrorObj (lit "render failed").

Definition fragile : Caller.Callbacks :=
  Caller.mkCallbacks
    (fun item _ => match item with
                   | Message _ assistant _ => Some render_failed
                   | _ => None
                   end)
    (fun _ _ => None) (fun _ _ => None).

Definition throwing : Caller.Callbacks :=
  Caller.mkCallbacks (fun _ _ => Some render_failed) (fun _ _ => None) (fun _ _ => None).

(** Answers to what a run waits for: the backend says hello and every
    tool fulfils. *)
Definition settles (p : Pending) : Wake :=
  match p with
  | AwaitChat _ => ChatSettled (reply (lit "hello"))
  | AwaitCallInLoop _ _ _ (InExec _) | AwaitCallMain _ _ (InExec _) =>
      ExecSettled (inr (mkExecOutcome (lit "a.txt") (Some (lit "{}")) None))
  | _ => Tick
  end.

(** A reply with two shell fences around a patch block, and one with a
    shell fence and a patch block without a blank before the comma. *)
Definition fences_around_block : text :=
  shell_block "ls -la" ++ nl ++ patch_block "*** Begin Patch"
  ++ nl ++ shell_block "pwd".

Definition compact_block (p : string) : text :=
  fence ++ lit "json" ++ nl
  ++ lit "{" ++ Json.quote (lit "cmd") ++ lit ":["
  ++ Json.quote (lit "apply_patch") ++ lit "," ++ Json.quote (lit p)
  ++ lit "]}" ++ nl ++ fence.

Definition fence_then_compact_block : text :=
  shell_block "ls -la" ++ nl ++ compact_block "*** Begin Patch".

End Scenario.

Unset Implicit Arguments.

(* ================================================================= *)
(** ** Vocabulary of the properties *)

(** A regular expression all of whose matches take at least one unit. *)
Definition advancing (r : Regex.re) : Prop :=
  forall s m, Regex.match_here r s = Some m -> 1 <= fst m /\ 1 <= length s.

(** The matches that the two loops of [parseFunctionCalls] turn into
    calls. *)
Definition has_command (m : Regex.Match) : bool :=
  truthy (trim (group_or_empty (Regex.group1 m))).

Definition has_patch (m : Regex.Match) : bool :=
  truthy (unescape_newlines (group_or_empty (Regex.group1 m))).

Definition named (n : string) (c : nat * FunctionToolCall) : Prop :=
  fc_name (snd c) = Some (lit n).

(** The call that the scan builds for a patch block. *)
Definition scanner_patch_call (id patch : text) : FunctionToolCall :=
  mkCall (Some id) (Some id) (Some (lit "apply_patch"))
    (Some (Json.stringify_patch patch)) None.

Definition from_patch_block (c : nat * FunctionToolCall) : Prop :=
  exists id patch, snd c = scanner_patch_call id patch.

(** The calls are in the order of the places they were found at. *)
Definition in_text_order (calls : list (nat * FunctionToolCall)) : Prop :=
  StronglySorted lt (List.map fst calls).

(** An event other than a call of [console.error]. *)
Definition ordinary (e : Event) : Prop :=
  match e with
  | ConsoleError _ _ => False
  | _ => True
  end.

(** A computation all of whose events satisfy [P]. *)
Definition only (P : Event -> Prop) {A} (m : M A) : Prop :=
  forall st, Forall P (snd (m st)).

(** A computation that keeps a property of the instance. *)
Definition keeps (Q : Loop -> Prop) {A} (m : M A) : Prop :=
  forall st, Q (self st) -> Q (self (snd (fst (m st)))).

(** The bound on the history: at most the cap, unless the system messages
    alone reach the cap. *)
Definition bounded (l : Loop) : Prop :=
  length (filter is_system (conversationHistory l)) < MAX_HISTORY_LENGTH ->
  length (conversationHistory l) <= MAX_HISTORY_LENGTH.

(** The arguments of the calls of the loading callback, the last of them,
    and the errors caught (both [catch] blocks report to [console.error]
    first). *)
Definition loadings (ev : list Event) : list bool :=
  flat_map (fun e => match e with OnLoading b => [b] | _ => [] end) ev.

Definition last_loading (ev : list Event) : option bool := last_item (loadings ev).

Definition failures (ev : list Event) : list JsError :=
  flat_map (fun e => match e with ConsoleError _ x => [x] | _ => [] end) ev.

(** The error notice that the [catch] blocks of [run] hand to [onItem]. *)
Definition notice (what : string) (e : JsError) (now : Z) : ResponseItem :=
  Message (Some (lit "error-" ++ dec_Z now)) system
    [mkPart input_text (warning_sign ++ lit what ++ error_text e)].

(** What the inner and the outer [catch] block of [run] do with the error
    [e] (the inner one is followed by the [finally] block). *)
Definition inner_report (e : JsError) (now : Z) : list Event :=
  [ConsoleError (lit "Error in OllamaAgentLoop.run():") e;
   OnItem (notice "Error while contacting Ollama: " e now);
   OnLoading false].

Definition outer_report (e : JsError) (now : Z) : list Event :=
  [ConsoleError (lit "Unhandled error in OllamaAgentLoop.run():") e;
   OnLoading false;
   OnItem (notice "Unhandled error: " e now)].

(** Callbacks that return when [run] reports the end of loading and when
    it hands over an error notice. *)
Definition reports_return (K : Caller.Callbacks) : Prop :=
  (forall st, Caller.onLoading_throws K false st = None)
  /\ (forall what e now st, Caller.onItem_throws K (notice what e now) st = None).

(** The events of a run in which nothing was caught, or in which one error
    was caught at the end and handed to [onItem] once. *)
Definition surfaced (ev : list Event) : Prop :=
  failures ev = []
  \/ exists ev1 e now,
       failures ev1 = []
       /\ (ev = ev1 ++ inner_report e now \/ ev = ev1 ++ outer_report e now).

(** A piece of a run that does not reject: suspended, it has caught
    nothing; finished, the last loading state it reported is [false] and
    what it caught is surfaced. *)
Definition piece_reports (r : Completion unit * Store * list Event) : Prop :=
  let '(c, _, ev) := r in
  match c with
  | Throw _ => False
  | Await _ => failures ev = []
  | _ => last_loading ev = Some false /\ surfaced ev
  end.

(** The events and the outcomes of one run in a history. *)
Definition of_run (rid : nat) (seg : Segment) : bool :=
  match seg_run seg with
  | Some r => Nat.eqb r rid
  | None => false
  end.

Definition events_of_run (rid : nat) (segs : list Segment) : list Event :=
  flat_map seg_events (filter (of_run rid) segs).

Definition outcomes_of_run (rid : nat) (segs : list Segment) : list Outcome :=
  flat_map (fun seg => match seg_outcome seg with Some o => [o] | None => [] end)
    (filter (of_run rid) segs).

(** What holds of every history of an instance: every run called so far
    is suspended at an [await] and has caught nothing, or has fulfilled
    its promise. *)
Definition run_state (sys : Sys) (rid : nat) : Prop :=
  (exists p, find_task rid (tasks sys) = Some p
             /\ outcomes_of_run rid (segments sys) = []
             /\ failures (events_of_run rid (segments sys)) = [])
  \/ (find_task rid (tasks sys) = None
      /\ outcomes_of_run rid (segments sys) = [Fulfilled]
      /\ last_loading (events_of_run rid (segments sys)) = Some false
      /\ surfaced (events_of_run rid (segments sys))).

Record Inv (sys : Sys) : Prop := mkInv
  { inv_tasks : forall rid p,
      find_task rid (tasks sys) = Some p -> rid < next_run sys;
    inv_segments : forall seg rid,
      In seg (segments sys) -> seg_run seg = Some rid -> rid < next_run sys;
    inv_runs : forall rid, rid < next_run sys -> run_state sys rid }.

(** The wake-up that a suspended run waits for. *)
Definition fits (p : Pending) (w : Wake) : Prop :=
  match p, w with
  | AwaitChat _, ChatSettled _ => True
  | AwaitCallInLoop _ _ _ (InExec _), ExecSettled _ => True
  | AwaitCallInLoop _ _ _ (Settled _), Tick => True
  | AwaitCallMain _ _ (InExec _), ExecSettled _ => True
  | AwaitCallMain _ _ (Settled _), Tick => True
  | _, _ => False
  end.

(** The run [rid] is woken up, each time with the answer to what it waits
    for, until it has settled or [fuel] wake-ups are used up. *)
Fixpoint drive (step : Sys -> Call -> Sys) (answer : Pending -> Wake) (rid : nat)
    (fuel : nat) (sys : Sys) : Sys :=
  match fuel with
  | O => sys
  | S fuel' =>
      match find_task rid (tasks sys) with
      | Some p => drive step answer rid fuel' (step sys (WakeUp rid (answer p)))
      | None => sys
      end
  end.

(** The [await]s that a suspended run has before it, at most. *)
Definition awaits_left (p : Pending) : nat :=
  match p with
  | AwaitChat _ => 0
  | AwaitCallInLoop _ _ rest (InExec _) => 2 * length rest + 2
  | AwaitCallInLoop _ _ rest (Settled _) => 2 * length rest + 1
  | AwaitCallMain _ _ (InExec _) => 2
  | AwaitCallMain _ _ (Settled _) => 1
  end.

Definition in_call (p : Pending) : Prop :=
  match p with AwaitChat _ => False | _ => True end.

(** A computation that suspends only at an [await] that satisfies [P]. *)
Definition suspends (P : Pending -> Prop) {A} (m : M A) : Prop :=
  forall st, match fst (fst (m st)) with Await p => P p | _ => True end.

(** A piece is stale when the run it belongs to had captured a generation
    that is not the generation of the instance any more, and the piece
    hands an item to [onItem]. *)
Definition emits_item (ev : list Event) : bool :=
  existsb (fun e => match e with OnItem _ => true | _ => false end) ev.

Definition stale (seg : Segment) : bool :=
  match seg_captured seg with
  | Some g => negb (Nat.eqb g (seg_generation seg)) && emits_item (seg_events seg)
  | None => false
  end.

Definition generation_respected (sys : Sys) : Prop :=
  forall seg, In seg (segments sys) -> stale seg = false.

(** *** Texts and blocks *)

(** A text in which the unit [c] does not occur, and the test for it. *)
Definition without (c : unit16) (s : text) : Prop := Forall (fun d => d <> c) s.

Definition lacks (c : unit16) (s : text) : bool :=
  forallb (fun d => negb (N.eqb d c)) s.

(** The number of backticks of a text. *)
Definition backticks (s : text) : nat := count_occ N.eq_dec s 96%N.

(** The two openings of a shell block. *)
Definition shell_tag (tag : text) : Prop := tag = lit "bash" \/ tag = lit "sh".

(** What follows the opening of a shell block in [shellCommandRegex],
    after the spaces: [\n([\s\S]*?)\n```]. *)
Definition shell_rest : Regex.re :=
  Regex.seq [Regex.Lit nl; Regex.Grp 1 (Regex.StarL Regex.any);
             Regex.Lit (nl ++ fence)].

(** The continuation that ends a match. *)
Definition at_end : Regex.cont (nat * Regex.Caps) := fun _ pos caps => Some (pos, caps).

(** *** Items and requests *)

(** The item that [convertOllamaResponseToResponseItem] always builds: a
    call, or the message of the assistant; and the item it builds for a
    reasoning that is not empty. *)
Definition is_main_item (item : ResponseItem) : Prop :=
  (exists call, item = FunctionCall call)
  \/ (exists id t, item = Message (Some id) assistant [mkPart output_text t]).

Definition is_reasoning (item : ResponseItem) : Prop :=
  exists id d t, item = Reasoning id d t /\ t <> [].

(** The correlation id of a call: [call_id ?? id]. *)
Definition correlation_id (item : FunctionToolCall) : option text :=
  nullish_or (fc_call_id item) (fc_id item).

(** The request of a turn: the instructions, when there are some, then
    the history, then the new messages. *)
Definition turn_messages (l : Loop) (input : list ResponseItem) : list OllamaMessage :=
  match instructions l with
  | Some ((_ :: _) as i) => [mkMessage system i]
  | _ => []
  end ++ conversationHistory l ++ convertResponseItemsToOllamaMessages input.

(** *** Controllers and signals *)

(** The flags of the controllers after [controller?.abort()]. *)
Definition after_abort (c : option nat) (sg : list bool) : list bool :=
  match c with
  | Some n => set_flag n sg
  | None => sg
  end.

(** A computation that allocates and aborts no controller. *)
Definition same_signals {A} (m : M A) : Prop :=
  forall st, signals (snd (fst (m st))) = signals st.

(** While the master signal has not fired, the controller of the tool
    calls is one that has not been aborted. *)
Definition controller_live (st : Store) : Prop :=
  hardAbort (self st) = false ->
  forall n, execAbortController (self st) = Some n -> aborted st n = false.

(** *** What a piece does on a given instance *)

(** A computation whose events satisfy [P] whenever it starts on an
    instance that satisfies [Q]. *)
Definition under (Q : Loop -> Prop) (P : Event -> Prop) {A} (m : M A) : Prop :=
  forall st, Q (self st) -> Forall P (snd (m st)).

(** The events that reach the backend or start a tool. *)
Definition starts_work (e : Event) : Prop :=
  match e with
  | PostChat _ | HandleExecCommand _ _ => True
  | _ => False
  end.

Definition no_work (e : Event) : Prop := ~ starts_work e.

Definition quiet (seg : Segment) : Prop := Forall no_work (seg_events seg).

(** The events of a woken run on an instance whose flags are [b1] and
    [b2] and whose controller is [c]: no request is posted, and
    [handleExecCommand] is only called with the signal of [c], the
    instance being neither cancelled nor stopped. *)
Definition exec_is_live (b1 b2 : bool) (c : option nat) (e : Event) : Prop :=
  match e with
  | HandleExecCommand _ sig => b1 = false /\ b2 = false /\ sig = c
  | PostChat _ => False
  | _ => True
  end.

Definition flags_are (b1 b2 : bool) (c : option nat) (l : Loop) : Prop :=
  canceled l = b1 /\ hardAbort l = b2 /\ execAbortController l = c.

(** An instance after [terminate]. *)
Definition stopped (l : Loop) : Prop := terminated l = true /\ hardAbort l = true.

(** A terminated instance has its master signal fired. *)
Definition terminated_means_stopped (l : Loop) : Prop :=
  terminated l = true -> hardAbort l = true.

(** The controller of the tool calls is one that has been allocated, and
    the master signal has fired on a terminated instance only. *)
Definition well_formed (st : Store) : Prop :=
  (forall n, execAbortController (self st) = Some n -> n < length (signals st))
  /\ (terminated (self st) = false -> hardAbort (self st) = false).

(** A computation that ends on an instance satisfying [Post] when it
    starts on one satisfying [Pre]. *)
Definition takes (Pre Post : Loop -> Prop) {A} (m : M A) : Prop :=
  forall st, Pre (self st) -> Post (self (snd (fst (m st)))).

(** The reply that a woken run works on: the one that wakes it, or the
    one it had received before it started a tool. *)
Definition reply_of (p : Pending) (w : Wake) : option OllamaChatCompletionResponse :=
  match p, w with
  | AwaitChat _, ChatSettled (FetchJson r) => Some r
  | AwaitChat _, _ => None
  | AwaitCallInLoop _ r _ _, _ => Some r
  | AwaitCallMain _ r _, _ => Some r
  end.

(** The number of requests posted to the backend in the pieces of a
    history, and the calls of [run] and of [terminate] in a sequence of
    calls. *)
Definition is_post (e : Event) : bool :=
  match e with PostChat _ => true | _ => false end.

Definition posts (segs : list Segment) : nat :=
  length (filter is_post (flat_map seg_events segs)).

Definition is_run (c : Call) : bool :=
  match c with CallRun _ => true | _ => false end.

Definition is_terminate (c : Call) : bool :=
  match c with CallTerminate => true | _ => false end.

(** *** The list of models *)

(** The order of [sort()]. *)
Definition units_le (a b : text) : Prop := ModelList.leb_units a b = true.

(** The calls that read or fill the cache of the list of models, and what
    a sequence of them does: the promises handed out by
    [getAvailableModels], and the cache at the end. *)
Inductive CacheCall : Type := Preload | Get.

Definition is_get (c : CacheCall) : bool :=
  match c with Get => true | Preload => false end.

Fixpoint cache_run (calls : list CacheCall) (c : ModelList.Cache)
    : list nat * ModelList.Cache :=
  match calls with
  | [] => ([], c)
  | Preload :: calls' => cache_run calls' (ModelList.preloadModels c)
  | Get :: calls' =>
      let '(p, c1) := ModelList.getAvailableModels c in
      let '(ps, c2) := cache_run calls' c1 in
      (p :: ps, c2)
  end.

(** What [fetchModels] has to list: the models of OpenAI, or the
    recommended ones without a key or, after what was listed, on a
    failure; then, when Ollama is enabled, the models that Ollama
    lists. *)
Definition listed_openai (cfg : ModelList.Config) (openai : ModelList.OpenAIList)
    : list text :=
  if truthy (ModelList.OPENAI_API_KEY cfg) then
    flat_map (fun y => match y with Some id => [id] | None => [] end)
      (ModelList.yielded openai)
    ++ match ModelList.failure openai with
       | Some _ => ModelList.RECOMMENDED_OPENAI_MODELS
       | None => []
       end
  else ModelList.RECOMMENDED_OPENAI_MODELS.

Definition listed_ollama (cfg : ModelList.Config) (tags : ModelList.TagsOutcome)
    : list text :=
  if ModelList.OLLAMA_ENABLED cfg then
    match tags with
    | ModelList.TagsJson models =>
        List.map (fun m => formatOllamaModelName (ModelList.name m)) models
    | _ => []
    end
  else [].

(** *** The calls of a turn *)

(** A match that the scan has found in the text [t]: what [r] matches at
    the offset [index], with its groups. *)
Definition found_in (r : Regex.re) (t : text) (m : Regex.Match) : Prop :=
  exists mm,
    Regex.match_here r (skipn (Regex.index m) t) = Some mm
    /\ m = Regex.mk_match (Regex.index m) (skipn (Regex.index m) t) mm
    /\ Regex.index m + length (Regex.whole m) <= length t.

(** Matches that follow one another in the text, none reaching into the
    next. *)
Definition one_after_the_other (ms : list Regex.Match) : Prop :=
  StronglySorted
    (fun a b => Regex.index a + length (Regex.whole a) <= Regex.index b) ms.

(** The call that the scan builds for a shell fence and for a patch
    block. *)
Definition shell_call_of (m : Regex.Match) (c : FunctionToolCall) : Prop :=
  exists id,
    c = mkCall (Some id) (Some id) (Some (lit "shell"))
          (Some (Json.stringify_command
                   (split_on 32%N (trim (group_or_empty (Regex.group1 m)))))) None.

Definition patch_call_of (m : Regex.Match) (c : FunctionToolCall) : Prop :=
  exists id,
    c = scanner_patch_call id (unescape_newlines (group_or_empty (Regex.group1 m))).

(** The one call that [convertOllamaResponseToResponseItem] reads from a
    text, when [functionCallRegex] matches in it: its name and its
    arguments. *)
Definition single_call (t : text) : option (text * text) :=
  match Regex.search functionCallRegex t 0 with
  | Some {| Regex.group1 := Some ((_ :: _) as functionName); Regex.group2 := g2 |} =>
      Some (functionName, or_else g2 [])
  | _ => None
  end.

(** What the caller sees of a call that [run] dispatches: the call is
    handed to [onItem], and so is, once [handleFunctionCall] has settled,
    the answer to it, which carries [call_id ?? id] of the call. *)
Inductive Dispatch : Type :=
| Handed (call : FunctionToolCall)
| Answered (call_id : option text).

Definition dispatch_of (ev : list Event) : list Dispatch :=
  flat_map (fun e => match e with
                     | OnItem (FunctionCall c) => [Handed c]
                     | OnItem (FunctionCallOutput call_id _) => [Answered call_id]
                     | _ => []
                     end) ev.

(** Calls that are dispatched one by one, in the order of the list: each
    is handed over and answered before the next is handed over. *)
Definition one_by_one (calls : list FunctionToolCall) : list Dispatch :=
  flat_map (fun c => [Handed c; Answered (correlation_id c)]) calls.

(** The calls that a piece hands to [onItem]. *)
Definition calls_of (ev : list Event) : list FunctionToolCall :=
  flat_map (fun e => match e with OnItem (FunctionCall c) => [c] | _ => [] end) ev.

(** An item that is neither a call nor the answer to one. *)
Definition plain_item (item : ResponseItem) : Prop :=
  match item with
  | FunctionCall _ | FunctionCallOutput _ _ => False
  | _ => True
  end.

(** Answers to what a run waits for in which every tool fulfils, with
    additional items that are neither calls nor answers to calls. *)
Definition tools_fulfil (answer : Pending -> Wake) : Prop :=
  forall p,
    fits p (answer p)
    /\ forall r, answer p = ExecSettled r ->
         exists o, r = inr o
                   /\ Forall plain_item (match additionalItems o with
                                         | Some items => items
                                         | None => []
                                         end).

(** The promise of [handleFunctionCall] for the call with the correlation
    id [call_id]: the tool runs, or the promise has fulfilled with the
    answer to that call and with no other answer and no call. *)
Definition answers (call_id : option text) (h : Handler) : Prop :=
  match h with
  | Settled (inl _) => False
  | Settled (inr result) => dispatch_of (List.map OnItem result) = [Answered call_id]
  | InExec call_id' => call_id' = call_id
  end.

(** The run [rid] is driven to its end, and what it dispatches on the way
    is [trace]. *)
Definition ends_with (step : Sys -> Call -> Sys) (answer : Pending -> Wake)
    (rid : nat) (sys : Sys) (trace : list Dispatch) : Prop :=
  exists fuel new,
    segments (drive step answer rid fuel sys) = segments sys ++ new
    /\ find_task rid (tasks (drive step answer rid fuel sys)) = None
    /\ dispatch_of (flat_map seg_events new) = trace.

(** *** Calls between [cancel] and a reply *)

(** A call that starts no run and does not wake the run [rid] up. *)
Definition leaves_waiting (rid : nat) (c : Call) : Prop :=
  match c with
  | CallRun _ => False
  | WakeUp r _ => r <> rid
  | _ => True
  end.

(** *** The tools of the current run *)

(** The signal [sig] was handed to a tool that one of the pieces [segs]
    has started. *)
Definition started_with (segs : list Segment) (sig : option nat) : Prop :=
  exists seg args, In seg segs /\ In (HandleExecCommand args sig) (seg_events seg).

(** Every tool that the pieces [segs] have started has the signal of a
    controller that is aborted or is the current one. *)
Definition tools_tracked (st : Store) (segs : list Segment) : Prop :=
  forall sig, started_with segs sig ->
    exists n, sig = Some n
              /\ n < length (signals st)
              /\ (aborted st n = true \/ execAbortController (self st) = Some n).

(** Once the master signal has fired, the current controller is
    aborted. *)
Definition fired_means_aborted (st : Store) : Prop :=
  hardAbort (self st) = true ->
  forall n, execAbortController (self st) = Some n -> aborted st n = true.

(** There is a current controller, unless the master signal has fired. *)
Definition has_controller (st : Store) : Prop :=
  hardAbort (self st) = false -> exists n, execAbortController (self st) = Some n.

(** ** A fenced patch block *)

(** [applyPatchRegex] from its group on. *)
Definition patch_rest : Regex.re :=
  Regex.seq [Regex.Grp 1 (Regex.StarL Regex.any);
             Regex.Lit Json.dq;
             Regex.ws; Regex.Lit (lit "]"); Regex.ws;
             Regex.Lit (lit "}"); Regex.ws; Regex.Lit fence].

(** The text of a patch block before the patch and after it.  A blank
    stands before the comma: without it the block is read as the one call
    of the reply and is not scanned. *)
Definition patch_open : text :=
  fence ++ lit "json" ++ nl
  ++ lit "{" ++ Json.dq ++ lit "cmd" ++ Json.dq ++ lit ":["
  ++ Json.dq ++ lit "apply_patch" ++ Json.dq ++ lit " ," ++ Json.dq.

Definition patch_close : text := Json.dq ++ lit "]}" ++ nl ++ fence.

(** A patch block as the prompt asks for it: a fenced [json] block
    holding the object whose [cmd] is [apply_patch] and the patch [p]. *)
Definition patch_block_of (p : text) : text := patch_open ++ p ++ patch_close.

(* ================================================================= *)
(** * Properties *)

(** ** The embedding on small inputs *)

Example trim_strips_both_ends :
  trim ([160%N; 10%N] ++ lit " ls -la " ++ [9%N; 8232%N]) = lit "ls -la".
Proof. reflexivity. Qed.

Example split_keeps_empty_pieces :
  split_on 32%N (lit "a  b ") = [lit "a"; []; lit "b"; []].
Proof. reflexivity. Qed.

Example stringify_escapes :
  Json.stringify_command [lit "echo"; Json.dq ++ lit "a\b" ++ [10%N; 1%N; 55357%N]]
  = lit "{" ++ Json.dq ++ lit "command" ++ Json.dq ++ lit ":["
    ++ Json.dq ++ lit "echo" ++ Json.dq ++ lit ","
    ++ Json.dq ++ lit "\" ++ Json.dq ++ lit "a\\b\n\u0001\ud83d" ++ Json.dq
    ++ lit "]}".
Proof. reflexivity. Qed.

(** The greedy [\s*] of [shellCommandRegex] first takes both line feeds
    and gives one back, so that an empty fence matches with an empty
    command. *)
Example empty_fence_matches :
  Regex.exec_all shellCommandRegex (lit "x" ++ fence ++ lit "sh" ++ nl ++ nl ++ fence)
  = [Regex.mkMatch 1 (fence ++ lit "sh" ++ nl ++ nl ++ fence) (Some []) None].
Proof. reflexivity. Qed.

Example two_fences :
  List.map (fun m => (Regex.index m, Regex.group1 m))
    (Regex.exec_all shellCommandRegex
       (Scenario.shell_block "ls" ++ lit " and " ++ Scenario.shell_block "pwd"))
  = [(0, Some (lit "ls")); (19, Some (lit "pwd"))].
Proof. reflexivity. Qed.

Example thinking_is_split_off :
  extractThinkingContent (lit " <think> plan </think> done ")
  = (Some (lit "plan"), lit "done").
Proof. reflexivity. Qed.

(** A reply that is one JSON command block becomes a [function_call] item
    named after the first word, with the second word as raw arguments. *)
Example command_block_becomes_call :
  convertOllamaResponseToResponseItem Scenario.world
    (Scenario.answer
       (fence ++ lit "json" ++ nl ++ lit "{" ++ Json.quote (lit "cmd") ++ lit ": ["
        ++ Json.quote (lit "shell") ++ lit "," ++ Json.quote (lit "ls") ++ lit "]}"
        ++ nl ++ fence))
    0%Z (store Scenario.fresh)
  = (Normal [FunctionCall (mkCall (Some (lit "ollama-0-k3j9x2m"))
                             (Some (lit "ollama-0-k3j9x2m")) (Some (lit "shell"))
                             (Some (lit "ls")) None)],
     tick (tick (store Scenario.fresh)), []).
Proof. reflexivity. Qed.

(** The request of a turn: the instructions first, then the history, then
    the new messages; the model name without its prefix. *)
Example request_of_a_turn :
  let sys := steps Scenario.world
               (new_loop Scenario.world (lit "ollama:gemma3:1b")
                  (Some (lit "be brief")) (lit "session"))
               [CallRun [Scenario.user_says "hi"; Scenario.tool_output "done"]] in
  flat_map (fun seg => seg_events seg) (segments sys)
  = [SetSessionId (lit "session");
     SetCurrentModel (lit "ollama:gemma3:1b");
     OnItem (Scenario.user_says "hi");
     OnLoading true;
     PostChat (mkRequest (lit "gemma3:1b")
                 [Scenario.says system "be brief"; Scenario.says user "hi";
                  Scenario.says system "done"] false)].
Proof. reflexivity. Qed.

(** A turn with a shell fence, to its end. *)
Example shell_turn :
  let sys := steps Scenario.world Scenario.fresh
               [CallRun [Scenario.user_says "list files"];
                WakeUp 0 (ChatSettled (Scenario.reply (Scenario.shell_block "ls")));
                WakeUp 0 (ExecSettled (inr (mkExecOutcome (lit "a.txt") (Some (lit "{}")) None)));
                WakeUp 0 Tick] in
  List.map (fun seg => (seg_outcome seg, length (seg_events seg))) (segments sys)
  = [(None, 2); (None, 3); (None, 3); (None, 0); (Some Fulfilled, 3)]
  /\ conversationHistory (self (store sys))
     = [Scenario.says user "list files";
        mkMessage assistant (Scenario.shell_block "ls")].
Proof. split; reflexivity. Qed.

(** The master signal reaches the tool call in flight. *)
Example terminate_aborts_tool_call :
  let sys := steps Scenario.world Scenario.fresh
               [CallRun [Scenario.user_says "list files"];
                WakeUp 0 (ChatSettled (Scenario.reply (Scenario.shell_block "ls")));
                CallTerminate] in
  execAbortController (self (store sys)) = Some 0
  /\ aborted (store sys) 0 = true.
Proof. split; reflexivity. Qed.

(** ** Model names *)

Lemma startsWith_app (p r : text) : startsWith (p ++ r) p = true.
Proof.
  induction p as [|c p IH]; simpl; [now destruct r|].
  now rewrite N.eqb_refl, IH.
Qed.

Lemma startsWith_split (s p : text) :
  startsWith s p = true -> s = p ++ skipn (length p) s.
Proof.
  revert s; induction p as [|c p IH]; intros s H; [reflexivity|].
  destruct s as [|d s]; [discriminate|]. simpl in H.
  apply andb_true_iff in H as [Hc Hs].
  apply N.eqb_eq in Hc; subst d.
  simpl. f_equal. now apply IH.
Qed.

Lemma startsWith_prefix (s p : text) :
  startsWith s p = true <-> exists r, s = p ++ r.
Proof.
  split.
  - intros H. exists (skipn (length p) s). now apply startsWith_split.
  - intros [r ->]. apply startsWith_app.
Qed.

(** C10.  Extracting the name from a formatted model name gives the name
    back; and [extractOllamaModelName] answers [null] exactly when
    [isOllamaModel] answers [false], which is exactly when the string does
    not start with ["ollama:"]. *)
Theorem extract_format_and_null_iff_not_ollama :
  (forall m : text, extractOllamaModelName (formatOllamaModelName m) = Some m)
  /\ (forall s : text,
        (extractOllamaModelName s = None <-> isOllamaModel s = false)
        /\ (isOllamaModel s = false <-> ~ exists r, s = lit "ollama:" ++ r)).
Proof.
  split.
  - intros m. unfold extractOllamaModelName, formatOllamaModelName.
    rewrite startsWith_app. reflexivity.
  - intros s. unfold extractOllamaModelName, isOllamaModel. split.
    + destruct (startsWith s ollama_prefix); simpl; split; congruence.
    + rewrite <- (startsWith_prefix s (lit "ollama:")).
      change (lit "ollama:") with ollama_prefix.
      destruct (startsWith s ollama_prefix); split; congruence.
Qed.

(** ** [clearConversationHistory], [cancel] and [terminate] *)

(** Unfolds the methods and the operations on completions, so that a piece
    of the loop can be computed on a symbolic store. *)
Ltac unfold_methods :=
  cbv [cancel terminate hardAbort_abort clearConversationHistory call bind
       this assign return_ ret throw await emit onLoading onItem
       onLastResponseId abort new_AbortController randomUUID_compact
       Date_now Math_random_suffix fresh_id tick try_catch try_finally
       outer_try inner_try outer_catch inner_catch error_item];
  cbn [self signals draws model instructions conversationHistory
       currentStream generation execAbortController canceled terminated
       hardAbort sessionId set_conversationHistory set_currentStream
       set_generation set_execAbortController set_canceled set_terminated
       set_hardAbort set_sessionId app].

Lemma length_set_flag (n : nat) (fs : list bool) :
  length (set_flag n fs) = length fs.
Proof.
  revert n; induction fs as [|b fs IH]; intros [|n]; simpl; auto.
Qed.

(** C9.  [clearConversationHistory] leaves an empty history, generation 0
    and the session id just drawn from [randomUUID] (dashes removed); the
    other fields of the instance, [terminated] and [canceled] among them,
    and every abort controller are as before. *)
Theorem clearConversationHistory_frame (W : World) (st : Store) :
  let '(c, st', ev) := clearConversationHistory W st in
  let sid := remove_all 45%N (crypto_randomUUID W (draws st)) in
  c = Normal tt
  /\ self st' =
       mkLoop (model (self st)) (instructions (self st)) []
         (currentStream (self st)) 0 (execAbortController (self st))
         (canceled (self st)) (terminated (self st)) (hardAbort (self st)) sid
  /\ signals st' = signals st
  /\ ev = [SetSessionId sid].
Proof. destruct st as [l sg d]; unfold_methods. repeat split. Qed.

(** What [cancel] does on an instance that is not terminated: the effects
    that the description of [terminate] refers to. *)
Lemma cancel_effect (st : Store) :
  terminated (self st) = false ->
  let '(c, st', ev) := cancel st in
  c = Normal tt
  /\ canceled (self st') = true
  /\ execAbortController (self st') = Some (length (signals st))
  /\ generation (self st') = generation (self st) + 1
  /\ ev = [OnLoading false].
Proof.
  destruct st as [l sg d]; unfold_methods. intros ->. cbn.
  destruct (execAbortController l); cbn; repeat split.
  now rewrite length_set_flag.
Qed.

(** C4 (as the code behaves).  [terminate] sets [terminated] before it
    calls [cancel], and [cancel] returns at once on a terminated instance.
    So, whatever the state: a repeated [terminate] changes nothing and a
    first one fires the master signal, but [canceled], the generation and
    the controller of the tool calls are left as they were, no controller
    is allocated and the loading callback is never called. *)
Theorem terminate_skips_cancel (st : Store) :
  let '(c, st', ev) := terminate st in
  c = Normal tt
  /\ terminated (self st') = true
  /\ (if terminated (self st) then st' = st else hardAbort (self st') = true)
  /\ canceled (self st') = canceled (self st)
  /\ generation (self st') = generation (self st)
  /\ execAbortController (self st') = execAbortController (self st)
  /\ length (signals st') = length (signals st)
  /\ ev = [].
Proof.
  destruct st as [l sg d]; unfold_methods.
  destruct (terminated l) eqn:Ht; cbn; [repeat split; assumption|].
  destruct (hardAbort l) eqn:Hh; cbn; [repeat split; assumption|].
  destruct (execAbortController l) as [n|] eqn:He; cbn; repeat split;
    auto using length_set_flag.
Qed.

(** The same at a fresh instance that has a run in flight: after
    [terminate] the run is still not cancelled, the generation is still 1
    and the last loading state reported is still [true]. *)
Example terminate_on_running_instance :
  let sys := steps Scenario.world Scenario.fresh
               [CallRun [Scenario.user_says "hi"]; CallTerminate] in
  canceled (self (store sys)) = false
  /\ generation (self (store sys)) = 1
  /\ flat_map (fun seg => filter (fun e => match e with OnLoading _ => true | _ => false end)
                            (seg_events seg)) (segments sys)
     = [OnLoading true].
Proof. vm_compute. repeat split. Qed.

(** C2 (as the code behaves).  On a terminated instance the [throw] of
    [run] is caught by the outer [try] of [run] itself: the call completes
    normally, having reported loading [false] and an error notice. *)
Theorem run_after_terminate_completes (W : World) (st : Store)
    (input : list ResponseItem) :
  let '(_, st1, _) := terminate st in
  run W input st1 =
    (Normal tt, tick st1,
     [ConsoleError (lit "Unhandled error in OllamaAgentLoop.run():") terminated_error;
      OnLoading false;
      OnItem (Message (Some (lit "error-" ++ dec_Z (date_now W (draws st1)))) system
                [mkPart input_text
                   (warning_sign ++ lit "Unhandled error: "
                    ++ lit "OllamaAgentLoop has been terminated")])]).
Proof.
  destruct st as [l sg d]; unfold run; unfold_methods.
  destruct (terminated l) eqn:Ht; cbn.
  - rewrite Ht. reflexivity.
  - destruct (hardAbort l) eqn:Hh; cbn; [reflexivity|].
    destruct (execAbortController l) eqn:He; reflexivity.
Qed.

(** ** History eviction *)

Lemma system_partition (h : list OllamaMessage) :
  length (filter is_system h) + length (filter not_system h) = length h.
Proof. apply (filter_length is_system h). Qed.

Lemma no_system_among_not_system (k : nat) (h : list OllamaMessage) :
  filter is_system (skipn k (filter not_system h)) = [].
Proof.
  assert (H : Forall (fun m => is_system m = false) (skipn k (filter not_system h))).
  { apply Forall_forall. intros m Hin.
    assert (Hin' : In m (filter not_system h)).
    { rewrite <- (firstn_skipn k). apply in_or_app. now right. }
    apply filter_In in Hin' as [_ Hn]. unfold not_system, is_system in *.
    now apply negb_true_iff in Hn. }
  induction H as [|m l Hm _ IH]; simpl; [reflexivity|]. now rewrite Hm.
Qed.

Lemma filter_idem_system (h : list OllamaMessage) :
  filter is_system (filter is_system h) = filter is_system h.
Proof.
  induction h as [|m h IH]; simpl; [reflexivity|].
  destruct (is_system m) eqn:E; simpl; rewrite ?E, IH; reflexivity.
Qed.

Lemma limit_history_keeps_system (h : list OllamaMessage) :
  filter is_system (limit_history h) = filter is_system h.
Proof.
  unfold limit_history. destruct (MAX_HISTORY_LENGTH <? length h); [|reflexivity].
  rewrite filter_app, filter_idem_system. unfold slice_from.
  destruct (_ <? 0)%Z; rewrite no_system_among_not_system; apply app_nil_r.
Qed.

Lemma limit_history_bound (h : list OllamaMessage) :
  length (filter is_system h) < MAX_HISTORY_LENGTH ->
  length (limit_history h) <= MAX_HISTORY_LENGTH.
Proof.
  intros Hs. unfold limit_history.
  destruct (MAX_HISTORY_LENGTH <? length h) eqn:E.
  - apply Nat.ltb_lt in E. pose proof (system_partition h) as Hp.
    rewrite length_app. unfold slice_from, MAX_HISTORY_LENGTH in *.
    destruct (_ <? 0)%Z eqn:Z0.
    + rewrite length_skipn. lia.
    + apply Z.ltb_ge in Z0. lia.
  - apply Nat.ltb_ge in E. exact E.
Qed.

(** C8.  When the history, with the messages of the turn pushed, holds 25
    messages that are not system messages and one that is, the history
    after [updateConversationHistory] is the system message followed by the
    last 19 of the others, each group in its former order; the six oldest
    are dropped. *)
Theorem scenario_D (st : Store)
    (newMessages : list OllamaMessage) (response : OllamaChatCompletionResponse) :
  let h := pushed (conversationHistory (self st)) newMessages response in
  length (filter not_system h) = 25 ->
  length (filter is_system h) = 1 ->
  let '(_, st', _) := updateConversationHistory newMessages response st in
  exists older recent,
    filter not_system h = older ++ recent
    /\ length older = 6 /\ length recent = 19
    /\ conversationHistory (self st') = filter is_system h ++ recent.
Proof.
  destruct st as [l sg d]. unfold updateConversationHistory. unfold_methods.
  set (h := pushed (conversationHistory l) newMessages response).
  intros Hn Hs.
  exists (firstn 6 (filter not_system h)), (skipn 6 (filter not_system h)).
  split; [symmetry; apply firstn_skipn|].
  split; [rewrite length_firstn; lia|].
  split; [rewrite length_skipn; lia|].
  unfold limit_history. pose proof (system_partition h) as Hp.
  unfold MAX_HISTORY_LENGTH.
  replace (20 <? length h) with true by (symmetry; apply Nat.ltb_lt; lia).
  unfold slice_from. rewrite Hs, Hn. reflexivity.
Qed.

Lemma scenario_D_witness :
  let st :=
    mkStore (set_conversationHistory
               (Scenario.says system "be brief" :: Scenario.numbered user 1 22)
               (self (store Scenario.fresh))) [] 0 in
  let new := Scenario.numbered user 23 2 in
  let response := Scenario.answer (lit "25") in
  let h := pushed (conversationHistory (self st)) new response in
  length (filter not_system h) = 25
  /\ length (filter is_system h) = 1
  /\ let '(_, st', _) := updateConversationHistory new response st in
     exists older recent,
       filter not_system h = older ++ recent
       /\ length older = 6 /\ length recent = 19
       /\ conversationHistory (self st') = filter is_system h ++ recent.
Proof.
  split; [reflexivity|]. split; [reflexivity|].
  apply (scenario_D
           (mkStore (set_conversationHistory
                       (Scenario.says system "be brief" :: Scenario.numbered user 1 22)
                       (self (store Scenario.fresh))) [] 0)
           (Scenario.numbered user 23 2) (Scenario.answer (lit "25")));
    reflexivity.
Defined.

(** ** The scan for tool calls *)

(** A successful run of the matcher has called its continuation further
    on in the text. *)
Lemma star_greedy_advances {R} (p : unit16 -> bool) (s : text) :
  forall pos caps (k : Regex.cont R) x,
    Regex.star_greedy p s pos caps k = Some x ->
    exists s' pos' caps', pos <= pos' /\ k s' pos' caps' = Some x.
Proof.
  induction s as [|c s IH]; intros pos caps k x; simpl.
  - intros H. exists [], pos, caps. auto.
  - destruct (p c).
    + destruct (Regex.star_greedy p s (S pos) caps k) as [y|] eqn:E.
      * intros [= <-]. apply IH in E as (s' & pos' & caps' & Hle & Hk).
        exists s', pos', caps'. split; [lia|exact Hk].
      * intros H. exists (c :: s), pos, caps. auto.
    + intros H. exists (c :: s), pos, caps. auto.
Qed.

Lemma star_lazy_advances {R} (p : unit16 -> bool) (s : text) :
  forall pos caps (k : Regex.cont R) x,
    Regex.star_lazy p s pos caps k = Some x ->
    exists s' pos' caps', pos <= pos' /\ k s' pos' caps' = Some x.
Proof.
  induction s as [|c s IH]; intros pos caps k x; simpl.
  - destruct (k [] pos caps) as [y|] eqn:E; [|discriminate].
    intros [= <-]. exists [], pos, caps. auto.
  - destruct (k (c :: s) pos caps) as [y|] eqn:E.
    + intros [= <-]. exists (c :: s), pos, caps. auto.
    + destruct (p c); [|discriminate]. intros H.
      apply IH in H as (s' & pos' & caps' & Hle & Hk).
      exists s', pos', caps'. split; [lia|exact Hk].
Qed.

Lemma run_advances {R} (r : Regex.re) :
  forall s pos caps (k : Regex.cont R) x,
    Regex.run r s pos caps k = Some x ->
    exists s' pos' caps', pos <= pos' /\ k s' pos' caps' = Some x.
Proof.
  induction r as [|l|p|a IHa b IHb|a IHa b IHb|p|p|n r IH];
    intros s pos caps k x; simpl.
  - intros H. exists s, pos, caps. auto.
  - destruct (Regex.strip_prefix l s) as [s'|]; [|discriminate].
    intros H. exists s', (pos + length l), caps. split; [lia|exact H].
  - destruct s as [|c s]; [discriminate|]. destruct (p c); [|discriminate].
    intros H. exists s, (S pos), caps. split; [lia|exact H].
  - intros H. apply IHa in H as (s1 & pos1 & caps1 & Hle1 & H).
    apply IHb in H as (s2 & pos2 & caps2 & Hle2 & H).
    exists s2, pos2, caps2. split; [lia|exact H].
  - destruct (Regex.run a s pos caps k) as [y|] eqn:E.
    + intros [= <-]. now apply IHa in E.
    + apply IHb.
  - apply star_greedy_advances.
  - apply star_lazy_advances.
  - intros H. apply IH in H as (s1 & pos1 & caps1 & Hle & H).
    exists s1, pos1, (Regex.set_cap n (pos, pos1) caps1). split; [lia|exact H].
Qed.

Lemma strip_prefix_length (l s s' : text) :
  Regex.strip_prefix l s = Some s' -> length l <= length s.
Proof.
  revert s; induction l as [|c l IH]; intros [|d s]; simpl; try discriminate;
    try lia.
  destruct (N.eqb c d); [|discriminate]. intros H. apply IH in H. lia.
Qed.

(** A regular expression that opens with a literal only has matches at
    least as long as the literal. *)
Lemma literal_first_match (l : text) (r : Regex.re) (s : text) (m : nat * Regex.Caps) :
  Regex.match_here (Regex.Cat (Regex.Lit l) r) s = Some m ->
  length l <= fst m /\ length l <= length s.
Proof.
  unfold Regex.match_here. simpl.
  destruct (Regex.strip_prefix l s) as [s'|] eqn:E; [|discriminate].
  intros H. apply run_advances in H as (s1 & pos1 & caps1 & Hle & [= <-]).
  apply strip_prefix_length in E. simpl. split; lia.
Qed.

(** Where [search] finds its match. *)
Lemma search_found (r : Regex.re) (s : text) :
  forall idx m,
    Regex.search r s idx = Some m ->
    exists j mm,
      j <= length s
      /\ Regex.match_here r (skipn j s) = Some mm
      /\ m = Regex.mk_match (idx + j) (skipn j s) mm.
Proof.
  induction s as [|c s IH]; intros idx m; simpl.
  - destruct (Regex.match_here r []) as [mm|] eqn:E; [|discriminate].
    intros [= <-]. exists 0, mm. rewrite Nat.add_0_r. auto.
  - destruct (Regex.match_here r (c :: s)) as [mm|] eqn:E.
    + intros [= <-]. exists 0, mm. rewrite Nat.add_0_r. simpl. auto with arith.
    + intros H. apply IH in H as (j & mm & Hj & Hm & ->).
      exists (S j), mm. simpl. rewrite Nat.add_succ_r. split; [lia|]. auto.
Qed.

Lemma exec_found (r : Regex.re) (s : text) (i : nat) (m : Regex.Match) :
  advancing r ->
  Regex.exec r s i = Some m ->
  i <= Regex.index m
  /\ Regex.index m < Regex.index m + length (Regex.whole m)
  /\ Regex.index m + length (Regex.whole m) <= length s.
Proof.
  intros Hadv. unfold Regex.exec.
  destruct (length s <? i) eqn:E; [discriminate|]. apply Nat.ltb_ge in E.
  intros H. apply search_found in H as (j & mm & Hj & Hm & ->).
  destruct (Hadv _ _ Hm) as [H1 H2].
  rewrite length_skipn in Hj. rewrite skipn_skipn in *.
  unfold Regex.mk_match. cbn [Regex.index Regex.whole].
  rewrite length_firstn. rewrite length_skipn in *. lia.
Qed.

Lemma exec_while_from (r : Regex.re) (s : text) :
  advancing r ->
  forall fuel i, Forall (fun m => i <= Regex.index m) (Regex.exec_while fuel r s i).
Proof.
  intros Hadv. induction fuel as [|fuel IH]; intros i; simpl; [constructor|].
  destruct (Regex.exec r s i) as [m|] eqn:E; [|constructor].
  destruct (exec_found r s i m Hadv E) as (H1 & H2 & H3).
  constructor; [exact H1|].
  eapply Forall_impl; [|apply IH]. simpl; intros; lia.
Qed.

(** The fuel of [exec_all] is never used up: the loop has ended by
    itself, and more fuel changes nothing. *)
Lemma exec_while_fuel (r : Regex.re) (s : text) :
  advancing r ->
  forall fuel i,
    i <= length s -> length s - i < fuel ->
    Regex.exec_while (S fuel) r s i = Regex.exec_while fuel r s i.
Proof.
  intros Hadv. induction fuel as [|fuel IH]; intros i Hi Hf; [lia|].
  change (Regex.exec_while (S (S fuel)) r s i)
    with (match Regex.exec r s i with
          | None => []
          | Some m => m :: Regex.exec_while (S fuel) r s
                              (Regex.index m + length (Regex.whole m))
          end).
  change (Regex.exec_while (S fuel) r s i)
    with (match Regex.exec r s i with
          | None => []
          | Some m => m :: Regex.exec_while fuel r s
                              (Regex.index m + length (Regex.whole m))
          end).
  destruct (Regex.exec r s i) as [m|] eqn:E; [|reflexivity].
  destruct (exec_found r s i m Hadv E) as (H1 & H2 & H3).
  f_equal. apply IH; lia.
Qed.

Lemma exec_all_any_fuel (r : Regex.re) (s : text) (more : nat) :
  advancing r ->
  Regex.exec_while (S (length s) + more) r s 0 = Regex.exec_all r s.
Proof.
  intros Hadv. unfold Regex.exec_all. induction more as [|more IH].
  - now rewrite Nat.add_0_r.
  - rewrite Nat.add_succ_r, <- IH. apply exec_while_fuel; [exact Hadv|lia|lia].
Qed.

Lemma advancing_literal_first (l : text) (r : Regex.re) :
  1 <= length l -> advancing (Regex.Cat (Regex.Lit l) r).
Proof.
  intros Hl s m H. apply literal_first_match in H. lia.
Qed.

Lemma shellCommandRegex_advancing : advancing shellCommandRegex.
Proof. apply (advancing_literal_first fence). simpl; lia. Qed.

Lemma applyPatchRegex_advancing : advancing applyPatchRegex.
Proof. apply (advancing_literal_first (fence ++ lit "json")). simpl; lia. Qed.

Lemma shell_calls_spec (W : World) (ms : list Regex.Match) :
  forall st, exists calls st',
    shell_calls W ms st = (Normal calls, st', [])
    /\ List.map fst calls = List.map Regex.index (filter has_command ms)
    /\ Forall (named "shell") calls.
Proof.
  induction ms as [|m ms IH]; intros st; simpl.
  - exists [], st. repeat split; constructor.
  - unfold has_command at 1.
    destruct (truthy (trim (group_or_empty (Regex.group1 m)))) eqn:E.
    + destruct (IH (tick (tick st))) as (calls & st' & Hc & Hi & Hn).
      unfold_methods. unfold tick in Hc; cbn [self signals draws] in Hc.
      rewrite Hc. eexists _, st'. split; [reflexivity|]. split.
      * simpl. now rewrite Hi.
      * constructor; [reflexivity|assumption].
    + apply IH.
Qed.

Lemma patch_calls_spec (W : World) (ms : list Regex.Match) :
  forall st, exists calls st',
    patch_calls W ms st = (Normal calls, st', [])
    /\ List.map fst calls = List.map Regex.index (filter has_patch ms)
    /\ Forall (named "apply_patch") calls
    /\ Forall from_patch_block calls.
Proof.
  induction ms as [|m ms IH]; intros st; simpl.
  - exists [], st. repeat split; constructor.
  - unfold has_patch at 1.
    destruct (truthy (unescape_newlines (group_or_empty (Regex.group1 m)))) eqn:E.
    + destruct (IH (tick (tick st))) as (calls & st' & Hc & Hi & Hn & Hf).
      unfold_methods. unfold tick in Hc; cbn [self signals draws] in Hc.
      rewrite Hc. eexists _, st'. split; [reflexivity|]. split; [|split].
      * simpl. now rewrite Hi.
      * constructor; [reflexivity|assumption].
      * constructor; [|assumption]. eexists _, _. reflexivity.
    + apply IH.
Qed.


(** The same reply in a whole turn: the shell call is emitted and answered
    first, the patch call second. *)
Example patch_then_shell_turn :
  let sys := steps Scenario.world Scenario.fresh
               [CallRun [Scenario.user_says "fix it"];
                WakeUp 0 (ChatSettled (Scenario.reply Scenario.patch_then_shell));
                WakeUp 0 (ExecSettled (inr (mkExecOutcome (lit "a.txt") (Some (lit "{}")) None)));
                WakeUp 0 Tick;
                WakeUp 0 Tick] in
  flat_map (fun seg =>
              flat_map (fun e => match e with
                                 | OnItem (FunctionCall c) => [fc_name c]
                                 | _ => []
                                 end) (seg_events seg)) (segments sys)
  = [Some (lit "shell"); Some (lit "apply_patch")].
Proof. vm_compute. reflexivity. Qed.

(** ** Dispatch of a patch call *)

(** C5 (as the code behaves).  A call built by the scan for a patch block
    never reaches a collaborator: [handleFunctionCall] settles at once, with
    no result on a cancelled instance, with the "invalid arguments" result
    when [parseToolCallArguments] rejects the arguments, and with the "no
    function found" result otherwise.  Every patch call that
    [parseFunctionCalls] returns is such a call. *)
Theorem patch_call_is_not_applied (W : World) :
  (forall (id patch : text) (st : Store),
     handleFunctionCall W (scanner_patch_call id patch) st
     = (Normal
          (Settled (inr
             (if canceled (self st) then []
              else match parseToolCallArguments W (Json.stringify_patch patch) with
                   | Some _ =>
                       [FunctionCallOutput (Some id) (lit "no function found")]
                   | None =>
                       [FunctionCallOutput (falsy_or (Some id) (Some id))
                          (lit "invalid arguments: " ++ Json.stringify_patch patch)]
                   end))),
        st, []))
  /\ (forall (t : text) (st : Store),
        exists shells patches st',
          parseFunctionCalls_located W t st = (Normal (shells ++ patches), st', [])
          /\ Forall (named "shell") shells
          /\ Forall from_patch_block patches).
Proof.
  split.
  - intros id patch st. unfold handleFunctionCall, scanner_patch_call.
    unfold_methods. cbn [fc_function fc_name fc_arguments fc_call_id fc_id nullish_or].
    destruct (canceled (self st)); [reflexivity|].
    destruct (parseToolCallArguments W _); reflexivity.
  - intros t st.
    destruct (shell_calls_spec W (Regex.exec_all shellCommandRegex t) st)
      as (shells & st1 & Hs & _ & Hns).
    destruct (patch_calls_spec W (Regex.exec_all applyPatchRegex t) st1)
      as (patches & st2 & Hp & _ & _ & Hf).
    exists shells, patches, st2. repeat split; try assumption.
    unfold parseFunctionCalls_located. unfold_methods. now rewrite Hs, Hp.
Qed.

(** The patch call of the turn above is answered with "invalid arguments"
    in the world of the examples, whose parser wants a command. *)
Example patch_call_answer :
  handleFunctionCall Scenario.world
    (scanner_patch_call (lit "ollama-patch-2-k3j9x2m") (lit "*** Begin Patch"))
    (store Scenario.fresh)
  = (Normal (Settled (inr
       [FunctionCallOutput (Some (lit "ollama-patch-2-k3j9x2m"))
          (lit "invalid arguments: " ++ Json.stringify_patch (lit "*** Begin Patch"))])),
     store Scenario.fresh, []).
Proof. vm_compute. reflexivity. Qed.

(** ** Pieces of [run] *)

Section Only.
Variable P : Event -> Prop.

Lemma only_ret {A} (a : A) : only P (ret a).
Proof. intros st; constructor. Qed.

Lemma only_return {A} : only P (@return_ A).
Proof. intros st; constructor. Qed.

Lemma only_throw {A} (e : JsError) : only P (@throw A e).
Proof. intros st; constructor. Qed.

Lemma only_await {A} (p : Pending) : only P (@await A p).
Proof. intros st; constructor. Qed.

Lemma only_this : only P this.
Proof. intros st; constructor. Qed.

Lemma only_assign (f : Loop -> Loop) : only P (assign f).
Proof. intros st; constructor. Qed.

Lemma only_emit (e : Event) : P e -> only P (emit e).
Proof. intros H st; repeat constructor; exact H. Qed.

Lemma only_bind {A B} (m : M A) (f : A -> M B) :
  only P m -> (forall a, only P (f a)) -> only P (bind m f).
Proof.
  intros Hm Hf st. unfold bind. specialize (Hm st).
  destruct (m st) as [[c st1] ev1]; simpl in Hm.
  destruct c as [a| |e|p]; simpl; try exact Hm.
  specialize (Hf a st1). destruct (f a st1) as [[c2 st2] ev2]; simpl in *.
  apply Forall_app; split; assumption.
Qed.

Lemma only_for_each {A} (xs : list A) (body : A -> M unit) :
  (forall x, only P (body x)) -> only P (for_each xs body).
Proof.
  intros Hb. induction xs as [|x xs IH]; simpl.
  - apply only_ret.
  - apply only_bind; [apply Hb | intros _; exact IH].
Qed.

Lemma only_Date_now (W : World) : only P (Date_now W).
Proof. intros st; constructor. Qed.

Lemma only_Math_random_suffix (W : World) : only P (Math_random_suffix W).
Proof. intros st; constructor. Qed.

Lemma only_fresh_id (W : World) (prefix : text) : only P (fresh_id W prefix).
Proof.
  apply only_bind; [apply only_Date_now|]. intros now.
  apply only_bind; [apply only_Math_random_suffix|]. intros r. apply only_ret.
Qed.
End Only.

Ltac ordinary_step :=
  first
    [ apply only_ret | apply only_return | apply only_throw | apply only_await
    | apply only_this | apply only_assign | apply only_Date_now
    | apply only_fresh_id
    | apply only_emit; exact I
    | apply only_for_each; intro
    | apply only_bind; [|intro] ].

Lemma ordinary_shell_calls (W : World) (ms : list Regex.Match) :
  only ordinary (shell_calls W ms).
Proof.
  induction ms as [|m ms IH]; simpl; [apply only_ret|].
  destruct (truthy _); [|exact IH].
  apply only_bind; [apply only_fresh_id|]. intros id.
  apply only_bind; [exact IH|]. intros rest. apply only_ret.
Qed.

Lemma ordinary_patch_calls (W : World) (ms : list Regex.Match) :
  only ordinary (patch_calls W ms).
Proof.
  induction ms as [|m ms IH]; simpl; [apply only_ret|].
  destruct (truthy _); [|exact IH].
  apply only_bind; [apply only_fresh_id|]. intros id.
  apply only_bind; [exact IH|]. intros rest. apply only_ret.
Qed.

Lemma ordinary_parseFunctionCalls (W : World) (t : text) :
  only ordinary (parseFunctionCalls W t).
Proof.
  unfold parseFunctionCalls, parseFunctionCalls_located.
  repeat first [apply ordinary_shell_calls | apply ordinary_patch_calls | ordinary_step].
Qed.

Lemma ordinary_convert (W : World) (response : OllamaChatCompletionResponse)
    (start : Z) :
  only ordinary (convertOllamaResponseToResponseItem W response start).
Proof.
  unfold convertOllamaResponseToResponseItem.
  apply only_bind; [apply only_fresh_id|]. intros id.
  destruct (extractThinkingContent _) as [thinking cleaned].
  apply only_bind.
  - destruct thinking as [[|c t]|]; repeat ordinary_step.
  - intros reasoning.
    destruct (Regex.search _ _ _) as [[i w [[|c g1]|] g2]|]; apply only_ret.
Qed.

Lemma ordinary_handleFunctionCall (W : World) (item : FunctionToolCall) :
  only ordinary (handleFunctionCall W item).
Proof.
  unfold handleFunctionCall. apply only_bind; [apply only_this|]. intros l.
  destruct (canceled l); [apply only_ret|].
  destruct (parseToolCallArguments W _); [|apply only_ret].
  destruct (_ || _); repeat ordinary_step.
Qed.

Lemma last_item_app_single {A} (xs : list A) (x : A) : last_item (xs ++ [x]) = Some x.
Proof.
  induction xs as [|y xs IH]; simpl; [reflexivity|].
  rewrite IH. destruct (xs ++ [x]) eqn:E; [|reflexivity].
  now destruct xs.
Qed.

Lemma last_item_app {A} (xs ys : list A) :
  ys <> [] -> last_item (xs ++ ys) = last_item ys.
Proof.
  intros Hy. induction xs as [|x xs IH]; simpl; [reflexivity|].
  rewrite IH. destruct (xs ++ ys) eqn:E; [|reflexivity].
  apply app_eq_nil in E as [_ E]. contradiction.
Qed.

Lemma loadings_app (a b : list Event) : loadings (a ++ b) = loadings a ++ loadings b.
Proof. apply flat_map_app. Qed.

Lemma failures_app (a b : list Event) : failures (a ++ b) = failures a ++ failures b.
Proof. apply flat_map_app. Qed.

Lemma ordinary_failures (ev : list Event) : Forall ordinary ev -> failures ev = [].
Proof.
  induction 1 as [|e ev He _ IH]; simpl; [reflexivity|].
  destruct e; simpl in *; try assumption. contradiction.
Qed.

Lemma last_loading_ends_false (ev more : list Event) :
  loadings more = [] -> last_loading (ev ++ OnLoading false :: more) = Some false.
Proof.
  intros Hm. unfold last_loading. rewrite loadings_app. simpl. rewrite Hm.
  apply last_item_app_single.
Qed.

Lemma for_each_pure {A} (g : A -> list Event) (body : A -> M unit) (xs : list A) :
  (forall x st, body x st = (Normal tt, st, g x)) ->
  forall st, for_each xs body st = (Normal tt, st, flat_map g xs).
Proof.
  intros Hb. induction xs as [|x xs IH]; intros st; simpl; [reflexivity|].
  unfold bind. now rewrite Hb, IH.
Qed.

Ltac unfold_caller :=
  cbv [Caller.cancel Caller.terminate Caller.onItem Caller.onLoading
       Caller.onLastResponseId Caller.callback Caller.inner_catch
       Caller.outer_catch Caller.inner_try Caller.outer_try
       hardAbort_abort call bind this assign return_ ret throw await emit
       abort new_AbortController Date_now Math_random_suffix fresh_id tick
       try_catch try_finally error_item];
  cbn [self signals draws model instructions conversationHistory
       currentStream generation execAbortController canceled terminated
       hardAbort sessionId set_conversationHistory set_currentStream
       set_generation set_execAbortController set_canceled set_terminated
       set_hardAbort set_sessionId app].

Lemma only_callback (P : Event -> Prop) (e : Event) (r : option JsError) :
  P e -> only P (Caller.callback e r).
Proof. intros H st. repeat constructor. exact H. Qed.

Section OrdinaryBodies.
Variable W : World.
Variable K : Caller.Callbacks.

Lemma ordinary_onItem (item : ResponseItem) : only ordinary (Caller.onItem K item).
Proof. intros st. exact (only_callback ordinary (OnItem item) _ I st). Qed.

Lemma ordinary_onLoading (b : bool) : only ordinary (Caller.onLoading K b).
Proof. intros st. exact (only_callback ordinary (OnLoading b) _ I st). Qed.

Lemma ordinary_onLastResponseId (id : text) :
  only ordinary (Caller.onLastResponseId K id).
Proof. intros st. exact (only_callback ordinary (OnLastResponseId id) _ I st). Qed.

Lemma ordinary_finish_turn (t : Turn) (response : OllamaChatCompletionResponse) :
  only ordinary (Caller.finish_turn W K t response).
Proof.
  unfold Caller.finish_turn, updateConversationHistory.
  repeat first [apply ordinary_onLastResponseId | ordinary_step].
Qed.

Lemma ordinary_dispatch_calls (t : Turn) (response : OllamaChatCompletionResponse)
    (calls : list FunctionToolCall) :
  only ordinary (Caller.dispatch_calls W K t response calls).
Proof.
  destruct calls as [|c rest]; simpl; [apply ordinary_finish_turn|].
  apply only_bind; [apply only_this|]. intros l.
  destruct (stop_requested l);
    repeat first [apply ordinary_handleFunctionCall | apply ordinary_onItem
                 | apply ordinary_onLoading | ordinary_step].
Qed.

Lemma ordinary_after_chat (t : Turn) (response : OllamaChatCompletionResponse) :
  only ordinary (Caller.after_chat W K t response).
Proof.
  unfold Caller.after_chat. apply only_bind; [apply only_this|]. intros l.
  destruct (stop_requested l);
    [repeat first [apply ordinary_onLoading | ordinary_step]|].
  apply only_bind; [apply ordinary_convert|]. intros items.
  apply only_bind; [apply only_for_each; intro; apply ordinary_onItem|]. intros _.
  destruct (last_item items) as [[id r [|part parts]|call|id o|id d c|]|];
    try apply ordinary_finish_turn.
  - destruct (part_has_text part); [|apply ordinary_finish_turn].
    apply only_bind; [apply ordinary_parseFunctionCalls|]. intros calls.
    apply ordinary_dispatch_calls.
  - apply only_bind; [apply ordinary_handleFunctionCall|]. intros h.
    apply only_await.
Qed.

Lemma ordinary_resume_body (p : Pending) (w : Wake) (body : M unit) :
  Caller.resume_body W K p w = Some body -> only ordinary body.
Proof.
  destruct p as [t|t response rest [[e|result]|callId]|t response [[e|result]|callId]];
    destruct w as [o|r|]; simpl; intros [= <-].
  - destruct (ollamaChatCompletion_settle o); [apply only_throw|apply ordinary_after_chat].
  - apply only_throw.
  - apply only_bind; [apply only_for_each; intro; apply ordinary_onItem|]. intros _.
    apply ordinary_dispatch_calls.
  - apply only_await.
  - apply only_throw.
  - apply only_bind; [apply only_for_each; intro; apply ordinary_onItem|]. intros _.
    apply ordinary_finish_turn.
  - apply only_await.
Qed.

Hypothesis K_reports : reports_return K.

(** A piece inside both [try] blocks. *)
Lemma guarded_piece_reports (body : M unit) (st : Store) :
  only ordinary body ->
  piece_reports (Caller.outer_try W K (Caller.inner_try W K body) st).
Proof.
  intros Hb. specialize (Hb st). destruct K_reports as [Hl Hi].
  unfold notice in Hi. unfold_caller.
  destruct (body st) as [[c st1] ev1]; simpl in Hb.
  apply ordinary_failures in Hb.
  destruct c as [[]| |e|p]; cbn [piece_reports].
  - rewrite Hl. cbn [piece_reports]. split; [now apply last_loading_ends_false|].
    left. rewrite failures_app, Hb. reflexivity.
  - rewrite Hl. cbn [piece_reports]. split; [now apply last_loading_ends_false|].
    left. rewrite failures_app, Hb. reflexivity.
  - rewrite Hi, Hl. cbn [piece_reports app]. split.
    + now apply (last_loading_ends_false (ev1 ++ [_; _])).
    + right. exists ev1, e, (date_now W (draws st1)). split; [exact Hb|].
      left. now rewrite <- app_assoc.
  - exact Hb.
Qed.
End OrdinaryBodies.

(** A loop whose body calls a callback at most, on every element. *)
Lemma for_each_callbacks {A} (body : A -> M unit) (xs : list A) :
  (forall x st, exists ev,
      failures ev = [] /\ loadings ev = []
      /\ (body x st = (Normal tt, st, ev) \/ exists e, body x st = (Throw e, st, ev))) ->
  forall st, exists ev,
    failures ev = [] /\ loadings ev = []
    /\ (for_each xs body st = (Normal tt, st, ev)
        \/ exists e, for_each xs body st = (Throw e, st, ev)).
Proof.
  intros Hb. induction xs as [|x xs IH]; intros st; simpl.
  - exists []. repeat split. now left.
  - unfold bind. destruct (Hb x st) as (ev & Hf & Hl & [E|[e E]]); rewrite E.
    + destruct (IH st) as (ev' & Hf' & Hl' & [E'|[e' E']]); rewrite E';
        exists (ev ++ ev'); rewrite failures_app, loadings_app, Hf, Hl, Hf', Hl';
        repeat split; eauto.
    + exists ev. repeat split; eauto.
Qed.

Lemma run_piece_reports (W : World) (K : Caller.Callbacks) (input : list ResponseItem)
    (st : Store) :
  reports_return K -> piece_reports (Caller.run W K input st).
Proof.
  intros [Hl Hi]. unfold notice in Hi. unfold Caller.run.
  set (echo := fun item : ResponseItem =>
                 if is_user_message item then Caller.onItem K item else ret tt).
  assert (Hecho : forall x s, exists ev,
             failures ev = [] /\ loadings ev = []
             /\ (echo x s = (Normal tt, s, ev) \/ exists e, echo x s = (Throw e, s, ev))).
  { intros x s. unfold echo. destruct (is_user_message x).
    - unfold Caller.onItem, Caller.callback.
      destruct (Caller.onItem_throws K x s) as [e|]; exists [OnItem x]; repeat split; eauto.
    - exists []. repeat split. now left. }
  unfold_caller.
  destruct (terminated (self st)) eqn:Ht.
  - rewrite Hl, Hi. cbn [piece_reports]. split; [reflexivity|].
    right. exists [], terminated_error, (date_now W (draws st)). split; [reflexivity|].
    right. reflexivity.
  - match goal with
    | |- context [for_each input echo ?s] =>
        destruct (for_each_callbacks echo input Hecho s) as (ev & Hf & Hn & [E|[e E]]);
        rewrite E
    end.
    + match goal with
      | |- context [Caller.onLoading_throws K true ?s] =>
          destruct (Caller.onLoading_throws K true s) as [e|]
      end.
      * rewrite Hl, Hi. cbn [piece_reports]. split.
        -- unfold last_loading. rewrite !loadings_app, Hn. reflexivity.
        -- right. eexists (ev ++ [OnLoading true]), e, _. split.
           ++ rewrite failures_app, Hf. reflexivity.
           ++ right. rewrite <- !app_assoc. reflexivity.
      * cbn [piece_reports]. rewrite !failures_app, Hf. reflexivity.
    + rewrite Hl, Hi. cbn [piece_reports]. split.
      * unfold last_loading. rewrite !loadings_app, Hn. reflexivity.
      * right. eexists ev, e, _. split; [exact Hf|]. right. reflexivity.
Qed.

(** ** Histories *)

Lemma events_of_run_snoc (rid : nat) (segs : list Segment) (seg : Segment) :
  events_of_run rid (segs ++ [seg])
  = events_of_run rid segs ++ (if of_run rid seg then seg_events seg else []).
Proof.
  unfold events_of_run. rewrite filter_app, flat_map_app. simpl.
  destruct (of_run rid seg); simpl; now rewrite ?app_nil_r.
Qed.

Lemma outcomes_of_run_snoc (rid : nat) (segs : list Segment) (seg : Segment) :
  outcomes_of_run rid (segs ++ [seg])
  = outcomes_of_run rid segs
    ++ (if of_run rid seg
        then match seg_outcome seg with Some o => [o] | None => [] end
        else []).
Proof.
  unfold outcomes_of_run. rewrite filter_app, flat_map_app. simpl.
  destruct (of_run rid seg); simpl; now rewrite ?app_nil_r.
Qed.

Lemma find_task_drop_same (rid : nat) (ts : list (nat * Pending)) :
  find_task rid (drop_task rid ts) = None.
Proof.
  induction ts as [|[r p] ts IH]; simpl; [reflexivity|].
  destruct (Nat.eqb r rid) eqn:E; simpl; [exact IH|]. now rewrite E.
Qed.

Lemma find_task_drop_other (rid rid' : nat) (ts : list (nat * Pending)) :
  rid' <> rid -> find_task rid' (drop_task rid ts) = find_task rid' ts.
Proof.
  intros Hne. induction ts as [|[r p] ts IH]; simpl; [reflexivity|].
  destruct (Nat.eqb r rid) eqn:E; simpl.
  - apply Nat.eqb_eq in E. subst r.
    destruct (Nat.eqb rid rid') eqn:E'; [apply Nat.eqb_eq in E'; congruence|exact IH].
  - destruct (Nat.eqb r rid'); [reflexivity|exact IH].
Qed.

Lemma no_segment_no_event (rid : nat) (segs : list Segment) :
  (forall seg, In seg segs -> seg_run seg <> Some rid) ->
  events_of_run rid segs = [] /\ outcomes_of_run rid segs = [].
Proof.
  intros H. assert (E : filter (of_run rid) segs = []).
  { induction segs as [|seg segs IH]; simpl; [reflexivity|].
    unfold of_run at 1. destruct (seg_run seg) as [r|] eqn:Er.
    - destruct (Nat.eqb r rid) eqn:E.
      + apply Nat.eqb_eq in E. subst r. exfalso. apply (H seg); [now left|exact Er].
      + apply IH. intros s Hs. apply H. now right.
    - apply IH. intros s Hs. apply H. now right. }
  unfold events_of_run, outcomes_of_run. now rewrite E.
Qed.

Lemma surfaced_app (old ev : list Event) :
  failures old = [] -> surfaced ev -> surfaced (old ++ ev).
Proof.
  intros Ho [Hf|(ev1 & e & now & Hf & [-> | ->])].
  - left. now rewrite failures_app, Ho, Hf.
  - right. exists (old ++ ev1), e, now. split.
    + now rewrite failures_app, Ho, Hf.
    + left. now rewrite app_assoc.
  - right. exists (old ++ ev1), e, now. split.
    + now rewrite failures_app, Ho, Hf.
    + right. now rewrite app_assoc.
Qed.

Lemma last_loading_app (old ev : list Event) (b : bool) :
  last_loading ev = Some b -> last_loading (old ++ ev) = Some b.
Proof.
  intros H. unfold last_loading in *. rewrite loadings_app.
  rewrite last_item_app; [exact H|]. intros E. rewrite E in H. discriminate.
Qed.

(** The state of a run that a piece does not belong to. *)
Lemma run_state_other (sys : Sys) (st : Store) (ts : list (nat * Pending))
    (next : nat) (seg : Segment) (rid : nat) :
  of_run rid seg = false ->
  find_task rid ts = find_task rid (tasks sys) ->
  run_state sys rid ->
  run_state (mkSys st ts next (segments sys ++ [seg])) rid.
Proof.
  intros Hs Ht H. unfold run_state in *. cbn [tasks segments].
  rewrite events_of_run_snoc, outcomes_of_run_snoc, Hs, !app_nil_r, Ht. exact H.
Qed.

Lemma method_inv (sys : Sys) (m : M unit) : Inv sys -> Inv (method sys m).
Proof.
  intros [It Is Ir]. unfold method.
  destruct (m (store sys)) as [[c st] ev]. constructor; cbn [tasks next_run segments].
  - exact It.
  - intros seg rid Hin Hr. apply in_app_or in Hin as [Hin|[<-|[]]]; [eauto|discriminate].
  - intros rid Hr. apply run_state_other; [reflexivity|reflexivity|now apply Ir].
Qed.

(** A piece of run [rid] is added to a history in which that run is new
    or suspended. *)
Lemma settle_run_inv (sys : Sys) (rid : nat) (captured : option nat) (next : nat)
    (r : Completion unit * Store * list Event) :
  Inv sys -> piece_reports r ->
  outcomes_of_run rid (segments sys) = [] ->
  failures (events_of_run rid (segments sys)) = [] ->
  next_run sys <= next -> rid < next ->
  (forall rid', rid' < next -> rid' <> rid -> rid' < next_run sys) ->
  Inv (settle_run sys rid captured next r).
Proof.
  intros [It Is Ir] Hok Ho Hf Hn Hr Hnew.
  destruct r as [[c st] ev]. cbn [piece_reports] in Hok. unfold settle_run.
  assert (Hother : forall q rid', rid' <> rid ->
            find_task rid' (drop_task rid (tasks sys)) = find_task rid' (tasks sys)
            /\ find_task rid' ((rid, q) :: drop_task rid (tasks sys))
               = find_task rid' (tasks sys)).
  { intros q rid' Hne. cbn [find_task].
    destruct (Nat.eqb rid rid') eqn:E; [apply Nat.eqb_eq in E; congruence|].
    split; now apply find_task_drop_other. }
  assert (Hseg : forall c' o, of_run rid (mkSegment (Some rid) c'
                                           (generation (self st)) ev o) = true).
  { intros c' o. unfold of_run. cbn [seg_run]. apply Nat.eqb_refl. }
  assert (Hnot : forall c' o rid', rid' <> rid ->
            of_run rid' (mkSegment (Some rid) c' (generation (self st)) ev o) = false).
  { intros c' o rid' Hne. unfold of_run. cbn [seg_run]. apply Nat.eqb_neq. congruence. }
  assert (Hfin : last_loading ev = Some false /\ surfaced ev ->
            Inv (mkSys st (drop_task rid (tasks sys)) next
                   (segments sys ++
                    [mkSegment (Some rid) captured (generation (self st)) ev
                       (Some Fulfilled)]))).
  { intros [Hl Hs]. constructor; cbn [tasks next_run segments].
    - intros rid' p Hfind. destruct (Nat.eq_dec rid' rid) as [->|Hne]; [exact Hr|].
      rewrite (proj1 (Hother (AwaitChat (mkTurn 0 0%Z [])) rid' Hne)) in Hfind.
      apply It in Hfind. lia.
    - intros s rid' Hin Hrun. apply in_app_or in Hin as [Hin|[<-|[]]].
      + specialize (Is _ _ Hin Hrun). lia.
      + injection Hrun as <-. exact Hr.
    - intros rid' Hlt. destruct (Nat.eq_dec rid' rid) as [->|Hne].
      + right. cbn [tasks segments].
        rewrite events_of_run_snoc, outcomes_of_run_snoc, Hseg, Ho.
        cbn [seg_events seg_outcome app]. split; [apply find_task_drop_same|].
        split; [reflexivity|]. split; [now apply last_loading_app|].
        now apply surfaced_app.
      + apply run_state_other; [now apply Hnot| |apply Ir; now apply Hnew].
        apply (Hother (AwaitChat (mkTurn 0 0%Z [])) rid' Hne). }
  destruct c as [[]| |e|p]; try contradiction; try (now apply Hfin).
  constructor; cbn [tasks next_run segments].
  - intros rid' q Hfind. destruct (Nat.eq_dec rid' rid) as [->|Hne]; [exact Hr|].
    rewrite (proj2 (Hother p rid' Hne)) in Hfind. apply It in Hfind. lia.
  - intros s rid' Hin Hrun. apply in_app_or in Hin as [Hin|[<-|[]]].
    + specialize (Is _ _ Hin Hrun). lia.
    + injection Hrun as <-. exact Hr.
  - intros rid' Hlt. destruct (Nat.eq_dec rid' rid) as [->|Hne].
    + left. exists p. cbn [tasks segments find_task]. rewrite Nat.eqb_refl.
      rewrite events_of_run_snoc, outcomes_of_run_snoc, Hseg, Ho.
      cbn [seg_events seg_outcome app]. split; [reflexivity|]. split; [reflexivity|].
      now rewrite failures_app, Hf, Hok.
    + apply run_state_other; [now apply Hnot| |apply Ir; now apply Hnew].
      apply (Hother p rid' Hne).
Qed.

Lemma step_inv (W : World) (K : Caller.Callbacks) (sys : Sys) (c : Call) :
  reports_return K -> Inv sys -> Inv (Caller.step W K sys c).
Proof.
  intros HK HI. destruct c as [input| | | |rid w]; cbn [Caller.step];
    try now apply method_inv.
  - destruct (no_segment_no_event (next_run sys) (segments sys)) as [He Ho].
    { intros seg Hin Hs. pose proof (inv_segments sys HI _ _ Hin Hs). lia. }
    apply settle_run_inv; try assumption; try lia.
    + now apply run_piece_reports.
    + now rewrite He.
  - destruct (find_task rid (tasks sys)) as [p|] eqn:Hfind; [|exact HI].
    unfold Caller.run_resume.
    destruct (Caller.resume_body W K p w) as [body|] eqn:Hb; [|exact HI].
    pose proof (inv_tasks sys HI _ _ Hfind) as Hlt.
    destruct (inv_runs sys HI rid Hlt) as [(q & _ & Ho & Hf)|(Hnone & _)];
      [|congruence].
    apply settle_run_inv; try assumption; try lia.
    apply guarded_piece_reports; [exact HK|]. eapply ordinary_resume_body; eassumption.
Qed.

Lemma new_loop_inv (W : World) (m : text) (i : option text) (sid : text) :
  Inv (new_loop W m i sid).
Proof.
  unfold new_loop. destruct (constructor W sid (blank m i)) as [[c st] ev].
  constructor; cbn [tasks segments next_run find_task]; try discriminate.
  - intros seg rid [<-|[]]; discriminate.
  - intros rid Hr. lia.
Qed.

Lemma steps_inv (W : World) (K : Caller.Callbacks) (cs : list Call) :
  reports_return K -> forall sys, Inv sys -> Inv (Caller.steps W K sys cs).
Proof.
  intros HK. induction cs as [|c cs IH]; intros sys HI; simpl; [exact HI|].
  apply IH. now apply step_inv.
Qed.

(** ** Every run settles *)

Section Suspends.
Variable P : Pending -> Prop.

Lemma suspends_ret {A} (a : A) : suspends P (ret a).
Proof. intros st; exact I. Qed.

Lemma suspends_return {A} : suspends P (@return_ A).
Proof. intros st; exact I. Qed.

Lemma suspends_throw {A} (e : JsError) : suspends P (@throw A e).
Proof. intros st; exact I. Qed.

Lemma suspends_await {A} (p : Pending) : P p -> suspends P (@await A p).
Proof. intros H st; exact H. Qed.

Lemma suspends_this : suspends P this.
Proof. intros st; exact I. Qed.

Lemma suspends_assign (f : Loop -> Loop) : suspends P (assign f).
Proof. intros st; exact I. Qed.

Lemma suspends_emit (e : Event) : suspends P (emit e).
Proof. intros st; exact I. Qed.

Lemma suspends_callback (e : Event) (r : option JsError) :
  suspends P (Caller.callback e r).
Proof. intros st. unfold Caller.callback. now destruct r. Qed.

Lemma suspends_bind {A B} (m : M A) (f : A -> M B) :
  suspends P m -> (forall a, suspends P (f a)) -> suspends P (bind m f).
Proof.
  intros Hm Hf st. unfold bind. specialize (Hm st).
  destruct (m st) as [[c st1] ev1]; simpl in Hm.
  destruct c as [a| |e|p]; simpl; try exact I; try exact Hm.
  specialize (Hf a st1). destruct (f a st1) as [[c2 st2] ev2]. exact Hf.
Qed.

Lemma suspends_for_each {A} (xs : list A) (body : A -> M unit) :
  (forall x, suspends P (body x)) -> suspends P (for_each xs body).
Proof.
  intros Hb. induction xs as [|x xs IH]; simpl.
  - apply suspends_ret.
  - apply suspends_bind; [apply Hb | intros _; exact IH].
Qed.

Lemma suspends_try_catch {A} (body : M A) (handler : JsError -> M A) :
  suspends P body -> (forall e, suspends P (handler e)) ->
  suspends P (try_catch body handler).
Proof.
  intros Hb Hh st. unfold try_catch. specialize (Hb st).
  destruct (body st) as [[c st1] ev1]; simpl in Hb.
  destruct c as [a| |e|p]; simpl; try exact I; try exact Hb.
  specialize (Hh e st1). destruct (handler e st1) as [[c2 st2] ev2]. exact Hh.
Qed.

Lemma suspends_try_finally {A} (body : M A) (fin : M unit) :
  suspends P body -> suspends P fin -> suspends P (try_finally body fin).
Proof.
  intros Hb Hf st. unfold try_finally. specialize (Hb st).
  destruct (body st) as [[c st1] ev1]; simpl in Hb.
  destruct c as [a| |e|p]; simpl; try exact Hb;
    specialize (Hf st1); destruct (fin st1) as [[[[]| |e2|p2] st2] ev2];
    simpl in *; try exact I; exact Hf.
Qed.

Lemma suspends_Date_now (W : World) : suspends P (Date_now W).
Proof. intros st; exact I. Qed.

Lemma suspends_Math_random_suffix (W : World) : suspends P (Math_random_suffix W).
Proof. intros st; exact I. Qed.

Lemma suspends_fresh_id (W : World) (prefix : text) : suspends P (fresh_id W prefix).
Proof.
  apply suspends_bind; [apply suspends_Date_now|]. intros now.
  apply suspends_bind; [apply suspends_Math_random_suffix|]. intros r.
  apply suspends_ret.
Qed.

Lemma suspends_shell_calls (W : World) (ms : list Regex.Match) :
  suspends P (shell_calls W ms).
Proof.
  induction ms as [|m ms IH]; simpl; [apply suspends_ret|].
  destruct (truthy _); [|exact IH].
  apply suspends_bind; [apply suspends_fresh_id|]. intros id.
  apply suspends_bind; [exact IH|]. intros rest. apply suspends_ret.
Qed.

Lemma suspends_patch_calls (W : World) (ms : list Regex.Match) :
  suspends P (patch_calls W ms).
Proof.
  induction ms as [|m ms IH]; simpl; [apply suspends_ret|].
  destruct (truthy _); [|exact IH].
  apply suspends_bind; [apply suspends_fresh_id|]. intros id.
  apply suspends_bind; [exact IH|]. intros rest. apply suspends_ret.
Qed.
End Suspends.

Ltac suspends_step :=
  first
    [ apply suspends_ret | apply suspends_return | apply suspends_throw
    | apply suspends_this | apply suspends_assign | apply suspends_emit
    | apply suspends_callback | apply suspends_Date_now | apply suspends_fresh_id
    | apply suspends_shell_calls | apply suspends_patch_calls
    | apply suspends_for_each; intro
    | apply suspends_bind; [|intro] ].

Section SuspendsInBodies.
Variable W : World.
Variable K : Caller.Callbacks.

Lemma suspends_onItem (P : Pending -> Prop) (item : ResponseItem) :
  suspends P (Caller.onItem K item).
Proof. intros st. exact (suspends_callback P (OnItem item) _ st). Qed.

Lemma suspends_onLoading (P : Pending -> Prop) (b : bool) :
  suspends P (Caller.onLoading K b).
Proof. intros st. exact (suspends_callback P (OnLoading b) _ st). Qed.

Lemma suspends_onLastResponseId (P : Pending -> Prop) (id : text) :
  suspends P (Caller.onLastResponseId K id).
Proof. intros st. exact (suspends_callback P (OnLastResponseId id) _ st). Qed.

Lemma suspends_parseFunctionCalls (P : Pending -> Prop) (t : text) :
  suspends P (parseFunctionCalls W t).
Proof.
  unfold parseFunctionCalls, parseFunctionCalls_located. repeat suspends_step.
Qed.

Lemma suspends_convert (P : Pending -> Prop) (response : OllamaChatCompletionResponse)
    (start : Z) :
  suspends P (convertOllamaResponseToResponseItem W response start).
Proof.
  unfold convertOllamaResponseToResponseItem.
  apply suspends_bind; [apply suspends_fresh_id|]. intros id.
  destruct (extractThinkingContent _) as [thinking cleaned].
  apply suspends_bind.
  - destruct thinking as [[|c t]|]; repeat suspends_step.
  - intros reasoning.
    destruct (Regex.search _ _ _) as [[i w [[|c g1]|] g2]|]; apply suspends_ret.
Qed.

Lemma suspends_handleFunctionCall (P : Pending -> Prop) (item : FunctionToolCall) :
  suspends P (handleFunctionCall W item).
Proof.
  unfold handleFunctionCall. apply suspends_bind; [apply suspends_this|]. intros l.
  destruct (canceled l); [apply suspends_ret|].
  destruct (parseToolCallArguments W _); [|apply suspends_ret].
  destruct (_ || _); repeat suspends_step.
Qed.

Lemma suspends_finish_turn (P : Pending -> Prop) (t : Turn)
    (response : OllamaChatCompletionResponse) :
  suspends P (Caller.finish_turn W K t response).
Proof.
  unfold Caller.finish_turn, updateConversationHistory.
  repeat first [apply suspends_onLastResponseId | suspends_step].
Qed.

(** The loop suspends with the calls that are left. *)
Lemma suspends_dispatch_calls (t : Turn) (response : OllamaChatCompletionResponse)
    (calls : list FunctionToolCall) :
  suspends (fun q => in_call q /\ awaits_left q <= 2 * length calls)
    (Caller.dispatch_calls W K t response calls).
Proof.
  destruct calls as [|c rest]; cbn [Caller.dispatch_calls];
    [apply suspends_finish_turn|].
  apply suspends_bind; [apply suspends_this|]. intros l.
  destruct (stop_requested l).
  - apply suspends_bind; [apply suspends_onLoading|]. intros _. apply suspends_return.
  - apply suspends_bind; [apply suspends_onItem|]. intros _.
    apply suspends_bind; [apply suspends_handleFunctionCall|]. intros h.
    apply suspends_await. split; [exact I|].
    destruct h; cbn [awaits_left length]; lia.
Qed.

Lemma suspends_weaken (P Q : Pending -> Prop) {A} (m : M A) :
  (forall p, P p -> Q p) -> suspends P m -> suspends Q m.
Proof.
  intros H Hm st. specialize (Hm st). destruct (fst (fst (m st))); auto.
Qed.

Lemma suspends_after_chat (t : Turn) (response : OllamaChatCompletionResponse) :
  suspends in_call (Caller.after_chat W K t response).
Proof.
  unfold Caller.after_chat. apply suspends_bind; [apply suspends_this|]. intros l.
  destruct (stop_requested l).
  { apply suspends_bind; [apply suspends_onLoading|]. intros _. apply suspends_return. }
  apply suspends_bind; [apply suspends_convert|]. intros items.
  apply suspends_bind; [apply suspends_for_each; intro; apply suspends_onItem|].
  intros _.
  destruct (last_item items) as [[id r [|part parts]|call|id o|id d c|]|];
    try apply suspends_finish_turn.
  - destruct (part_has_text part); [|apply suspends_finish_turn].
    apply suspends_bind; [apply suspends_parseFunctionCalls|]. intros calls.
    eapply suspends_weaken; [|apply suspends_dispatch_calls]. now intros p [H _].
  - apply suspends_bind; [apply suspends_handleFunctionCall|]. intros h.
    apply suspends_await. exact I.
Qed.

(** A woken run suspends again only inside a call, and with fewer
    [await]s before it when it was inside a call already. *)
Lemma suspends_resume_body (p : Pending) (w : Wake) (body : M unit) :
  Caller.resume_body W K p w = Some body ->
  suspends (fun q => in_call q /\ (in_call p -> awaits_left q < awaits_left p)) body.
Proof.
  destruct p as [t|t response rest [[e|result]|callId]|t response [[e|result]|callId]];
    destruct w as [o|r|]; simpl; intros [= <-].
  - destruct (ollamaChatCompletion_settle o); [apply suspends_throw|].
    eapply suspends_weaken; [|apply suspends_after_chat].
    intros q Hq. split; [exact Hq|]. intros [].
  - apply suspends_throw.
  - apply suspends_bind; [apply suspends_for_each; intro; apply suspends_onItem|].
    intros _. eapply suspends_weaken; [|apply suspends_dispatch_calls].
    intros q [Hq Hn]. split; [exact Hq|]. intros _. cbn [awaits_left]. lia.
  - apply suspends_await. split; [exact I|]. intros _.
    destruct r; cbn [handleFunctionCall_resume awaits_left]; lia.
  - apply suspends_throw.
  - apply suspends_bind; [apply suspends_for_each; intro; apply suspends_onItem|].
    intros _. apply suspends_finish_turn.
  - apply suspends_await. split; [exact I|]. intros _.
    destruct r; cbn [handleFunctionCall_resume awaits_left]; lia.
Qed.

Lemma suspends_guards (P : Pending -> Prop) (body : M unit) :
  suspends P body -> suspends P (Caller.outer_try W K (Caller.inner_try W K body)).
Proof.
  intros Hb. unfold Caller.outer_try, Caller.inner_try.
  apply suspends_try_catch.
  - apply suspends_try_finally; [|apply suspends_onLoading].
    apply suspends_try_catch; [exact Hb|]. intros e. unfold Caller.inner_catch.
    unfold error_item. repeat first [apply suspends_onItem | suspends_step].
  - intros e. unfold Caller.outer_catch, error_item.
    repeat first [apply suspends_onItem | apply suspends_onLoading | suspends_step].
Qed.

Lemma resume_fits (p : Pending) (w : Wake) :
  fits p w -> exists body, Caller.resume_body W K p w = Some body.
Proof.
  destruct p as [t|t response rest [[e|result]|callId]|t response [[e|result]|callId]];
    destruct w as [o|r|]; simpl; intros H; try contradiction; eauto.
Qed.

Lemma settle_run_next (sys : Sys) (rid : nat) (captured : option nat) (next : nat)
    (r : Completion unit * Store * list Event) :
  next_run (settle_run sys rid captured next r) = next.
Proof. destruct r as [[[[]| |e|p] st] ev]; reflexivity. Qed.

Lemma settle_run_task (sys : Sys) (rid : nat) (captured : option nat) (next : nat)
    (r : Completion unit * Store * list Event) :
  find_task rid (tasks (settle_run sys rid captured next r))
  = match fst (fst r) with Await p => Some p | _ => None end.
Proof.
  destruct r as [[[[]| |e|p] st] ev]; cbn [settle_run tasks fst];
    try apply find_task_drop_same.
  cbn [find_task]. now rewrite Nat.eqb_refl.
Qed.

(** One wake-up with what the run waits for. *)
Lemma wake_up_progress (sys : Sys) (rid : nat) (p : Pending) (w : Wake) :
  find_task rid (tasks sys) = Some p -> fits p w ->
  find_task rid (tasks (Caller.step W K sys (WakeUp rid w))) = None
  \/ exists q, find_task rid (tasks (Caller.step W K sys (WakeUp rid w))) = Some q
               /\ in_call q /\ (in_call p -> awaits_left q < awaits_left p).
Proof.
  intros Hfind Hfit. cbn [Caller.step]. rewrite Hfind. unfold Caller.run_resume.
  destruct (resume_fits p w Hfit) as [body Hb]. rewrite Hb.
  rewrite settle_run_task.
  pose proof (suspends_guards _ body (suspends_resume_body p w body Hb) (store sys)) as Hs.
  destruct (fst (fst (Caller.outer_try W K (Caller.inner_try W K body) (store sys))));
    eauto.
Qed.

Variable answer : Pending -> Wake.
Hypothesis answer_fits : forall q, fits q (answer q).

Lemma drive_in_call (rid : nat) :
  forall n sys p,
    find_task rid (tasks sys) = Some p -> in_call p -> awaits_left p <= n ->
    exists fuel,
      find_task rid (tasks (drive (Caller.step W K) answer rid fuel sys)) = None.
Proof.
  induction n as [|n IH]; intros sys p Hfind Hin Hn.
  - destruct p as [t|t r rest [x|c]|t r [x|c]]; cbn [awaits_left in_call] in *;
      try contradiction; lia.
  - destruct (wake_up_progress sys rid p (answer p) Hfind (answer_fits p))
      as [Hnone|(q & Hq & Hqin & Hlt)].
    + exists 1. cbn [drive]. rewrite Hfind.
      now rewrite Hnone.
    + destruct (IH _ q Hq Hqin) as [fuel Hfuel]; [specialize (Hlt Hin); lia|].
      exists (S fuel). cbn [drive]. now rewrite Hfind.
Qed.

Lemma drive_settles (rid : nat) (sys : Sys) (p : Pending) :
  find_task rid (tasks sys) = Some p ->
  exists fuel,
    find_task rid (tasks (drive (Caller.step W K) answer rid fuel sys)) = None.
Proof.
  intros Hfind.
  destruct (wake_up_progress sys rid p (answer p) Hfind (answer_fits p))
    as [Hnone|(q & Hq & Hqin & _)].
  - exists 1. cbn [drive]. rewrite Hfind. now rewrite Hnone.
  - destruct (drive_in_call rid (awaits_left q) _ q Hq Hqin (le_n _)) as [fuel Hfuel].
    exists (S fuel). cbn [drive]. now rewrite Hfind.
Qed.

Lemma drive_inv (rid : nat) :
  reports_return K ->
  forall fuel sys, Inv sys -> Inv (drive (Caller.step W K) answer rid fuel sys).
Proof.
  intros HK. induction fuel as [|fuel IH]; intros sys HI; cbn [drive]; [exact HI|].
  destruct (find_task rid (tasks sys)); [|exact HI].
  apply IH. now apply step_inv.
Qed.

Lemma drive_next_run (rid : nat) :
  forall fuel sys,
    next_run (drive (Caller.step W K) answer rid fuel sys) = next_run sys.
Proof.
  induction fuel as [|fuel IH]; intros sys; cbn [drive]; [reflexivity|].
  destruct (find_task rid (tasks sys)) as [p|] eqn:Hfind; [|reflexivity].
  rewrite IH. cbn [Caller.step]. rewrite Hfind.
  destruct (Caller.run_resume W K p (answer p)); [apply settle_run_next|reflexivity].
Qed.
End SuspendsInBodies.

Lemma method_next (sys : Sys) (m : M unit) : next_run (method sys m) = next_run sys.
Proof. unfold method. now destruct (m (store sys)) as [[c st] ev]. Qed.

Lemma step_next_run (W : World) (K : Caller.Callbacks) (sys : Sys) (c : Call) :
  next_run (Caller.step W K sys c)
  = next_run sys + (if is_run c then 1 else 0).
Proof.
  destruct c as [input| | | |rid w]; cbn [Caller.step is_run];
    rewrite ?method_next, ?settle_run_next; try lia.
  destruct (find_task rid (tasks sys)) as [p|]; [|lia].
  destruct (Caller.run_resume W K p w); rewrite ?settle_run_next; lia.
Qed.

Lemma steps_next_run (W : World) (K : Caller.Callbacks) (cs : list Call) :
  forall sys,
    next_run (Caller.steps W K sys cs) = next_run sys + length (filter is_run cs).
Proof.
  induction cs as [|c cs IH]; intros sys; cbn [Caller.steps fold_left filter].
  - cbn [length]. lia.
  - change (fold_left (Caller.step W K) cs (Caller.step W K sys c))
      with (Caller.steps W K (Caller.step W K sys c) cs).
    rewrite IH, step_next_run. destruct (is_run c); cbn [length]; lia.
Qed.

(** C7, amended.  The callbacks are those of any caller, as long as they
    return when [run] reports: when it calls [onLoading(false)] and when
    it hands an error notice to [onItem].  Then, in every history of an
    instance (calls of [run], [cancel], [terminate] and
    [clearConversationHistory], and wake-ups of suspended runs, in any
    order):
    - there is one run for each call of [run], and each of them is
      suspended at an [await], or has fulfilled its promise, once, and
      never rejected it;
    - the last loading state that a settled run has reported is [false],
      and what failed in it (the backend, a tool, a callback that threw)
      was caught once, at its end, and handed to [onItem] as one error
      notice, or nothing was caught;
    - a suspended run settles, fulfilled, after finitely many wake-ups,
      whatever settles what it waits for. *)
Theorem run_fulfils_and_ends_not_loading (W : World) (K : Caller.Callbacks)
    (m : text) (i : option text) (sid : text) (cs : list Call) :
  reports_return K ->
  let sys := Caller.steps W K (new_loop W m i sid) cs in
  next_run sys = length (filter is_run cs)
  /\ (forall rid, rid < next_run sys ->
        (exists p, find_task rid (tasks sys) = Some p
                   /\ outcomes_of_run rid (segments sys) = [])
        \/ (find_task rid (tasks sys) = None
            /\ outcomes_of_run rid (segments sys) = [Fulfilled]
            /\ last_loading (events_of_run rid (segments sys)) = Some false
            /\ surfaced (events_of_run rid (segments sys))))
  /\ (forall rid p answer,
        find_task rid (tasks sys) = Some p ->
        (forall q, fits q (answer q)) ->
        exists fuel,
          outcomes_of_run rid
            (segments (drive (Caller.step W K) answer rid fuel sys))
          = [Fulfilled]).
Proof.
  intros HK sys.
  assert (HI : Inv sys) by (apply steps_inv; [exact HK|apply new_loop_inv]).
  split; [|split].
  - unfold sys. rewrite steps_next_run. unfold new_loop.
    now destruct (constructor W sid (blank m i)) as [[c st] ev].
  - intros rid Hr. destruct (inv_runs sys HI rid Hr) as [(p & Hp & Ho & _)|H].
    + left. eauto.
    + right. exact H.
  - intros rid p answer Hfind Hfits.
    destruct (drive_settles W K answer Hfits rid sys p Hfind) as [fuel Hnone].
    exists fuel.
    pose proof (drive_inv W K answer rid HK fuel sys HI) as HI'.
    assert (Hr : rid < next_run (drive (Caller.step W K) answer rid fuel sys)).
    { rewrite drive_next_run. eapply inv_tasks; eassumption. }
    destruct (inv_runs _ HI' rid Hr) as [(q & Hq & _)|(_ & Ho & _)]; [congruence|].
    exact Ho.
Qed.

Lemma run_fulfils_witness :
  let sys1 := Caller.steps Scenario.world Scenario.fragile Scenario.fresh
                [CallRun [Scenario.user_says "hi"]] in
  let sys2 := Caller.steps Scenario.world Scenario.fragile Scenario.fresh
                [CallRun [Scenario.user_says "hi"];
                 WakeUp 0 (ChatSettled (Scenario.reply (lit "hello")))] in
  reports_return Scenario.fragile
  /\ find_task 0 (tasks sys1)
     = Some (AwaitChat (mkTurn 1 0%Z [Scenario.says user "hi"]))
  /\ (forall q, fits q (Scenario.settles q))
  /\ (exists fuel,
        outcomes_of_run 0
          (segments (drive (Caller.step Scenario.world Scenario.fragile)
                       Scenario.settles 0 fuel sys1))
        = [Fulfilled])
  /\ outcomes_of_run 0 (segments sys2) = [Fulfilled]
  /\ last_loading (events_of_run 0 (segments sys2)) = Some false
  /\ surfaced (events_of_run 0 (segments sys2))
  /\ failures (events_of_run 0 (segments sys2)) = [Scenario.render_failed].
Proof.
  assert (HK : reports_return Scenario.fragile) by (split; intros; reflexivity).
  assert (Hfit : forall q, fits q (Scenario.settles q)).
  { intros [t|t r rest [x|c]|t r [x|c]]; exact I. }
  split; [exact HK|]. split; [reflexivity|]. split; [exact Hfit|]. split.
  - destruct (run_fulfils_and_ends_not_loading Scenario.world Scenario.fragile
                (lit "ollama:gemma3:1b") None (lit "session")
                [CallRun [Scenario.user_says "hi"]] HK) as (_ & _ & Hsettles).
    apply (Hsettles 0 (AwaitChat (mkTurn 1 0%Z [Scenario.says user "hi"])) Scenario.settles).
    + reflexivity.
    + exact Hfit.
  - destruct (run_fulfils_and_ends_not_loading Scenario.world Scenario.fragile
                (lit "ollama:gemma3:1b") None (lit "session")
                [CallRun [Scenario.user_says "hi"];
                 WakeUp 0 (ChatSettled (Scenario.reply (lit "hello")))] HK)
      as (_ & Hruns & _).
    destruct (Hruns 0) as [(p & Hp & _)|(_ & Ho & Hl & Hs)].
    + vm_compute. lia.
    + vm_compute in Hp. discriminate.
    + split; [exact Ho|]. split; [exact Hl|]. split; [exact Hs|]. reflexivity.
Defined.

(** C7, as stated, fails: with an [onItem] that throws, the first piece of
    [run] reaches the last [catch] block, whose own call of [onItem]
    throws, and the promise of [run] is rejected. *)
Lemma throwing_callback_rejects_run :
  let sys := Caller.steps Scenario.world Scenario.throwing Scenario.fresh
               [CallRun [Scenario.user_says "hi"]] in
  outcomes_of_run 0 (segments sys) = [Rejected Scenario.render_failed]
  /\ events_of_run 0 (segments sys)
     = OnItem (Scenario.user_says "hi") :: outer_report Scenario.render_failed 1%Z.
Proof. split; vm_compute; reflexivity. Qed.

(** The histories of the other properties are those of a caller whose
    callbacks return. *)
Lemma returning_run (W : World) (input : list ResponseItem) :
  Caller.run W Caller.returning input = run W input.
Proof. reflexivity. Qed.

Lemma returning_step (W : World) (sys : Sys) (c : Call) :
  Caller.step W Caller.returning sys c = step W sys c.
Proof. destruct c; reflexivity. Qed.

(** A failed request with callbacks that return: it is reported once, and
    loading ends [false]. *)
Example failed_request_history :
  let sys := steps Scenario.world Scenario.fresh
               [CallRun [Scenario.user_says "hi"];
                WakeUp 0 (ChatSettled (FetchStatus (lit "Bad Gateway")))] in
  List.map (fun seg => (seg_outcome seg, loadings (seg_events seg),
                        failures (seg_events seg))) (segments sys)
  = [(None, [], []);
     (None, [true], []);
     (Some Fulfilled, [false], [ErrorObj (lit "Ollama API error: Bad Gateway")])].
Proof. vm_compute. reflexivity. Qed.

(** ** What the pieces leave unchanged *)

Section Keeps.
Variable Q : Loop -> Prop.

Lemma keeps_ret {A} (a : A) : keeps Q (ret a).
Proof. intros st H; exact H. Qed.

Lemma keeps_return {A} : keeps Q (@return_ A).
Proof. intros st H; exact H. Qed.

Lemma keeps_throw {A} (e : JsError) : keeps Q (@throw A e).
Proof. intros st H; exact H. Qed.

Lemma keeps_await {A} (p : Pending) : keeps Q (@await A p).
Proof. intros st H; exact H. Qed.

Lemma keeps_this : keeps Q this.
Proof. intros st H; exact H. Qed.

Lemma keeps_emit (e : Event) : keeps Q (emit e).
Proof. intros st H; exact H. Qed.

Lemma keeps_assign (f : Loop -> Loop) :
  (forall l, Q l -> Q (f l)) -> keeps Q (assign f).
Proof. intros Hf st H. apply Hf, H. Qed.

Lemma keeps_bind {A B} (m : M A) (f : A -> M B) :
  keeps Q m -> (forall a, keeps Q (f a)) -> keeps Q (bind m f).
Proof.
  intros Hm Hf st H. unfold bind. specialize (Hm st H).
  destruct (m st) as [[c st1] ev1]; simpl in Hm.
  destruct c as [a| |e|p]; simpl; try exact Hm.
  specialize (Hf a st1 Hm). destruct (f a st1) as [[c2 st2] ev2]. exact Hf.
Qed.

Lemma keeps_for_each {A} (xs : list A) (body : A -> M unit) :
  (forall x, keeps Q (body x)) -> keeps Q (for_each xs body).
Proof.
  intros Hb. induction xs as [|x xs IH]; simpl.
  - apply keeps_ret.
  - apply keeps_bind; [apply Hb | intros _; exact IH].
Qed.

Lemma keeps_Date_now (W : World) : keeps Q (Date_now W).
Proof. intros st H; exact H. Qed.

Lemma keeps_Math_random_suffix (W : World) : keeps Q (Math_random_suffix W).
Proof. intros st H; exact H. Qed.

Lemma keeps_randomUUID_compact (W : World) : keeps Q (randomUUID_compact W).
Proof. intros st H; exact H. Qed.

Lemma keeps_new_AbortController : keeps Q new_AbortController.
Proof. intros st H; exact H. Qed.

Lemma keeps_abort (c : option nat) : keeps Q (abort c).
Proof. intros st H. unfold abort. destruct c; exact H. Qed.

Lemma keeps_fresh_id (W : World) (prefix : text) : keeps Q (fresh_id W prefix).
Proof.
  apply keeps_bind; [apply keeps_Date_now|]. intros now.
  apply keeps_bind; [apply keeps_Math_random_suffix|]. intros r. apply keeps_ret.
Qed.

Lemma keeps_call (body : M unit) : keeps Q body -> keeps Q (call body).
Proof.
  intros Hb st H. specialize (Hb st H). unfold call.
  destruct (body st) as [[c st1] ev1]. destruct c; exact Hb.
Qed.

Lemma keeps_try_catch {A} (body : M A) (handler : JsError -> M A) :
  keeps Q body -> (forall e, keeps Q (handler e)) -> keeps Q (try_catch body handler).
Proof.
  intros Hb Hh st H. specialize (Hb st H). unfold try_catch.
  destruct (body st) as [[c st1] ev1]; simpl in Hb.
  destruct c as [a| |e|p]; simpl; try exact Hb.
  specialize (Hh e st1 Hb). destruct (handler e st1) as [[c2 st2] ev2]. exact Hh.
Qed.

Lemma keeps_try_finally {A} (body : M A) (fin : M unit) :
  keeps Q body -> keeps Q fin -> keeps Q (try_finally body fin).
Proof.
  intros Hb Hf st H. specialize (Hb st H). unfold try_finally.
  destruct (body st) as [[c st1] ev1]; simpl in Hb.
  specialize (Hf st1 Hb). destruct (fin st1) as [[c2 st2] ev2]; simpl in Hf.
  destruct c as [a| |e|p]; destruct c2; simpl; assumption.
Qed.

Lemma keeps_shell_calls (W : World) (ms : list Regex.Match) :
  keeps Q (shell_calls W ms).
Proof.
  induction ms as [|m ms IH]; simpl; [apply keeps_ret|].
  destruct (truthy _); [|exact IH].
  apply keeps_bind; [apply keeps_fresh_id|]. intros id.
  apply keeps_bind; [exact IH|]. intros rest. apply keeps_ret.
Qed.

Lemma keeps_patch_calls (W : World) (ms : list Regex.Match) :
  keeps Q (patch_calls W ms).
Proof.
  induction ms as [|m ms IH]; simpl; [apply keeps_ret|].
  destruct (truthy _); [|exact IH].
  apply keeps_bind; [apply keeps_fresh_id|]. intros id.
  apply keeps_bind; [exact IH|]. intros rest. apply keeps_ret.
Qed.
End Keeps.

Ltac keeps_step :=
  first
    [ apply keeps_ret | apply keeps_return | apply keeps_throw | apply keeps_await
    | apply keeps_this | apply keeps_emit | apply keeps_Date_now
    | apply keeps_fresh_id | apply keeps_randomUUID_compact
    | apply keeps_new_AbortController | apply keeps_abort
    | apply keeps_shell_calls | apply keeps_patch_calls
    | apply keeps_assign; intros ? ?; assumption
    | apply keeps_for_each; intro
    | apply keeps_call
    | apply keeps_bind; [|intro] ].

Section KeepsInBodies.
Variable Q : Loop -> Prop.
Variable W : World.

(** The one write of a woken run: the history at the end of the turn. *)
Hypothesis Q_history : forall l h, Q l -> Q (set_conversationHistory (limit_history h) l).

Lemma keeps_parseFunctionCalls (t : text) : keeps Q (parseFunctionCalls W t).
Proof.
  unfold parseFunctionCalls, parseFunctionCalls_located. repeat keeps_step.
Qed.

Lemma keeps_convert (response : OllamaChatCompletionResponse) (start : Z) :
  keeps Q (convertOllamaResponseToResponseItem W response start).
Proof.
  unfold convertOllamaResponseToResponseItem.
  apply keeps_bind; [apply keeps_fresh_id|]. intros id.
  destruct (extractThinkingContent _) as [thinking cleaned].
  apply keeps_bind.
  - destruct thinking as [[|c t]|]; repeat keeps_step.
  - intros reasoning.
    destruct (Regex.search _ _ _) as [[i w [[|c g1]|] g2]|]; apply keeps_ret.
Qed.

Lemma keeps_handleFunctionCall (item : FunctionToolCall) :
  keeps Q (handleFunctionCall W item).
Proof.
  unfold handleFunctionCall. apply keeps_bind; [apply keeps_this|]. intros l.
  destruct (canceled l); [apply keeps_ret|].
  destruct (parseToolCallArguments W _); [|apply keeps_ret].
  destruct (_ || _); repeat keeps_step.
Qed.

Lemma keeps_finish_turn (t : Turn) (response : OllamaChatCompletionResponse) :
  keeps Q (finish_turn W t response).
Proof.
  unfold finish_turn, updateConversationHistory, onLastResponseId.
  apply keeps_bind.
  - apply keeps_bind; [apply keeps_this|]. intros l.
    apply keeps_assign. intros l'. apply Q_history.
  - intros _. repeat keeps_step.
Qed.

Lemma keeps_dispatch_calls (t : Turn) (response : OllamaChatCompletionResponse)
    (calls : list FunctionToolCall) :
  keeps Q (dispatch_calls W t response calls).
Proof.
  destruct calls as [|c rest]; simpl; [apply keeps_finish_turn|].
  apply keeps_bind; [apply keeps_this|]. intros l.
  destruct (stop_requested l); unfold onLoading, onItem;
    repeat first [apply keeps_handleFunctionCall | keeps_step].
Qed.

Lemma keeps_after_chat (t : Turn) (response : OllamaChatCompletionResponse) :
  keeps Q (after_chat W t response).
Proof.
  unfold after_chat. apply keeps_bind; [apply keeps_this|]. intros l.
  destruct (stop_requested l); unfold onLoading, onItem; [repeat keeps_step|].
  apply keeps_bind; [apply keeps_convert|]. intros items.
  apply keeps_bind; [repeat keeps_step|]. intros _.
  destruct (last_item items) as [[id r [|part parts]|call|id o|id d c|]|];
    try apply keeps_finish_turn.
  - destruct (part_has_text part); [|apply keeps_finish_turn].
    apply keeps_bind; [apply keeps_parseFunctionCalls|]. intros calls.
    apply keeps_dispatch_calls.
  - apply keeps_bind; [apply keeps_handleFunctionCall|]. intros h.
    apply keeps_await.
Qed.

Lemma keeps_guards (body : M unit) :
  keeps Q body -> keeps Q (outer_try W (inner_try W body)).
Proof.
  intros Hb. unfold outer_try, inner_try, outer_catch, inner_catch, error_item,
    onLoading, onItem.
  apply keeps_try_catch; [|intros e; repeat keeps_step].
  apply keeps_try_finally; [|repeat keeps_step].
  apply keeps_try_catch; [exact Hb|]. intros e. repeat keeps_step.
Qed.

Lemma keeps_run_resume (p : Pending) (w : Wake) (m : M unit) :
  run_resume W p w = Some m -> keeps Q m.
Proof.
  unfold run_resume. destruct (resume_body W p w) as [body|] eqn:E; [|discriminate].
  intros [= <-]. apply keeps_guards. revert E.
  destruct p as [t|t response rest [[e|result]|callId]|t response [[e|result]|callId]];
    destruct w as [o|r|]; simpl; intros [= <-].
  - destruct (ollamaChatCompletion_settle o); [apply keeps_throw|apply keeps_after_chat].
  - apply keeps_throw.
  - apply keeps_bind; [unfold onItem; repeat keeps_step|]. intros _.
    apply keeps_dispatch_calls.
  - apply keeps_await.
  - apply keeps_throw.
  - apply keeps_bind; [unfold onItem; repeat keeps_step|]. intros _.
    apply keeps_finish_turn.
  - apply keeps_await.
Qed.
End KeepsInBodies.

(** A woken run never writes the generation: the generation recorded for
    its piece is the generation at each of its events. *)
Lemma woken_run_keeps_generation (W : World) (p : Pending) (w : Wake) (m : M unit)
    (st : Store) :
  run_resume W p w = Some m ->
  generation (self (snd (fst (m st)))) = generation (self st).
Proof.
  intros Hm.
  exact (keeps_run_resume (fun l => generation l = generation (self st)) W
           (fun l h H => H) p w m Hm st eq_refl).
Qed.

Lemma bounded_limit_history (h : list OllamaMessage) (l : Loop) :
  bounded (set_conversationHistory (limit_history h) l).
Proof.
  unfold bounded. cbn [conversationHistory set_conversationHistory].
  rewrite limit_history_keeps_system. apply limit_history_bound.
Qed.

Lemma bounded_cancel : keeps bounded cancel.
Proof.
  unfold cancel, onLoading. apply keeps_call.
  apply keeps_bind; [apply keeps_this|]. intros l.
  destruct (terminated l); repeat keeps_step.
Qed.

Lemma bounded_terminate : keeps bounded terminate.
Proof.
  unfold terminate, hardAbort_abort. apply keeps_call.
  apply keeps_bind; [apply keeps_this|]. intros l.
  destruct (terminated l); [apply keeps_return|].
  apply keeps_bind; [repeat keeps_step|]. intros _.
  apply keeps_bind; [|intros _; apply bounded_cancel].
  apply keeps_bind; [apply keeps_this|]. intros l'.
  destruct (hardAbort l'); repeat keeps_step.
Qed.

Lemma bounded_clear (W : World) : keeps bounded (clearConversationHistory W).
Proof.
  unfold clearConversationHistory.
  apply keeps_bind.
  - apply keeps_assign. intros l _. unfold bounded. simpl. unfold MAX_HISTORY_LENGTH. lia.
  - intros _. repeat keeps_step.
Qed.

Lemma bounded_run (W : World) (input : list ResponseItem) : keeps bounded (run W input).
Proof.
  unfold run, outer_try, inner_try, outer_catch, inner_catch, error_item,
    onLoading, onItem.
  apply keeps_try_catch; [|intros e; repeat keeps_step].
  apply keeps_bind; [apply keeps_this|]. intros l.
  apply keeps_bind; [destruct (terminated l); repeat keeps_step|]. intros _.
  apply keeps_bind; [apply keeps_Date_now|]. intros start.
  apply keeps_bind; [apply keeps_this|]. intros l1.
  do 5 (apply keeps_bind; [repeat keeps_step|]; intros ?).
  apply keeps_bind.
  { apply keeps_for_each. intros item. destruct (is_user_message item); repeat keeps_step. }
  intros _. apply keeps_bind; [repeat keeps_step|]. intros _.
  apply keeps_bind; [apply keeps_this|]. intros l2.
  apply keeps_try_finally; [|repeat keeps_step].
  apply keeps_try_catch; [repeat keeps_step|]. intros e. repeat keeps_step.
Qed.

Lemma bounded_step (W : World) (sys : Sys) (c : Call) :
  bounded (self (store sys)) -> bounded (self (store (step W sys c))).
Proof.
  intros H. destruct c as [input| | | |rid w]; cbn [step].
  - pose proof (bounded_run W input (store sys) H) as H'.
    unfold settle_run. destruct (run W input (store sys)) as [[c st] ev].
    destruct c; exact H'.
  - pose proof (bounded_cancel (store sys) H) as H'.
    unfold method. destruct (cancel (store sys)) as [[c st] ev]. exact H'.
  - pose proof (bounded_terminate (store sys) H) as H'.
    unfold method. destruct (terminate (store sys)) as [[c st] ev]. exact H'.
  - pose proof (bounded_clear W (store sys) H) as H'.
    unfold method. destruct (clearConversationHistory W (store sys)) as [[c st] ev]. exact H'.
  - destruct (find_task rid (tasks sys)) as [p|]; [|exact H].
    destruct (run_resume W p w) as [m|] eqn:E; [|exact H].
    pose proof (keeps_run_resume bounded W
                  (fun l h _ => bounded_limit_history h l) p w m E (store sys) H) as H'.
    unfold settle_run. destruct (m (store sys)) as [[c st] ev].
    destruct c; exact H'.
Qed.

Lemma bounded_steps (W : World) (cs : list Call) :
  forall sys, bounded (self (store sys)) -> bounded (self (store (steps W sys cs))).
Proof.
  induction cs as [|c cs IH]; intros sys H; simpl; [exact H|].
  apply IH. now apply bounded_step.
Qed.

Lemma bounded_new_loop (W : World) (m : text) (i : option text) (sid : text) :
  bounded (self (store (new_loop W m i sid))).
Proof.
  unfold new_loop.
  assert (H : keeps bounded (constructor W sid)).
  { unfold constructor. apply keeps_bind.
    - destruct (truthy sid); repeat keeps_step.
    - intros s. repeat keeps_step. }
  specialize (H (blank m i)).
  destruct (constructor W sid (blank m i)) as [[c st] ev]. apply H.
  unfold bounded. simpl. unfold MAX_HISTORY_LENGTH. lia.
Qed.

(** C3, amended.  After any number of calls and turns on one instance,
    the history holds at most 20 messages unless 20 or more of them are
    system-role messages; and the system-role messages after
    [updateConversationHistory] are those of the history it has pushed the
    turn onto, in the same order. *)
Theorem history_bounded_below_cap_and_system_kept (W : World) (m : text)
    (i : option text) (sid : text) (cs : list Call) :
  let h := conversationHistory (self (store (steps W (new_loop W m i sid) cs))) in
  (length (filter is_system h) < MAX_HISTORY_LENGTH -> length h <= MAX_HISTORY_LENGTH)
  /\ (forall st newMessages response,
        let '(_, st', _) := updateConversationHistory newMessages response st in
        filter is_system (conversationHistory (self st'))
        = filter is_system (pushed (conversationHistory (self st)) newMessages response)).
Proof.
  split.
  - apply (bounded_steps W cs), bounded_new_loop.
  - intros [l sg d] newMessages response. unfold updateConversationHistory.
    unfold_methods. apply limit_history_keeps_system.
Qed.

Lemma history_bounded_witness :
  let sys := steps Scenario.world Scenario.fresh
               [CallRun (List.map (fun m => Message None user [mkPart input_text (content m)])
                           (Scenario.numbered user 0 30));
                WakeUp 0 (ChatSettled (Scenario.reply (lit "ok")))] in
  let h := conversationHistory (self (store sys)) in
  length (filter is_system h) < MAX_HISTORY_LENGTH
  /\ length h = 20
  /\ length h <= MAX_HISTORY_LENGTH.
Proof.
  split; [vm_compute; lia|]. split; [reflexivity|].
  apply (history_bounded_below_cap_and_system_kept Scenario.world
           (lit "ollama:gemma3:1b") None (lit "session")
           [CallRun (List.map (fun m => Message None user [mkPart input_text (content m)])
                       (Scenario.numbered user 0 30));
            WakeUp 0 (ChatSettled (Scenario.reply (lit "ok")))]).
  vm_compute; lia.
Defined.

(** C3, as stated, fails: one turn whose input carries 21 tool outputs
    (each becomes a system message) leaves 21 messages in the history. *)
Lemma history_exceeds_cap :
  let sys := steps Scenario.world Scenario.fresh
               [CallRun (repeat (Scenario.tool_output "ok") 21);
                WakeUp 0 (ChatSettled (Scenario.reply (lit "done")))] in
  length (conversationHistory (self (store sys))) = 21
  /\ ~ length (conversationHistory (self (store sys))) <= MAX_HISTORY_LENGTH.
Proof. vm_compute. split; [reflexivity | lia]. Qed.

(** ** Generations *)

(** Where the code does drop a late reply: a run that finds the instance
    cancelled (or terminated) when the backend answers reports loading
    [false] and returns, whatever the reply. *)
Lemma cancelled_reply_is_dropped (W : World) (t : Turn)
    (response : OllamaChatCompletionResponse) (st : Store) :
  stop_requested (self st) = true ->
  outer_try W (inner_try W (after_chat W t response)) st
  = (Return, st, [OnLoading false; OnLoading false]).
Proof.
  intros Hs. unfold outer_try, inner_try, after_chat. unfold_methods.
  now rewrite Hs.
Qed.

(** C1 (as the code behaves).  [run] captures [thisGeneration] and never
    compares it with the generation of the instance; the only check is the
    [canceled] flag, which the next [run] resets.  After [run(A)],
    [cancel()], [run(B)], the reply to A arrives when the generation is 3:
    the run that had captured generation 1 hands the answer to [onItem]. *)
Theorem superseded_run_still_emits :
  let sys := steps Scenario.world Scenario.fresh
               [CallRun [Scenario.user_says "A"];
                CallCancel;
                CallRun [Scenario.user_says "B"];
                WakeUp 0 (ChatSettled (Scenario.reply (lit "answer to A")))] in
  last_item (segments sys)
  = Some (mkSegment (Some 0) (Some 1) 3
            [OnItem (Message (Some (lit "ollama-2-k3j9x2m")) assistant
                       [mkPart output_text (lit "answer to A")]);
             OnLastResponseId (lit "ollama-4-k3j9x2m");
             OnLoading false]
            (Some Fulfilled))
  /\ ~ generation_respected sys.
Proof.
  split; [vm_compute; reflexivity|].
  intros H.
  specialize (H (mkSegment (Some 0) (Some 1) 3
            [OnItem (Message (Some (lit "ollama-2-k3j9x2m")) assistant
                       [mkPart output_text (lit "answer to A")]);
             OnLastResponseId (lit "ollama-4-k3j9x2m");
             OnLoading false]
            (Some Fulfilled))).
  assert (Hin : In (mkSegment (Some 0) (Some 1) 3
            [OnItem (Message (Some (lit "ollama-2-k3j9x2m")) assistant
                       [mkPart output_text (lit "answer to A")]);
             OnLastResponseId (lit "ollama-4-k3j9x2m");
             OnLoading false]
            (Some Fulfilled))
            (segments (steps Scenario.world Scenario.fresh
               [CallRun [Scenario.user_says "A"];
                CallCancel;
                CallRun [Scenario.user_says "B"];
                WakeUp 0 (ChatSettled (Scenario.reply (lit "answer to A")))]))).
  { vm_compute. do 4 right. left. reflexivity. }
  specialize (H Hin). vm_compute in H. discriminate.
Qed.

(** A cancelled run whose request fails, with no later run at all: the
    error notice is still handed to [onItem], at generation 2. *)
Example cancelled_run_reports_failure :
  let sys := steps Scenario.world Scenario.fresh
               [CallRun [Scenario.user_says "A"];
                CallCancel;
                WakeUp 0 (ChatSettled (FetchStatus (lit "Bad Gateway")))] in
  List.map (fun seg => (seg_captured seg, seg_generation seg, stale seg)) (segments sys)
  = [(None, 0, false); (Some 1, 1, false); (None, 2, false); (Some 1, 2, true)].
Proof. vm_compute. reflexivity. Qed.

(* ================================================================= *)
(** * Further properties of the loop *)

Lemma lacks_without (c : unit16) (s : text) : lacks c s = true -> without c s.
Proof.
  unfold lacks, without. intros H. apply Forall_forall. intros d Hd ->.
  rewrite forallb_forall in H. specialize (H _ Hd).
  now rewrite N.eqb_refl in H.
Qed.

(** ** Eviction, in general *)

Lemma slice_from_suffix {A} (start : Z) (xs : list A) :
  exists dropped, xs = dropped ++ slice_from start xs.
Proof.
  unfold slice_from. destruct (start <? 0)%Z.
  - exists (firstn (Z.to_nat (Z.max (Z.of_nat (length xs) + start) 0)) xs).
    symmetry. apply firstn_skipn.
  - exists (firstn (Z.to_nat (Z.min start (Z.of_nat (length xs)))) xs).
    symmetry. apply firstn_skipn.
Qed.

Lemma filter_not_system_of_system (h : list OllamaMessage) :
  filter not_system (filter is_system h) = [].
Proof.
  induction h as [|m h IH]; simpl; [reflexivity|].
  destruct (is_system m) eqn:E; simpl; [|exact IH].
  unfold not_system, is_system in *. now rewrite E.
Qed.

Lemma filter_not_system_idem (k : nat) (h : list OllamaMessage) :
  filter not_system (skipn k (filter not_system h)) = skipn k (filter not_system h).
Proof.
  apply forallb_filter_id. apply forallb_forall. intros m Hin.
  assert (Hin' : In m (filter not_system h)).
  { rewrite <- (firstn_skipn k). apply in_or_app. now right. }
  now apply filter_In in Hin' as [_ Hn].
Qed.

(** X1.  Eviction in general (scenario D is one instance): on a history of
    more than 20 messages with fewer than 20 system messages, what is kept
    is every system message followed by the most recent of the other
    messages, in their order, and exactly 20 messages are left. *)
Theorem eviction_keeps_most_recent (h : list OllamaMessage) :
  MAX_HISTORY_LENGTH < length h ->
  length (filter is_system h) < MAX_HISTORY_LENGTH ->
  exists dropped recent,
    filter not_system h = dropped ++ recent
    /\ limit_history h = filter is_system h ++ recent
    /\ length (limit_history h) = MAX_HISTORY_LENGTH.
Proof.
  intros Hl Hs. unfold limit_history.
  replace (MAX_HISTORY_LENGTH <? length h) with true
    by (symmetry; now apply Nat.ltb_lt).
  pose proof (system_partition h) as Hp.
  set (sys := filter is_system h) in *. set (non := filter not_system h) in *.
  unfold slice_from, MAX_HISTORY_LENGTH in *.
  replace (- Z.of_nat 20 + Z.of_nat (length sys) <? 0)%Z with true
    by (symmetry; apply Z.ltb_lt; lia).
  set (k := Z.to_nat (Z.max (Z.of_nat (length non)
                             + (- Z.of_nat 20 + Z.of_nat (length sys))) 0)).
  exists (firstn k non), (skipn k non).
  split; [symmetry; apply firstn_skipn|]. split; [reflexivity|].
  rewrite length_app, length_skipn. unfold k. lia.
Qed.

Lemma eviction_keeps_most_recent_witness :
  let h := Scenario.says system "be brief" :: Scenario.numbered user 1 22 in
  MAX_HISTORY_LENGTH < length h
  /\ length (filter is_system h) < MAX_HISTORY_LENGTH
  /\ exists dropped recent,
       filter not_system h = dropped ++ recent
       /\ limit_history h = filter is_system h ++ recent
       /\ length (limit_history h) = MAX_HISTORY_LENGTH.
Proof.
  split; [vm_compute; lia|]. split; [vm_compute; lia|].
  apply (eviction_keeps_most_recent
           (Scenario.says system "be brief" :: Scenario.numbered user 1 22));
    vm_compute; lia.
Defined.

Lemma slice_from_idem {A} (start : Z) (xs : list A) :
  (start <= 0)%Z -> slice_from start (slice_from start xs) = slice_from start xs.
Proof.
  intros Hs. unfold slice_from at 1.
  destruct (start <? 0)%Z eqn:E.
  - apply Z.ltb_lt in E.
    assert (Hl : (Z.of_nat (length (slice_from start xs)) <= - start)%Z).
    { unfold slice_from. replace (start <? 0)%Z with true by (symmetry; now apply Z.ltb_lt).
      rewrite length_skipn. lia. }
    replace (Z.to_nat (Z.max (Z.of_nat (length (slice_from start xs)) + start) 0))
      with 0 by lia.
    reflexivity.
  - apply Z.ltb_ge in E.
    replace (Z.to_nat (Z.min start (Z.of_nat (length (slice_from start xs)))))
      with 0 by lia.
    reflexivity.
Qed.

(** X2.  Eviction is idempotent: a history that has been limited is left as
    it is by a second pass, as long as the system messages alone do not
    exceed the cap. *)
Theorem limit_history_idempotent (h : list OllamaMessage) :
  length (filter is_system h) <= MAX_HISTORY_LENGTH ->
  limit_history (limit_history h) = limit_history h.
Proof.
  intros Hs. unfold limit_history at 2 3.
  destruct (MAX_HISTORY_LENGTH <? length h) eqn:E; [|unfold limit_history; now rewrite E].
  unfold limit_history.
  set (sys := filter is_system h) in *. set (non := filter not_system h) in *.
  set (start := (- Z.of_nat MAX_HISTORY_LENGTH + Z.of_nat (length sys))%Z).
  assert (Hsys : filter is_system (sys ++ slice_from start non) = sys).
  { rewrite filter_app. unfold sys at 1. rewrite filter_idem_system.
    unfold slice_from, non.
    destruct (_ <? 0)%Z; rewrite no_system_among_not_system; apply app_nil_r. }
  assert (Hnon : filter not_system (sys ++ slice_from start non) = slice_from start non).
  { rewrite filter_app. unfold sys at 1. rewrite filter_not_system_of_system.
    unfold slice_from, non.
    destruct (_ <? 0)%Z; now rewrite filter_not_system_idem. }
  rewrite Hsys, Hnon. fold start.
  destruct (MAX_HISTORY_LENGTH <? length (sys ++ slice_from start non)); [|reflexivity].
  f_equal. apply slice_from_idem. unfold start. lia.
Qed.

Lemma limit_history_idempotent_witness :
  let h := Scenario.says system "be brief" :: Scenario.numbered user 1 22 in
  length (filter is_system h) <= MAX_HISTORY_LENGTH
  /\ limit_history (limit_history h) = limit_history h.
Proof.
  split; [vm_compute; lia|].
  apply (limit_history_idempotent
           (Scenario.says system "be brief" :: Scenario.numbered user 1 22)).
  vm_compute; lia.
Defined.

(** ** What the loop builds from a reply and from a call *)

(** X3.  [convertOllamaResponseToResponseItem] returns at most one reasoning
    item, whose text is not empty, followed by exactly one main item: a
    function call or the message of the assistant.  It writes no field of
    the instance and calls nothing. *)
Theorem response_items_shape (W : World) (response : OllamaChatCompletionResponse)
    (start : Z) (st : Store) :
  exists reasoning main st',
    convertOllamaResponseToResponseItem W response start st
    = (Normal (reasoning ++ [main]), st', [])
    /\ self st' = self st
    /\ length reasoning <= 1
    /\ Forall is_reasoning reasoning
    /\ is_main_item main.
Proof.
  unfold convertOllamaResponseToResponseItem. unfold_methods.
  destruct (extractThinkingContent _) as [thinking cleaned].
  destruct thinking as [[|c t]|].
  - destruct (Regex.search _ _ _) as [[i w [[|c g1]|] g2]|];
      eexists [], _, _; (split; [reflexivity|]);
      (split; [reflexivity|split; [simpl; lia|split; [constructor|]]]);
      unfold is_main_item; eauto.
  - unfold_methods.
    destruct (Regex.search _ _ _) as [[i w [[|c' g1]|] g2]|];
      eexists [_], _, _; (split; [reflexivity|]);
      (split; [reflexivity|split; [simpl; lia|split]]);
      try (constructor; [|constructor]; eexists _, _, _; split;
           [reflexivity|discriminate]);
      unfold is_main_item; eauto.
  - destruct (Regex.search _ _ _) as [[i w [[|c g1]|] g2]|];
      eexists [], _, _; (split; [reflexivity|]);
      (split; [reflexivity|split; [simpl; lia|split; [constructor|]]]);
      unfold is_main_item; eauto.
Qed.

Lemma falsy_or_nullish_or (a b : option text) :
  falsy_or a (nullish_or a b) = nullish_or a b.
Proof. destruct a as [[|c t]|]; reflexivity. Qed.

(** X4.  [handleFunctionCall] leaves the instance as it is and has three
    outcomes: nothing on a cancelled instance; one output item and no call
    of [handleExecCommand] (arguments that do not parse, or a name that is
    neither [container.exec] nor [shell]); or one call of
    [handleExecCommand] with the signal of the current controller.  The
    output item carries [call_id ?? id] of the call in each case, also
    after [handleExecCommand] has settled. *)
Theorem tool_result_carries_call_id (W : World) (item : FunctionToolCall) (st : Store) :
  (exists h ev,
     handleFunctionCall W item st = (Normal h, st, ev)
     /\ ((h = Settled (inr []) /\ ev = [] /\ canceled (self st) = true)
         \/ (exists output,
               h = Settled (inr [FunctionCallOutput (correlation_id item) output])
               /\ ev = [] /\ canceled (self st) = false)
         \/ (exists args,
               h = InExec (correlation_id item)
               /\ ev = [HandleExecCommand args (execAbortController (self st))]
               /\ canceled (self st) = false)))
  /\ (forall outcome,
        exists output,
          handleFunctionCall_resume (correlation_id item) (inr outcome)
          = Settled (inr (FunctionCallOutput (correlation_id item) output
                          :: match additionalItems outcome with
                             | Some items => items
                             | None => []
                             end))).
Proof.
  split.
  - unfold handleFunctionCall. unfold_methods.
    destruct (canceled (self st)) eqn:Hc.
    + eexists _, _. split; [reflexivity|]. left. auto.
    + destruct (parseToolCallArguments W _) as [args|].
      * destruct (_ || _).
        -- eexists _, _. split; [reflexivity|]. right. right.
           exists args. auto.
        -- eexists _, _. split; [reflexivity|]. right. left.
           eexists. auto.
      * eexists _, _. split; [reflexivity|]. right. left.
        eexists. rewrite falsy_or_nullish_or. auto.
  - intros outcome. eexists. reflexivity.
Qed.

(** ** [cancel], [terminate] and the start of [run], in full *)

Lemma nth_set_flag_same (n : nat) (fs : list bool) :
  n < length fs -> nth n (set_flag n fs) false = true.
Proof.
  revert n; induction fs as [|b fs IH]; intros [|n] H; simpl in *; try lia; auto.
  apply IH. lia.
Qed.

Lemma nth_set_flag_mono (n k : nat) (fs : list bool) :
  nth k fs false = true -> nth k (set_flag n fs) false = true.
Proof.
  revert n k; induction fs as [|b fs IH]; intros [|n] [|k] H; simpl in *; auto.
Qed.

Lemma nth_fresh (fs : list bool) : nth (length fs) (fs ++ [false]) false = false.
Proof. induction fs as [|b fs IH]; simpl; auto. Qed.

Lemma nth_app_old (k : nat) (fs : list bool) :
  nth k fs false = true -> nth k (fs ++ [false]) false = true.
Proof.
  revert k; induction fs as [|b fs IH]; intros [|k] H; simpl in *;
    try discriminate; auto.
Qed.

Lemma length_after_abort (c : option nat) (sg : list bool) :
  length (after_abort c sg) = length sg.
Proof. destruct c; simpl; [apply length_set_flag|reflexivity]. Qed.

(** [cancel] on an instance that is not terminated, in full. *)
Lemma cancel_store (st : Store) :
  terminated (self st) = false ->
  cancel st
  = (Normal tt,
     mkStore
       (mkLoop (model (self st)) (instructions (self st))
          (conversationHistory (self st)) None (generation (self st) + 1)
          (Some (length (signals st))) true false (hardAbort (self st))
          (sessionId (self st)))
       (after_abort (execAbortController (self st)) (signals st) ++ [false])
       (draws st),
     [OnLoading false]).
Proof.
  destruct st as [l sg d]. unfold_methods. intros Ht. rewrite Ht. cbn.
  unfold set_generation, set_execAbortController, set_canceled, set_currentStream.
  cbn. rewrite Ht.
  destruct (execAbortController l); cbn; rewrite ?length_set_flag; reflexivity.
Qed.

Lemma cancel_terminated (st : Store) :
  terminated (self st) = true -> cancel st = (Normal tt, st, []).
Proof. destruct st as [l sg d]. unfold_methods. intros ->. reflexivity. Qed.

Lemma terminate_terminated (st : Store) :
  terminated (self st) = true -> terminate st = (Normal tt, st, []).
Proof. destruct st as [l sg d]. unfold_methods. intros ->. reflexivity. Qed.

(** [terminate] on an instance that is not terminated, in full. *)
Lemma terminate_store (st : Store) :
  terminated (self st) = false ->
  terminate st
  = (Normal tt,
     mkStore
       (mkLoop (model (self st)) (instructions (self st))
          (conversationHistory (self st)) (currentStream (self st))
          (generation (self st)) (execAbortController (self st))
          (canceled (self st)) true true (sessionId (self st)))
       (if hardAbort (self st) then signals st
        else after_abort (execAbortController (self st)) (signals st))
       (draws st),
     []).
Proof.
  destruct st as [l sg d]. unfold_methods. intros Ht. rewrite Ht. cbn.
  unfold set_terminated, set_hardAbort.
  destruct (hardAbort l) eqn:Hh; cbn; rewrite ?Hh, ?Ht; cbn; [reflexivity|].
  destruct (execAbortController l); reflexivity.
Qed.

(** [run] on a terminated instance, in full. *)
Lemma run_terminated (W : World) (input : list ResponseItem) (st : Store) :
  terminated (self st) = true ->
  run W input st =
    (Normal tt, tick st,
     [ConsoleError (lit "Unhandled error in OllamaAgentLoop.run():") terminated_error;
      OnLoading false;
      OnItem (Message (Some (lit "error-" ++ dec_Z (date_now W (draws st)))) system
                [mkPart input_text
                   (warning_sign ++ lit "Unhandled error: "
                    ++ lit "OllamaAgentLoop has been terminated")])]).
Proof.
  destruct st as [l sg d]; unfold run; unfold_methods. intros ->. reflexivity.
Qed.

(** [run] on an instance that is not terminated, up to its first
    [await], in full. *)
Lemma run_entry (W : World) (input : list ResponseItem) (st : Store) :
  terminated (self st) = false ->
  run W input st
  = (Await (AwaitChat (mkTurn (generation (self st) + 1) (date_now W (draws st))
                         (convertResponseItemsToOllamaMessages input))),
     mkStore
       (mkLoop (model (self st)) (instructions (self st))
          (conversationHistory (self st)) None (generation (self st) + 1)
          (Some (length (signals st))) false false (hardAbort (self st))
          (sessionId (self st)))
       (signals st ++ [false]) (S (draws st)),
     List.map OnItem (filter is_user_message input)
     ++ [OnLoading true;
         PostChat (ollamaChatCompletion_request
                     (or_else (extractOllamaModelName (model (self st))) (model (self st)))
                     (turn_messages (self st) input))]).
Proof.
  intros Ht. destruct st as [l sg d]. cbn in Ht.
  unfold run. unfold_methods. rewrite Ht.
  rewrite (for_each_pure (fun item => if is_user_message item then [OnItem item] else []))
    by (intros x s; destruct (is_user_message x); reflexivity).
  cbn [app self signals draws]. unfold_methods.
  assert (E : forall xs : list ResponseItem,
            flat_map (fun item => if is_user_message item then [OnItem item] else []) xs
            = List.map OnItem (filter is_user_message xs)).
  { induction xs as [|x xs IH]; simpl; [reflexivity|].
    destruct (is_user_message x); simpl; now rewrite IH. }
  rewrite E.
  assert (Em : match instructions l with
               | Some ((_ :: _) as i) =>
                   mkMessage system i
                   :: conversationHistory l ++ convertResponseItemsToOllamaMessages input
               | _ => conversationHistory l ++ convertResponseItemsToOllamaMessages input
               end = turn_messages l input).
  { unfold turn_messages. destruct (instructions l) as [[|c i]|]; reflexivity. }
  rewrite Em.
  unfold set_generation, set_execAbortController, set_canceled, set_currentStream.
  cbn. rewrite Ht. reflexivity.
Qed.




(** ** Replies without tool calls *)

Lemma literal_first_head (c : unit16) (l : text) (r : Regex.re) (s : text) :
  (forall d s', s = d :: s' -> d <> c) ->
  Regex.match_here (Regex.Cat (Regex.Lit (c :: l)) r) s = None.
Proof.
  intros H. unfold Regex.match_here. simpl.
  destruct s as [|d s']; [reflexivity|].
  destruct (N.eqb c d) eqn:E; [|reflexivity].
  apply N.eqb_eq in E. subst d. exfalso. now apply (H c s').
Qed.

Lemma search_without (c : unit16) (l : text) (r : Regex.re) (s : text) :
  without c s ->
  forall idx, Regex.search (Regex.Cat (Regex.Lit (c :: l)) r) s idx = None.
Proof.
  induction 1 as [|d s Hd Hs IH]; intros idx; cbn [Regex.search].
  - rewrite literal_first_head; [reflexivity|]. intros d s' [=].
  - rewrite literal_first_head; [apply IH|]. intros d' s' [= <- _]. exact Hd.
Qed.

Lemma without_skipn (c : unit16) (n : nat) (s : text) :
  without c s -> without c (skipn n s).
Proof.
  unfold without. intros H. apply Forall_forall. intros d Hin.
  rewrite Forall_forall in H. apply H.
  rewrite <- (firstn_skipn n s). apply in_or_app. now right.
Qed.

Lemma exec_all_without (c : unit16) (l : text) (r : Regex.re) (s : text) :
  without c s ->
  Regex.exec_all (Regex.Cat (Regex.Lit (c :: l)) r) s = [].
Proof.
  intros H. unfold Regex.exec_all. cbn [Regex.exec_while]. unfold Regex.exec.
  cbn [Nat.ltb Nat.leb skipn]. now rewrite search_without.
Qed.

Lemma parseFunctionCalls_without_fence (W : World) (t : text) (st : Store) :
  without 96%N t -> parseFunctionCalls W t st = (Normal [], st, []).
Proof.
  intros H. unfold parseFunctionCalls, parseFunctionCalls_located.
  change shellCommandRegex with (Regex.Cat (Regex.Lit (96%N :: [96%N; 96%N]))
    (Regex.seq [Regex.Alt (Regex.Lit (lit "bash")) (Regex.Lit (lit "sh"));
                Regex.ws; Regex.Lit nl;
                Regex.Grp 1 (Regex.StarL Regex.any);
                Regex.Lit (nl ++ fence)])).
  rewrite (exec_all_without 96%N _ _ t H).
  assert (Hp : Regex.exec_all applyPatchRegex t = []).
  { unfold applyPatchRegex. cbn [Regex.seq fold_right fence lit app
      list_ascii_of_string List.map N_of_ascii].
    apply (exec_all_without 96%N). exact H. }
  rewrite Hp. destruct st as [l sg d]. reflexivity.
Qed.

Lemma convert_plain (W : World) (response : OllamaChatCompletionResponse)
    (start : Z) (st : Store) :
  without 96%N (content (message response)) ->
  without 60%N (content (message response)) ->
  convertOllamaResponseToResponseItem W response start st
  = (Normal [Message
               (Some (lit "ollama-" ++ dec_Z (date_now W (draws st)) ++ lit "-"
                      ++ substring 2 9 (math_random_base36 W (S (draws st)))))
               assistant [mkPart output_text (content (message response))]],
     tick (tick st), []).
Proof.
  intros Hb Ha. unfold convertOllamaResponseToResponseItem, extractThinkingContent.
  assert (Ht : Regex.search thinkRegex (content (message response)) 0 = None).
  { unfold thinkRegex. cbn [Regex.seq fold_right lit app
      list_ascii_of_string List.map N_of_ascii].
    now apply (search_without 60%N). }
  rewrite Ht.
  assert (Hf : Regex.search functionCallRegex (content (message response)) 0 = None).
  { unfold functionCallRegex. cbn [Regex.seq fold_right fence lit app
      list_ascii_of_string List.map N_of_ascii].
    now apply (search_without 96%N). }
  rewrite Hf. unfold_methods. reflexivity.
Qed.

(** The piece that a reply without backtick and without [<] wakes up. *)
Lemma plain_reply_piece (W : World) (t : Turn)
    (response : OllamaChatCompletionResponse) (st : Store) :
  stop_requested (self st) = false ->
  without 96%N (content (message response)) ->
  without 60%N (content (message response)) ->
  exists m,
    run_resume W (AwaitChat t) (ChatSettled (FetchJson response)) = Some m
    /\ m st
       = (Normal tt,
          mkStore (set_conversationHistory
                     (limit_history
                        (pushed (conversationHistory (self st)) (newMessages t) response))
                     (self st))
            (signals st) (4 + draws st),
          [OnItem (Message
                     (Some (lit "ollama-" ++ dec_Z (date_now W (draws st)) ++ lit "-"
                            ++ substring 2 9 (math_random_base36 W (1 + draws st))))
                     assistant [mkPart output_text (content (message response))]);
           OnLastResponseId
             (lit "ollama-" ++ dec_Z (date_now W (2 + draws st)) ++ lit "-"
              ++ substring 2 9 (math_random_base36 W (3 + draws st)));
           OnLoading false]).
Proof.
  intros Hs Hb Ha. eexists. split; [reflexivity|].
  unfold outer_try, inner_try. cbn [ollamaChatCompletion_settle].
  unfold after_chat.
  assert (E : forall (k : list ResponseItem -> M unit),
            bind (convertOllamaResponseToResponseItem W response (thinkingStart t)) k
                 st
            = let '(c, st2, ev2) :=
                k [Message
                     (Some (lit "ollama-" ++ dec_Z (date_now W (draws st)) ++ lit "-"
                            ++ substring 2 9 (math_random_base36 W (S (draws st)))))
                     assistant [mkPart output_text (content (message response))]]
                  (tick (tick st)) in
              (c, st2, ev2)).
  { intros k. unfold bind at 1. rewrite convert_plain by assumption.
    destruct (k _ _) as [[c st2] ev2]. reflexivity. }
  unfold try_catch at 2. unfold try_finally. unfold try_catch.
  unfold bind at 1. unfold this at 1. rewrite Hs.
  rewrite E. cbn [for_each last_item].
  unfold part_has_text. cbn [part_type part_text].
  destruct (truthy (content (message response))) eqn:Etr.
  - unfold bind at 1. unfold bind at 1. unfold onItem, emit, ret.
    unfold bind at 1.
    rewrite parseFunctionCalls_without_fence by assumption.
    cbn [dispatch_calls]. unfold finish_turn, updateConversationHistory.
    destruct st as [l sg d]. unfold_methods. reflexivity.
  - unfold bind at 1. unfold bind at 1. unfold onItem, emit, ret.
    unfold finish_turn, updateConversationHistory.
    destruct st as [l sg d]. unfold_methods. reflexivity.
Qed.



(** ** Interrupted and failed turns *)


(** ** The generation counter *)

Lemma terminate_keeps_generation (st : Store) :
  generation (self (snd (fst (terminate st)))) = generation (self st).
Proof.
  destruct st as [l sg d]. unfold_methods.
  destruct (terminated l) eqn:Ht; cbn; [reflexivity|].
  destruct (hardAbort l) eqn:Hh; cbn; [reflexivity|].
  destruct (execAbortController l); reflexivity.
Qed.

Lemma settle_run_store (sys : Sys) (rid : nat) (captured : option nat) (next : nat)
    (r : Completion unit * Store * list Event) :
  store (settle_run sys rid captured next r) = snd (fst r).
Proof. destruct r as [[c st] ev]. destruct c; reflexivity. Qed.

Lemma method_store (sys : Sys) (m : M unit) :
  store (method sys m) = snd (fst (m (store sys))).
Proof. unfold method. destruct (m (store sys)) as [[c st] ev]. reflexivity. Qed.


(** ** A reply after [cancel] *)

Lemma cancel_keeps_canceled (st : Store) :
  canceled (self st) = true -> canceled (self (snd (fst (cancel st)))) = true.
Proof.
  destruct st as [l sg d]. unfold_methods. cbn [self]. intros Hc.
  destruct (terminated l); cbn; [exact Hc|].
  destruct (execAbortController l); reflexivity.
Qed.

Lemma terminate_keeps_canceled (st : Store) :
  canceled (self st) = true -> canceled (self (snd (fst (terminate st)))) = true.
Proof.
  destruct st as [l sg d]. unfold_methods. cbn [self]. intros Hc.
  destruct (terminated l) eqn:Ht; cbn; [exact Hc|].
  destruct (hardAbort l); cbn; [exact Hc|].
  destruct (execAbortController l); exact Hc.
Qed.

Lemma method_tasks (sys : Sys) (m : M unit) : tasks (method sys m) = tasks sys.
Proof. unfold method. now destruct (m (store sys)) as [[c st] ev]. Qed.

Lemma settle_run_other (sys : Sys) (rid rid' : nat) (captured : option nat) (next : nat)
    (r : Completion unit * Store * list Event) :
  rid' <> rid ->
  find_task rid' (tasks (settle_run sys rid captured next r))
  = find_task rid' (tasks sys).
Proof.
  intros Hne. destruct r as [[[[]| |e|p] st] ev]; cbn [settle_run tasks];
    try now apply find_task_drop_other.
  cbn [find_task]. destruct (Nat.eqb rid rid') eqn:E.
  - apply Nat.eqb_eq in E. congruence.
  - now apply find_task_drop_other.
Qed.

(** While no run is started and the run [rid] is not woken up, it goes on
    waiting and the instance stays cancelled. *)
Lemma waiting_step (W : World) (sys : Sys) (rid : nat) (p : Pending) (c : Call) :
  leaves_waiting rid c ->
  find_task rid (tasks sys) = Some p ->
  canceled (self (store sys)) = true ->
  find_task rid (tasks (step W sys c)) = Some p
  /\ canceled (self (store (step W sys c))) = true.
Proof.
  intros Hc Hfind Hcan. destruct c as [input| | | |r w]; cbn [leaves_waiting] in Hc;
    cbn [step]; try contradiction.
  - rewrite method_tasks, method_store. split; [exact Hfind|].
    now apply cancel_keeps_canceled.
  - rewrite method_tasks, method_store. split; [exact Hfind|].
    now apply terminate_keeps_canceled.
  - rewrite method_tasks, method_store. split; [exact Hfind|].
    destruct (store sys) as [l sg d]. exact Hcan.
  - destruct (find_task r (tasks sys)) as [q|] eqn:Hq; [|auto].
    destruct (run_resume W q w) as [m|] eqn:Hm; [|auto].
    rewrite settle_run_other by congruence. rewrite settle_run_store.
    split; [exact Hfind|].
    apply (keeps_run_resume (fun l => canceled l = true) W) with (p := q) (w := w);
      [|exact Hm|exact Hcan].
    intros l h Hl. exact Hl.
Qed.

Lemma waiting_steps (W : World) (rid : nat) (p : Pending) (cs : list Call) :
  Forall (leaves_waiting rid) cs ->
  forall sys,
    find_task rid (tasks sys) = Some p ->
    canceled (self (store sys)) = true ->
    find_task rid (tasks (steps W sys cs)) = Some p
    /\ canceled (self (store (steps W sys cs))) = true.
Proof.
  induction 1 as [|c cs Hc _ IH]; intros sys Hfind Hcan; [auto|].
  change (steps W sys (c :: cs)) with (steps W (step W sys c) cs).
  destruct (waiting_step W sys rid p c Hc Hfind Hcan) as [H1 H2]. now apply IH.
Qed.



(** ** When tools are started *)

Section Under.
Variable Q : Loop -> Prop.
Variable P : Event -> Prop.

Lemma under_only {A} (m : M A) : only P m -> under Q P m.
Proof. intros H st _. apply H. Qed.

Lemma under_bind {A B} (m : M A) (f : A -> M B) :
  under Q P m -> keeps Q m -> (forall a, under Q P (f a)) -> under Q P (bind m f).
Proof.
  intros Hm Hk Hf st HQ. unfold bind. specialize (Hm st HQ). specialize (Hk st HQ).
  destruct (m st) as [[c st1] ev1]; simpl in Hm, Hk.
  destruct c as [a| |e|p]; simpl; try exact Hm.
  specialize (Hf a st1 Hk). destruct (f a st1) as [[c2 st2] ev2]; simpl in *.
  apply Forall_app; split; assumption.
Qed.

Lemma under_this {A} (k : Loop -> M A) :
  (forall l, Q l -> under Q P (k l)) -> under Q P (bind this k).
Proof.
  intros Hk st HQ. unfold bind, this. specialize (Hk (self st) HQ st HQ).
  destruct (k (self st) st) as [[c st1] ev1]. exact Hk.
Qed.

Lemma under_try_catch {A} (body : M A) (handler : JsError -> M A) :
  under Q P body -> keeps Q body -> (forall e, under Q P (handler e)) ->
  under Q P (try_catch body handler).
Proof.
  intros Hb Hk Hh st HQ. unfold try_catch. specialize (Hb st HQ). specialize (Hk st HQ).
  destruct (body st) as [[c st1] ev1]; simpl in Hb, Hk.
  destruct c as [a| |e|p]; simpl; try exact Hb.
  specialize (Hh e st1 Hk). destruct (handler e st1) as [[c2 st2] ev2]; simpl in *.
  apply Forall_app; split; assumption.
Qed.

Lemma under_try_finally {A} (body : M A) (fin : M unit) :
  under Q P body -> keeps Q body -> under Q P fin ->
  under Q P (try_finally body fin).
Proof.
  intros Hb Hk Hf st HQ. unfold try_finally. specialize (Hb st HQ). specialize (Hk st HQ).
  destruct (body st) as [[c st1] ev1]; simpl in Hb, Hk.
  specialize (Hf st1 Hk). destruct (fin st1) as [[c2 st2] ev2]; simpl in Hf.
  destruct c as [a| |e|p]; destruct c2; simpl; try assumption;
    apply Forall_app; split; assumption.
Qed.
End Under.

Section ExecIsLive.
Variable W : World.
Variables b1 b2 : bool.
Variable c : option nat.

Let Q := flags_are b1 b2 c.
Let P := exec_is_live b1 b2 c.

Lemma live_fresh_id (prefix : text) : only P (fresh_id W prefix).
Proof. apply only_fresh_id. Qed.

Lemma live_for_each_onItem (items : list ResponseItem) : only P (for_each items onItem).
Proof. apply only_for_each. intros x. apply only_emit. exact I. Qed.

Lemma live_shell_calls (ms : list Regex.Match) : only P (shell_calls W ms).
Proof.
  induction ms as [|m ms IH]; simpl; [apply only_ret|].
  destruct (truthy _); [|exact IH].
  apply only_bind; [apply only_fresh_id|]. intros id.
  apply only_bind; [exact IH|]. intros rest. apply only_ret.
Qed.

Lemma live_patch_calls (ms : list Regex.Match) : only P (patch_calls W ms).
Proof.
  induction ms as [|m ms IH]; simpl; [apply only_ret|].
  destruct (truthy _); [|exact IH].
  apply only_bind; [apply only_fresh_id|]. intros id.
  apply only_bind; [exact IH|]. intros rest. apply only_ret.
Qed.

Lemma live_parseFunctionCalls (t : text) : only P (parseFunctionCalls W t).
Proof.
  unfold parseFunctionCalls, parseFunctionCalls_located.
  apply only_bind.
  - apply only_bind; [apply live_shell_calls|]. intros shells.
    apply only_bind; [apply live_patch_calls|]. intros patches. apply only_ret.
  - intros located. apply only_ret.
Qed.

Lemma live_convert (response : OllamaChatCompletionResponse) (start : Z) :
  only P (convertOllamaResponseToResponseItem W response start).
Proof.
  unfold convertOllamaResponseToResponseItem.
  apply only_bind; [apply only_fresh_id|]. intros id.
  destruct (extractThinkingContent _) as [thinking cleaned].
  apply only_bind.
  - destruct thinking as [[|c0 t]|]; try apply only_ret.
    apply only_bind; [apply only_Date_now|]. intros now. apply only_ret.
  - intros reasoning.
    destruct (Regex.search _ _ _) as [[i w [[|c0 g1]|] g2]|]; apply only_ret.
Qed.

Lemma live_finish_turn (t : Turn) (response : OllamaChatCompletionResponse) :
  only P (finish_turn W t response).
Proof.
  unfold finish_turn, updateConversationHistory, onLastResponseId.
  apply only_bind.
  - apply only_bind; [apply only_this|]. intros l. apply only_assign.
  - intros _. apply only_bind; [apply only_fresh_id|]. intros id.
    apply only_emit. exact I.
Qed.

(** [handleFunctionCall] checks [canceled] itself; the master signal is
    checked by its callers. *)
Lemma live_handleFunctionCall (item : FunctionToolCall) :
  b2 = false -> under Q P (handleFunctionCall W item).
Proof.
  intros Hb2. unfold handleFunctionCall. apply under_this. intros l (Hc & Hh & Hx).
  destruct (canceled l) eqn:E; [apply under_only, only_ret|].
  destruct (parseToolCallArguments W _); [|apply under_only, only_ret].
  destruct (_ || _); [|apply under_only, only_ret].
  apply under_only. apply only_bind; [|intros _; apply only_ret].
  apply only_emit. cbn. repeat split; congruence.
Qed.

Lemma live_dispatch_calls (t : Turn) (response : OllamaChatCompletionResponse)
    (calls : list FunctionToolCall) :
  under Q P (dispatch_calls W t response calls).
Proof.
  destruct calls as [|call rest]; simpl; [apply under_only, live_finish_turn|].
  apply under_this. intros l (Hc & Hh & Hx).
  destruct (stop_requested l) eqn:E.
  - apply under_only. apply only_bind; [apply only_emit; exact I|].
    intros _. apply only_return.
  - unfold stop_requested in E. apply orb_false_iff in E as [E1 E2].
    apply under_bind; [apply under_only, only_emit; exact I|apply keeps_emit|].
    intros _. apply under_bind.
    + apply live_handleFunctionCall. congruence.
    + apply keeps_handleFunctionCall.
    + intros h. apply under_only, only_await.
Qed.

Lemma live_after_chat (t : Turn) (response : OllamaChatCompletionResponse) :
  under Q P (after_chat W t response).
Proof.
  unfold after_chat. apply under_this. intros l (Hc & Hh & Hx).
  destruct (stop_requested l) eqn:E.
  - apply under_only. apply only_bind; [apply only_emit; exact I|].
    intros _. apply only_return.
  - unfold stop_requested in E. apply orb_false_iff in E as [E1 E2].
    apply under_bind; [apply under_only, live_convert|apply keeps_convert|].
    intros items.
    apply under_bind;
      [apply under_only, live_for_each_onItem
      |apply keeps_for_each; intros x; apply keeps_emit|].
    intros _.
    destruct (last_item items) as [[id r [|part parts]|call|id o|id d c0|]|];
      try apply under_only, live_finish_turn.
    + destruct (part_has_text part); [|apply under_only, live_finish_turn].
      apply under_bind;
        [apply under_only, live_parseFunctionCalls
        |apply keeps_parseFunctionCalls|].
      intros calls. apply live_dispatch_calls.
    + apply under_bind.
      * apply live_handleFunctionCall. congruence.
      * apply keeps_handleFunctionCall.
      * intros h. apply under_only, only_await.
Qed.

Lemma live_guards (body : M unit) :
  under Q P body -> keeps Q body -> under Q P (outer_try W (inner_try W body)).
Proof.
  intros Hb Hk. unfold outer_try, inner_try.
  assert (Hic : forall e, only P (inner_catch W e)).
  { intros e. unfold inner_catch, error_item, onItem.
    apply only_bind; [apply only_emit; exact I|]. intros _.
    apply only_bind.
    - apply only_bind; [apply only_Date_now|]. intros now. apply only_ret.
    - intros item. apply only_emit. exact I. }
  assert (Hoc : forall e, only P (outer_catch W e)).
  { intros e. unfold outer_catch, error_item, onItem, onLoading.
    apply only_bind; [apply only_emit; exact I|]. intros _.
    apply only_bind; [apply only_emit; exact I|]. intros _.
    apply only_bind.
    - apply only_bind; [apply only_Date_now|]. intros now. apply only_ret.
    - intros item. apply only_emit. exact I. }
  assert (Hkic : forall e, keeps Q (inner_catch W e)).
  { intros e. unfold inner_catch, error_item, onItem. repeat keeps_step. }
  apply under_try_catch.
  - apply under_try_finally.
    + apply under_try_catch; [exact Hb|exact Hk|]. intros e. apply under_only, Hic.
    + apply keeps_try_catch; [exact Hk|exact Hkic].
    + apply under_only. apply only_emit. exact I.
  - apply keeps_try_finally.
    + apply keeps_try_catch; [exact Hk|exact Hkic].
    + apply keeps_emit.
  - intros e. apply under_only, Hoc.
Qed.

Lemma live_run_resume (p : Pending) (w : Wake) (m : M unit) :
  run_resume W p w = Some m -> under Q P m.
Proof.
  unfold run_resume. destruct (resume_body W p w) as [body|] eqn:E; [|discriminate].
  intros [= <-].
  assert (Hk : keeps Q body).
  { clear - E. revert E.
    destruct p as [t|t response rest [[e|result]|callId]|t response [[e|result]|callId]];
      destruct w as [o|r|]; simpl; intros [= <-].
    - destruct (ollamaChatCompletion_settle o);
        [apply keeps_throw|apply keeps_after_chat]. intros l h H; exact H.
    - apply keeps_throw.
    - apply keeps_bind; [apply keeps_for_each; intros x; apply keeps_emit|].
      intros _. apply keeps_dispatch_calls. intros l h H; exact H.
    - apply keeps_await.
    - apply keeps_throw.
    - apply keeps_bind; [apply keeps_for_each; intros x; apply keeps_emit|].
      intros _. apply keeps_finish_turn. intros l h H; exact H.
    - apply keeps_await. }
  apply live_guards; [|exact Hk]. revert E.
  destruct p as [t|t response rest [[e|result]|callId]|t response [[e|result]|callId]];
    destruct w as [o|r|]; simpl; intros [= <-].
  - destruct (ollamaChatCompletion_settle o);
      [apply under_only, only_throw|apply live_after_chat].
  - apply under_only, only_throw.
  - apply under_bind;
      [apply under_only, live_for_each_onItem
      |apply keeps_for_each; intros x; apply keeps_emit|].
    intros _. apply live_dispatch_calls.
  - apply under_only, only_await.
  - apply under_only, only_throw.
  - apply under_only. apply only_bind; [apply live_for_each_onItem|].
    intros _. apply live_finish_turn.
  - apply under_only, only_await.
Qed.
End ExecIsLive.

(** *** Controllers in a woken run *)

Section SameSignals.
Variable W : World.

Lemma same_ret {A} (a : A) : same_signals (ret a).
Proof. intros st; reflexivity. Qed.

Lemma same_return {A} : same_signals (@return_ A).
Proof. intros st; reflexivity. Qed.

Lemma same_throw {A} (e : JsError) : same_signals (@throw A e).
Proof. intros st; reflexivity. Qed.

Lemma same_await {A} (p : Pending) : same_signals (@await A p).
Proof. intros st; reflexivity. Qed.

Lemma same_this : same_signals this.
Proof. intros st; reflexivity. Qed.

Lemma same_emit (e : Event) : same_signals (emit e).
Proof. intros st; reflexivity. Qed.

Lemma same_assign (f : Loop -> Loop) : same_signals (assign f).
Proof. intros st; reflexivity. Qed.

Lemma same_Date_now : same_signals (Date_now W).
Proof. intros st; reflexivity. Qed.

Lemma same_Math_random_suffix : same_signals (Math_random_suffix W).
Proof. intros st; reflexivity. Qed.

Lemma same_bind {A B} (m : M A) (f : A -> M B) :
  same_signals m -> (forall a, same_signals (f a)) -> same_signals (bind m f).
Proof.
  intros Hm Hf st. unfold bind. specialize (Hm st).
  destruct (m st) as [[c st1] ev1]; simpl in Hm.
  destruct c as [a| |e|p]; simpl; try exact Hm.
  specialize (Hf a st1). destruct (f a st1) as [[c2 st2] ev2]; simpl in *. congruence.
Qed.

Lemma same_for_each {A} (xs : list A) (body : A -> M unit) :
  (forall x, same_signals (body x)) -> same_signals (for_each xs body).
Proof.
  intros Hb. induction xs as [|x xs IH]; simpl.
  - apply same_ret.
  - apply same_bind; [apply Hb | intros _; exact IH].
Qed.

Lemma same_fresh_id (prefix : text) : same_signals (fresh_id W prefix).
Proof.
  apply same_bind; [apply same_Date_now|]. intros now.
  apply same_bind; [apply same_Math_random_suffix|]. intros r. apply same_ret.
Qed.

Lemma same_try_catch {A} (body : M A) (handler : JsError -> M A) :
  same_signals body -> (forall e, same_signals (handler e)) ->
  same_signals (try_catch body handler).
Proof.
  intros Hb Hh st. specialize (Hb st). unfold try_catch.
  destruct (body st) as [[c st1] ev1]; simpl in Hb.
  destruct c as [a| |e|p]; simpl; try exact Hb.
  specialize (Hh e st1). destruct (handler e st1) as [[c2 st2] ev2]; simpl in *.
  congruence.
Qed.

Lemma same_try_finally {A} (body : M A) (fin : M unit) :
  same_signals body -> same_signals fin -> same_signals (try_finally body fin).
Proof.
  intros Hb Hf st. specialize (Hb st). unfold try_finally.
  destruct (body st) as [[c st1] ev1]; simpl in Hb.
  specialize (Hf st1). destruct (fin st1) as [[c2 st2] ev2]; simpl in Hf.
  destruct c as [a| |e|p]; destruct c2; simpl; congruence.
Qed.

Lemma same_shell_calls (ms : list Regex.Match) : same_signals (shell_calls W ms).
Proof.
  induction ms as [|m ms IH]; simpl; [apply same_ret|].
  destruct (truthy _); [|exact IH].
  apply same_bind; [apply same_fresh_id|]. intros id.
  apply same_bind; [exact IH|]. intros rest. apply same_ret.
Qed.

Lemma same_patch_calls (ms : list Regex.Match) : same_signals (patch_calls W ms).
Proof.
  induction ms as [|m ms IH]; simpl; [apply same_ret|].
  destruct (truthy _); [|exact IH].
  apply same_bind; [apply same_fresh_id|]. intros id.
  apply same_bind; [exact IH|]. intros rest. apply same_ret.
Qed.
End SameSignals.

Ltac same_step :=
  first
    [ apply same_ret | apply same_return | apply same_throw | apply same_await
    | apply same_this | apply same_emit | apply same_Date_now
    | apply same_fresh_id | apply same_assign
    | apply same_shell_calls | apply same_patch_calls
    | apply same_for_each; intro
    | apply same_bind; [|intro] ].

Section SameSignalsInBodies.
Variable W : World.

Lemma same_parseFunctionCalls (t : text) : same_signals (parseFunctionCalls W t).
Proof.
  unfold parseFunctionCalls, parseFunctionCalls_located. repeat same_step.
Qed.

Lemma same_convert (response : OllamaChatCompletionResponse) (start : Z) :
  same_signals (convertOllamaResponseToResponseItem W response start).
Proof.
  unfold convertOllamaResponseToResponseItem.
  apply same_bind; [apply same_fresh_id|]. intros id.
  destruct (extractThinkingContent _) as [thinking cleaned].
  apply same_bind.
  - destruct thinking as [[|c t]|]; repeat same_step.
  - intros reasoning.
    destruct (Regex.search _ _ _) as [[i w [[|c g1]|] g2]|]; apply same_ret.
Qed.

Lemma same_handleFunctionCall (item : FunctionToolCall) :
  same_signals (handleFunctionCall W item).
Proof.
  unfold handleFunctionCall. apply same_bind; [apply same_this|]. intros l.
  destruct (canceled l); [apply same_ret|].
  destruct (parseToolCallArguments W _); [|apply same_ret].
  destruct (_ || _); repeat same_step.
Qed.

Lemma same_finish_turn (t : Turn) (response : OllamaChatCompletionResponse) :
  same_signals (finish_turn W t response).
Proof.
  unfold finish_turn, updateConversationHistory, onLastResponseId.
  repeat same_step.
Qed.

Lemma same_dispatch_calls (t : Turn) (response : OllamaChatCompletionResponse)
    (calls : list FunctionToolCall) :
  same_signals (dispatch_calls W t response calls).
Proof.
  destruct calls as [|c rest]; simpl; [apply same_finish_turn|].
  apply same_bind; [apply same_this|]. intros l.
  destruct (stop_requested l); unfold onLoading, onItem;
    repeat first [apply same_handleFunctionCall | same_step].
Qed.

Lemma same_after_chat (t : Turn) (response : OllamaChatCompletionResponse) :
  same_signals (after_chat W t response).
Proof.
  unfold after_chat. apply same_bind; [apply same_this|]. intros l.
  destruct (stop_requested l); unfold onLoading, onItem; [repeat same_step|].
  apply same_bind; [apply same_convert|]. intros items.
  apply same_bind; [repeat same_step|]. intros _.
  destruct (last_item items) as [[id r [|part parts]|call|id o|id d c|]|];
    try apply same_finish_turn.
  - destruct (part_has_text part); [|apply same_finish_turn].
    apply same_bind; [apply same_parseFunctionCalls|]. intros calls.
    apply same_dispatch_calls.
  - apply same_bind; [apply same_handleFunctionCall|]. intros h.
    apply same_await.
Qed.

Lemma same_guards (body : M unit) :
  same_signals body -> same_signals (outer_try W (inner_try W body)).
Proof.
  intros Hb. unfold outer_try, inner_try, outer_catch, inner_catch, error_item,
    onLoading, onItem.
  apply same_try_catch; [|intros e; repeat same_step].
  apply same_try_finally; [|repeat same_step].
  apply same_try_catch; [exact Hb|]. intros e. repeat same_step.
Qed.

(** A woken run allocates and aborts no controller. *)
Lemma same_run_resume (p : Pending) (w : Wake) (m : M unit) :
  run_resume W p w = Some m -> same_signals m.
Proof.
  unfold run_resume. destruct (resume_body W p w) as [body|] eqn:E; [|discriminate].
  intros [= <-]. apply same_guards. revert E.
  destruct p as [t|t response rest [[e|result]|callId]|t response [[e|result]|callId]];
    destruct w as [o|r|]; simpl; intros [= <-].
  - destruct (ollamaChatCompletion_settle o); [apply same_throw|apply same_after_chat].
  - apply same_throw.
  - apply same_bind; [unfold onItem; repeat same_step|]. intros _.
    apply same_dispatch_calls.
  - apply same_await.
  - apply same_throw.
  - apply same_bind; [unfold onItem; repeat same_step|]. intros _.
    apply same_finish_turn.
  - apply same_await.
Qed.
End SameSignalsInBodies.

Lemma controller_live_step (W : World) (sys : Sys) (c : Call) :
  controller_live (store sys) -> controller_live (store (step W sys c)).
Proof.
  intros H. destruct c as [input| | | |rid w]; cbn [step].
  - rewrite settle_run_store.
    destruct (terminated (self (store sys))) eqn:Ht.
    + rewrite run_terminated by exact Ht. exact H.
    + rewrite (run_entry W input (store sys) Ht). intros _ n [= <-].
      unfold aborted; cbn. apply nth_fresh.
  - rewrite method_store.
    destruct (terminated (self (store sys))) eqn:Ht.
    + rewrite cancel_terminated by exact Ht. exact H.
    + rewrite cancel_store by exact Ht. intros _ n [= <-].
      unfold aborted; cbn. rewrite <- (length_after_abort (execAbortController (self (store sys)))).
      apply nth_fresh.
  - rewrite method_store.
    destruct (terminated (self (store sys))) eqn:Ht.
    + rewrite terminate_terminated by exact Ht. exact H.
    + rewrite terminate_store by exact Ht. intros Hh. discriminate Hh.
  - rewrite method_store. destruct (store sys) as [l sg d]. exact H.
  - destruct (find_task rid (tasks sys)) as [p|]; [|exact H].
    destruct (run_resume W p w) as [m|] eqn:E; [|exact H].
    rewrite settle_run_store.
    pose proof (same_run_resume W p w m E (store sys)) as Hs.
    pose proof (keeps_run_resume
                  (fun l => hardAbort l = hardAbort (self (store sys))
                            /\ execAbortController l = execAbortController (self (store sys)))
                  W (fun l h H => H) p w m E (store sys) (conj eq_refl eq_refl)) as [Hh Hc].
    unfold controller_live, aborted in *. rewrite Hs, Hh, Hc. exact H.
Qed.

Lemma controller_live_steps (W : World) (cs : list Call) :
  forall sys, controller_live (store sys) -> controller_live (store (steps W sys cs)).
Proof.
  induction cs as [|c cs IH]; intros sys H; simpl; [exact H|].
  apply IH. now apply controller_live_step.
Qed.

Lemma controller_live_new_loop (W : World) (m : text) (i : option text) (sid : text) :
  controller_live (store (new_loop W m i sid)).
Proof.
  unfold new_loop, constructor. unfold_methods.
  destruct (truthy sid); cbn; intros _ n H; discriminate H.
Qed.

(** X11.  Whatever the history of an instance and whichever suspended run
    is woken: when the piece calls [handleExecCommand], the instance is
    not cancelled and its master signal has not fired, and the signal
    passed is the one of the current controller, which is not aborted. *)
Theorem tool_starts_on_live_signal (W : World) (m : text) (i : option text)
    (sid : text) (cs : list Call) (p : Pending) (w : Wake) (body : M unit)
    (args : ExecInput) (sig : option nat) :
  let st := store (steps W (new_loop W m i sid) cs) in
  run_resume W p w = Some body ->
  In (HandleExecCommand args sig) (snd (body st)) ->
  canceled (self st) = false
  /\ hardAbort (self st) = false
  /\ sig = execAbortController (self st)
  /\ forall n, sig = Some n -> aborted st n = false.
Proof.
  intros st Hb Hin.
  pose proof (live_run_resume W (canceled (self st)) (hardAbort (self st))
                (execAbortController (self st)) p w body Hb st
                (conj eq_refl (conj eq_refl eq_refl))) as HF.
  rewrite Forall_forall in HF. specialize (HF _ Hin). cbn in HF.
  destruct HF as (Hc & Hh & Hs). repeat split; try assumption.
  intros n Hn.
  apply (controller_live_steps W cs _ (controller_live_new_loop W m i sid) Hh).
  fold st. rewrite <- Hs. exact Hn.
Qed.

Lemma tool_starts_on_live_signal_witness :
  let st := store (steps Scenario.world
                     (new_loop Scenario.world (lit "ollama:gemma3:1b") None (lit "session"))
                     [CallRun [Scenario.user_says "list the files"]]) in
  let t := mkTurn 1 0%Z [Scenario.says user "list the files"] in
  let response := Scenario.answer (Scenario.shell_block "ls -la") in
  let body := outer_try Scenario.world
                (inner_try Scenario.world (after_chat Scenario.world t response)) in
  let args := mkExecInput [Json.stringify_command [lit "ls"; lit "-la"]] None None in
  run_resume Scenario.world (AwaitChat t) (ChatSettled (FetchJson response)) = Some body
  /\ In (HandleExecCommand args (Some 0)) (snd (body st))
  /\ canceled (self st) = false
  /\ hardAbort (self st) = false
  /\ Some 0 = execAbortController (self st)
  /\ forall n, Some 0 = Some n -> aborted st n = false.
Proof.
  split; [reflexivity|].
  split; [vm_compute; right; right; left; reflexivity|].
  apply (tool_starts_on_live_signal Scenario.world (lit "ollama:gemma3:1b") None
           (lit "session") [CallRun [Scenario.user_says "list the files"]]
           (AwaitChat (mkTurn 1 0%Z [Scenario.says user "list the files"]))
           (ChatSettled (FetchJson (Scenario.answer (Scenario.shell_block "ls -la"))))
           (outer_try Scenario.world
              (inner_try Scenario.world
                 (after_chat Scenario.world
                    (mkTurn 1 0%Z [Scenario.says user "list the files"])
                    (Scenario.answer (Scenario.shell_block "ls -la")))))
           (mkExecInput [Json.stringify_command [lit "ls"; lit "-la"]] None None)
           (Some 0)).
  - reflexivity.
  - vm_compute. right. right. left. reflexivity.
Defined.

(** ** After [terminate] *)

Lemma settle_run_segments (sys : Sys) (rid : nat) (captured : option nat) (next : nat)
    (r : Completion unit * Store * list Event) :
  exists seg, segments (settle_run sys rid captured next r) = segments sys ++ [seg]
              /\ seg_events seg = snd r.
Proof.
  destruct r as [[c st] ev]. destruct c; simpl; eexists; split; reflexivity.
Qed.

Lemma method_segments (sys : Sys) (m : M unit) :
  exists seg, segments (method sys m) = segments sys ++ [seg]
              /\ seg_events seg = snd (m (store sys)).
Proof.
  unfold method. destruct (m (store sys)) as [[c st] ev]. simpl.
  eexists; split; reflexivity.
Qed.

Lemma stopped_step (W : World) (sys : Sys) (c : Call) :
  stopped (self (store sys)) ->
  stopped (self (store (step W sys c)))
  /\ exists new, segments (step W sys c) = segments sys ++ new /\ Forall quiet new.
Proof.
  intros [Ht Hh]. destruct c as [input| | | |rid w]; cbn [step].
  - rewrite settle_run_store.
    destruct (settle_run_segments sys (next_run sys) None (S (next_run sys))
                (run W input (store sys))) as (seg & -> & Hev).
    rewrite run_terminated in * by exact Ht. split; [split; assumption|].
    exists [seg]. split; [reflexivity|]. constructor; [|constructor].
    unfold quiet. rewrite Hev. cbn. repeat constructor; intros [].
  - rewrite method_store. destruct (method_segments sys cancel) as (seg & -> & Hev).
    rewrite cancel_terminated in * by exact Ht. split; [split; assumption|].
    exists [seg]. split; [reflexivity|]. constructor; [|constructor].
    unfold quiet. rewrite Hev. constructor.
  - rewrite method_store. destruct (method_segments sys terminate) as (seg & -> & Hev).
    rewrite terminate_terminated in * by exact Ht. split; [split; assumption|].
    exists [seg]. split; [reflexivity|]. constructor; [|constructor].
    unfold quiet. rewrite Hev. constructor.
  - rewrite method_store.
    destruct (method_segments sys (clearConversationHistory W)) as (seg & -> & Hev).
    revert Hev. destruct (store sys) as [l sg d]. unfold_methods. intros Hev.
    split; [split; assumption|].
    exists [seg]. split; [reflexivity|]. constructor; [|constructor].
    unfold quiet. rewrite Hev. repeat constructor; intros [].
  - destruct (find_task rid (tasks sys)) as [p|];
      [|split; [split; assumption|exists []; split; [symmetry; apply app_nil_r|constructor]]].
    destruct (run_resume W p w) as [m|] eqn:E;
      [|split; [split; assumption|exists []; split; [symmetry; apply app_nil_r|constructor]]].
    rewrite settle_run_store.
    destruct (settle_run_segments sys rid (Some (thisGeneration (turn_of p)))
                (next_run sys) (m (store sys))) as (seg & -> & Hev).
    split.
    + exact (keeps_run_resume stopped W (fun l h H => H) p w m E (store sys)
               (conj Ht Hh)).
    + exists [seg]. split; [reflexivity|]. constructor; [|constructor].
      unfold quiet. rewrite Hev.
      pose proof (live_run_resume W (canceled (self (store sys))) true
                    (execAbortController (self (store sys))) p w m E (store sys)
                    (conj eq_refl (conj Hh eq_refl))) as HF.
      eapply Forall_impl; [|exact HF].
      intros e He Hw. destruct e; try exact Hw; cbn in He.
      * exact He.
      * destruct He as (_ & Hf & _). discriminate Hf.
Qed.

Lemma stopped_steps (W : World) (cs : list Call) :
  forall sys, stopped (self (store sys)) ->
    exists new, segments (steps W sys cs) = segments sys ++ new /\ Forall quiet new.
Proof.
  induction cs as [|c cs IH]; intros sys H; simpl.
  - exists []. split; [symmetry; apply app_nil_r|constructor].
  - destruct (stopped_step W sys c H) as (H1 & new1 & E1 & Q1).
    destruct (IH _ H1) as (new2 & E2 & Q2).
    exists (new1 ++ new2). split.
    + rewrite E2, E1. symmetry. apply app_assoc.
    + apply Forall_app. split; assumption.
Qed.

Lemma terminated_means_stopped_step (W : World) (sys : Sys) (c : Call) :
  terminated_means_stopped (self (store sys)) ->
  terminated_means_stopped (self (store (step W sys c))).
Proof.
  intros H. destruct c as [input| | | |rid w]; cbn [step].
  - rewrite settle_run_store.
    destruct (terminated (self (store sys))) eqn:Ht.
    + rewrite run_terminated by exact Ht. exact (fun _ => H Ht).
    + rewrite (run_entry W input (store sys) Ht). intros Hf. discriminate Hf.
  - rewrite method_store.
    destruct (terminated (self (store sys))) eqn:Ht.
    + rewrite cancel_terminated by exact Ht. intros _. exact (H Ht).
    + rewrite cancel_store by exact Ht. intros Hf. discriminate Hf.
  - rewrite method_store.
    destruct (terminated (self (store sys))) eqn:Ht.
    + rewrite terminate_terminated by exact Ht. intros _. exact (H Ht).
    + rewrite terminate_store by exact Ht. intros _. reflexivity.
  - rewrite method_store. destruct (store sys) as [l sg d]. exact H.
  - destruct (find_task rid (tasks sys)) as [p|]; [|exact H].
    destruct (run_resume W p w) as [m|] eqn:E; [|exact H].
    rewrite settle_run_store.
    exact (keeps_run_resume terminated_means_stopped W (fun l h H => H) p w m E
             (store sys) H).
Qed.

Lemma terminated_means_stopped_steps (W : World) (cs : list Call) :
  forall sys, terminated_means_stopped (self (store sys)) ->
    terminated_means_stopped (self (store (steps W sys cs))).
Proof.
  induction cs as [|c cs IH]; intros sys H; simpl; [exact H|].
  apply IH. now apply terminated_means_stopped_step.
Qed.

Lemma steps_app (W : World) (sys : Sys) (cs1 cs2 : list Call) :
  steps W sys (cs1 ++ cs2) = steps W (steps W sys cs1) cs2.
Proof. unfold steps. apply fold_left_app. Qed.

Lemma terminate_stops (st : Store) :
  terminated_means_stopped (self st) -> stopped (self (snd (fst (terminate st)))).
Proof.
  intros H0. destruct (terminated (self st)) eqn:Ht.
  - rewrite terminate_terminated by exact Ht. split; [exact Ht|exact (H0 Ht)].
  - rewrite terminate_store by exact Ht. split; reflexivity.
Qed.

(** X12.  Once [terminate] has been called, whatever is called or settles
    afterwards ([run], [cancel], [clearConversationHistory], replies and
    tool results of runs still waiting), the instance posts no request to
    the backend and starts no tool. *)
Theorem nothing_starts_after_terminate (W : World) (m : text) (i : option text)
    (sid : text) (before after : list Call) :
  let sys := steps W (new_loop W m i sid) (before ++ [CallTerminate]) in
  exists new,
    segments (steps W sys after) = segments sys ++ new /\ Forall quiet new.
Proof.
  intros sys. apply stopped_steps. subst sys. rewrite steps_app.
  cbn [steps fold_left step]. rewrite method_store.
  apply terminate_stops, terminated_means_stopped_steps.
  unfold new_loop, constructor. unfold_methods.
  destruct (truthy sid); cbn; intros Hf; discriminate Hf.
Qed.

(** ** Blocks in a reply *)

Lemma strip_prefix_app (l s : text) : Regex.strip_prefix l (l ++ s) = Some s.
Proof.
  induction l as [|c l IH]; simpl; [destruct s; reflexivity|].
  now rewrite N.eqb_refl.
Qed.

Lemma strip_prefix_head (c d : unit16) (l s : text) :
  d <> c -> Regex.strip_prefix (c :: l) (d :: s) = None.
Proof.
  intros H. simpl. destruct (N.eqb c d) eqn:E; [|reflexivity].
  apply N.eqb_eq in E. congruence.
Qed.

(** A search skips a stretch of text in which the first unit of the
    regular expression does not occur. *)
Lemma search_skip (c : unit16) (l : text) (r : Regex.re) (pre rest : text) :
  without c pre ->
  forall idx,
    Regex.search (Regex.Cat (Regex.Lit (c :: l)) r) (pre ++ rest) idx
    = Regex.search (Regex.Cat (Regex.Lit (c :: l)) r) rest (idx + length pre).
Proof.
  induction 1 as [|d s Hd Hs IH]; intros idx.
  - simpl. now rewrite Nat.add_0_r.
  - cbn [app Regex.search].
    rewrite literal_first_head by (intros d' s' [= <- _]; exact Hd).
    rewrite IH. f_equal. simpl. lia.
Qed.

Lemma star_lazy_cons {R} (p : unit16 -> bool) (c : unit16) (s : text) (pos : nat)
    (caps : Regex.Caps) (k : Regex.cont R) :
  Regex.star_lazy p (c :: s) pos caps k
  = match k (c :: s) pos caps with
    | Some x => Some x
    | None => if p c then Regex.star_lazy p s (S pos) caps k else None
    end.
Proof. reflexivity. Qed.

(** A lazy iteration goes on as long as what follows it does not match. *)
Lemma star_lazy_skip {R} (p : unit16 -> bool) (body : text) :
  forall (rest : text) (pos : nat) (caps : Regex.Caps) (k : Regex.cont R),
    Forall (fun d => p d = true) body ->
    (forall b1 b2, body = b1 ++ b2 -> b2 <> [] ->
                   k (b2 ++ rest) (pos + length b1) caps = None) ->
    Regex.star_lazy p (body ++ rest) pos caps k
    = Regex.star_lazy p rest (pos + length body) caps k.
Proof.
  induction body as [|d b IH]; intros rest pos caps k Hp Hk.
  - simpl. now rewrite Nat.add_0_r.
  - inversion Hp as [|? ? Hd Hb]; subst.
    change ((d :: b) ++ rest) with (d :: (b ++ rest)).
    rewrite star_lazy_cons.
    pose proof (Hk [] (d :: b) eq_refl ltac:(discriminate)) as H0.
    simpl in H0. rewrite Nat.add_0_r in H0.
    rewrite H0, Hd. rewrite IH; [f_equal; simpl; lia|exact Hb|].
    intros b1 b2 -> Hn.
    specialize (Hk (d :: b1) b2 eq_refl Hn). simpl in Hk.
    rewrite <- Hk. f_equal. lia.
Qed.

Lemma star_lazy_stop {R} (p : unit16 -> bool) (s : text) (pos : nat)
    (caps : Regex.Caps) (k : Regex.cont R) (x : R) :
  k s pos caps = Some x -> Regex.star_lazy p s pos caps k = Some x.
Proof. intros H. destruct s; simpl; now rewrite H. Qed.

Lemma any_everywhere (s : text) : Forall (fun d => Regex.any d = true) s.
Proof. apply Forall_forall. reflexivity. Qed.

Lemma without_app (c : unit16) (a b : text) :
  without c (a ++ b) <-> without c a /\ without c b.
Proof. unfold without. apply Forall_app. Qed.

Lemma firstn_length_app {A} (a b : list A) : firstn (length a) (a ++ b) = a.
Proof.
  rewrite firstn_app, Nat.sub_diag, firstn_all. simpl. apply app_nil_r.
Qed.

Lemma skipn_length_app {A} (a b : list A) : skipn (length a) (a ++ b) = b.
Proof.
  rewrite skipn_app, Nat.sub_diag, skipn_all. reflexivity.
Qed.

(** The match a search reports when the text is [pre ++ mid ++ post], the
    regular expression does not match inside [pre] and matches [mid] at
    its place. *)
Lemma search_at (c : unit16) (l : text) (r : Regex.re) (pre mid post : text)
    (caps : Regex.Caps) :
  without c pre ->
  Regex.match_here (Regex.Cat (Regex.Lit (c :: l)) r) (mid ++ post)
  = Some (length mid, caps) ->
  Regex.search (Regex.Cat (Regex.Lit (c :: l)) r) (pre ++ mid ++ post) 0
  = Some (Regex.mkMatch (length pre) mid
            (Regex.cut (mid ++ post) (Regex.cap1 caps))
            (Regex.cut (mid ++ post) (Regex.cap2 caps))).
Proof.
  intros Hpre Hm. rewrite search_skip by exact Hpre.
  destruct (mid ++ post) as [|d t] eqn:E; cbn [Regex.search]; rewrite Hm;
    unfold Regex.mk_match; cbn [fst snd]; rewrite <- E, firstn_length_app;
    reflexivity.
Qed.

Lemma remove_at (pre mid post : text) :
  firstn (length pre) (pre ++ mid ++ post)
  ++ skipn (length pre + length mid) (pre ++ mid ++ post)
  = pre ++ post.
Proof.
  rewrite firstn_length_app. f_equal.
  rewrite Nat.add_comm, <- skipn_skipn, skipn_length_app.
  apply skipn_length_app.
Qed.

Lemma think_match (body post : text) :
  without 60%N body ->
  Regex.match_here thinkRegex
    ((lit "<think>" ++ body ++ lit "</think>") ++ post)
  = Some (length (lit "<think>" ++ body ++ lit "</think>"),
          Regex.mkCaps (Some (7, 7 + length body)) None).
Proof.
  intros Hb. unfold Regex.match_here, thinkRegex.
  cbn [Regex.seq fold_right Regex.run].
  rewrite <- !app_assoc. rewrite strip_prefix_app.
  rewrite star_lazy_skip.
  - apply star_lazy_stop. rewrite strip_prefix_app.
    rewrite !length_app. cbn [length lit list_ascii_of_string List.map Nat.add].
    unfold Regex.set_cap, Regex.no_caps. cbn [Regex.cap1 Regex.cap2].
    reflexivity.
  - apply any_everywhere.
  - intros b1 [|d b2] -> Hn; [congruence|].
    apply without_app in Hb as [_ Hb]. inversion Hb; subst.
    cbn [app lit list_ascii_of_string List.map N_of_ascii].
    rewrite strip_prefix_head; [reflexivity|assumption].
Qed.

(** X13.  A reasoning block is split off: when the reply holds a
    [<think>...</think>] block and no [<] before it or inside it, the
    reasoning is what the block holds and the content is what is around
    it, both trimmed. *)
Theorem think_block_is_split_off (pre body post : text) :
  without 60%N pre -> without 60%N body ->
  extractThinkingContent (pre ++ lit "<think>" ++ body ++ lit "</think>" ++ post)
  = (Some (trim body), trim (pre ++ post)).
Proof.
  intros Hpre Hbody. unfold extractThinkingContent, Regex.remove_first.
  set (mid := lit "<think>" ++ body ++ lit "</think>").
  replace (pre ++ lit "<think>" ++ body ++ lit "</think>" ++ post)
    with (pre ++ mid ++ post)
    by (unfold mid; now rewrite <- !app_assoc).
  pose proof (think_match body post Hbody) as Hm. fold mid in Hm.
  assert (Hs : Regex.search thinkRegex (pre ++ mid ++ post) 0
               = Some (Regex.mkMatch (length pre) mid
                         (Regex.cut (mid ++ post) (Some (7, 7 + length body)))
                         (Regex.cut (mid ++ post) None))).
  { exact (search_at 60%N (lit "think>")
             (Regex.seq [Regex.Grp 1 (Regex.StarL Regex.any);
                         Regex.Lit (lit "</think>")])
             pre mid post _ Hpre Hm). }
  rewrite Hs.
  cbn [Regex.index Regex.whole Regex.group1 Regex.cap1 Regex.cut group_or_empty].
  rewrite remove_at. f_equal. f_equal. f_equal.
  unfold substring, mid. rewrite <- !app_assoc.
  cbn [lit list_ascii_of_string List.map N_of_ascii app skipn].
  replace (7 + length body - 7) with (length body) by lia.
  apply firstn_length_app.
Qed.

Lemma think_block_is_split_off_witness :
  lacks 60%N (lit "Sure. ") = true
  /\ lacks 60%N (lit " list the files first ") = true
  /\ extractThinkingContent
       (lit "Sure. " ++ lit "<think>" ++ lit " list the files first "
        ++ lit "</think>" ++ lit " Run ls.")
     = (Some (trim (lit " list the files first ")),
        trim (lit "Sure. " ++ lit " Run ls.")).
Proof.
  split; [reflexivity|]. split; [reflexivity|].
  apply (think_block_is_split_off (lit "Sure. ") (lit " list the files first ")
           (lit " Run ls.")); apply lacks_without; reflexivity.
Defined.

(** *** A fenced shell block *)

Lemma backticks_app (a b : text) : backticks (a ++ b) = backticks a + backticks b.
Proof. apply count_occ_app. Qed.

Lemma backticks_without (s : text) : without 96%N s -> backticks s = 0.
Proof.
  intros H. apply count_occ_not_In. intros Hin.
  unfold without in H. rewrite Forall_forall in H. now apply (H _ Hin).
Qed.

Lemma strip_prefix_some (l s s' : text) :
  Regex.strip_prefix l s = Some s' -> s = l ++ s'.
Proof.
  revert s; induction l as [|c l IH]; intros [|d s]; simpl; try discriminate.
  - now intros [= <-].
  - now intros [= <-].
  - destruct (N.eqb c d) eqn:E; [|discriminate]. apply N.eqb_eq in E. subst d.
    intros H. apply IH in H. now subst.
Qed.

Lemma star_greedy_suffix {R} (p : unit16 -> bool) (s : text) :
  forall pos caps (k : Regex.cont R) x,
    Regex.star_greedy p s pos caps k = Some x ->
    exists consumed s' pos' caps', s = consumed ++ s' /\ k s' pos' caps' = Some x.
Proof.
  induction s as [|c s IH]; intros pos caps k x; simpl.
  - intros H. exists [], [], pos, caps. auto.
  - destruct (p c).
    + destruct (Regex.star_greedy p s (S pos) caps k) as [y|] eqn:E.
      * intros [= <-]. apply IH in E as (u & s' & pos' & caps' & -> & H).
        exists (c :: u), s', pos', caps'. auto.
      * intros H. exists [], (c :: s), pos, caps. auto.
    + intros H. exists [], (c :: s), pos, caps. auto.
Qed.

Lemma star_lazy_suffix {R} (p : unit16 -> bool) (s : text) :
  forall pos caps (k : Regex.cont R) x,
    Regex.star_lazy p s pos caps k = Some x ->
    exists consumed s' pos' caps', s = consumed ++ s' /\ k s' pos' caps' = Some x.
Proof.
  induction s as [|c s IH]; intros pos caps k x; simpl.
  - destruct (k [] pos caps) as [y|] eqn:E; [|discriminate].
    intros [= <-]. exists [], [], pos, caps. auto.
  - destruct (k (c :: s) pos caps) as [y|] eqn:E.
    + intros [= <-]. exists [], (c :: s), pos, caps. auto.
    + destruct (p c); [|discriminate]. intros H.
      apply IH in H as (u & s' & pos' & caps' & -> & H).
      exists (c :: u), s', pos', caps'. auto.
Qed.

(** What a regular expression leaves to its continuation is an end of its
    input. *)
Lemma run_suffix {R} (r : Regex.re) :
  forall s pos caps (k : Regex.cont R) x,
    Regex.run r s pos caps k = Some x ->
    exists consumed s' pos' caps', s = consumed ++ s' /\ k s' pos' caps' = Some x.
Proof.
  induction r as [|l|p|a IHa b IHb|a IHa b IHb|p|p|n r IH];
    intros s pos caps k x; simpl.
  - intros H. exists [], s, pos, caps. auto.
  - destruct (Regex.strip_prefix l s) as [s'|] eqn:E; [|discriminate].
    intros H. apply strip_prefix_some in E. exists l, s', (pos + length l), caps. auto.
  - destruct s as [|c s]; [discriminate|]. destruct (p c); [|discriminate].
    intros H. exists [c], s, (S pos), caps. auto.
  - intros H. apply IHa in H as (u1 & s1 & pos1 & caps1 & -> & H).
    apply IHb in H as (u2 & s2 & pos2 & caps2 & -> & H).
    exists (u1 ++ u2), s2, pos2, caps2. split; [apply app_assoc|exact H].
  - destruct (Regex.run a s pos caps k) as [y|] eqn:E.
    + intros [= <-]. now apply IHa in E.
    + intros H. now apply IHb in H.
  - apply star_greedy_suffix.
  - apply star_lazy_suffix.
  - intros H. apply IH in H as (u & s' & pos' & caps' & -> & H).
    exists u, s', pos', (Regex.set_cap n (pos, pos') caps'). auto.
Qed.

(** A match of a sequence that ends with a literal holds the literal. *)
Lemma seq_ends_with {R} (l : text) (rs : list Regex.re) :
  forall s pos caps (k : Regex.cont R) x,
    Regex.run (Regex.seq (rs ++ [Regex.Lit l])) s pos caps k = Some x ->
    exists a b, s = a ++ l ++ b.
Proof.
  induction rs as [|r rs IH]; intros s pos caps k x; cbn [app Regex.seq fold_right].
  - cbn [Regex.run]. destruct (Regex.strip_prefix l s) as [s'|] eqn:E; [|discriminate].
    intros _. apply strip_prefix_some in E. exists [], s'. exact E.
  - cbn [Regex.run]. intros H.
    apply run_suffix in H as (u & s' & pos' & caps' & -> & H).
    apply IH in H as (a & b & ->). exists (u ++ a), b. apply app_assoc.
Qed.

(** A match of [applyPatchRegex] needs two fences. *)
Lemma patch_match_backticks (s : text) (m : nat * Regex.Caps) :
  Regex.match_here applyPatchRegex s = Some m -> 6 <= backticks s.
Proof.
  unfold Regex.match_here.
  change applyPatchRegex with
    (Regex.Cat (Regex.Lit (fence ++ lit "json"))
       (Regex.seq
          ([Regex.ws;
            Regex.Lit (lit "{"); Regex.ws;
            Regex.Lit (Json.dq ++ lit "cmd" ++ Json.dq); Regex.ws;
            Regex.Lit (lit ":"); Regex.ws;
            Regex.Lit (lit "["); Regex.ws;
            Regex.Lit (Json.dq ++ lit "apply_patch" ++ Json.dq); Regex.ws;
            Regex.Lit (lit ","); Regex.ws;
            Regex.Lit Json.dq; Regex.Grp 1 (Regex.StarL Regex.any);
            Regex.Lit Json.dq;
            Regex.ws; Regex.Lit (lit "]"); Regex.ws;
            Regex.Lit (lit "}"); Regex.ws] ++ [Regex.Lit fence]))).
  cbn [Regex.run].
  destruct (Regex.strip_prefix (fence ++ lit "json") s) as [s1|] eqn:E; [|discriminate].
  apply strip_prefix_some in E. subst s. intros H.
  apply seq_ends_with in H as (a & b & ->).
  rewrite !backticks_app.
  change (backticks (fence ++ lit "json")) with 3.
  change (backticks fence) with 3. lia.
Qed.

(** No match where the text has too few of a unit that every match holds. *)
Lemma search_few (r : Regex.re) (n : nat) :
  (forall s m, Regex.match_here r s = Some m -> n <= backticks s) ->
  forall s idx, backticks s < n -> Regex.search r s idx = None.
Proof.
  intros Hr. induction s as [|d s IH]; intros idx Hs; cbn [Regex.search].
  - destruct (Regex.match_here r []) as [m|] eqn:E; [|reflexivity].
    apply Hr in E. lia.
  - destruct (Regex.match_here r (d :: s)) as [m|] eqn:E.
    + apply Hr in E. lia.
    + apply IH. unfold backticks in *. simpl in Hs.
      destruct (N.eq_dec d 96); lia.
Qed.

Lemma is_space_not_nl (d : unit16) : is_space d = false -> d <> 10%N.
Proof. intros H ->. discriminate H. Qed.

Lemma shell_rest_fails (d : unit16) (s : text) (pos : nat) (caps : Regex.Caps) :
  d <> 10%N -> Regex.run shell_rest (d :: s) pos caps at_end = None.
Proof.
  intros H. unfold shell_rest, nl. cbn [Regex.seq fold_right Regex.run].
  now rewrite strip_prefix_head.
Qed.

Lemma shell_rest_matches (body post : text) (pos : nat) (caps : Regex.Caps) :
  without 96%N body ->
  Regex.run shell_rest (10%N :: body ++ (nl ++ fence) ++ post) pos caps at_end
  = Some (pos + 1 + length body + 4,
          Regex.set_cap 1 (pos + 1, pos + 1 + length body) caps).
Proof.
  intros Hb. unfold shell_rest. cbn [Regex.seq fold_right Regex.run].
  change (10%N :: body ++ (nl ++ fence) ++ post)
    with (nl ++ body ++ (nl ++ fence) ++ post).
  rewrite strip_prefix_app. change (length nl) with 1.
  rewrite star_lazy_skip.
  - apply star_lazy_stop. rewrite strip_prefix_app. reflexivity.
  - apply any_everywhere.
  - intros b1 [|d b2] -> Hn; [congruence|].
    apply without_app in Hb as [_ Hb]. inversion Hb as [|? ? Hd Hb2]; subst.
    unfold nl, fence.
    cbn [app lit list_ascii_of_string List.map N_of_ascii Regex.strip_prefix].
    destruct (N.eqb 10 d); [|reflexivity].
    destruct b2 as [|e b2]; cbn [app Regex.strip_prefix].
    + reflexivity.
    + inversion Hb2; subst.
      replace (N.eqb _ e) with false; [reflexivity|].
      symmetry. apply N.eqb_neq. intros Heq. apply H1. now rewrite <- Heq.
Qed.

(** [\s*] before [\n]: the iteration gives back spaces until a line
    feed follows; without a line feed there is no match. *)
Lemma greedy_without_nl (w : text) (d : unit16) (t : text) :
  forall pos caps,
    Forall (fun e => is_space e = true) w -> without 10%N w ->
    is_space d = false ->
    Regex.star_greedy is_space (w ++ d :: t) pos caps
      (fun s' pos' caps' => Regex.run shell_rest s' pos' caps' at_end)
    = None.
Proof.
  induction w as [|e w IH]; intros pos caps Hw Hn Hd; cbn [app Regex.star_greedy].
  - rewrite Hd. apply shell_rest_fails. now apply is_space_not_nl.
  - inversion Hw; subst. inversion Hn; subst.
    replace (is_space e) with true by (symmetry; assumption).
    rewrite IH by assumption. apply shell_rest_fails. assumption.
Qed.

Lemma greedy_last_nl (w1 w2 : text) (d : unit16) (t : text)
    (x : nat * Regex.Caps) :
  forall pos caps,
    Forall (fun e => is_space e = true) w1 ->
    Forall (fun e => is_space e = true) w2 -> without 10%N w2 ->
    is_space d = false ->
    Regex.run shell_rest (10%N :: w2 ++ d :: t) (pos + length w1) caps at_end = Some x ->
    Regex.star_greedy is_space (w1 ++ 10%N :: w2 ++ d :: t) pos caps
      (fun s' pos' caps' => Regex.run shell_rest s' pos' caps' at_end)
    = Some x.
Proof.
  induction w1 as [|e w1 IH]; intros pos caps H1 H2 Hn Hd Hx;
    cbn [app Regex.star_greedy].
  - change (is_space 10%N) with true. cbv iota.
    rewrite greedy_without_nl by assumption.
    simpl in Hx. now rewrite Nat.add_0_r in Hx.
  - inversion H1; subst.
    replace (is_space e) with true by (symmetry; assumption).
    rewrite (IH (S pos) caps); try assumption; [reflexivity|].
    rewrite <- Hx. f_equal. simpl. lia.
Qed.

Lemma last_nl (w : text) :
  without 10%N w \/ exists w1 w2, w = w1 ++ 10%N :: w2 /\ without 10%N w2.
Proof.
  induction w as [|e w [IH|(w1 & w2 & -> & IH)]].
  - left. constructor.
  - destruct (N.eq_dec e 10) as [->|Hne].
    + right. exists [], w. auto.
    + left. constructor; assumption.
  - right. exists (e :: w1), w2. auto.
Qed.

Lemma trimStart_split (c : text) :
  exists w, c = w ++ trimStart c /\ Forall (fun e => is_space e = true) w.
Proof.
  induction c as [|d c (w & IH & Hw)]; simpl.
  - exists []. auto.
  - destruct (is_space d) eqn:E.
    + exists (d :: w). split; [simpl; f_equal; exact IH|]. constructor; assumption.
    + exists []. auto.
Qed.

Lemma trimStart_head (c : text) (d : unit16) (t : text) :
  trimStart c = d :: t -> is_space d = false.
Proof.
  induction c as [|e c IH]; simpl; [discriminate|].
  destruct (is_space e) eqn:E; [exact IH|]. now intros [= <- _].
Qed.

Lemma trimStart_spaces (w s : text) :
  Forall (fun e => is_space e = true) w -> trimStart (w ++ s) = trimStart s.
Proof. induction 1 as [|e w He _ IH]; simpl; [reflexivity|]. now rewrite He. Qed.

Lemma Forall_app_r {A} (P : A -> Prop) (a b : list A) :
  Forall P (a ++ b) -> Forall P b.
Proof. intros H. now apply Forall_app in H. Qed.

Lemma Forall_app_l {A} (P : A -> Prop) (a b : list A) :
  Forall P (a ++ b) -> Forall P a.
Proof. intros H. now apply Forall_app in H. Qed.

Lemma shell_match (tag c post : text) :
  shell_tag tag -> without 96%N c -> trim c <> [] ->
  exists caps g,
    Regex.match_here shellCommandRegex
      ((fence ++ tag ++ nl ++ c ++ nl ++ fence) ++ post)
    = Some (length (fence ++ tag ++ nl ++ c ++ nl ++ fence), caps)
    /\ Regex.cut ((fence ++ tag ++ nl ++ c ++ nl ++ fence) ++ post) (Regex.cap1 caps)
       = Some g
    /\ trim g = trim c.
Proof.
  intros Htag Hc Htrim.
  destruct (trimStart_split c) as (wc & Ec & Hwc).
  destruct (trimStart c) as [|d t] eqn:Et.
  { exfalso. apply Htrim. unfold trim. now rewrite Et. }
  pose proof (trimStart_head c d t Et) as Hd.
  destruct (last_nl (10%N :: wc)) as [Hno|(w1 & w2 & Ew & Hw2)].
  { inversion Hno; congruence. }
  assert (Hsp : Forall (fun e => is_space e = true) (w1 ++ 10%N :: w2)).
  { rewrite <- Ew. constructor; [reflexivity|assumption]. }
  assert (Hw1 : Forall (fun e => is_space e = true) w1) by (eapply Forall_app_l; eauto).
  assert (Hw2s : Forall (fun e => is_space e = true) w2).
  { apply Forall_app_r in Hsp. now inversion Hsp. }
  assert (Hlen : S (length wc) = length w1 + S (length w2)).
  { change (S (length wc)) with (length (10%N :: wc)). rewrite Ew, length_app.
    reflexivity. }
  assert (Hbody : without 96%N (w2 ++ d :: t)).
  { apply without_app. split.
    - apply Forall_forall. intros e He Heq. subst e.
      rewrite Forall_forall in Hw2s. specialize (Hw2s _ He). discriminate Hw2s.
    - rewrite Ec in Hc. now apply without_app in Hc. }
  set (rest := (nl ++ fence) ++ post).
  assert (Htext : nl ++ c ++ nl ++ fence ++ post
                  = w1 ++ 10%N :: w2 ++ (d :: t) ++ rest).
  { rewrite Ec at 1. unfold rest. rewrite <- !app_assoc.
    change (nl ++ wc ++ (d :: t) ++ nl ++ fence ++ post)
      with ((10%N :: wc) ++ (d :: t) ++ nl ++ fence ++ post).
    rewrite Ew. rewrite <- app_assoc. reflexivity. }
  assert (Hgo : forall pos,
            Regex.star_greedy is_space (nl ++ c ++ nl ++ fence ++ post) pos
              Regex.no_caps
              (fun s' pos' caps' => Regex.run shell_rest s' pos' caps' at_end)
            = Some (pos + length w1 + 1 + length (w2 ++ d :: t) + 4,
                    Regex.set_cap 1
                      (pos + length w1 + 1,
                       pos + length w1 + 1 + length (w2 ++ d :: t))
                      Regex.no_caps)).
  { intros pos. rewrite Htext.
    change (w2 ++ (d :: t) ++ rest) with (w2 ++ d :: (t ++ rest)).
    apply greedy_last_nl; try assumption.
    pose proof (shell_rest_matches (w2 ++ d :: t) post (pos + length w1)
                  Regex.no_caps Hbody) as Hm.
    rewrite <- (app_assoc w2 (d :: t)) in Hm. exact Hm. }
  assert (Hcl : length c = length wc + length (d :: t)).
  { rewrite Ec at 1. apply length_app. }
  exists (Regex.set_cap 1
            (length fence + length tag + length w1 + 1,
             length fence + length tag + length w1 + 1 + length (w2 ++ d :: t))
            Regex.no_caps), (w2 ++ d :: t).
  split; [|split].
  - unfold Regex.match_here.
    change shellCommandRegex with
      (Regex.Cat (Regex.Lit fence)
         (Regex.Cat (Regex.Alt (Regex.Lit (lit "bash")) (Regex.Lit (lit "sh")))
            (Regex.Cat Regex.ws shell_rest))).
    rewrite <- !app_assoc.
    cbn [Regex.run]. rewrite strip_prefix_app.
    destruct Htag as [-> | ->].
    + rewrite strip_prefix_app. unfold Regex.ws. cbn [Regex.run].
      change (fun (s' : text) (pos' : nat) (caps' : Regex.Caps) =>
                Regex.run shell_rest s' pos' caps'
                  (fun (_ : text) (pos0 : nat) (caps0 : Regex.Caps) => Some (pos0, caps0)))
        with (fun (s' : text) (pos' : nat) (caps' : Regex.Caps) =>
                Regex.run shell_rest s' pos' caps' at_end).
      rewrite Hgo. rewrite !length_app in *.
      cbn [length fence lit list_ascii_of_string List.map nl] in *.
      apply f_equal. apply f_equal2; [|reflexivity]. unfold text, unit16 in *. lia.
    + replace (Regex.strip_prefix (lit "bash")
                 (lit "sh" ++ nl ++ c ++ nl ++ fence ++ post)) with (@None text)
        by reflexivity.
      rewrite strip_prefix_app. unfold Regex.ws. cbn [Regex.run].
      change (fun (s' : text) (pos' : nat) (caps' : Regex.Caps) =>
                Regex.run shell_rest s' pos' caps'
                  (fun (_ : text) (pos0 : nat) (caps0 : Regex.Caps) => Some (pos0, caps0)))
        with (fun (s' : text) (pos' : nat) (caps' : Regex.Caps) =>
                Regex.run shell_rest s' pos' caps' at_end).
      rewrite Hgo. rewrite !length_app in *.
      cbn [length fence lit list_ascii_of_string List.map nl] in *.
      apply f_equal. apply f_equal2; [|reflexivity]. unfold text, unit16 in *. lia.
  - cbn [Regex.set_cap Regex.cap1 Regex.cut]. f_equal. unfold substring.
    rewrite <- !app_assoc. rewrite Htext.
    replace (fence ++ tag ++ w1 ++ 10%N :: w2 ++ (d :: t) ++ rest)
      with ((fence ++ tag ++ w1 ++ [10%N]) ++ (w2 ++ d :: t) ++ rest)
      by (rewrite <- !app_assoc; reflexivity).
    replace (length fence + length tag + length w1 + 1)
      with (length (fence ++ tag ++ w1 ++ [10%N]))
      by (rewrite !length_app; simpl; lia).
    rewrite skipn_length_app.
    replace (length (fence ++ tag ++ w1 ++ [10%N]) + length (w2 ++ d :: t)
             - length (fence ++ tag ++ w1 ++ [10%N]))
      with (length (w2 ++ d :: t)) by lia.
    apply firstn_length_app.
  - unfold trim. rewrite trimStart_spaces by assumption.
    rewrite Et. simpl. now rewrite Hd.
Qed.

Lemma search_cons_none (r : Regex.re) (d : unit16) (s : text) (idx : nat) :
  Regex.match_here r (d :: s) = None ->
  Regex.search r (d :: s) idx = Regex.search r s (S idx).
Proof. intros H. cbn [Regex.search]. now rewrite H. Qed.

(** A loop over the matches that finds one match and then none. *)
Lemma exec_all_one (r : Regex.re) (s : text) (m : Regex.Match) :
  s <> [] ->
  Regex.exec r s 0 = Some m ->
  Regex.exec r s (Regex.index m + length (Regex.whole m)) = None ->
  Regex.exec_all r s = [m].
Proof.
  intros Hs H1 H2. unfold Regex.exec_all.
  destruct s as [|d s]; [congruence|].
  cbn [length Regex.exec_while]. now rewrite H1, H2.
Qed.

Lemma shell_block_matches (tag pre c post : text) :
  shell_tag tag -> without 96%N pre -> without 96%N c -> without 96%N post ->
  trim c <> [] ->
  exists m,
    Regex.exec_all shellCommandRegex
      (pre ++ (fence ++ tag ++ nl ++ c ++ nl ++ fence) ++ post) = [m]
    /\ Regex.index m = length pre
    /\ trim (group_or_empty (Regex.group1 m)) = trim c.
Proof.
  intros Htag Hpre Hc Hpost Htrim.
  destruct (shell_match tag c post Htag Hc Htrim) as (caps & g & Hm & Hg & Hgc).
  set (mid := fence ++ tag ++ nl ++ c ++ nl ++ fence) in *.
  pose proof (search_at 96%N [96%N; 96%N]
                (Regex.seq [Regex.Alt (Regex.Lit (lit "bash")) (Regex.Lit (lit "sh"));
                            Regex.ws; Regex.Lit nl;
                            Regex.Grp 1 (Regex.StarL Regex.any);
                            Regex.Lit (nl ++ fence)])
                pre mid post caps Hpre Hm) as Hs.
  change (Regex.Cat _ _) with shellCommandRegex in Hs.
  eexists. split; [|split].
  - apply exec_all_one.
    + unfold mid, fence. destruct pre; discriminate.
    + unfold Regex.exec. cbn [Nat.ltb Nat.leb skipn]. exact Hs.
    + cbn [Regex.index Regex.whole]. unfold Regex.exec.
      replace (length (pre ++ mid ++ post) <? length pre + length mid) with false
        by (symmetry; apply Nat.ltb_ge; rewrite !length_app; lia).
      rewrite Nat.add_comm, <- skipn_skipn, !skipn_length_app.
      now apply (search_without 96%N).
  - reflexivity.
  - cbn [Regex.group1]. rewrite Hg. exact Hgc.
Qed.

Lemma no_patch_in_shell_block (tag pre c post : text) :
  shell_tag tag -> without 96%N pre -> without 96%N c -> without 96%N post ->
  Regex.exec_all applyPatchRegex
    (pre ++ (fence ++ tag ++ nl ++ c ++ nl ++ fence) ++ post) = [].
Proof.
  intros Htag Hpre Hc Hpost. unfold Regex.exec_all. cbn [Regex.exec_while].
  unfold Regex.exec. cbn [Nat.ltb Nat.leb skipn].
  assert (E : Regex.search applyPatchRegex
                (pre ++ (fence ++ tag ++ nl ++ c ++ nl ++ fence) ++ post) 0 = None);
    [|now rewrite E].
  pose proof (search_skip 96%N ([96%N; 96%N] ++ lit "json")
                (Regex.seq
                   [Regex.ws;
                    Regex.Lit (lit "{"); Regex.ws;
                    Regex.Lit (Json.dq ++ lit "cmd" ++ Json.dq); Regex.ws;
                    Regex.Lit (lit ":"); Regex.ws;
                    Regex.Lit (lit "["); Regex.ws;
                    Regex.Lit (Json.dq ++ lit "apply_patch" ++ Json.dq); Regex.ws;
                    Regex.Lit (lit ","); Regex.ws;
                    Regex.Lit Json.dq; Regex.Grp 1 (Regex.StarL Regex.any);
                    Regex.Lit Json.dq;
                    Regex.ws; Regex.Lit (lit "]"); Regex.ws;
                    Regex.Lit (lit "}"); Regex.ws; Regex.Lit fence])
                pre ((fence ++ tag ++ nl ++ c ++ nl ++ fence) ++ post) Hpre 0) as Hs.
  change (Regex.Cat _ _) with applyPatchRegex in Hs. rewrite Hs. clear Hs.
  rewrite <- !app_assoc.
  change (fence ++ tag ++ nl ++ c ++ nl ++ fence ++ post)
    with (96%N :: [96%N; 96%N] ++ tag ++ nl ++ c ++ nl ++ fence ++ post).
  rewrite search_cons_none.
  - apply (search_few applyPatchRegex 6 patch_match_backticks).
    rewrite !backticks_app.
    rewrite (backticks_without c Hc), (backticks_without post Hpost).
    destruct Htag as [-> | ->]; cbn; lia.
  - destruct Htag as [-> | ->]; reflexivity.
Qed.

(** X14.  A fenced [bash] or [sh] block, in a reply with no other
    backtick, is read as exactly one call of [shell]: its arguments are
    the block, trimmed and split at its spaces, under [command].  No call
    of [apply_patch] is read from it. *)
Theorem shell_block_is_one_call (W : World) (tag pre c post : text) (st : Store) :
  shell_tag tag -> without 96%N pre -> without 96%N c -> without 96%N post ->
  trim c <> [] ->
  let id := lit "ollama-shell-" ++ dec_Z (date_now W (draws st)) ++ lit "-"
            ++ substring 2 9 (math_random_base36 W (S (draws st))) in
  parseFunctionCalls W (pre ++ fence ++ tag ++ nl ++ c ++ nl ++ fence ++ post) st
  = (Normal [mkCall (Some id) (Some id) (Some (lit "shell"))
               (Some (Json.stringify_command (split_on 32%N (trim c)))) None],
     tick (tick st), []).
Proof.
  intros Htag Hpre Hc Hpost Htrim id.
  replace (pre ++ fence ++ tag ++ nl ++ c ++ nl ++ fence ++ post)
    with (pre ++ (fence ++ tag ++ nl ++ c ++ nl ++ fence) ++ post)
    by (now rewrite <- !app_assoc).
  destruct (shell_block_matches tag pre c post Htag Hpre Hc Hpost Htrim)
    as (m & Hm & Hi & Hg).
  unfold parseFunctionCalls, parseFunctionCalls_located.
  rewrite Hm, (no_patch_in_shell_block tag pre c post Htag Hpre Hc Hpost).
  cbn [shell_calls patch_calls]. rewrite Hg.
  destruct (trim c) as [|d t] eqn:E; [congruence|].
  cbn [truthy]. destruct st as [l sg n]. unfold_methods. reflexivity.
Qed.

Lemma shell_block_is_one_call_witness :
  let st := store Scenario.fresh in
  let id := lit "ollama-shell-" ++ dec_Z (date_now Scenario.world (draws st)) ++ lit "-"
            ++ substring 2 9 (math_random_base36 Scenario.world (S (draws st))) in
  shell_tag (lit "bash")
  /\ lacks 96%N (lit "Run this: ") = true
  /\ lacks 96%N (lit "ls -la") = true
  /\ lacks 96%N (lit " and tell me.") = true
  /\ trim (lit "ls -la") <> []
  /\ parseFunctionCalls Scenario.world
       (lit "Run this: " ++ fence ++ lit "bash" ++ nl ++ lit "ls -la" ++ nl ++ fence
        ++ lit " and tell me.") st
     = (Normal [mkCall (Some id) (Some id) (Some (lit "shell"))
                  (Some (Json.stringify_command (split_on 32%N (trim (lit "ls -la")))))
                  None],
        tick (tick st), []).
Proof.
  split; [left; reflexivity|]. split; [reflexivity|]. split; [reflexivity|].
  split; [reflexivity|]. split; [discriminate|].
  apply (shell_block_is_one_call Scenario.world (lit "bash") (lit "Run this: ")
           (lit "ls -la") (lit " and tell me.") (store Scenario.fresh)).
  - left. reflexivity.
  - apply lacks_without. reflexivity.
  - apply lacks_without. reflexivity.
  - apply lacks_without. reflexivity.
  - discriminate.
Defined.

(** ** A turn that runs a tool *)

(** A match of a fenced [json] block needs two fences. *)
Lemma json_block_backticks (middle : list Regex.re) (s : text) (m : nat * Regex.Caps) :
  Regex.match_here
    (Regex.Cat (Regex.Lit (fence ++ lit "json"))
       (Regex.seq (middle ++ [Regex.Lit fence]))) s = Some m ->
  6 <= backticks s.
Proof.
  unfold Regex.match_here. cbn [Regex.run].
  destruct (Regex.strip_prefix (fence ++ lit "json") s) as [s1|] eqn:E; [|discriminate].
  apply strip_prefix_some in E. subst s. intros H.
  apply seq_ends_with in H as (a & b & ->).
  rewrite !backticks_app.
  change (backticks (fence ++ lit "json")) with 3.
  change (backticks fence) with 3. lia.
Qed.

Lemma no_json_block_in_shell_block (middle : list Regex.re) (tag pre c post : text) :
  shell_tag tag -> without 96%N pre -> without 96%N c -> without 96%N post ->
  Regex.search
    (Regex.Cat (Regex.Lit (fence ++ lit "json"))
       (Regex.seq (middle ++ [Regex.Lit fence])))
    (pre ++ (fence ++ tag ++ nl ++ c ++ nl ++ fence) ++ post) 0 = None.
Proof.
  intros Htag Hpre Hc Hpost.
  pose proof (search_skip 96%N ([96%N; 96%N] ++ lit "json")
                (Regex.seq (middle ++ [Regex.Lit fence]))
                pre ((fence ++ tag ++ nl ++ c ++ nl ++ fence) ++ post) Hpre 0) as Hs.
  change (Regex.Lit (96%N :: [96%N; 96%N] ++ lit "json"))
    with (Regex.Lit (fence ++ lit "json")) in Hs.
  rewrite Hs. clear Hs.
  rewrite <- !app_assoc.
  change (fence ++ tag ++ nl ++ c ++ nl ++ fence ++ post)
    with (96%N :: [96%N; 96%N] ++ tag ++ nl ++ c ++ nl ++ fence ++ post).
  rewrite search_cons_none.
  - apply (search_few _ 6 (json_block_backticks middle)).
    rewrite !backticks_app.
    rewrite (backticks_without c Hc), (backticks_without post Hpost).
    destruct Htag as [-> | ->]; cbn; lia.
  - unfold Regex.match_here. cbn [Regex.run].
    destruct Htag as [-> | ->]; reflexivity.
Qed.

Section ShellTurn.
Variable W : World.
Variables tag pre c post : text.
Variable response : OllamaChatCompletionResponse.

Hypothesis reply_text :
  content (message response)
  = pre ++ (fence ++ tag ++ nl ++ c ++ nl ++ fence) ++ post.
Hypothesis tag_ok : shell_tag tag.
Hypothesis pre_ok : without 96%N pre.
Hypothesis c_ok : without 96%N c.
Hypothesis post_ok : without 96%N post.
Hypothesis no_think : without 60%N (content (message response)).
Hypothesis c_not_blank : trim c <> [].

Lemma convert_shell_reply (start : Z) (st : Store) :
  convertOllamaResponseToResponseItem W response start st
  = (Normal [Message
               (Some (lit "ollama-" ++ dec_Z (date_now W (draws st)) ++ lit "-"
                      ++ substring 2 9 (math_random_base36 W (S (draws st)))))
               assistant [mkPart output_text (content (message response))]],
     tick (tick st), []).
Proof.
  unfold convertOllamaResponseToResponseItem, extractThinkingContent.
  assert (Ht : Regex.search thinkRegex (content (message response)) 0 = None).
  { unfold thinkRegex. cbn [Regex.seq fold_right lit app
      list_ascii_of_string List.map N_of_ascii].
    now apply (search_without 60%N). }
  rewrite Ht.
  assert (Hf : Regex.search functionCallRegex (content (message response)) 0 = None).
  { rewrite reply_text.
    exact (no_json_block_in_shell_block
             [Regex.ws;
              Regex.Lit (lit "{"); Regex.ws;
              Regex.Lit (Json.dq ++ lit "cmd" ++ Json.dq); Regex.ws;
              Regex.Lit (lit ":"); Regex.ws;
              Regex.Lit (lit "["); Regex.ws;
              Regex.Lit Json.dq; Regex.Grp 1 (Regex.PlusG not_dquote);
              Regex.Lit Json.dq;
              Regex.Opt (Regex.seq [Regex.Lit (lit ","); Regex.ws;
                                    Regex.Lit Json.dq;
                                    Regex.Grp 2 (Regex.PlusG not_dquote);
                                    Regex.Lit Json.dq]);
              Regex.ws; Regex.Lit (lit "]"); Regex.ws;
              Regex.Lit (lit "}"); Regex.ws]
             tag pre c post tag_ok pre_ok c_ok post_ok). }
  rewrite Hf. unfold_methods. reflexivity.
Qed.

Lemma parse_shell_reply (st : Store) :
  let id := lit "ollama-shell-" ++ dec_Z (date_now W (draws st)) ++ lit "-"
            ++ substring 2 9 (math_random_base36 W (S (draws st))) in
  parseFunctionCalls W (content (message response)) st
  = (Normal [mkCall (Some id) (Some id) (Some (lit "shell"))
               (Some (Json.stringify_command (split_on 32%N (trim c)))) None],
     tick (tick st), []).
Proof.
  intros id. rewrite reply_text.
  destruct (shell_block_matches tag pre c post tag_ok pre_ok c_ok post_ok c_not_blank)
    as (m & Hm & Hi & Hg).
  unfold parseFunctionCalls, parseFunctionCalls_located.
  rewrite Hm, (no_patch_in_shell_block tag pre c post tag_ok pre_ok c_ok post_ok).
  cbn [shell_calls patch_calls]. rewrite Hg.
  destruct (trim c) as [|d t] eqn:E; [congruence|].
  cbn [truthy]. destruct st as [l sg n]. unfold_methods. reflexivity.
Qed.

Lemma reply_not_empty : truthy (content (message response)) = true.
Proof. rewrite reply_text. destruct pre; reflexivity. Qed.

Variable args : ExecInput.
Hypothesis args_parse :
  parseToolCallArguments W (Json.stringify_command (split_on 32%N (trim c))) = Some args.

(** The piece that the reply wakes up: it ends at the call of
    [handleExecCommand]. *)
Lemma shell_reply_piece (t : Turn) (st : Store) :
  stop_requested (self st) = false ->
  let id := lit "ollama-" ++ dec_Z (date_now W (draws st)) ++ lit "-"
            ++ substring 2 9 (math_random_base36 W (1 + draws st)) in
  let cid := lit "ollama-shell-" ++ dec_Z (date_now W (2 + draws st)) ++ lit "-"
             ++ substring 2 9 (math_random_base36 W (3 + draws st)) in
  let call := mkCall (Some cid) (Some cid) (Some (lit "shell"))
                (Some (Json.stringify_command (split_on 32%N (trim c)))) None in
  outer_try W (inner_try W (after_chat W t response)) st
  = (Await (AwaitCallInLoop t response [] (InExec (Some cid))),
     mkStore (self st) (signals st) (4 + draws st),
     [OnItem (Message (Some id) assistant
                [mkPart output_text (content (message response))]);
      OnItem (FunctionCall call);
      HandleExecCommand args (execAbortController (self st))]).
Proof.
  intros Hs id cid call.
  unfold outer_try, inner_try, after_chat.
  assert (E : forall (k : list ResponseItem -> M unit),
            bind (convertOllamaResponseToResponseItem W response (thinkingStart t)) k
                 st
            = let '(c0, st2, ev2) :=
                k [Message (Some id) assistant
                     [mkPart output_text (content (message response))]]
                  (tick (tick st)) in
              (c0, st2, ev2)).
  { intros k. unfold bind at 1. rewrite convert_shell_reply.
    destruct (k _ _) as [[c0 st2] ev2]. reflexivity. }
  unfold try_catch at 2. unfold try_finally. unfold try_catch.
  unfold bind at 1. unfold this at 1. rewrite Hs.
  rewrite E. cbn [for_each last_item].
  unfold part_has_text. cbn [part_type part_text]. rewrite reply_not_empty.
  unfold bind at 1. unfold bind at 1. unfold onItem, emit, ret.
  unfold bind at 1.
  rewrite parse_shell_reply.
  cbn [dispatch_calls]. unfold stop_requested in *.
  destruct st as [l sg d]. cbn [self signals draws tick] in *.
  unfold handleFunctionCall. unfold_methods. cbn [self] in *.
  rewrite Hs.
  apply orb_false_iff in Hs as [Hc Hh].
  cbn [self signals draws fc_function fc_name fc_arguments fc_call_id fc_id nullish_or].
  rewrite Hc, args_parse.
  cbn [name_is]. 
  replace (Text.eqb (lit "shell") (lit "shell")) with true by reflexivity.
  rewrite orb_true_r. reflexivity.
Qed.
End ShellTurn.

(** The piece that the result of the tool wakes up, and the one that
    follows it. *)
Lemma exec_settled_piece (W : World) (t : Turn) (response : OllamaChatCompletionResponse)
    (rest : list FunctionToolCall) (callId : option text) (r : JsError + ExecOutcome)
    (st : Store) :
  outer_try W (inner_try W
    (await (AwaitCallInLoop t response rest (handleFunctionCall_resume callId r)))) st
  = (Await (AwaitCallInLoop t response rest (handleFunctionCall_resume callId r)), st, []).
Proof. reflexivity. Qed.

Lemma last_call_piece (W : World) (t : Turn) (response : OllamaChatCompletionResponse)
    (result : list ResponseItem) (st : Store) :
  outer_try W (inner_try W
    (for_each result (onItem) ;; dispatch_calls W t response [])) st
  = (Normal tt,
     mkStore (set_conversationHistory
                (limit_history
                   (pushed (conversationHistory (self st)) (newMessages t) response))
                (self st))
       (signals st) (2 + draws st),
     List.map OnItem result
     ++ [OnLastResponseId
           (lit "ollama-" ++ dec_Z (date_now W (draws st)) ++ lit "-"
            ++ substring 2 9 (math_random_base36 W (1 + draws st)));
         OnLoading false]).
Proof.
  unfold outer_try, inner_try. cbn [dispatch_calls].
  unfold try_catch at 2. unfold try_finally. unfold try_catch.
  unfold bind at 1.
  rewrite (for_each_pure (fun item => [OnItem item])) by reflexivity.
  unfold finish_turn, updateConversationHistory.
  destruct st as [l sg d]. unfold_methods.
  assert (E : forall xs : list ResponseItem,
            flat_map (fun item => [OnItem item]) xs = List.map OnItem xs).
  { induction xs as [|x xs IH]; simpl; [reflexivity|]. now rewrite IH. }
  rewrite E, <- app_assoc. reflexivity.
Qed.



(** ** A turn with several calls *)

Lemma dispatch_of_app (a b : list Event) :
  dispatch_of (a ++ b) = dispatch_of a ++ dispatch_of b.
Proof. apply flat_map_app. Qed.

Lemma dispatch_of_items (items : list ResponseItem) :
  Forall plain_item items -> dispatch_of (List.map OnItem items) = [].
Proof.
  induction 1 as [|x xs Hx _ IH]; simpl; [reflexivity|].
  destruct x; simpl in *; try exact IH; contradiction.
Qed.

(** ** The matches of a scan *)

Lemma exec_found_in (r : Regex.re) (s : text) (i : nat) (m : Regex.Match) :
  advancing r -> Regex.exec r s i = Some m -> found_in r s m.
Proof.
  intros Hadv H. destruct (exec_found r s i m Hadv H) as (H1 & H2 & H3).
  unfold Regex.exec in H. destruct (length s <? i) eqn:E; [discriminate|].
  apply search_found in H as (j & mm & Hj & Hm & ->).
  rewrite skipn_skipn in Hm. cbn [Regex.mk_match Regex.index] in *.
  exists mm. rewrite (Nat.add_comm i j). repeat split.
  - exact Hm.
  - unfold Regex.mk_match. now rewrite skipn_skipn.
  - cbn [Regex.mk_match Regex.index Regex.whole] in *. lia.
Qed.

Lemma exec_while_found (r : Regex.re) (s : text) :
  advancing r ->
  forall fuel i,
    Forall (found_in r s) (Regex.exec_while fuel r s i)
    /\ one_after_the_other (Regex.exec_while fuel r s i).
Proof.
  intros Hadv. induction fuel as [|fuel IH]; intros i; simpl.
  - split; constructor.
  - destruct (Regex.exec r s i) as [m|] eqn:E; [|split; constructor].
    destruct (IH (Regex.index m + length (Regex.whole m))) as [IH1 IH2].
    split.
    + constructor; [eapply exec_found_in; eassumption|exact IH1].
    + constructor; [exact IH2|]. apply exec_while_from. exact Hadv.
Qed.

Lemma one_after_the_other_filter (f : Regex.Match -> bool) (ms : list Regex.Match) :
  one_after_the_other ms -> one_after_the_other (filter f ms).
Proof.
  induction ms as [|m ms IH]; simpl; intros H; [constructor|].
  apply StronglySorted_inv in H as [Hs Hall].
  destruct (f m); [|now apply IH].
  constructor; [now apply IH|].
  rewrite Forall_forall in *. intros x Hx. apply filter_In in Hx as [Hx _]. auto.
Qed.

Lemma Forall_filter {A} (P : A -> Prop) (f : A -> bool) (xs : list A) :
  Forall P xs -> Forall P (filter f xs).
Proof.
  rewrite !Forall_forall. intros H x Hx. apply filter_In in Hx as [Hx _]. auto.
Qed.

(** ** What the scan builds *)

Lemma shell_calls_built (W : World) (ms : list Regex.Match) :
  forall st, exists calls st',
    shell_calls W ms st = (Normal calls, st', [])
    /\ Forall2 shell_call_of (filter has_command ms) (List.map snd calls).
Proof.
  induction ms as [|m ms IH]; intros st; simpl.
  - exists [], st. split; [reflexivity|constructor].
  - unfold has_command at 1.
    destruct (truthy (trim (group_or_empty (Regex.group1 m)))) eqn:E.
    + destruct (IH (tick (tick st))) as (calls & st' & Hc & Hb).
      unfold_methods. unfold tick in Hc; cbn [self signals draws] in Hc.
      rewrite Hc. eexists _, st'. split; [reflexivity|].
      cbn [List.map snd]. constructor; [|exact Hb]. eexists. reflexivity.
    + apply IH.
Qed.

Lemma patch_calls_built (W : World) (ms : list Regex.Match) :
  forall st, exists calls st',
    patch_calls W ms st = (Normal calls, st', [])
    /\ Forall2 patch_call_of (filter has_patch ms) (List.map snd calls).
Proof.
  induction ms as [|m ms IH]; intros st; simpl.
  - exists [], st. split; [reflexivity|constructor].
  - unfold has_patch at 1.
    destruct (truthy (unescape_newlines (group_or_empty (Regex.group1 m)))) eqn:E.
    + destruct (IH (tick (tick st))) as (calls & st' & Hc & Hb).
      unfold_methods. unfold tick in Hc; cbn [self signals draws] in Hc.
      rewrite Hc. eexists _, st'. split; [reflexivity|].
      cbn [List.map snd]. constructor; [|exact Hb]. eexists. reflexivity.
    + apply IH.
Qed.

Lemma parseFunctionCalls_built (W : World) (t : text) (st : Store) :
  exists cs cp st',
    parseFunctionCalls W t st = (Normal (cs ++ cp), st', [])
    /\ self st' = self st
    /\ Forall2 shell_call_of
         (filter has_command (Regex.exec_all shellCommandRegex t)) cs
    /\ Forall2 patch_call_of
         (filter has_patch (Regex.exec_all applyPatchRegex t)) cp.
Proof.
  destruct (shell_calls_built W (Regex.exec_all shellCommandRegex t) st)
    as (shells & st1 & Hs & Hbs).
  destruct (patch_calls_built W (Regex.exec_all applyPatchRegex t) st1)
    as (patches & st2 & Hp & Hbp).
  exists (List.map snd shells), (List.map snd patches), st2.
  split; [|split; [|split; assumption]].
  - unfold parseFunctionCalls, parseFunctionCalls_located. unfold_methods.
    rewrite Hs, Hp. now rewrite map_app.
  - pose proof (keeps_shell_calls (fun l => l = self st) W
                  (Regex.exec_all shellCommandRegex t) st eq_refl) as H1.
    pose proof (keeps_patch_calls (fun l => l = self st) W
                  (Regex.exec_all applyPatchRegex t) st1) as H2.
    rewrite Hs in H1. rewrite Hp in H2. cbn [fst snd] in *. auto.
Qed.

(** ** The pieces of a turn with calls *)

Section Turn.
Variable W : World.

(** [handleFunctionCall] on an instance that is not stopped: the tool is
    started, or the answer to the call is there. *)
Lemma handleFunctionCall_settles (item : FunctionToolCall) (st : Store) :
  stop_requested (self st) = false ->
  exists h ev,
    handleFunctionCall W item st = (Normal h, st, ev)
    /\ answers (correlation_id item) h /\ dispatch_of ev = [].
Proof.
  intros Hs. apply orb_false_iff in Hs as [Hc _].
  unfold handleFunctionCall. unfold_methods. rewrite Hc.
  destruct (parseToolCallArguments W _).
  - destruct (_ || _); eexists _, _; (split; [reflexivity|]);
      split; reflexivity.
  - eexists _, _. split; [reflexivity|]. split; [|reflexivity].
    cbn [answers List.map dispatch_of flat_map app].
    unfold correlation_id. now rewrite falsy_or_nullish_or.
Qed.

Lemma flat_map_OnItem (xs : list ResponseItem) :
  flat_map (fun item => [OnItem item]) xs = List.map OnItem xs.
Proof. induction xs as [|x xs IH]; simpl; [reflexivity|]. now rewrite IH. Qed.

(** The piece that emits the result of a call and goes on to the next
    call. *)
Lemma next_call_piece (t : Turn) (response : OllamaChatCompletionResponse)
    (result : list ResponseItem) (c : FunctionToolCall) (rest : list FunctionToolCall)
    (st : Store) :
  stop_requested (self st) = false ->
  exists h ev,
    outer_try W (inner_try W
      (for_each result onItem ;; dispatch_calls W t response (c :: rest))) st
    = (Await (AwaitCallInLoop t response rest h), st,
       List.map OnItem result ++ OnItem (FunctionCall c) :: ev)
    /\ answers (correlation_id c) h /\ dispatch_of ev = [].
Proof.
  intros Hs.
  destruct (handleFunctionCall_settles c st Hs) as (h & ev & Hh & Hok & Hev).
  exists h, ev. split; [|split; assumption].
  unfold outer_try, inner_try. cbn [dispatch_calls].
  unfold try_catch at 2. unfold try_finally. unfold try_catch.
  unfold bind at 1.
  rewrite (for_each_pure (fun item => [OnItem item])) by reflexivity.
  unfold bind at 1. unfold this at 1. rewrite Hs.
  unfold bind at 1. unfold onItem at 1. unfold emit at 1.
  unfold bind at 1. rewrite Hh. unfold await.
  rewrite flat_map_OnItem. cbn [app]. now rewrite app_nil_r.
Qed.

(** One wake-up of a suspended run: the run stays suspended, or ends. *)
Lemma wake_up_await (sys : Sys) (rid : nat) (p : Pending) (w : Wake) (m : M unit)
    (p' : Pending) (st : Store) (ev : list Event) :
  find_task rid (tasks sys) = Some p ->
  run_resume W p w = Some m ->
  m (store sys) = (Await p', st, ev) ->
  exists seg,
    step W sys (WakeUp rid w)
    = mkSys st ((rid, p') :: drop_task rid (tasks sys)) (next_run sys)
        (segments sys ++ [seg])
    /\ seg_events seg = ev.
Proof.
  intros Hf Hm Hr. cbn [step]. rewrite Hf, Hm, Hr. eexists.
  cbn [settle_run]. split; reflexivity.
Qed.

Lemma wake_up_normal (sys : Sys) (rid : nat) (p : Pending) (w : Wake) (m : M unit)
    (st : Store) (ev : list Event) :
  find_task rid (tasks sys) = Some p ->
  run_resume W p w = Some m ->
  m (store sys) = (Normal tt, st, ev) ->
  exists seg,
    step W sys (WakeUp rid w)
    = mkSys st (drop_task rid (tasks sys)) (next_run sys) (segments sys ++ [seg])
    /\ seg_events seg = ev.
Proof.
  intros Hf Hm Hr. cbn [step]. rewrite Hf, Hm, Hr. eexists.
  cbn [settle_run]. split; reflexivity.
Qed.

Variable answer : Pending -> Wake.
Hypothesis answer_ok : tools_fulfil answer.

Lemma answer_tick_loop (t : Turn) (r : OllamaChatCompletionResponse)
    (rest : list FunctionToolCall) (x : JsError + list ResponseItem) :
  answer (AwaitCallInLoop t r rest (Settled x)) = Tick.
Proof.
  destruct (answer_ok (AwaitCallInLoop t r rest (Settled x))) as [Hf _].
  destruct (answer _); cbn [fits] in Hf; try contradiction. reflexivity.
Qed.

Lemma answer_tick_main (t : Turn) (r : OllamaChatCompletionResponse)
    (x : JsError + list ResponseItem) :
  answer (AwaitCallMain t r (Settled x)) = Tick.
Proof.
  destruct (answer_ok (AwaitCallMain t r (Settled x))) as [Hf _].
  destruct (answer _); cbn [fits] in Hf; try contradiction. reflexivity.
Qed.

Lemma answer_exec (p : Pending) :
  match p with
  | AwaitCallInLoop _ _ _ (InExec _) | AwaitCallMain _ _ (InExec _) => True
  | _ => False
  end ->
  exists o, answer p = ExecSettled (inr o)
            /\ Forall plain_item (match additionalItems o with
                                  | Some items => items
                                  | None => []
                                  end).
Proof.
  intros Hp. destruct (answer_ok p) as [Hf Hr].
  destruct p as [t|t r rest [x|c]|t r [x|c]]; try contradiction;
    destruct (answer _) as [o|r'|]; cbn [fits] in Hf; try contradiction;
    destruct (Hr r' eq_refl) as (o & -> & Ho); eauto.
Qed.

Lemma answer_chat (t : Turn) : exists o, answer (AwaitChat t) = ChatSettled o.
Proof.
  destruct (answer_ok (AwaitChat t)) as [Hf _].
  destruct (answer _); cbn [fits] in Hf; try contradiction. eauto.
Qed.

Lemma ends_now (rid : nat) (sys : Sys) :
  find_task rid (tasks sys) = None -> ends_with (step W) answer rid sys [].
Proof.
  intros H. exists 0, []. cbn [drive]. rewrite app_nil_r. auto.
Qed.

Lemma ends_after (rid : nat) (sys sys1 : Sys) (p : Pending) (seg : Segment)
    (trace : list Dispatch) :
  find_task rid (tasks sys) = Some p ->
  step W sys (WakeUp rid (answer p)) = sys1 ->
  segments sys1 = segments sys ++ [seg] ->
  ends_with (step W) answer rid sys1 trace ->
  ends_with (step W) answer rid sys (dispatch_of (seg_events seg) ++ trace).
Proof.
  intros Hf Hs Hseg (fuel & new & H1 & H2 & H3).
  exists (S fuel), (seg :: new). cbn [drive]. rewrite Hf, Hs.
  split; [|split; [exact H2|]].
  - rewrite H1, Hseg, <- app_assoc. reflexivity.
  - cbn [flat_map]. now rewrite dispatch_of_app, H3.
Qed.

(** The result of a tool that has fulfilled holds the answer to its
    call. *)
Lemma resumed_answers (call_id : option text) (o : ExecOutcome) :
  Forall plain_item (match additionalItems o with
                     | Some items => items
                     | None => []
                     end) ->
  dispatch_of
    (List.map OnItem
       (FunctionCallOutput call_id (Json.stringify_output (outputText o) (metadata o))
        :: match additionalItems o with Some items => items | None => [] end))
  = [Answered call_id].
Proof.
  intros Ho. cbn [List.map dispatch_of flat_map app].
  fold (dispatch_of (List.map OnItem match additionalItems o with
                                     | Some items => items
                                     | None => []
                                     end)).
  now rewrite (dispatch_of_items _ Ho).
Qed.

(** A tool that was started settles: the run goes on with its result. *)
Lemma loop_in_exec (rid : nat) (rest : list FunctionToolCall) (call_id : option text) :
  (forall sys t response result,
     find_task rid (tasks sys)
     = Some (AwaitCallInLoop t response rest (Settled (inr result))) ->
     stop_requested (self (store sys)) = false ->
     dispatch_of (List.map OnItem result) = [Answered call_id] ->
     ends_with (step W) answer rid sys (Answered call_id :: one_by_one rest)) ->
  forall sys t response h,
    find_task rid (tasks sys) = Some (AwaitCallInLoop t response rest h) ->
    stop_requested (self (store sys)) = false ->
    answers call_id h ->
    ends_with (step W) answer rid sys (Answered call_id :: one_by_one rest).
Proof.
  intros Hsettled sys t response [[e|result]|callId] Hfind Hstop Hh;
    cbn [answers] in Hh; [contradiction|eauto|]. subst callId.
  destruct (answer_exec (AwaitCallInLoop t response rest (InExec call_id)) I)
    as (o & Ha & Ho).
  destruct (wake_up_await sys rid _ (ExecSettled (inr o)) _ _ _ _ Hfind eq_refl
              (exec_settled_piece W t response rest call_id (inr o) (store sys)))
    as (seg & Hstep & Hev).
  rewrite <- Ha in Hstep.
  replace (Answered call_id :: one_by_one rest)
    with (dispatch_of (seg_events seg) ++ Answered call_id :: one_by_one rest)
    by (now rewrite Hev).
  eapply ends_after; [exact Hfind|exact Hstep|reflexivity|].
  apply (Hsettled _ t response
           (FunctionCallOutput call_id
              (Json.stringify_output (outputText o) (metadata o))
            :: match additionalItems o with Some items => items | None => [] end)).
  - cbn [tasks find_task]. now rewrite Nat.eqb_refl.
  - exact Hstop.
  - now apply resumed_answers.
Qed.

(** The loop of [run] over the calls that are left, while the call with
    the id [call_id] is being handled: that call is answered, then every
    call that is left is handed to [onItem] and answered, one by one in
    the order of the list, and the run ends. *)
Lemma loop_dispatches (rid : nat) (rest : list FunctionToolCall) :
  forall sys t response h call_id,
    find_task rid (tasks sys) = Some (AwaitCallInLoop t response rest h) ->
    stop_requested (self (store sys)) = false ->
    answers call_id h ->
    ends_with (step W) answer rid sys (Answered call_id :: one_by_one rest).
Proof.
  induction rest as [|c rest IH]; intros sys0 t0 response0 h0 call_id;
    apply loop_in_exec; intros sys t response result Hfind Hstop Hres.
  - destruct (wake_up_normal sys rid _ Tick _ _ _ Hfind eq_refl
                (last_call_piece W t response result (store sys)))
      as (seg & Hstep & Hev).
    rewrite <- (answer_tick_loop t response [] (inr result)) in Hstep.
    replace (Answered call_id :: one_by_one [])
      with (dispatch_of (seg_events seg) ++ []).
    + eapply ends_after; [exact Hfind|exact Hstep|reflexivity|].
      apply ends_now. cbn [tasks]. apply find_task_drop_same.
    + rewrite Hev, app_nil_r, dispatch_of_app, Hres. reflexivity.
  - destruct (next_call_piece t response result c rest (store sys) Hstop)
      as (h & ev & Hpiece & Hh & Hcalls).
    destruct (wake_up_await sys rid _ Tick _ _ _ _ Hfind eq_refl Hpiece)
      as (seg & Hstep & Hev).
    rewrite <- (answer_tick_loop t response (c :: rest) (inr result)) in Hstep.
    replace (Answered call_id :: one_by_one (c :: rest))
      with (dispatch_of (seg_events seg)
            ++ Answered (correlation_id c) :: one_by_one rest).
    + eapply ends_after; [exact Hfind|exact Hstep|reflexivity|].
      apply (IH _ t response h); [|exact Hstop|exact Hh].
      cbn [tasks find_task]. now rewrite Nat.eqb_refl.
    + rewrite Hev, dispatch_of_app, Hres.
      cbn [dispatch_of flat_map app]. fold (dispatch_of ev). rewrite Hcalls.
      reflexivity.
Qed.

(** The same for the one call that a reply is read as. *)
Lemma main_call_ends (rid : nat) (sys : Sys) (t : Turn)
    (response : OllamaChatCompletionResponse) (h : Handler) (call_id : option text) :
  find_task rid (tasks sys) = Some (AwaitCallMain t response h) ->
  answers call_id h ->
  ends_with (step W) answer rid sys [Answered call_id].
Proof.
  assert (Hsettled : forall sys result,
            find_task rid (tasks sys)
            = Some (AwaitCallMain t response (Settled (inr result))) ->
            dispatch_of (List.map OnItem result) = [Answered call_id] ->
            ends_with (step W) answer rid sys [Answered call_id]).
  { intros sys0 result Hfind Hres.
    destruct (wake_up_normal sys0 rid _ Tick _ _ _ Hfind eq_refl
                (last_call_piece W t response result (store sys0)))
      as (seg & Hstep & Hev).
    rewrite <- (answer_tick_main t response (inr result)) in Hstep.
    replace [Answered call_id] with (dispatch_of (seg_events seg) ++ []).
    - eapply ends_after; [exact Hfind|exact Hstep|reflexivity|].
      apply ends_now. cbn [tasks]. apply find_task_drop_same.
    - rewrite Hev, app_nil_r, dispatch_of_app, Hres. reflexivity. }
  intros Hfind Hh. destruct h as [[e|result]|callId];
    cbn [answers] in Hh; [contradiction|eauto|]. subst callId.
  destruct (answer_exec (AwaitCallMain t response (InExec call_id)) I)
    as (o & Ha & Ho).
  assert (Hpiece : outer_try W (inner_try W
                     (await (AwaitCallMain t response
                               (handleFunctionCall_resume call_id (inr o))))) (store sys)
                   = (Await (AwaitCallMain t response
                               (handleFunctionCall_resume call_id (inr o))),
                      store sys, [])) by reflexivity.
  destruct (wake_up_await sys rid _ (ExecSettled (inr o)) _ _ _ _ Hfind eq_refl Hpiece)
    as (seg & Hstep & Hev).
  rewrite <- Ha in Hstep.
  replace [Answered call_id] with (dispatch_of (seg_events seg) ++ [Answered call_id])
    by (now rewrite Hev).
  eapply ends_after; [exact Hfind|exact Hstep|reflexivity|].
  apply (Hsettled _
           (FunctionCallOutput call_id
              (Json.stringify_output (outputText o) (metadata o))
            :: match additionalItems o with Some items => items | None => [] end)).
  - cbn [tasks find_task]. now rewrite Nat.eqb_refl.
  - now apply resumed_answers.
Qed.

(** ** The piece that the reply wakes up *)

(** What [convertOllamaResponseToResponseItem] returns: the reasoning, if
    there is one, and the one call or the message. *)
Lemma convert_result (response : OllamaChatCompletionResponse) (start : Z) (st : Store) :
  let text := snd (extractThinkingContent (content (message response))) in
  exists id reasoning st1,
    convertOllamaResponseToResponseItem W response start st
    = (Normal
         (reasoning
          ++ [match single_call text with
              | Some (name, args) =>
                  FunctionCall (mkCall (Some id) (Some id) (Some name) (Some args) None)
              | None => Message (Some id) assistant [mkPart output_text text]
              end]),
       st1, [])
    /\ self st1 = self st
    /\ Forall plain_item reasoning.
Proof.
  unfold convertOllamaResponseToResponseItem, single_call.
  destruct (extractThinkingContent (content (message response)))
    as [thinking cleaned]. cbn [snd].
  destruct thinking as [[|c t]|];
    destruct (Regex.search functionCallRegex cleaned 0) as [[i w [[|c' g1]|] g2]|];
    unfold_methods;
    first [ eexists _, [], _; split; [reflexivity|]
          | eexists _, [_], _; split; [reflexivity|] ];
    (split; [reflexivity|]); repeat constructor.
Qed.

Lemma guards_same (body1 body2 : M unit) (st1 st2 : Store) :
  body1 st1 = body2 st2 ->
  outer_try W (inner_try W body1) st1 = outer_try W (inner_try W body2) st2.
Proof.
  intros H. unfold outer_try, inner_try, try_catch, try_finally. now rewrite H.
Qed.

Lemma last_item_snoc {A} (xs : list A) (x : A) : last_item (xs ++ [x]) = Some x.
Proof. apply last_item_app_single. Qed.

(** A reply that is read as a message: its items are handed over, and the
    loop starts on the calls of the scan. *)
Lemma after_chat_message (t : Turn) (response : OllamaChatCompletionResponse)
    (st : Store) :
  let text := snd (extractThinkingContent (content (message response))) in
  stop_requested (self st) = false ->
  single_call text = None ->
  exists items cs cp st2,
    after_chat W t response st
    = (for_each items onItem ;; dispatch_calls W t response (cs ++ cp)) st2
    /\ self st2 = self st
    /\ Forall plain_item items
    /\ Forall2 shell_call_of
         (filter has_command (Regex.exec_all shellCommandRegex text)) cs
    /\ Forall2 patch_call_of
         (filter has_patch (Regex.exec_all applyPatchRegex text)) cp.
Proof.
  intros text Hstop Hsingle.
  destruct (convert_result response (thinkingStart t) st)
    as (id & reasoning & st1 & Hconv & Hself & Hreason).
  fold text in Hconv. rewrite Hsingle in Hconv.
  set (items := reasoning ++ [Message (Some id) assistant [mkPart output_text text]])
    in *.
  assert (Hitems : Forall plain_item items).
  { apply Forall_app. split; [exact Hreason|]. repeat constructor. }
  assert (Hemit : forall s, for_each items onItem s
                            = (Normal tt, s, List.map OnItem items)).
  { intros s. rewrite (for_each_pure (fun item => [OnItem item])) by reflexivity.
    now rewrite flat_map_OnItem. }
  assert (Hlast : last_item items
                  = Some (Message (Some id) assistant [mkPart output_text text]))
    by apply last_item_snoc.
  unfold after_chat. unfold bind at 1. unfold this at 1. rewrite Hstop.
  unfold bind at 1. rewrite Hconv. unfold bind at 1. rewrite Hemit, Hlast.
  unfold part_has_text. cbn [part_type part_text].
  destruct (truthy text) eqn:Htext.
  - destruct (parseFunctionCalls_built W text st1) as (cs & cp & st2 & Hp & Hs2 & Hcs & Hcp).
    exists items, cs, cp, st2. split; [|split; [congruence|auto]].
    unfold bind at 1. rewrite Hp. unfold bind. rewrite Hemit.
    destruct (dispatch_calls W t response (cs ++ cp) st2) as [[c0 s0] e0].
    cbn [app]. reflexivity.
  - destruct text as [|u text']; [|discriminate].
    exists items, [], [], st1. split; [|split; [exact Hself|]].
    + unfold bind. rewrite Hemit. cbn [app dispatch_calls].
      destruct (finish_turn W t response st1) as [[c0 s0] e0]. reflexivity.
    + split; [exact Hitems|]. split; constructor.
Qed.

(** A reply that is read as one call: its items are handed over, the
    call among them, and the call is handled. *)
Lemma after_chat_call (t : Turn) (response : OllamaChatCompletionResponse)
    (st : Store) (name args : text) :
  let text := snd (extractThinkingContent (content (message response))) in
  stop_requested (self st) = false ->
  single_call text = Some (name, args) ->
  exists id h st1 ev,
    outer_try W (inner_try W (after_chat W t response)) st
    = (Await (AwaitCallMain t response h), st1, ev)
    /\ answers (Some id) h
    /\ dispatch_of ev
       = [Handed (mkCall (Some id) (Some id) (Some name) (Some args) None)].
Proof.
  intros text Hstop Hsingle.
  destruct (convert_result response (thinkingStart t) st)
    as (id & reasoning & st1 & Hconv & Hself & Hreason).
  fold text in Hconv. rewrite Hsingle in Hconv.
  set (call := mkCall (Some id) (Some id) (Some name) (Some args) None) in *.
  assert (Hstop1 : stop_requested (self st1) = false) by now rewrite Hself.
  destruct (handleFunctionCall_settles call st1 Hstop1) as (h & ev & Hh & Hok & Hev).
  exists id, h, st1, (List.map OnItem (reasoning ++ [FunctionCall call]) ++ ev).
  split; [|split; [exact Hok|]].
  - unfold outer_try, inner_try, after_chat.
    unfold try_catch at 2. unfold try_finally. unfold try_catch.
    unfold bind at 1. unfold this at 1. rewrite Hstop.
    unfold bind at 1. rewrite Hconv. unfold bind at 1.
    rewrite (for_each_pure (fun item => [OnItem item])) by reflexivity.
    rewrite last_item_snoc. unfold bind at 1. rewrite Hh. unfold await.
    rewrite flat_map_OnItem. cbn [app]. now rewrite app_nil_r.
  - rewrite dispatch_of_app, Hev, map_app, dispatch_of_app,
      (dispatch_of_items _ Hreason).
    reflexivity.
Qed.

(** A whole turn from the reply on. *)
Lemma reply_with_calls_ends (sys : Sys) (rid : nat) (t : Turn)
    (response : OllamaChatCompletionResponse) :
  let text := snd (extractThinkingContent (content (message response))) in
  let sys1 := step W sys (WakeUp rid (ChatSettled (FetchJson response))) in
  find_task rid (tasks sys) = Some (AwaitChat t) ->
  stop_requested (self (store sys)) = false ->
  exists seg trace,
    segments sys1 = segments sys ++ [seg]
    /\ ends_with (step W) answer rid sys1 trace
    /\ match single_call text with
       | Some (name, args) =>
           exists id,
             dispatch_of (seg_events seg) ++ trace
             = one_by_one [mkCall (Some id) (Some id) (Some name) (Some args) None]
       | None =>
           exists cs cp,
             Forall2 shell_call_of
               (filter has_command (Regex.exec_all shellCommandRegex text)) cs
             /\ Forall2 patch_call_of
                  (filter has_patch (Regex.exec_all applyPatchRegex text)) cp
             /\ dispatch_of (seg_events seg) ++ trace = one_by_one (cs ++ cp)
       end.
Proof.
  intros text sys1 Hfind Hstop. subst sys1.
  destruct (single_call text) as [[name args]|] eqn:Hsingle.
  - destruct (after_chat_call t response (store sys) name args Hstop Hsingle)
      as (id & h & st1 & ev & Hpiece & Hok & Hcalls).
    destruct (wake_up_await sys rid _ (ChatSettled (FetchJson response)) _ _ _ _
                Hfind eq_refl Hpiece) as (seg & Hstep & Hev).
    exists seg, [Answered (Some id)]. rewrite Hstep. split; [reflexivity|]. split.
    + apply (main_call_ends rid _ t response h); [|exact Hok].
      cbn [tasks find_task]. now rewrite Nat.eqb_refl.
    + exists id. rewrite Hev, Hcalls. reflexivity.
  - destruct (after_chat_message t response (store sys) Hstop Hsingle)
      as (items & cs & cp & st2 & Hbody & Hself & Hitems & Hcs & Hcp).
    assert (Hstop2 : stop_requested (self st2) = false) by now rewrite Hself.
    pose proof (guards_same _ _ _ _ Hbody) as Hg.
    destruct (cs ++ cp) as [|c rest] eqn:Hcalls.
    + rewrite last_call_piece in Hg.
      destruct (wake_up_normal sys rid _ (ChatSettled (FetchJson response)) _ _ _
                  Hfind eq_refl Hg) as (seg & Hstep & Hev).
      exists seg, []. rewrite Hstep. split; [reflexivity|]. split.
      * apply ends_now. cbn [tasks]. apply find_task_drop_same.
      * exists cs, cp. split; [exact Hcs|]. split; [exact Hcp|].
        rewrite Hcalls, Hev, app_nil_r, dispatch_of_app, (dispatch_of_items _ Hitems).
        reflexivity.
    + destruct (next_call_piece t response items c rest st2 Hstop2)
        as (h & ev & Hpiece & Hok & Hevc).
      rewrite Hpiece in Hg.
      destruct (wake_up_await sys rid _ (ChatSettled (FetchJson response)) _ _ _ _
                  Hfind eq_refl Hg) as (seg & Hstep & Hev).
      exists seg, (Answered (correlation_id c) :: one_by_one rest).
      rewrite Hstep. split; [reflexivity|]. split.
      * apply (loop_dispatches rid rest _ t response h); [|exact Hstop2|exact Hok].
        cbn [tasks find_task]. now rewrite Nat.eqb_refl.
      * exists cs, cp. split; [exact Hcs|]. split; [exact Hcp|].
        rewrite Hcalls, Hev, dispatch_of_app, (dispatch_of_items _ Hitems).
        cbn [dispatch_of flat_map app]. fold (dispatch_of ev). now rewrite Hevc.
Qed.
End Turn.


Lemma settles_fulfil : tools_fulfil Scenario.settles.
Proof.
  intros p. split.
  - destruct p as [t|t r rest [x|c]|t r [x|c]]; exact I.
  - intros r Hr. exists (mkExecOutcome (lit "a.txt") (Some (lit "{}")) None).
    split; [|constructor].
    destruct p as [t|t r0 rest [x|c]|t r0 [x|c]]; cbn [Scenario.settles] in Hr;
      congruence.
Qed.


(** The turn of the witness, spelled out: the two fences first, then the
    block that stands between them. *)
Example fences_around_block_turn :
  let sys := steps Scenario.world Scenario.fresh
               [CallRun [Scenario.user_says "fix it"];
                WakeUp 0 (ChatSettled (Scenario.reply Scenario.fences_around_block))] in
  let sys' := drive (step Scenario.world) Scenario.settles 0 6 sys in
  find_task 0 (tasks sys') = None
  /\ List.map (fun d => match d with
                        | Handed c => fc_name c
                        | Answered _ => Some (lit "answer")
                        end)
       (dispatch_of (flat_map seg_events (segments sys')))
     = [Some (lit "shell"); Some (lit "answer");
        Some (lit "shell"); Some (lit "answer");
        Some (lit "apply_patch"); Some (lit "answer")]
  /\ List.map fc_arguments (calls_of (flat_map seg_events (segments sys')))
     = [Some (Json.stringify_command [lit "ls"; lit "-la"]);
        Some (Json.stringify_command [lit "pwd"]);
        Some (Json.stringify_patch (lit "*** Begin Patch"))].
Proof. vm_compute. repeat split; reflexivity. Qed.

(** A reply with a fence and a patch block without a blank before the
    comma: the block is read as the one call of the reply, with its raw
    argument, and the fence is not dispatched. *)
Example fence_then_compact_block_turn :
  let sys := steps Scenario.world Scenario.fresh
               [CallRun [Scenario.user_says "fix it"];
                WakeUp 0 (ChatSettled (Scenario.reply Scenario.fence_then_compact_block))] in
  let sys' := drive (step Scenario.world) Scenario.settles 0 6 sys in
  single_call Scenario.fence_then_compact_block
  = Some (lit "apply_patch", lit "*** Begin Patch")
  /\ find_task 0 (tasks sys') = None
  /\ List.map (fun c => (fc_name c, fc_arguments c))
       (calls_of (flat_map seg_events (segments sys')))
     = [(Some (lit "apply_patch"), Some (lit "*** Begin Patch"))]
  /\ length (dispatch_of (flat_map seg_events (segments sys'))) = 2.
Proof. vm_compute. repeat split; reflexivity. Qed.

(** ** What a woken run writes *)

Section Takes.
Variables Pre Post : Loop -> Prop.

Lemma takes_keeps {A} (m : M A) :
  keeps Pre m -> (forall l, Pre l -> Post l) -> takes Pre Post m.
Proof. intros Hk Hw st H. apply Hw, Hk, H. Qed.

Lemma takes_bind {A B} (m : M A) (f : A -> M B) :
  keeps Pre m -> (forall a, takes Pre Post (f a)) -> (forall l, Pre l -> Post l) ->
  takes Pre Post (bind m f).
Proof.
  intros Hm Hf Hw st H. unfold bind. specialize (Hm st H).
  destruct (m st) as [[c st1] ev1]; simpl in Hm.
  destruct c as [a| |e|p]; simpl; try (apply Hw; exact Hm).
  specialize (Hf a st1 Hm). destruct (f a st1) as [[c2 st2] ev2]. exact Hf.
Qed.

Lemma takes_try_catch {A} (body : M A) (handler : JsError -> M A) :
  takes Pre Post body -> (forall e, keeps Post (handler e)) ->
  takes Pre Post (try_catch body handler).
Proof.
  intros Hb Hh st H. specialize (Hb st H). unfold try_catch.
  destruct (body st) as [[c st1] ev1]; simpl in Hb.
  destruct c as [a| |e|p]; simpl; try exact Hb.
  specialize (Hh e st1 Hb). destruct (handler e st1) as [[c2 st2] ev2]. exact Hh.
Qed.

Lemma takes_try_finally {A} (body : M A) (fin : M unit) :
  takes Pre Post body -> keeps Post fin -> takes Pre Post (try_finally body fin).
Proof.
  intros Hb Hf st H. specialize (Hb st H). unfold try_finally.
  destruct (body st) as [[c st1] ev1]; simpl in Hb.
  specialize (Hf st1 Hb). destruct (fin st1) as [[c2 st2] ev2]; simpl in Hf.
  destruct c as [a| |e|p]; destruct c2; simpl; assumption.
Qed.
End Takes.

Section OneWrite.
Variable W : World.
Variable l0 : Loop.
Variable t : Turn.
Variable response : OllamaChatCompletionResponse.

Let target : Loop :=
  set_conversationHistory
    (limit_history (pushed (conversationHistory l0) (newMessages t) response)) l0.
Let Pre (l : Loop) : Prop := l = l0.
Let Post (l : Loop) : Prop := l = l0 \/ l = target.

Lemma Pre_Post (l : Loop) : Pre l -> Post l.
Proof. intros H. now left. Qed.

Lemma once_finish_turn : takes Pre Post (finish_turn W t response).
Proof.
  intros st H. unfold finish_turn, updateConversationHistory, onLastResponseId.
  destruct st as [l sg d]. cbn in H. unfold Pre in H. subst l.
  unfold_methods. right. reflexivity.
Qed.

Lemma once_dispatch_calls (calls : list FunctionToolCall) :
  takes Pre Post (dispatch_calls W t response calls).
Proof.
  destruct calls as [|c rest]; simpl; [apply once_finish_turn|].
  apply takes_keeps; [|apply Pre_Post].
  apply keeps_bind; [apply keeps_this|]. intros l.
  destruct (stop_requested l); unfold onLoading, onItem;
    repeat first [apply keeps_handleFunctionCall | keeps_step].
Qed.

Lemma once_after_chat : takes Pre Post (after_chat W t response).
Proof.
  unfold after_chat. apply takes_bind; [apply keeps_this| |apply Pre_Post]. intros l.
  destruct (stop_requested l); unfold onLoading, onItem.
  { apply takes_keeps; [repeat keeps_step|apply Pre_Post]. }
  apply takes_bind; [apply keeps_convert| |apply Pre_Post]. intros items.
  apply takes_bind; [repeat keeps_step| |apply Pre_Post]. intros _.
  destruct (last_item items) as [[id r [|part parts]|call|id o|id d c|]|];
    try apply once_finish_turn.
  - destruct (part_has_text part); [|apply once_finish_turn].
    apply takes_bind; [apply keeps_parseFunctionCalls| |apply Pre_Post]. intros calls.
    apply once_dispatch_calls.
  - apply takes_keeps; [|apply Pre_Post].
    apply keeps_bind; [apply keeps_handleFunctionCall|]. intros h. apply keeps_await.
Qed.

Lemma once_guards (body : M unit) :
  takes Pre Post body -> takes Pre Post (outer_try W (inner_try W body)).
Proof.
  intros Hb. unfold outer_try, inner_try, outer_catch, inner_catch, error_item,
    onLoading, onItem.
  apply takes_try_catch; [|intros e; repeat keeps_step].
  apply takes_try_finally; [|repeat keeps_step].
  apply takes_try_catch; [exact Hb|]. intros e. repeat keeps_step.
Qed.
End OneWrite.

(** X16.  The one write of a woken run.  A run that is woken up leaves
    every field of the instance and every controller as they are, with one
    exception: when the turn ends, the history becomes the old history
    with the new messages of the turn and the reply of the model pushed,
    limited to the cap.  The results of the tools are not written to
    it. *)
Theorem woken_run_writes_history_once (W : World) (p : Pending) (w : Wake)
    (m : M unit) (st : Store) :
  run_resume W p w = Some m ->
  let st' := snd (fst (m st)) in
  signals st' = signals st
  /\ (self st' = self st
      \/ exists response,
           reply_of p w = Some response
           /\ self st'
              = set_conversationHistory
                  (limit_history
                     (pushed (conversationHistory (self st))
                        (newMessages (turn_of p)) response))
                  (self st)).
Proof.
  intros Hm st'. split; [exact (same_run_resume W p w m Hm st)|].
  subst st'. revert Hm. unfold run_resume.
  destruct (resume_body W p w) as [body|] eqn:E; [|discriminate].
  intros [= <-]. revert E.
  destruct p as [t|t response rest [[e|result]|callId]|t response [[e|result]|callId]];
    destruct w as [o|r|]; simpl; intros [= <-].
  - destruct o as [e|s|r|e]; cbn [ollamaChatCompletion_settle];
      try (left;
           exact (keeps_guards (fun l => l = self st) W _ (keeps_throw _ _) st eq_refl)).
    destruct (once_guards W (self st) t r _ (once_after_chat W (self st) t r) st eq_refl)
      as [H|H]; [now left|right]. exists r. split; [reflexivity|exact H].
  - left. exact (keeps_guards (fun l => l = self st) W _ (keeps_throw _ _) st eq_refl).
  - assert (Hb : takes (fun l => l = self st)
                   (fun l => l = self st
                             \/ l = set_conversationHistory
                                      (limit_history
                                         (pushed (conversationHistory (self st))
                                            (newMessages t) response)) (self st))
                   (for_each result (onItem) ;; dispatch_calls W t response rest)).
    { apply takes_bind; [unfold onItem; repeat keeps_step| |intros l H; now left].
      intros _. apply once_dispatch_calls. }
    destruct (once_guards W (self st) t response _ Hb st eq_refl) as [H|H];
      [now left|right]. exists response. split; [reflexivity|exact H].
  - left. exact (keeps_guards (fun l => l = self st) W _ (keeps_await _ _) st eq_refl).
  - left. exact (keeps_guards (fun l => l = self st) W _ (keeps_throw _ _) st eq_refl).
  - assert (Hb : takes (fun l => l = self st)
                   (fun l => l = self st
                             \/ l = set_conversationHistory
                                      (limit_history
                                         (pushed (conversationHistory (self st))
                                            (newMessages t) response)) (self st))
                   (for_each result (onItem) ;; finish_turn W t response)).
    { apply takes_bind; [unfold onItem; repeat keeps_step| |intros l H; now left].
      intros _. apply once_finish_turn. }
    destruct (once_guards W (self st) t response _ Hb st eq_refl) as [H|H];
      [now left|right]. exists response. split; [reflexivity|exact H].
  - left. exact (keeps_guards (fun l => l = self st) W _ (keeps_await _ _) st eq_refl).
Qed.

Lemma woken_run_writes_history_once_witness :
  let st := store (steps Scenario.world Scenario.fresh
                     [CallRun [Scenario.user_says "hi"]]) in
  let t := mkTurn 1 0%Z [Scenario.says user "hi"] in
  let p := AwaitChat t in
  let w := ChatSettled (Scenario.reply (lit "hello")) in
  let m := outer_try Scenario.world
             (inner_try Scenario.world
                (after_chat Scenario.world t (Scenario.answer (lit "hello")))) in
  run_resume Scenario.world p w = Some m
  /\ signals (snd (fst (m st))) = signals st
  /\ (self (snd (fst (m st))) = self st
      \/ exists response,
           reply_of p w = Some response
           /\ self (snd (fst (m st)))
              = set_conversationHistory
                  (limit_history
                     (pushed (conversationHistory (self st))
                        (newMessages (turn_of p)) response))
                  (self st)).
Proof.
  split; [reflexivity|].
  apply (woken_run_writes_history_once Scenario.world
           (AwaitChat (mkTurn 1 0%Z [Scenario.says user "hi"]))
           (ChatSettled (Scenario.reply (lit "hello")))
           (outer_try Scenario.world
              (inner_try Scenario.world
                 (after_chat Scenario.world (mkTurn 1 0%Z [Scenario.says user "hi"])
                    (Scenario.answer (lit "hello")))))
           (store (steps Scenario.world Scenario.fresh
                     [CallRun [Scenario.user_says "hi"]]))).
  reflexivity.
Defined.

(** ** One request for each run *)

Lemma posts_snoc (segs : list Segment) (seg : Segment) :
  posts (segs ++ [seg]) = posts segs + length (filter is_post (seg_events seg)).
Proof.
  unfold posts. rewrite flat_map_app, filter_app, length_app. simpl.
  now rewrite app_nil_r.
Qed.

Lemma no_post_in_items (items : list ResponseItem) :
  filter is_post (List.map OnItem items) = [].
Proof. induction items as [|x xs IH]; simpl; auto. Qed.

Lemma woken_run_posts_nothing (W : World) (p : Pending) (w : Wake) (body : M unit)
    (st : Store) :
  run_resume W p w = Some body -> filter is_post (snd (body st)) = [].
Proof.
  intros Hb.
  pose proof (live_run_resume W (canceled (self st)) (hardAbort (self st))
                (execAbortController (self st)) p w body Hb st
                (conj eq_refl (conj eq_refl eq_refl))) as HF.
  induction HF as [|e ev He _ IH]; [reflexivity|]. simpl.
  destruct e; try exact IH. contradiction.
Qed.

Lemma posts_step (W : World) (sys : Sys) (c : Call) :
  posts (segments (step W sys c))
  = posts (segments sys)
    + (if is_run c && negb (terminated (self (store sys))) then 1 else 0).
Proof.
  destruct c as [input| | | |rid w]; cbn [step is_run andb].
  - destruct (settle_run_segments sys (next_run sys) None (S (next_run sys))
                (run W input (store sys))) as (seg & -> & Hev).
    rewrite posts_snoc, Hev.
    destruct (terminated (self (store sys))) eqn:Ht; cbn [negb].
    + rewrite (run_terminated W input (store sys) Ht). reflexivity.
    + rewrite (run_entry W input (store sys) Ht). cbn [snd].
      rewrite filter_app, no_post_in_items. reflexivity.
  - destruct (method_segments sys cancel) as (seg & -> & Hev).
    rewrite posts_snoc, Hev.
    destruct (terminated (self (store sys))) eqn:Ht.
    + rewrite (cancel_terminated (store sys) Ht). reflexivity.
    + rewrite (cancel_store (store sys) Ht). reflexivity.
  - destruct (method_segments sys terminate) as (seg & -> & Hev).
    rewrite posts_snoc, Hev.
    destruct (terminated (self (store sys))) eqn:Ht.
    + rewrite (terminate_terminated (store sys) Ht). reflexivity.
    + rewrite (terminate_store (store sys) Ht). reflexivity.
  - destruct (method_segments sys (clearConversationHistory W)) as (seg & -> & Hev).
    rewrite posts_snoc, Hev. destruct (store sys) as [l sg d]. reflexivity.
  - destruct (find_task rid (tasks sys)) as [p|]; [|lia].
    destruct (run_resume W p w) as [m|] eqn:E; [|lia].
    destruct (settle_run_segments sys rid (Some (thisGeneration (turn_of p)))
                (next_run sys) (m (store sys))) as (seg & -> & Hev).
    rewrite posts_snoc, Hev, (woken_run_posts_nothing W p w m (store sys) E).
    reflexivity.
Qed.

Lemma not_terminated_step (W : World) (sys : Sys) (c : Call) :
  is_terminate c = false ->
  terminated (self (store sys)) = false ->
  terminated (self (store (step W sys c))) = false.
Proof.
  intros Hc Ht. destruct c as [input| | | |rid w]; cbn [step]; try discriminate.
  - rewrite settle_run_store, (run_entry W input (store sys) Ht). reflexivity.
  - rewrite method_store, (cancel_store (store sys) Ht). reflexivity.
  - rewrite method_store. destruct (store sys) as [l sg d]. exact Ht.
  - destruct (find_task rid (tasks sys)) as [p|]; [|exact Ht].
    destruct (run_resume W p w) as [m|] eqn:E; [|exact Ht].
    rewrite settle_run_store.
    exact (keeps_run_resume (fun l => terminated l = false) W (fun l h H => H)
             p w m E (store sys) Ht).
Qed.

Lemma posts_steps (W : World) (cs : list Call) :
  forall sys,
    posts (segments (steps W sys cs)) <= posts (segments sys) + length (filter is_run cs)
    /\ (terminated (self (store sys)) = false ->
        existsb is_terminate cs = false ->
        posts (segments (steps W sys cs))
        = posts (segments sys) + length (filter is_run cs)).
Proof.
  induction cs as [|c cs IH]; intros sys.
  - unfold steps. cbn [fold_left filter length]. split; [lia|]. intros _ _. lia.
  - destruct (IH (step W sys c)) as [IH1 IH2].
    change (steps W sys (c :: cs)) with (steps W (step W sys c) cs).
    cbn [filter existsb].
    rewrite (posts_step W sys c) in IH1, IH2. split.
    + destruct (is_run c); cbn [andb length] in *;
        destruct (negb (terminated (self (store sys)))); lia.
    + intros Ht Hc. apply orb_false_iff in Hc as [Hc1 Hc2].
      rewrite Ht in IH2. cbn [negb] in IH2. rewrite andb_true_r in IH2.
      rewrite (IH2 (not_terminated_step W sys c Hc1 Ht) Hc2).
      destruct (is_run c); cbn [length]; lia.
Qed.


(** ** Stopping a tool that runs *)

Lemma well_formed_step (W : World) (sys : Sys) (c : Call) :
  well_formed (store sys) -> well_formed (store (step W sys c)).
Proof.
  intros H. destruct c as [input| | | |rid w]; cbn [step].
  - rewrite settle_run_store.
    destruct (terminated (self (store sys))) eqn:Ht.
    + rewrite (run_terminated W input (store sys) Ht). exact H.
    + rewrite (run_entry W input (store sys) Ht). destruct H as [H1 H2]. split.
      * intros n [= <-]. cbn. rewrite length_app. simpl. lia.
      * intros _. exact (H2 Ht).
  - rewrite method_store.
    destruct (terminated (self (store sys))) eqn:Ht.
    + rewrite (cancel_terminated (store sys) Ht). exact H.
    + rewrite (cancel_store (store sys) Ht). destruct H as [H1 H2]. split.
      * intros n [= <-]. cbn. rewrite length_app, length_after_abort. simpl. lia.
      * intros _. exact (H2 Ht).
  - rewrite method_store.
    destruct (terminated (self (store sys))) eqn:Ht.
    + rewrite (terminate_terminated (store sys) Ht). exact H.
    + rewrite (terminate_store (store sys) Ht). destruct H as [H1 H2]. split.
      * cbn. intros n Hn. destruct (hardAbort (self (store sys)));
          rewrite ?length_after_abort; now apply H1.
      * intros Hf. discriminate Hf.
  - rewrite method_store. destruct (store sys) as [l sg d]. exact H.
  - destruct (find_task rid (tasks sys)) as [p|]; [|exact H].
    destruct (run_resume W p w) as [m|] eqn:E; [|exact H].
    rewrite settle_run_store.
    pose proof (same_run_resume W p w m E (store sys)) as Hs.
    pose proof (keeps_run_resume
                  (fun l => execAbortController l = execAbortController (self (store sys))
                            /\ terminated l = terminated (self (store sys))
                            /\ hardAbort l = hardAbort (self (store sys)))
                  W (fun l h H => H) p w m E (store sys)
                  (conj eq_refl (conj eq_refl eq_refl))) as (Hc & Ht & Hh).
    unfold well_formed. rewrite Hs, Hc, Ht, Hh. exact H.
Qed.

Lemma well_formed_steps (W : World) (cs : list Call) :
  forall sys, well_formed (store sys) -> well_formed (store (steps W sys cs)).
Proof.
  induction cs as [|c cs IH]; intros sys H; simpl; [exact H|].
  apply IH. now apply well_formed_step.
Qed.

Lemma well_formed_new_loop (W : World) (m : text) (i : option text) (sid : text) :
  well_formed (store (new_loop W m i sid)).
Proof.
  unfold new_loop, constructor. unfold_methods.
  destruct (truthy sid); cbn; split; intros; try discriminate; reflexivity.
Qed.

Lemma fired_means_aborted_step (W : World) (sys : Sys) (c : Call) :
  well_formed (store sys) ->
  fired_means_aborted (store sys) -> fired_means_aborted (store (step W sys c)).
Proof.
  intros [Hwf1 Hwf2] H. destruct c as [input| | | |rid w]; cbn [step].
  - rewrite settle_run_store.
    destruct (terminated (self (store sys))) eqn:Ht.
    + rewrite run_terminated by exact Ht. exact H.
    + rewrite (run_entry W input (store sys) Ht). intros Hf. cbn in Hf.
      rewrite (Hwf2 eq_refl) in Hf. discriminate.
  - rewrite method_store.
    destruct (terminated (self (store sys))) eqn:Ht.
    + rewrite cancel_terminated by exact Ht. exact H.
    + rewrite cancel_store by exact Ht. intros Hf. cbn in Hf.
      rewrite (Hwf2 eq_refl) in Hf. discriminate.
  - rewrite method_store.
    destruct (terminated (self (store sys))) eqn:Ht.
    + rewrite terminate_terminated by exact Ht. exact H.
    + rewrite terminate_store by exact Ht. intros _ n Hn. cbn in Hn.
      unfold aborted. cbn. rewrite (Hwf2 eq_refl), Hn. cbn [after_abort].
      apply nth_set_flag_same. now apply Hwf1.
  - rewrite method_store. destruct (store sys) as [l sg d]. exact H.
  - destruct (find_task rid (tasks sys)) as [p|]; [|exact H].
    destruct (run_resume W p w) as [m|] eqn:E; [|exact H].
    rewrite settle_run_store.
    pose proof (same_run_resume W p w m E (store sys)) as Hs.
    pose proof (keeps_run_resume
                  (fun l => hardAbort l = hardAbort (self (store sys))
                            /\ execAbortController l = execAbortController (self (store sys)))
                  W (fun l h H => H) p w m E (store sys) (conj eq_refl eq_refl)) as [Hh Hc].
    unfold fired_means_aborted, aborted in *. rewrite Hs, Hh, Hc. exact H.
Qed.

Lemma history_invariants (W : World) (m : text) (i : option text) (sid : text)
    (cs : list Call) :
  let st := store (steps W (new_loop W m i sid) cs) in
  well_formed st /\ terminated_means_stopped (self st) /\ fired_means_aborted st.
Proof.
  assert (H0 : let st := store (new_loop W m i sid) in
               well_formed st /\ terminated_means_stopped (self st)
               /\ fired_means_aborted st).
  { split; [apply well_formed_new_loop|].
    unfold new_loop, constructor. unfold_methods.
    destruct (truthy sid); cbn; split; intros Hf; discriminate Hf. }
  revert H0. generalize (new_loop W m i sid). 
  induction cs as [|c cs IH]; intros sys H; [exact H|].
  change (steps W sys (c :: cs)) with (steps W (step W sys c) cs).
  apply IH. destruct H as (H1 & H2 & H3). split; [|split].
  - now apply well_formed_step.
  - now apply terminated_means_stopped_step.
  - now apply fired_means_aborted_step.
Qed.

Lemma has_controller_after_run (W : World) (sys : Sys) (input : list ResponseItem) :
  terminated_means_stopped (self (store sys)) ->
  has_controller (store (step W sys (CallRun input))).
Proof.
  intros HT. cbn [step]. rewrite settle_run_store.
  destruct (terminated (self (store sys))) eqn:Ht.
  - rewrite run_terminated by exact Ht. intros Hf. cbn in Hf.
    rewrite (HT Ht) in Hf. discriminate.
  - rewrite (run_entry W input (store sys) Ht). intros _. cbn. eauto.
Qed.

Lemma no_tool_in (seg : Segment) (recent : list Segment) (st : Store) :
  (forall args sig, ~ In (HandleExecCommand args sig) (seg_events seg)) ->
  tools_tracked st recent -> tools_tracked st (recent ++ [seg]).
Proof.
  intros Hno H sig (s & args & Hin & Hev).
  apply in_app_or in Hin as [Hin|[<-|[]]].
  - apply H. exists s, args. auto.
  - exfalso. eapply Hno. exact Hev.
Qed.

(** One call other than [run]. *)
Lemma tracked_step (W : World) (sys : Sys) (c : Call) (recent : list Segment) :
  is_run c = false ->
  well_formed (store sys) ->
  has_controller (store sys) ->
  tools_tracked (store sys) recent ->
  exists new,
    segments (step W sys c) = segments sys ++ new
    /\ has_controller (store (step W sys c))
    /\ tools_tracked (store (step W sys c)) (recent ++ new).
Proof.
  intros Hc [Hwf1 Hwf2] Hctl Htr.
  destruct c as [input| | | |rid w]; cbn [is_run] in Hc; try discriminate; cbn [step].
  - (* cancel *)
    destruct (method_segments sys cancel) as (seg & Hseg & Hev).
    exists [seg]. split; [exact Hseg|]. rewrite method_store.
    destruct (terminated (self (store sys))) eqn:Ht.
    + rewrite cancel_terminated in * by exact Ht. cbn [fst snd] in *.
      split; [exact Hctl|]. apply no_tool_in; [|exact Htr].
      intros args sig. rewrite Hev. intros [].
    + rewrite cancel_store in * by exact Ht. cbn [fst snd] in *. split.
      * intros _. cbn. eauto.
      * apply no_tool_in; [intros args sig; rewrite Hev; intros [[=]|[]]|].
        intros sig Hs. destruct (Htr sig Hs) as (n & -> & Hn & Hor).
        exists n. split; [reflexivity|]. cbn [signals self execAbortController].
        rewrite length_app, length_after_abort. split; [lia|]. left.
        unfold aborted. cbn [signals]. apply nth_app_old.
        destruct Hor as [Ha|Hcur].
        -- destruct (execAbortController (self (store sys))); cbn [after_abort];
             [now apply nth_set_flag_mono|exact Ha].
        -- rewrite Hcur. cbn [after_abort]. now apply nth_set_flag_same.
  - (* terminate *)
    destruct (method_segments sys terminate) as (seg & Hseg & Hev).
    exists [seg]. split; [exact Hseg|]. rewrite method_store.
    destruct (terminated (self (store sys))) eqn:Ht.
    + rewrite terminate_terminated in * by exact Ht. cbn [fst snd] in *.
      split; [exact Hctl|]. apply no_tool_in; [|exact Htr].
      intros args sig. rewrite Hev. intros [].
    + rewrite terminate_store in * by exact Ht. cbn [fst snd] in *. split.
      * intros Hf. discriminate Hf.
      * apply no_tool_in; [intros args sig; rewrite Hev; intros []|].
        intros sig Hs. destruct (Htr sig Hs) as (n & -> & Hn & Hor).
        exists n. split; [reflexivity|]. cbn [signals self execAbortController].
        rewrite (Hwf2 eq_refl), length_after_abort. split; [exact Hn|].
        destruct Hor as [Ha|Hcur].
        -- left. unfold aborted. cbn [signals].
           destruct (execAbortController (self (store sys))); cbn [after_abort];
             [now apply nth_set_flag_mono|exact Ha].
        -- right. exact Hcur.
  - (* clear *)
    destruct (method_segments sys (clearConversationHistory W)) as (seg & Hseg & Hev).
    exists [seg]. split; [exact Hseg|]. rewrite method_store.
    revert Hev. destruct (store sys) as [l sg d] eqn:Est. unfold_methods. intros Hev.
    split; [exact Hctl|]. apply no_tool_in; [|exact Htr].
    intros args sig. rewrite Hev. intros [[=]|[]].
  - (* a wake-up *)
    destruct (find_task rid (tasks sys)) as [p|];
      [|exists []; rewrite !app_nil_r; auto].
    destruct (run_resume W p w) as [m|] eqn:E;
      [|exists []; rewrite !app_nil_r; auto].
    destruct (settle_run_segments sys rid (Some (thisGeneration (turn_of p)))
                (next_run sys) (m (store sys))) as (seg & Hseg & Hev).
    exists [seg]. split; [exact Hseg|]. rewrite settle_run_store.
    pose proof (same_run_resume W p w m E (store sys)) as Hs.
    pose proof (keeps_run_resume
                  (fun l => hardAbort l = hardAbort (self (store sys))
                            /\ execAbortController l = execAbortController (self (store sys)))
                  W (fun l h H => H) p w m E (store sys) (conj eq_refl eq_refl)) as [Hh Hx].
    split.
    + unfold has_controller. rewrite Hh, Hx. exact Hctl.
    + intros sig (s & args & Hin & Hin').
      unfold aborted. rewrite Hs, Hx.
      apply in_app_or in Hin as [Hin|[<-|[]]].
      * apply Htr. exists s, args. auto.
      * rewrite Hev in Hin'.
        pose proof (live_run_resume W (canceled (self (store sys)))
                      (hardAbort (self (store sys)))
                      (execAbortController (self (store sys))) p w m E (store sys)
                      (conj eq_refl (conj eq_refl eq_refl))) as HF.
        rewrite Forall_forall in HF. specialize (HF _ Hin'). cbn in HF.
        destruct HF as (_ & Hhf & ->).
        destruct (Hctl Hhf) as [n Hn]. exists n.
        split; [exact Hn|]. split; [now apply Hwf1|]. right. exact Hn.
Qed.

Lemma tracked_steps (W : World) (cs : list Call) :
  Forall (fun c => is_run c = false) cs ->
  forall sys recent,
    well_formed (store sys) ->
    has_controller (store sys) ->
    tools_tracked (store sys) recent ->
    exists new,
      segments (steps W sys cs) = segments sys ++ new
      /\ tools_tracked (store (steps W sys cs)) (recent ++ new).
Proof.
  induction 1 as [|c cs Hc _ IH]; intros sys recent Hwf Hctl Htr.
  - exists []. rewrite !app_nil_r. auto.
  - change (steps W sys (c :: cs)) with (steps W (step W sys c) cs).
    destruct (tracked_step W sys c recent Hc Hwf Hctl Htr) as (new1 & E1 & Hctl1 & Htr1).
    destruct (IH (step W sys c) (recent ++ new1)
                (well_formed_step W sys c Hwf) Hctl1 Htr1) as (new2 & E2 & Htr2).
    exists (new1 ++ new2). split.
    + rewrite E2, E1. symmetry. apply app_assoc.
    + now rewrite app_assoc.
Qed.

(** X18.  [cancel] and [terminate] stop the tools of the current run.
    Whatever the history of an instance: after [cancel], and also after
    [terminate], the signal of every tool that was started since the
    latest call of [run] is aborted.  (A tool started before the latest
    call of [run] is not covered: [run] replaces the controller without
    aborting it.) *)
Theorem stop_aborts_running_tool (W : World) (m : text) (i : option text)
    (sid : text) (before : list Call) (input : list ResponseItem) (after : list Call) :
  Forall (fun c => is_run c = false) after ->
  let sys0 := steps W (new_loop W m i sid) before in
  let sys := steps W sys0 (CallRun input :: after) in
  exists recent,
    segments sys = segments sys0 ++ recent
    /\ forall seg args sig,
         In seg recent -> In (HandleExecCommand args sig) (seg_events seg) ->
         exists n,
           sig = Some n
           /\ aborted (store (step W sys CallCancel)) n = true
           /\ aborted (store (step W sys CallTerminate)) n = true.
Proof.
  intros Hafter sys0 sys.
  destruct (history_invariants W m i sid before) as (Hwf0 & HT0 & _).
  fold sys0 in Hwf0, HT0.
  destruct (settle_run_segments sys0 (next_run sys0) None (S (next_run sys0))
              (run W input (store sys0))) as (seg0 & Hseg0 & Hev0).
  assert (Hno : forall args sig, ~ In (HandleExecCommand args sig) (seg_events seg0)).
  { intros args sig. rewrite Hev0.
    destruct (terminated (self (store sys0))) eqn:Ht.
    - rewrite run_terminated by exact Ht. cbn. intros [[=]|[[=]|[[=]|[]]]].
    - rewrite (run_entry W input (store sys0) Ht). cbn [snd]. intros Hin.
      apply in_app_or in Hin as [Hin|[[=]|[[=]|[]]]].
      apply in_map_iff in Hin as (x & [=] & _). }
  destruct (tracked_steps W after Hafter (step W sys0 (CallRun input)) [seg0])
    as (new & Enew & Htr).
  { now apply well_formed_step. }
  { now apply has_controller_after_run. }
  { apply (no_tool_in seg0 []); [exact Hno|]. intros sig (s & a & [] & _). }
  change (steps W (step W sys0 (CallRun input)) after) with sys in Enew, Htr.
  exists (seg0 :: new). split.
  - rewrite Enew. cbn [step]. rewrite Hseg0, <- app_assoc. reflexivity.
  - intros seg args sig Hin Hev.
    destruct (Htr sig) as (n & -> & Hn & Hor); [exists seg, args; auto|].
    exists n. split; [reflexivity|].
    destruct (history_invariants W m i sid (before ++ CallRun input :: after))
      as ((Hwf1 & Hwf2) & HT & HD).
    rewrite steps_app in Hwf1, Hwf2, HT, HD. fold sys0 in Hwf1, Hwf2, HT, HD.
    fold sys in Hwf1, Hwf2, HT, HD.
    cbn [step]. rewrite !method_store.
    destruct (terminated (self (store sys))) eqn:Ht.
    + rewrite cancel_terminated, terminate_terminated by exact Ht. cbn [fst snd].
      assert (Ha : aborted (store sys) n = true).
      { destruct Hor as [Ha|Hcur]; [exact Ha|]. apply HD; [now apply HT|exact Hcur]. }
      split; exact Ha.
    + rewrite cancel_store, terminate_store by exact Ht. cbn [fst snd].
      unfold aborted in *. cbn [signals]. rewrite (Hwf2 eq_refl). split.
      * apply nth_app_old. destruct Hor as [Ha|Hcur].
        -- destruct (execAbortController (self (store sys))); cbn [after_abort];
             [now apply nth_set_flag_mono|exact Ha].
        -- rewrite Hcur. cbn [after_abort]. now apply nth_set_flag_same.
      * destruct Hor as [Ha|Hcur].
        -- destruct (execAbortController (self (store sys))); cbn [after_abort];
             [now apply nth_set_flag_mono|exact Ha].
        -- rewrite Hcur. cbn [after_abort]. now apply nth_set_flag_same.
Qed.

Lemma stop_aborts_running_tool_witness :
  let after := [WakeUp 0 (ChatSettled (Scenario.reply (Scenario.shell_block "ls -la")))] in
  let sys := steps Scenario.world Scenario.fresh
               (CallRun [Scenario.user_says "list the files"] :: after) in
  let args := mkExecInput [Json.stringify_command [lit "ls"; lit "-la"]] None None in
  Forall (fun c => is_run c = false) after
  /\ In (HandleExecCommand args (Some 0)) (flat_map seg_events (segments sys))
  /\ aborted (store sys) 0 = false
  /\ aborted (store (step Scenario.world sys CallCancel)) 0 = true
  /\ aborted (store (step Scenario.world sys CallTerminate)) 0 = true.
Proof.
  assert (Hafter : Forall (fun c => is_run c = false)
                     [WakeUp 0 (ChatSettled
                                  (Scenario.reply (Scenario.shell_block "ls -la")))])
    by (repeat constructor).
  split; [exact Hafter|].
  split; [vm_compute; repeat (first [left; reflexivity | right])|].
  split; [reflexivity|].
  destruct (stop_aborts_running_tool Scenario.world (lit "ollama:gemma3:1b") None
              (lit "session") [] [Scenario.user_says "list the files"]
              [WakeUp 0 (ChatSettled (Scenario.reply (Scenario.shell_block "ls -la")))]
              Hafter) as (recent & Hseg & Htools).
  assert (Hlast : exists seg,
             In seg recent
             /\ In (HandleExecCommand
                      (mkExecInput [Json.stringify_command [lit "ls"; lit "-la"]] None None)
                      (Some 0)) (seg_events seg)).
  { exists (last (segments
                    (steps Scenario.world
                       (steps Scenario.world
                          (new_loop Scenario.world (lit "ollama:gemma3:1b") None
                             (lit "session")) [])
                       [CallRun [Scenario.user_says "list the files"];
                        WakeUp 0 (ChatSettled
                                    (Scenario.reply (Scenario.shell_block "ls -la")))]))
                 (mkSegment None None 0 [] None)).
    split; [|vm_compute; repeat (first [left; reflexivity | right])].
    assert (Hin : In (last (segments
                    (steps Scenario.world
                       (steps Scenario.world
                          (new_loop Scenario.world (lit "ollama:gemma3:1b") None
                             (lit "session")) [])
                       [CallRun [Scenario.user_says "list the files"];
                        WakeUp 0 (ChatSettled
                                    (Scenario.reply (Scenario.shell_block "ls -la")))]))
                 (mkSegment None None 0 [] None))
              (segments
                    (steps Scenario.world
                       (steps Scenario.world
                          (new_loop Scenario.world (lit "ollama:gemma3:1b") None
                             (lit "session")) [])
                       [CallRun [Scenario.user_says "list the files"];
                        WakeUp 0 (ChatSettled
                                    (Scenario.reply (Scenario.shell_block "ls -la")))])))
      by (vm_compute; repeat (first [left; reflexivity | right])).
    rewrite Hseg in Hin at 2. apply in_app_or in Hin as [Hin|Hin]; [|exact Hin].
    vm_compute in Hin. destruct Hin as [Hin|[]]. discriminate Hin. }
  destruct Hlast as (seg & Hin & Hev).
  destruct (Htools seg _ _ Hin Hev) as (n & [= <-] & H1 & H2).
  split; assumption.
Defined.

(** The limit of the property: a tool that run A has started goes on
    with a signal that is not aborted when [cancel] or [terminate] is
    called after [run(B)]. *)
Example tool_of_earlier_run_is_not_stopped :
  let sys := steps Scenario.world Scenario.fresh
               [CallRun [Scenario.user_says "A"];
                WakeUp 0 (ChatSettled (Scenario.reply (Scenario.shell_block "ls -la")));
                CallRun [Scenario.user_says "B"]] in
  let args := mkExecInput [Json.stringify_command [lit "ls"; lit "-la"]] None None in
  In (HandleExecCommand args (Some 0)) (flat_map seg_events (segments sys))
  /\ aborted (store (step Scenario.world sys CallCancel)) 0 = false
  /\ aborted (store (step Scenario.world sys CallTerminate)) 0 = false.
Proof.
  split; [vm_compute; repeat (first [left; reflexivity | right])|]. split; reflexivity.
Qed.

(** ** The name of the model and the messages of a request *)

Lemma extract_format (n : text) :
  extractOllamaModelName (formatOllamaModelName n) = Some n.
Proof. destruct n; reflexivity. Qed.

Lemma strip_unprefixed (n : text) :
  isOllamaModel n = false -> or_else (extractOllamaModelName n) n = n.
Proof.
  unfold extractOllamaModelName, isOllamaModel. now intros ->.
Qed.



(** X20.  What [convertResponseItemsToOllamaMessages] sends: the conversion
    goes item by item (the messages of two inputs are those of the first
    followed by those of the second), an item gives at most one message,
    and a message with an empty content can only be the empty output of a
    tool, sent with the role [system]. *)
Theorem converted_messages (a b : list ResponseItem) :
  convertResponseItemsToOllamaMessages (a ++ b)
  = convertResponseItemsToOllamaMessages a ++ convertResponseItemsToOllamaMessages b
  /\ length (convertResponseItemsToOllamaMessages a) <= length a
  /\ Forall (fun m => content m = [] ->
                      role m = system /\ exists id, In (FunctionCallOutput id []) a)
       (convertResponseItemsToOllamaMessages a).
Proof.
  split; [|split].
  - induction a as [|item a IH]; [reflexivity|].
    cbn [app convertResponseItemsToOllamaMessages].
    destruct item as [id r parts|call|id o|id d c|]; rewrite IH; try reflexivity.
    destruct (truthy (concat_text_parts parts)); reflexivity.
  - induction a as [|item a IH]; [apply Nat.le_refl|].
    cbn [convertResponseItemsToOllamaMessages length].
    destruct item as [id r parts|call|id o|id d c|]; cbn [length]; try lia.
    destruct (truthy (concat_text_parts parts)); cbn [length]; lia.
  - induction a as [|item a IH]; [constructor|].
    assert (IH' : Forall (fun m => content m = [] ->
                            role m = system
                            /\ exists id, In (FunctionCallOutput id []) (item :: a))
                    (convertResponseItemsToOllamaMessages a)).
    { eapply Forall_impl; [|exact IH]. intros m Hm Hc.
      destruct (Hm Hc) as [Hr [id Hin]]. split; [exact Hr|]. exists id. now right. }
    cbn [convertResponseItemsToOllamaMessages].
    destruct item as [id r parts|call|id o|id d c|]; try exact IH'.
    + destruct (concat_text_parts parts) as [|c t] eqn:E; cbn [truthy]; [exact IH'|].
      constructor; [|exact IH']. cbn [content]. discriminate.
    + constructor; [|exact IH']. cbn [content role]. intros ->.
      split; [reflexivity|]. exists id. now left.
Qed.

(** ** A fenced patch block *)

Lemma shell_match_backticks (s : text) (m : nat * Regex.Caps) :
  Regex.match_here shellCommandRegex s = Some m -> 6 <= backticks s.
Proof.
  unfold Regex.match_here.
  change shellCommandRegex with
    (Regex.Cat (Regex.Lit fence)
       (Regex.seq
          ([Regex.Alt (Regex.Lit (lit "bash")) (Regex.Lit (lit "sh"));
            Regex.ws; Regex.Lit nl;
            Regex.Grp 1 (Regex.StarL Regex.any)] ++ [Regex.Lit (nl ++ fence)]))).
  cbn [Regex.run].
  destruct (Regex.strip_prefix fence s) as [s1|] eqn:E; [|discriminate].
  apply strip_prefix_some in E. subst s. intros H.
  apply seq_ends_with in H as (a & b & ->).
  rewrite !backticks_app.
  change (backticks fence) with 3. change (backticks nl) with 0. lia.
Qed.

(** After the opening of a patch block [applyPatchRegex] goes on from
    its group. *)
Lemma patch_open_runs (s : text) (x : nat * Regex.Caps) :
  Regex.run patch_rest s 32 Regex.no_caps at_end = Some x ->
  Regex.match_here applyPatchRegex (patch_open ++ s) = Some x.
Proof. intros H. cbv in H. cbv. now rewrite H. Qed.

(** The lazy group stops at the first double quote: the patch, when it
    holds none. *)
Lemma patch_rest_matches (p post : text) :
  without 34%N p ->
  Regex.run patch_rest (p ++ patch_close ++ post) 32 Regex.no_caps at_end
  = Some (32 + length p + 7, Regex.mkCaps (Some (32, 32 + length p)) None).
Proof.
  intros Hp. unfold patch_rest. cbn [Regex.seq fold_right Regex.run].
  rewrite star_lazy_skip.
  - apply star_lazy_stop. unfold patch_close, at_end. cbn.
    apply f_equal. apply f_equal2; [lia|reflexivity].
  - apply any_everywhere.
  - intros b1 [|d b2] -> Hn; [congruence|].
    apply without_app in Hp as [_ Hp]. inversion Hp; subst.
    cbn [app]. unfold Json.dq. now rewrite strip_prefix_head.
Qed.

Lemma patch_block_length (p : text) :
  length (patch_block_of p) = 32 + length p + 7.
Proof.
  unfold patch_block_of. rewrite !length_app. simpl. lia.
Qed.

(** [applyPatchRegex] matches a patch block at its place, with the patch
    as its group. *)
Lemma patch_match (p post : text) :
  without 34%N p ->
  Regex.match_here applyPatchRegex (patch_block_of p ++ post)
  = Some (length (patch_block_of p),
          Regex.mkCaps (Some (32, 32 + length p)) None).
Proof.
  intros Hp. rewrite patch_block_length.
  change (patch_block_of p) with (patch_open ++ p ++ patch_close).
  rewrite <- !app_assoc. apply patch_open_runs.
  now apply patch_rest_matches.
Qed.

(** Writing the line feeds out does not empty a patch. *)
Lemma unescape_not_empty (p : text) : p <> [] -> unescape_newlines p <> [].
Proof.
  destruct p as [|c [|d p]]; simpl; [congruence|discriminate|].
  destruct (_ && _); discriminate.
Qed.

(** The one match of [applyPatchRegex] in a reply with one patch block. *)
Lemma patch_block_matches (pre p post : text) :
  without 96%N pre -> without 34%N p -> without 96%N post ->
  Regex.exec_all applyPatchRegex (pre ++ patch_block_of p ++ post)
  = [Regex.mkMatch (length pre) (patch_block_of p) (Some p) None].
Proof.
  intros Hpre Hp Hpost.
  pose proof (search_at 96%N ([96%N; 96%N] ++ lit "json")
                (Regex.seq
                   [Regex.ws;
                    Regex.Lit (lit "{"); Regex.ws;
                    Regex.Lit (Json.dq ++ lit "cmd" ++ Json.dq); Regex.ws;
                    Regex.Lit (lit ":"); Regex.ws;
                    Regex.Lit (lit "["); Regex.ws;
                    Regex.Lit (Json.dq ++ lit "apply_patch" ++ Json.dq); Regex.ws;
                    Regex.Lit (lit ","); Regex.ws;
                    Regex.Lit Json.dq; Regex.Grp 1 (Regex.StarL Regex.any);
                    Regex.Lit Json.dq;
                    Regex.ws; Regex.Lit (lit "]"); Regex.ws;
                    Regex.Lit (lit "}"); Regex.ws; Regex.Lit fence])
                pre (patch_block_of p) post _ Hpre (patch_match p post Hp)) as Hs.
  change (Regex.Cat _ _) with applyPatchRegex in Hs.
  assert (Hg : Regex.cut (patch_block_of p ++ post) (Some (32, 32 + length p)) = Some p).
  { cbn [Regex.cut]. f_equal. unfold substring.
    change (patch_block_of p) with (patch_open ++ p ++ patch_close).
    rewrite <- !app_assoc.
    change (skipn 32 (patch_open ++ p ++ patch_close ++ post))
      with (p ++ patch_close ++ post).
    replace (32 + length p - 32) with (length p) by lia.
    apply firstn_length_app. }
  cbn [Regex.cap1 Regex.cap2] in Hs. rewrite Hg in Hs. cbn [Regex.cut] in Hs.
  apply exec_all_one.
  - unfold patch_block_of, fence. destruct pre; discriminate.
  - unfold Regex.exec. cbn [Nat.ltb Nat.leb skipn]. exact Hs.
  - cbn [Regex.index Regex.whole]. unfold Regex.exec.
    replace (length (pre ++ patch_block_of p ++ post)
             <? length pre + length (patch_block_of p)) with false
      by (symmetry; apply Nat.ltb_ge; rewrite !length_app; lia).
    rewrite Nat.add_comm, <- skipn_skipn, !skipn_length_app.
    unfold applyPatchRegex.
    cbn [Regex.seq fold_right fence lit app list_ascii_of_string List.map N_of_ascii].
    now apply (search_without 96%N).
Qed.

(** [shellCommandRegex] finds nothing in such a reply. *)
Lemma no_shell_in_patch_block (pre p post : text) :
  without 96%N pre -> without 96%N p -> without 96%N post ->
  Regex.exec_all shellCommandRegex (pre ++ patch_block_of p ++ post) = [].
Proof.
  intros Hpre Hp Hpost. unfold Regex.exec_all. cbn [Regex.exec_while].
  unfold Regex.exec. cbn [Nat.ltb Nat.leb skipn].
  assert (E : Regex.search shellCommandRegex (pre ++ patch_block_of p ++ post) 0 = None);
    [|now rewrite E].
  pose proof (search_skip 96%N [96%N; 96%N]
                (Regex.seq [Regex.Alt (Regex.Lit (lit "bash")) (Regex.Lit (lit "sh"));
                            Regex.ws; Regex.Lit nl;
                            Regex.Grp 1 (Regex.StarL Regex.any);
                            Regex.Lit (nl ++ fence)])
                pre (patch_block_of p ++ post) Hpre 0) as Hs.
  change (Regex.Cat _ _) with shellCommandRegex in Hs. rewrite Hs. clear Hs.
  change (patch_block_of p ++ post)
    with (96%N :: (skipn 1 patch_open ++ p ++ patch_close) ++ post).
  rewrite search_cons_none.
  - apply (search_few shellCommandRegex 6 shell_match_backticks).
    rewrite !backticks_app.
    rewrite (backticks_without p Hp), (backticks_without post Hpost).
    cbn. lia.
  - reflexivity.
Qed.

(** [functionCallRegex] finds nothing in such a reply: at the block it
    stops at the blank before the comma. *)
Lemma functionCallRegex_stops_at_blank (s : text) :
  Regex.match_here functionCallRegex (patch_open ++ s) = None.
Proof. cbv. reflexivity. Qed.

Lemma no_call_in_patch_block (pre p post : text) :
  without 96%N pre -> without 96%N p -> without 96%N post ->
  Regex.search functionCallRegex (pre ++ patch_block_of p ++ post) 0 = None.
Proof.
  intros Hpre Hp Hpost.
  pose proof (search_skip 96%N ([96%N; 96%N] ++ lit "json")
                (Regex.seq
                   ([Regex.ws;
                     Regex.Lit (lit "{"); Regex.ws;
                     Regex.Lit (Json.dq ++ lit "cmd" ++ Json.dq); Regex.ws;
                     Regex.Lit (lit ":"); Regex.ws;
                     Regex.Lit (lit "["); Regex.ws;
                     Regex.Lit Json.dq; Regex.Grp 1 (Regex.PlusG not_dquote);
                     Regex.Lit Json.dq;
                     Regex.Opt (Regex.seq [Regex.Lit (lit ","); Regex.ws;
                                           Regex.Lit Json.dq;
                                           Regex.Grp 2 (Regex.PlusG not_dquote);
                                           Regex.Lit Json.dq]);
                     Regex.ws; Regex.Lit (lit "]"); Regex.ws;
                     Regex.Lit (lit "}"); Regex.ws] ++ [Regex.Lit fence]))
                pre (patch_block_of p ++ post) Hpre 0) as Hs.
  change (Regex.Cat _ _) with functionCallRegex in Hs. rewrite Hs. clear Hs.
  change (patch_block_of p ++ post)
    with (96%N :: (skipn 1 patch_open ++ p ++ patch_close) ++ post).
  rewrite search_cons_none.
  - change functionCallRegex with
      (Regex.Cat (Regex.Lit (fence ++ lit "json"))
         (Regex.seq
            ([Regex.ws;
              Regex.Lit (lit "{"); Regex.ws;
              Regex.Lit (Json.dq ++ lit "cmd" ++ Json.dq); Regex.ws;
              Regex.Lit (lit ":"); Regex.ws;
              Regex.Lit (lit "["); Regex.ws;
              Regex.Lit Json.dq; Regex.Grp 1 (Regex.PlusG not_dquote);
              Regex.Lit Json.dq;
              Regex.Opt (Regex.seq [Regex.Lit (lit ","); Regex.ws;
                                    Regex.Lit Json.dq;
                                    Regex.Grp 2 (Regex.PlusG not_dquote);
                                    Regex.Lit Json.dq]);
              Regex.ws; Regex.Lit (lit "]"); Regex.ws;
              Regex.Lit (lit "}"); Regex.ws] ++ [Regex.Lit fence]))).
    apply (search_few _ 6 (json_block_backticks _)).
    rewrite !backticks_app.
    rewrite (backticks_without p Hp), (backticks_without post Hpost).
    cbn. lia.
  - change (96%N :: (skipn 1 patch_open ++ p ++ patch_close) ++ post)
      with (patch_open ++ (p ++ patch_close) ++ post).
    apply functionCallRegex_stops_at_blank.
Qed.

Section PatchTurn.
Variable W : World.
Variables pre p post : text.
Variable response : OllamaChatCompletionResponse.

Hypothesis reply_text : content (message response) = pre ++ patch_block_of p ++ post.
Hypothesis pre_ok : without 96%N pre.
Hypothesis p_ok : without 96%N p.
Hypothesis p_plain : without 34%N p.
Hypothesis post_ok : without 96%N post.
Hypothesis no_think : without 60%N (content (message response)).
Hypothesis p_not_empty : p <> [].

Lemma convert_patch_reply (start : Z) (st : Store) :
  convertOllamaResponseToResponseItem W response start st
  = (Normal [Message
               (Some (lit "ollama-" ++ dec_Z (date_now W (draws st)) ++ lit "-"
                      ++ substring 2 9 (math_random_base36 W (S (draws st)))))
               assistant [mkPart output_text (content (message response))]],
     tick (tick st), []).
Proof.
  unfold convertOllamaResponseToResponseItem, extractThinkingContent.
  assert (Ht : Regex.search thinkRegex (content (message response)) 0 = None).
  { unfold thinkRegex. cbn [Regex.seq fold_right lit app
      list_ascii_of_string List.map N_of_ascii].
    now apply (search_without 60%N). }
  rewrite Ht.
  assert (Hf : Regex.search functionCallRegex (content (message response)) 0 = None)
    by (rewrite reply_text; now apply no_call_in_patch_block).
  rewrite Hf. unfold_methods. reflexivity.
Qed.

Lemma parse_patch_reply (st : Store) :
  let id := lit "ollama-patch-" ++ dec_Z (date_now W (draws st)) ++ lit "-"
            ++ substring 2 9 (math_random_base36 W (S (draws st))) in
  parseFunctionCalls W (content (message response)) st
  = (Normal [scanner_patch_call id (unescape_newlines p)], tick (tick st), []).
Proof.
  intros id. rewrite reply_text.
  unfold parseFunctionCalls, parseFunctionCalls_located.
  rewrite (no_shell_in_patch_block pre p post pre_ok p_ok post_ok).
  rewrite (patch_block_matches pre p post pre_ok p_plain post_ok).
  cbn [shell_calls patch_calls Regex.group1 group_or_empty].
  pose proof (unescape_not_empty p p_not_empty) as Hu.
  destruct (unescape_newlines p) as [|d t] eqn:E; [congruence|].
  cbn [truthy]. destruct st as [l sg n]. unfold_methods. reflexivity.
Qed.

Lemma patch_reply_not_empty : truthy (content (message response)) = true.
Proof. rewrite reply_text. destruct pre; reflexivity. Qed.

(** The piece that the reply wakes up: the call is answered at once, and
    no tool is started. *)
Lemma patch_reply_piece (t : Turn) (st : Store) :
  stop_requested (self st) = false ->
  let id := lit "ollama-" ++ dec_Z (date_now W (draws st)) ++ lit "-"
            ++ substring 2 9 (math_random_base36 W (1 + draws st)) in
  let cid := lit "ollama-patch-" ++ dec_Z (date_now W (2 + draws st)) ++ lit "-"
             ++ substring 2 9 (math_random_base36 W (3 + draws st)) in
  outer_try W (inner_try W (after_chat W t response)) st
  = (Await (AwaitCallInLoop t response []
              (Settled (inr
                 [FunctionCallOutput (Some cid)
                    (match parseToolCallArguments W
                             (Json.stringify_patch (unescape_newlines p)) with
                     | Some _ => lit "no function found"
                     | None => lit "invalid arguments: "
                               ++ Json.stringify_patch (unescape_newlines p)
                     end)]))),
     mkStore (self st) (signals st) (4 + draws st),
     [OnItem (Message (Some id) assistant
                [mkPart output_text (content (message response))]);
      OnItem (FunctionCall (scanner_patch_call cid (unescape_newlines p)))]).
Proof.
  intros Hs id cid.
  unfold outer_try, inner_try, after_chat.
  assert (E : forall (k : list ResponseItem -> M unit),
            bind (convertOllamaResponseToResponseItem W response (thinkingStart t)) k
                 st
            = let '(c0, st2, ev2) :=
                k [Message (Some id) assistant
                     [mkPart output_text (content (message response))]]
                  (tick (tick st)) in
              (c0, st2, ev2)).
  { intros k. unfold bind at 1. rewrite convert_patch_reply.
    destruct (k _ _) as [[c0 st2] ev2]. reflexivity. }
  unfold try_catch at 2. unfold try_finally. unfold try_catch.
  unfold bind at 1. unfold this at 1. rewrite Hs.
  rewrite E. cbn [for_each last_item].
  unfold part_has_text. cbn [part_type part_text]. rewrite patch_reply_not_empty.
  unfold bind at 1. unfold bind at 1. unfold onItem, emit, ret.
  unfold bind at 1.
  rewrite parse_patch_reply.
  cbn [dispatch_calls]. unfold stop_requested in *.
  destruct st as [l sg d]. cbn [self signals draws tick] in *.
  unfold handleFunctionCall, scanner_patch_call. unfold_methods.
  cbn [self] in *. rewrite Hs.
  apply orb_false_iff in Hs as [Hc Hh].
  cbn [self signals draws fc_function fc_name fc_arguments fc_call_id fc_id nullish_or].
  rewrite Hc.
  destruct (parseToolCallArguments W _); reflexivity.
Qed.
End PatchTurn.



(* ================================================================= *)
(** * Properties of the list of models *)

(** ** [fetchOllamaModels] *)

(** X21.  [fetchOllamaModels] never rejects: it fulfils with the names of
    the models when the answer is as typed, and with no name, having
    logged the error once, in every other case. *)
Theorem fetchOllamaModels_never_rejects (o : ModelList.TagsOutcome) :
  exists names log,
    ModelList.fetchOllamaModels o = (inr names, log)
    /\ match o with
       | ModelList.TagsJson models =>
           names = List.map ModelList.name models /\ log = []
       | _ =>
           names = []
           /\ exists e, log = [(lit "Error fetching Ollama models:", e)]
       end.
Proof.
  destruct o as [e|s|e|e|models]; eexists _, _; (split; [reflexivity|]);
    split; try reflexivity; eexists; reflexivity.
Qed.

(** ** [sort()] *)

Lemma leb_units_total (a b : text) :
  ModelList.leb_units a b = true \/ ModelList.leb_units b a = true.
Proof.
  revert b; induction a as [|c a IH]; intros [|d b]; simpl; auto.
  destruct (N.ltb c d) eqn:E1; [auto|].
  destruct (N.ltb d c) eqn:E2; [auto|].
  apply N.ltb_ge in E1. apply N.ltb_ge in E2.
  assert (c = d) by now apply N.le_antisymm.
  subst d. rewrite N.eqb_refl. apply IH.
Qed.

Lemma insert_perm (x : text) (xs : list text) :
  Permutation (ModelList.insert x xs) (x :: xs).
Proof.
  induction xs as [|y ys IH]; simpl; [apply Permutation_refl|].
  destruct (ModelList.leb_units x y); [apply Permutation_refl|].
  eapply perm_trans; [apply perm_skip, IH|apply perm_swap].
Qed.

Lemma sort_perm (xs : list text) : Permutation (ModelList.sort xs) xs.
Proof.
  induction xs as [|x xs IH]; simpl; [apply perm_nil|].
  eapply perm_trans; [apply insert_perm|]. now apply perm_skip.
Qed.

Lemma insert_sorted (x : text) (xs : list text) :
  Sorted units_le xs -> Sorted units_le (ModelList.insert x xs).
Proof.
  induction 1 as [|y ys Hs IH Hd]; simpl.
  - repeat constructor.
  - destruct (ModelList.leb_units x y) eqn:E.
    + constructor; [now constructor|]. constructor. exact E.
    + constructor; [exact IH|].
      assert (Hyx : units_le y x).
      { destruct (leb_units_total x y) as [H|H]; [congruence|exact H]. }
      destruct ys as [|z zs]; simpl; [now constructor|].
      destruct (ModelList.leb_units x z); constructor; [exact Hyx|].
      now inversion Hd.
Qed.

Lemma sort_sorted (xs : list text) : Sorted units_le (ModelList.sort xs).
Proof.
  induction xs as [|x xs IH]; simpl; [constructor|]. now apply insert_sorted.
Qed.

Lemma sort_In (xs : list text) (m : text) : In m (ModelList.sort xs) <-> In m xs.
Proof.
  split; apply Permutation_in; [apply sort_perm|apply Permutation_sym, sort_perm].
Qed.

(** ** [fetchModels] *)

Lemma push_ids_spec (entries : list (option text)) :
  forall models,
    ModelList.push_ids models entries
    = models ++ flat_map (fun y => match y with Some id => [id] | None => [] end) entries.
Proof.
  induction entries as [|[id|] entries IH]; intros models; simpl.
  - now rewrite app_nil_r.
  - rewrite IH, <- app_assoc. reflexivity.
  - apply IH.
Qed.

Lemma fetchModels_openai_spec (cfg : ModelList.Config) (openai : ModelList.OpenAIList) :
  exists log,
    ModelList.fetchModels_openai cfg openai = (listed_openai cfg openai, log)
    /\ length log <= 1.
Proof.
  unfold ModelList.fetchModels_openai, listed_openai.
  destruct (truthy (ModelList.OPENAI_API_KEY cfg)).
  - rewrite push_ids_spec. cbn [app].
    destruct (ModelList.failure openai) as [e|].
    + eexists; split; [reflexivity|simpl; lia].
    + eexists; split; [now rewrite app_nil_r|simpl; lia].
  - eexists; split; [reflexivity|simpl; lia].
Qed.

Lemma fetchModels_ollama_spec (cfg : ModelList.Config) (tags : ModelList.TagsOutcome)
    (models : list text) :
  exists log,
    ModelList.fetchModels_ollama cfg tags models
    = (models ++ listed_ollama cfg tags, log)
    /\ length log <= 1.
Proof.
  unfold ModelList.fetchModels_ollama, listed_ollama.
  destruct (ModelList.OLLAMA_ENABLED cfg).
  - destruct tags as [e|s|e|e|ms];
      cbn [ModelList.fetchOllamaModels ModelList.fetchOllamaModels_try
           ModelList.catching app List.map];
      rewrite ?List.map_map;
      (eexists; split; [reflexivity|simpl; lia]).
  - eexists; split; [now rewrite app_nil_r|simpl; lia].
Qed.

(** X22.  [fetchModels] never rejects, and its list is, in the order of the
    code units, what OpenAI lists (or the recommended models of OpenAI,
    without a key or after a failure) together with what Ollama lists,
    with the prefix.  The recommended models of Ollama are never listed
    on their own account: when Ollama is enabled and cannot be reached,
    no model of Ollama is listed. *)
Theorem fetchModels_lists (cfg : ModelList.Config) (openai : ModelList.OpenAIList)
    (tags : ModelList.TagsOutcome) :
  exists listed log,
    ModelList.fetchModels cfg openai tags = (inr listed, log)
    /\ Sorted units_le listed
    /\ Permutation listed (listed_openai cfg openai ++ listed_ollama cfg tags)
    /\ length log <= 2.
Proof.
  unfold ModelList.fetchModels.
  destruct (fetchModels_openai_spec cfg openai) as (log1 & -> & H1).
  destruct (fetchModels_ollama_spec cfg tags (listed_openai cfg openai))
    as (log2 & -> & H2).
  eexists _, _. split; [reflexivity|]. split; [apply sort_sorted|].
  split; [apply sort_perm|]. rewrite length_app. lia.
Qed.

(** ** The cache of the list *)

Lemma cache_run_filled (calls : list CacheCall) :
  forall p n,
    cache_run calls (ModelList.mkCache (Some p) n)
    = (List.map (fun _ => p) (filter is_get calls),
       ModelList.mkCache (Some p) n).
Proof.
  induction calls as [|[|] calls IH]; intros p n; simpl.
  - reflexivity.
  - apply IH.
  - rewrite IH. reflexivity.
Qed.

(** X23.  Whatever [preloadModels] and [getAvailableModels] are called, and
    in whatever order, [fetchModels] is called once, by the first of
    them, and every call of [getAvailableModels] returns the promise of
    that one call. *)
Theorem models_are_fetched_once (calls : list CacheCall) :
  let '(promises, c) := cache_run calls ModelList.no_cache in
  ModelList.fetches c = match calls with [] => 0 | _ :: _ => 1 end
  /\ Forall (fun p => p = 0) promises
  /\ length promises
     = length (filter is_get calls).
Proof.
  destruct calls as [|[|] calls]; cbn [cache_run ModelList.no_cache
    ModelList.preloadModels ModelList.getAvailableModels ModelList.modelsPromise
    ModelList.fetches snd].
  - repeat split. constructor.
  - rewrite cache_run_filled. cbn [ModelList.fetches]. repeat split.
    + apply Forall_forall. intros p Hp. apply in_map_iff in Hp as (x & <- & _).
      reflexivity.
    + apply length_map.
  - rewrite cache_run_filled. cbn [ModelList.fetches filter length]. repeat split.
    + constructor; [reflexivity|].
      apply Forall_forall. intros p Hp. apply in_map_iff in Hp as (x & <- & _).
      reflexivity.
    + now rewrite length_map.
Qed.

(** ** [isModelSupportedForResponses] *)

Lemma includes_In (xs : list text) (m : text) :
  ModelList.includes xs m = true <-> In m xs.
Proof.
  unfold ModelList.includes. rewrite existsb_exists. unfold Text.eqb. split.
  - intros (x & Hx & E). destruct (list_eq_dec N.eq_dec m x); [now subst|discriminate].
  - intros H. exists m. split; [exact H|]. now destruct (list_eq_dec N.eq_dec m m).
Qed.

Lemma includes_false (xs : list text) (m : text) :
  ModelList.includes xs m = false <-> ~ In m xs.
Proof.
  rewrite <- includes_In. destruct (ModelList.includes xs m); split; congruence.
Qed.

(** X24.  A recommended model is reported as supported without a look at
    the list, whatever the configuration: also a recommended model of
    Ollama while Ollama is disabled.  And the answer is [false] in two
    cases only: a model of Ollama while Ollama is disabled, or a list
    that has arrived in time, is not empty and does not hold the name,
    trimmed.  A timeout, a failure and an empty list all count as
    support. *)
Theorem supported_unless_known_missing (cfg : ModelList.Config) (model : option text)
    (available : JsError + list text) (in_time : bool) (c : ModelList.Cache) :
  (forall m, model = Some m -> In m ModelList.RECOMMENDED_MODELS ->
     ModelList.isModelSupportedForResponses cfg model available in_time c = (true, c))
  /\ (fst (ModelList.isModelSupportedForResponses cfg model available in_time c) = false ->
      exists m,
        model = Some m
        /\ ((isOllamaModel m = true /\ ModelList.OLLAMA_ENABLED cfg = false)
            \/ exists models,
                 in_time = true /\ available = inr models
                 /\ models <> [] /\ ~ In (trim m) models)).
Proof.
  split.
  - intros m -> Hin. unfold ModelList.isModelSupportedForResponses.
    apply includes_In in Hin. rewrite Hin. now rewrite orb_true_r.
  - unfold ModelList.isModelSupportedForResponses.
    destruct model as [m|]; [|discriminate].
    destruct (Text.eqb (trim m) [] || ModelList.includes ModelList.RECOMMENDED_MODELS m);
      [discriminate|].
    destruct (isOllamaModel m && negb (ModelList.OLLAMA_ENABLED cfg)) eqn:E.
    + intros _. exists m. split; [reflexivity|]. left.
      apply andb_true_iff in E as [E1 E2]. apply negb_true_iff in E2. auto.
    + unfold ModelList.race.
      destruct in_time; [|discriminate].
      destruct available as [e|models]; [discriminate|].
      destruct models as [|x models]; [discriminate|].
      cbn [length Nat.eqb fst]. intros H. exists m. split; [reflexivity|]. right.
      exists (x :: models). repeat split; [discriminate|].
      now apply includes_false.
Qed.

(** ** The model picker *)

Lemma filter_includes_In (models xs : list text) (m : text) :
  In m (filter (fun x => ModelList.includes models x) xs) <-> In m xs /\ In m models.
Proof. rewrite filter_In, includes_In. reflexivity. Qed.

Lemma recommendedOpenAI_plain (models : list text) :
  Forall (fun m => isOllamaModel m = false) (ModelList.recommendedOpenAI models).
Proof.
  unfold ModelList.recommendedOpenAI, ModelList.RECOMMENDED_OPENAI_MODELS.
  cbn [filter].
  destruct (ModelList.includes models (lit "o4-mini"));
    destruct (ModelList.includes models (lit "o3")); repeat constructor.
Qed.

Lemma recommendedOllama_prefixed (models : list text) :
  Forall (fun m => isOllamaModel m = true) (ModelList.recommendedOllama models).
Proof.
  unfold ModelList.recommendedOllama, ModelList.RECOMMENDED_OLLAMA_MODELS.
  cbn [filter List.map].
  destruct (ModelList.includes models (lit "ollama:" ++ lit "gemma3:1b"));
    destruct (ModelList.includes models (lit "ollama:" ++ lit "llama3:8b"));
    repeat constructor.
Qed.

Lemma sorted_filter_all (f : text -> bool) (xs : list text) :
  Forall (fun m => f m = true) (ModelList.sort (filter f xs)).
Proof.
  apply Forall_forall. intros m Hm. apply (proj1 (sort_In _ _)) in Hm.
  now apply filter_In in Hm.
Qed.

(** X25.  The picker shows every model of the list and no other, those of
    OpenAI before those of Ollama; the value of an item is the model and
    its label is the model, after a rocket for every model of Ollama and
    after a star or nothing for the others. *)
Theorem picker_shows_every_model (models : list text) :
  (forall m, In m (ModelList.ordered models) <-> In m models)
  /\ (exists openai ollama,
        ModelList.ordered models = openai ++ ollama
        /\ Forall (fun m => isOllamaModel m = false) openai
        /\ Forall (fun m => isOllamaModel m = true) ollama)
  /\ List.map snd (ModelList.items models) = ModelList.ordered models
  /\ Forall (fun item =>
               if isOllamaModel (snd item)
               then fst item = ModelList.rocket ++ snd item
               else fst item = snd item \/ fst item = ModelList.star ++ snd item)
       (ModelList.items models).
Proof.
  split; [|split; [|split]].
  - intros m. unfold ModelList.ordered. rewrite !in_app_iff, !sort_In, !filter_In.
    unfold ModelList.recommendedOpenAI at 1, ModelList.recommendedOllama at 1.
    rewrite !filter_includes_In. unfold ModelList.others. rewrite !filter_In.
    split.
    + intros [[_ H]|[[[H _] _]|[[_ H]|[[H _] _]]]]; exact H.
    + intros H.
      destruct (ModelList.includes (ModelList.recommendedOpenAI models) m) eqn:E1.
      { left. apply includes_In in E1.
        now apply filter_includes_In in E1. }
      destruct (ModelList.includes (ModelList.recommendedOllama models) m) eqn:E2.
      { right. right. left. apply includes_In in E2.
        now apply filter_includes_In in E2. }
      destruct (isOllamaModel m) eqn:E3.
      * right. right. right. repeat split; assumption.
      * right. left. repeat split; try assumption; reflexivity.
  - exists (ModelList.recommendedOpenAI models
            ++ ModelList.sort (filter (fun m => negb (isOllamaModel m))
                                 (ModelList.others models))),
           (ModelList.recommendedOllama models
            ++ ModelList.sort (filter isOllamaModel (ModelList.others models))).
    split; [unfold ModelList.ordered; now rewrite <- !app_assoc|]. split.
    + apply Forall_app. split; [apply recommendedOpenAI_plain|].
      eapply Forall_impl; [|apply sorted_filter_all]. intros m Hm.
      now apply negb_true_iff in Hm.
    + apply Forall_app. split; [apply recommendedOllama_prefixed|].
      apply sorted_filter_all.
  - unfold ModelList.items. rewrite List.map_map. cbn [snd]. apply map_id.
  - unfold ModelList.items. apply Forall_forall. intros item Hin.
    apply in_map_iff in Hin as (m & <- & _). cbn [fst snd].
    unfold ModelList.getModelLabel.
    destruct (ModelList.includes (ModelList.recommendedOpenAI models) m) eqn:E1.
    { apply includes_In in E1.
      pose proof (recommendedOpenAI_plain models) as Hp.
      rewrite Forall_forall in Hp. rewrite (Hp _ E1). now right. }
    destruct (ModelList.includes (ModelList.recommendedOllama models) m) eqn:E2.
    { apply includes_In in E2.
      pose proof (recommendedOllama_prefixed models) as Hp.
      rewrite Forall_forall in Hp. now rewrite (Hp _ E2). }
    destruct (isOllamaModel m); [reflexivity|now left].
Qed.

(** ** The base command *)

Lemma split_on_word (sep : unit16) (word : text) :
  Forall (fun d => d <> sep) word ->
  split_on sep word = [word]
  /\ forall after, split_on sep (word ++ sep :: after) = word :: split_on sep after.
Proof.
  induction 1 as [|c word Hc Hw [IH1 IH2]]; split; simpl.
  - reflexivity.
  - intros after. now rewrite N.eqb_refl.
  - apply N.eqb_neq in Hc. now rewrite Hc, IH1.
  - intros after. apply N.eqb_neq in Hc. now rewrite Hc, IH2.
Qed.

(** X26.  [getBaseCmd] never returns the empty string, whatever
    [formatCommandForDisplay] answers and also for an empty command; and
    when the formatted command is a word, or a word and then a space, the
    base command is that word. *)
Theorem getBaseCmd_is_a_word (fmt : list text -> text) (cmd : list text) :
  Exec.getBaseCmd fmt cmd <> []
  /\ forall word after,
       word <> [] -> Forall (fun d => d <> 32%N) word ->
       fmt cmd = word \/ fmt cmd = word ++ 32%N :: after ->
       Exec.getBaseCmd fmt cmd = word.
Proof.
  unfold Exec.getBaseCmd. split.
  - destruct (Exec.first_of (split_on 32%N (fmt cmd))) as [[|c t]|];
      cbn [Exec.or_string]; try discriminate;
      destruct (Exec.first_of cmd) as [[|c' t']|]; discriminate.
  - intros word after Hne Hw [E|E]; rewrite E;
      destruct (split_on_word 32%N word Hw) as [H1 H2].
    + rewrite H1. destruct word; [congruence|reflexivity].
    + rewrite H2. destruct word; [congruence|reflexivity].
Qed.
